(** * The truncated matrix-Fourier transform over Z/(2^N+1)

    A shallow embedding of the transform layer found in
    [src/mpc/src/abs.c]: [fft_butterfly_twiddle], [fft_radix2_twiddle],
    [fft_truncate1_twiddle], [fft_mfa_truncate_sqrt2] and
    [fft_mfa_truncate_sqrt2_outer].

    Modelling conventions.
    - A coefficient buffer is identified by its address ([ptr]); the heap
      [mem] maps addresses to coefficient values.  The signal [ii] is an
      array of pointers and [*t1], [*t2], [*temp] are pointer variables of
      the caller: all of them are _locations_ ([loc]) that hold an address.
      Two locations holding the same address alias the same buffer.
    - [SWAP_PTRS] exchanges the addresses held by two locations.
    - The pointer argument [ii + k] of the C functions is passed as the
      offset [k] into the caller's array.
    - Sizes ([mp_size_t], [mp_bitcnt_t]) are mathematical integers.  The C
      code agrees with them as long as no size is negative and no product
      leaves the word: a negative [mp_size_t] product passed as a
      [mp_bitcnt_t] wraps around in C and does not here.  The theorems that
      state the value of a bit exponent carry this range as a hypothesis
      ([twiddle_range], or bounds on the exponents); [n1 = 0], where the C
      code divides by zero, is outside the valid parameters [mfa_valid].
    - A C call that never returns has the result [None].  The recursive
      functions halve [n] and stop at [n = 1]; their recursion is driven by a
      counter that starts at [n] and runs out only when the C recursion does
      not end.  The strided loops are driven in the same way.
    - The word-level primitives, the plain butterflies and the adjusts are
      absent from the sources: they are the fields of the class [Primitives],
      pure functions from the coefficients a call reads to the coefficients it
      writes, and every theorem holds for all of them. *)

From Stdlib Require Import ZArith List Lia Bool Permutation.
Import ListNotations.
Open Scope Z_scope.

Ltac zlia := Z.div_mod_to_equations; lia.

(* [H : Some a = Some b] with [b] a variable: replace [b] by [a] as it is
   written. *)
Ltac some_inv H :=
  match type of H with
  | Some ?a = Some ?b =>
      let E := fresh "E" in
      assert (E : b = a) by (injection H; intros HH; symmetry; exact HH);
      subst b; clear H
  end.

(** ** Locations and addresses *)

Definition ptr := Z.

Inductive loc : Type :=
| ii (k : Z)      (* the slot [ii[k]] of the signal *)
| t1              (* the caller's variable [*t1] *)
| t2              (* the caller's variable [*t2] *)
| temp.           (* the caller's variable [*temp] *)

Definition loc_eqb (x y : loc) : bool :=
  match x, y with
  | ii a, ii b => a =? b
  | t1, t1 | t2, t2 | temp, temp => true
  | _, _ => false
  end.

(** ** A free coefficient algebra

    Every primitive is an uninterpreted constructor: two coefficients are
    equal only when they were computed by the same calls on the same inputs.
    It is used to evaluate the transforms on concrete signals. *)

Module Sym.

Inductive term : Type :=
| Init (p : Z)
| Add (a b : term) (n : Z)
| Neg (a : term) (n : Z)
| Mul2exp (a : term) (limbs d : Z)
| LshB1 (a b : term) (limbs x y : Z)
| LshB2 (a b : term) (limbs x y : Z)
| Bfly1 (a b : term) (i limbs w : Z)
| Bfly2 (a b : term) (i limbs w : Z)
| BflyS1 (a b : term) (i limbs w : Z)
| BflyS2 (a b : term) (i limbs w : Z)
| BflyST (a b : term) (i limbs w : Z) (t : term)
| Adj (a : term) (i limbs w : Z)
| AdjS (a : term) (i limbs w : Z)
| AdjST (a : term) (i limbs w : Z) (t : term).

End Sym.

(** ** The external primitives *)

Class Primitives (coeff : Type) : Type := {
  (* flint.h: the number of bits of a limb *)
  FLINT_BITS : Z;
  (* mpn_add_n(rp, s1, s2, n): rp = s1 + s2 on n limbs *)
  mpn_add_n : coeff -> coeff -> Z -> coeff;
  (* mpn_neg_n(rp, sp, n): rp = -sp on n limbs *)
  mpn_neg_n : coeff -> Z -> coeff;
  (* mpn_mul_2expmod_2expp1(t, i1, limbs, d): t = i1 * 2^d *)
  mpn_mul_2expmod_2expp1 : coeff -> Z -> Z -> coeff;
  (* butterfly_lshB(t, u, i1, i2, limbs, x, y): the pair (t, u) *)
  butterfly_lshB : coeff -> coeff -> Z -> Z -> Z -> coeff * coeff;
  (* fft_butterfly(s, t, i1, i2, i, limbs, w): the pair (s, t) *)
  fft_butterfly : coeff -> coeff -> Z -> Z -> Z -> coeff * coeff;
  (* fft_butterfly_sqrt2(s, t, i1, i2, i, limbs, w, temp): the pair (s, t),
     and what is left in temp *)
  fft_butterfly_sqrt2 : coeff -> coeff -> Z -> Z -> Z -> coeff * coeff;
  fft_butterfly_sqrt2_temp : coeff -> coeff -> Z -> Z -> Z -> coeff -> coeff;
  (* fft_adjust(r, i1, i, limbs, w): r *)
  fft_adjust : coeff -> Z -> Z -> Z -> coeff;
  (* fft_adjust_sqrt2(r, i1, i, limbs, w, temp): r, and what is left in temp *)
  fft_adjust_sqrt2 : coeff -> Z -> Z -> Z -> coeff;
  fft_adjust_sqrt2_temp : coeff -> Z -> Z -> Z -> coeff -> coeff
}.

#[export] Instance sym_primitives : Primitives Sym.term := {|
  FLINT_BITS := 64;
  mpn_add_n := Sym.Add;
  mpn_neg_n := Sym.Neg;
  mpn_mul_2expmod_2expp1 := Sym.Mul2exp;
  butterfly_lshB := fun a b limbs x y => (Sym.LshB1 a b limbs x y, Sym.LshB2 a b limbs x y);
  fft_butterfly := fun a b i limbs w => (Sym.Bfly1 a b i limbs w, Sym.Bfly2 a b i limbs w);
  fft_butterfly_sqrt2 := fun a b i limbs w => (Sym.BflyS1 a b i limbs w, Sym.BflyS2 a b i limbs w);
  fft_butterfly_sqrt2_temp := Sym.BflyST;
  fft_adjust := Sym.Adj;
  fft_adjust_sqrt2 := Sym.AdjS;
  fft_adjust_sqrt2_temp := Sym.AdjST
|}.

(** An instance over [Z], where a coefficient is the integer it stands for
    and the three word-level primitives of [fft_butterfly_twiddle] compute
    exactly; it is used to run the twiddled butterfly on numbers. *)
Definition exact_primitives : Primitives Z := {|
  FLINT_BITS := 64;
  mpn_add_n := fun a b _ => a + b;
  mpn_neg_n := fun a _ => - a;
  mpn_mul_2expmod_2expp1 := fun a _ d => a * 2 ^ d;
  butterfly_lshB := fun a b _ x y => ((a + b) * 2 ^ (x * 64), (a - b) * 2 ^ (y * 64));
  fft_butterfly := fun a b i _ w => (a + b, (a - b) * 2 ^ (i * w));
  fft_butterfly_sqrt2 := fun a b _ _ _ => (a + b, a - b);
  fft_butterfly_sqrt2_temp := fun _ _ _ _ _ t => t;
  fft_adjust := fun a i _ w => a * 2 ^ (i * w);
  fft_adjust_sqrt2 := fun a _ _ _ => a;
  fft_adjust_sqrt2_temp := fun _ _ _ _ t => t
|}.

(** Modelled from the spec: the bit-index reversal function over a given
    number of low bits ([n_revbin] of ulong_extras, absent from the sources):
    bit [k] of the result is bit [b - 1 - k] of [j], for [k < b]. *)
Fixpoint revbin_nat (b : nat) (j : Z) : Z :=
  match b with
  | O => 0
  | S b' => (j mod 2) * 2 ^ Z.of_nat b' + revbin_nat b' (j / 2)
  end.

Definition n_revbin (j bits : Z) : Z := revbin_nat (Z.to_nat bits) j.

(** The loops [while ((UWORD(1) << depth) < n2) depth++;]. *)
Fixpoint depth_loop (k : nat) (depth n2 : Z) : Z :=
  match k with
  | O => depth
  | S k' => if Z.shiftl 1 depth <? n2 then depth_loop k' (depth + 1) n2 else depth
  end.

Definition depth_of (n2 : Z) : Z := depth_loop (Z.to_nat n2) 0 n2.

(** The buffers of the signal and of the scratch variables in the concrete
    runs: slot [ii[k]] owns the buffer [k]. *)
Definition init_ptrs (l : loc) : ptr :=
  match l with
  | ii k => k
  | t1 => -1
  | t2 => -2
  | temp => -3
  end.

(** * The prime sieve of sr1sieve: [setup_sieve] and the marking loops

    A shallow embedding of [setup_sieve] of
    [src/sr1sieve_1.4.6/primes.c] (lines 155-194), which prepares the table
    of the next composites before a block of candidates is sieved, of the
    loops of [prime_sieve] (lines 287-297) and of [prime_sieve_gfn] (lines
    416-426) that mark the composites of a block, and of the start of the
    first block of [prime_sieve_gfn] (lines 401-405).

    - The static variables of primes.c are the fields of [sieve_globals]; the
      two tables are functions of the index.
    - [uint32_t] and [uint64_t] arithmetic wraps around, as written out by
      [uint32] and [uint64]; the width of [uint_fast32_t] is the parameter
      [UINT_FAST32_BIT].  [y] is an [int] with [0 <= y <= 30], where
      [1 << y] does not overflow.
    - A loop with an exit in its body is run by [loop_until], whose bound is
      the number of states of the loop variable: the bound is reached only
      when the C loop does not end, and the call has the result [None]. *)

Record sieve_globals : Type := mkGlobals {
  prime_table : Z -> Z;            (* static uint32_t *prime_table *)
  primes_in_prime_table : Z;       (* static uint32_t primes_in_prime_table *)
  composite_table : Z -> Z;        (* static uint64_t *composite_table *)
  range_size : Z;                  (* static uint_fast32_t range_size *)
  primes_used_in_range : Z         (* static uint32_t primes_used_in_range *)
}.

Definition PRIMES_USED_STEP : Z := 2000.

Definition uint32 (x : Z) : Z := x mod 2 ^ 32.
Definition uint64 (x : Z) : Z := x mod 2 ^ 64.

(** At most [p] rounds of [step], which either goes on with a new value of
    the loop variable ([inl]) or leaves the loop ([inr]). *)
Fixpoint loop_until {A B : Type} (p : positive) (step : A -> A + B) (a : A) : A + B :=
  match p with
  | xH => step a
  | xO q =>
      match loop_until q step a with
      | inl a' => loop_until q step a'
      | inr b => inr b
      end
  | xI q =>
      match step a with
      | inl a1 =>
          match loop_until q step a1 with
          | inl a2 => loop_until q step a2
          | inr b => inr b
          end
      | inr b => inr b
      end
  end.

(** The same loop with the rounds counted in unary: the reference for
    [loop_until]. *)
Fixpoint loop_nat {A B : Type} (n : nat) (step : A -> A + B) (a : A) : A + B :=
  match n with
  | O => inl a
  | S n' =>
      match step a with
      | inl a' => loop_nat n' step a'
      | inr b => inr b
      end
  end.

(** One round of
    [while (primes_used_in_range < primes_in_prime_table) {
       max_prime = prime_table[primes_used_in_range - 1];
       max_prime *= max_prime;
       if (max_prime > low_end_of_range + ((uint64_t)range_size << y)) break;
       primes_used_in_range += PRIMES_USED_STEP; }]
    on the value of [primes_used_in_range]. *)
Definition more_primes (g : sieve_globals) (low_end_of_range y : Z)
    (primes_used_in_range : Z) : Z + Z :=
  if primes_used_in_range <? primes_in_prime_table g then
    let max_prime := prime_table g (uint32 (primes_used_in_range - 1)) in
    let max_prime := uint64 (max_prime * max_prime) in
    if max_prime >? uint64 (low_end_of_range + uint64 (Z.shiftl (range_size g) y)) then
      inr primes_used_in_range
    else inl (uint32 (primes_used_in_range + PRIMES_USED_STEP))
  else inr primes_used_in_range.

(** One round of
    [do last_composite += max_prime;
     while (((uint_fast32_t)last_composite & mask) != 1);] *)
Definition next_composite (UINT_FAST32_BIT max_prime mask : Z) (last_composite : Z)
    : Z + Z :=
  let last_composite := uint64 (last_composite + max_prime) in
  if negb (Z.land (last_composite mod 2 ^ UINT_FAST32_BIT) mask =? 1) then
    inl last_composite
  else inr last_composite.

Definition set_composite_table (i v : Z) (g : sieve_globals) : sieve_globals :=
  {| prime_table := prime_table g;
     primes_in_prime_table := primes_in_prime_table g;
     composite_table := fun k => if k =? i then v else composite_table g k;
     range_size := range_size g;
     primes_used_in_range := primes_used_in_range g |}.

Definition set_primes_used_in_range (v : Z) (g : sieve_globals) : sieve_globals :=
  {| prime_table := prime_table g;
     primes_in_prime_table := primes_in_prime_table g;
     composite_table := composite_table g;
     range_size := range_size g;
     primes_used_in_range := v |}.

(** The body of the loop over [i]: the next composite of [prime_table[i]]. *)
Definition setup_composite (UINT_FAST32_BIT low_end_of_range mask : Z) (i : Z)
    (g : sieve_globals) : option sieve_globals :=
  let max_prime := prime_table g i in
  let last_composite := uint64 (low_end_of_range / max_prime * max_prime) in
  match loop_until (2 ^ 64)%positive (next_composite UINT_FAST32_BIT max_prime mask)
          last_composite with
  | inr last_composite => Some (set_composite_table i last_composite g)
  | inl _ => None
  end.

(** [for (i = lo; i < lo + k; i++) body] on a state [S]. *)
Fixpoint for_each {S : Type} (k : nat) (i : Z) (body : Z -> S -> option S) (s : S)
    : option S :=
  match k with
  | O => Some s
  | S k' =>
      match body i s with
      | Some s' => for_each k' (i + 1) body s'
      | None => None
      end
  end.

Definition setup_sieve (UINT_FAST32_BIT : Z) (low_end_of_range y : Z) (g : sieve_globals)
    : option sieve_globals :=
  let mask := Z.shiftl 1 y - 1 in
  if primes_used_in_range g >=? primes_in_prime_table g then Some g
  else
    let save_used_in_range := primes_used_in_range g in
    let used := if primes_used_in_range g =? 0 then PRIMES_USED_STEP
                else primes_used_in_range g in
    match loop_until (2 ^ 32)%positive (more_primes g low_end_of_range y) used with
    | inl _ => None
    | inr used =>
        let used := if used >? primes_in_prime_table g then primes_in_prime_table g
                    else used in
        let g := set_primes_used_in_range used g in
        for_each (Z.to_nat (used - save_used_in_range)) save_used_in_range
          (setup_composite UINT_FAST32_BIT low_end_of_range mask) g
    end.

(** [m] is the least multiple of [p] that is greater than [low] and is 1
    modulo [2^y]. *)
Definition next_multiple (low y p m : Z) : Prop :=
  low < m /\ (p | m) /\ m mod 2 ^ y = 1 /\
  forall m', low < m' -> (p | m') -> m' mod 2 ^ y = 1 -> m <= m'.

(** The static variables as [init_prime_sieve] leaves them, as far as
    [setup_sieve] depends on it: the table holds odd numbers, and stepping
    through it does not wrap around. *)
Definition sieve_ready (g : sieve_globals) : Prop :=
  0 <= primes_used_in_range g /\
  primes_in_prime_table g + PRIMES_USED_STEP <= 2 ^ 32 /\
  forall i, 0 <= i < primes_in_prime_table g ->
    0 < prime_table g i < 2 ^ 32 /\ Z.odd (prime_table g i) = true.

(** ** The marking loop of [prime_sieve]

    The bitmap of a block has one bit for each odd candidate: bit [k] stands
    for [low_end_of_range + 2 * k + 1].  [clear_bit] is a function of
    bitmap.h, which is absent from the sources: it is modelled by its name,
    as the bitmap with bit [i] set to 0. *)

Definition bitmap := Z -> bool.

Definition clear_bit (sieve : bitmap) (i : Z) : bitmap :=
  fun k => if k =? i then false else sieve k.

(** One round of
    [do clear_bit(sieve,sieve_index);
     while ((sieve_index += prime) < range_size);]
    on [sieve_index] (a [uint_fast32_t]) and the bitmap. *)
Definition clear_multiples (UINT_FAST32_BIT prime range_size : Z) (st : Z * bitmap)
    : Z * bitmap + Z * bitmap :=
  let sieve := clear_bit (snd st) (fst st) in
  let sieve_index := (fst st + prime) mod 2 ^ UINT_FAST32_BIT in
  if sieve_index <? range_size then inl (sieve_index, sieve)
  else inr (sieve_index, sieve).

(** The body of the loop over the primes in use (lines 288-297):
    [if (composite_table[i] < low_end_of_range + 2*range_size) {
       prime = prime_table[i];
       sieve_index = (composite_table[i] - low_end_of_range)/2;
       do ... while (...);
       composite_table[i] = low_end_of_range + 2*(uint64_t)sieve_index + 1; }] *)
Definition mark_prime (UINT_FAST32_BIT low_end_of_range : Z) (i : Z)
    (st : sieve_globals * bitmap) : option (sieve_globals * bitmap) :=
  let g := fst st in
  if composite_table g i
     <? uint64 (low_end_of_range + (2 * range_size g) mod 2 ^ UINT_FAST32_BIT) then
    let prime := prime_table g i mod 2 ^ UINT_FAST32_BIT in
    let sieve_index :=
      (uint64 (composite_table g i - low_end_of_range) / 2) mod 2 ^ UINT_FAST32_BIT in
    match loop_until (Z.to_pos (2 ^ UINT_FAST32_BIT))
            (clear_multiples UINT_FAST32_BIT prime (range_size g))
            (sieve_index, snd st) with
    | inr (sieve_index, sieve) =>
        Some (set_composite_table i
                (uint64 (low_end_of_range + uint64 (2 * sieve_index) + 1)) g,
              sieve)
    | inl _ => None
    end
  else Some st.

(** [for (i = 0; i < primes_used_in_range; i++) ...] *)
Definition mark_composites (UINT_FAST32_BIT low_end_of_range : Z)
    (st : sieve_globals * bitmap) : option (sieve_globals * bitmap) :=
  for_each (Z.to_nat (primes_used_in_range (fst st))) 0
    (mark_prime UINT_FAST32_BIT low_end_of_range) st.

(** The table of the next composites is up to date for the block that starts
    at [low]: the entry of every prime in use is the least odd multiple of the
    prime above [low]. *)
Definition composites_ready (low : Z) (g : sieve_globals) : Prop :=
  forall i, 0 <= i < primes_used_in_range g ->
    next_multiple low 1 (prime_table g i) (composite_table g i).

(** The table of primes as [init_prime_sieve] is meant to leave it: the odd
    primes in increasing order, and among them every odd prime whose square is
    at most [B]. *)
Definition prime_table_complete (B : Z) (g : sieve_globals) : Prop :=
  (forall i, 0 <= i < primes_in_prime_table g -> Z.prime (prime_table g i)) /\
  (forall i j, 0 <= i < j -> j < primes_in_prime_table g ->
     prime_table g i < prime_table g j) /\
  (forall q, Z.prime q -> q <> 2 -> q * q <= B ->
     exists i, 0 <= i < primes_in_prime_table g /\ prime_table g i = q).

(** ** The marking loop of [prime_sieve_gfn]

    [prime_sieve_gfn] sieves the numbers that are 1 modulo [2^y] only: bit [k]
    of the bitmap of a block stands for [low_end_of_range + (k << y) + 1]. *)

(** The body of the loop over the primes in use (lines 417-426):
    [if (composite_table[i] < low_end_of_range + ((uint64_t)range_size << y)) {
       prime = prime_table[i];
       sieve_index = (composite_table[i] - low_end_of_range) >> y;
       do ... while (...);
       composite_table[i] = low_end_of_range + ((uint64_t)sieve_index << y) + 1; }] *)
Definition mark_prime_gfn (UINT_FAST32_BIT low_end_of_range y : Z) (i : Z)
    (st : sieve_globals * bitmap) : option (sieve_globals * bitmap) :=
  let g := fst st in
  if composite_table g i
     <? uint64 (low_end_of_range + uint64 (Z.shiftl (range_size g) y)) then
    let prime := prime_table g i mod 2 ^ UINT_FAST32_BIT in
    let sieve_index :=
      Z.shiftr (uint64 (composite_table g i - low_end_of_range)) y
      mod 2 ^ UINT_FAST32_BIT in
    match loop_until (Z.to_pos (2 ^ UINT_FAST32_BIT))
            (clear_multiples UINT_FAST32_BIT prime (range_size g))
            (sieve_index, snd st) with
    | inr (sieve_index, sieve) =>
        Some (set_composite_table i
                (uint64 (low_end_of_range + uint64 (Z.shiftl sieve_index y) + 1)) g,
              sieve)
    | inl _ => None
    end
  else Some st.

(** [for (i = 0; i < primes_used_in_range; i++) ...] (line 416) *)
Definition mark_composites_gfn (UINT_FAST32_BIT low_end_of_range y : Z)
    (st : sieve_globals * bitmap) : option (sieve_globals * bitmap) :=
  for_each (Z.to_nat (primes_used_in_range (fst st))) 0
    (mark_prime_gfn UINT_FAST32_BIT low_end_of_range y) st.

(** The start of the first block is moved up to a multiple of [2^y]
    (lines 371 and 404-405):
    [const uint32_t mask = (1 << y) - 2;
     if ((uint_fast32_t)low_end_of_range & (uint_fast32_t)mask)
       low_end_of_range = (low_end_of_range | ((UINT64_C(1) << y)-1)) + 1;] *)
Definition align_low_end (UINT_FAST32_BIT y low_end_of_range : Z) : Z :=
  let mask := uint32 (Z.shiftl 1 y - 2) in
  if Z.land (low_end_of_range mod 2 ^ UINT_FAST32_BIT) (mask mod 2 ^ UINT_FAST32_BIT)
     =? 0
  then low_end_of_range
  else uint64 (Z.lor low_end_of_range (uint64 (Z.shiftl 1 y - 1)) + 1).

(** The start of the first block when [low_prime] is above the table of primes
    (lines 401-405): [low_end_of_range = (low_prime | 1) - 1;] and the move up
    to a multiple of [2^y]. *)
Definition low_end_above_table (UINT_FAST32_BIT y low_prime : Z) : Z :=
  align_low_end UINT_FAST32_BIT y (uint64 (Z.lor low_prime 1 - 1)).

(** The table of the next composites is up to date for the block of
    [prime_sieve_gfn] that starts at [low]: the entry of every prime in use is
    the least multiple of the prime above [low] that is 1 modulo [2^y]. *)
Definition composites_ready_gfn (y low : Z) (g : sieve_globals) : Prop :=
  forall i, 0 <= i < primes_used_in_range g ->
    next_multiple low y (prime_table g i) (composite_table g i).

(** What one round of a marking loop does for the prime [i], on a block of
    candidates [low + k * 2^y + 1]: the bits of the multiples of the prime in
    the block are cleared, and the entry of the prime in the table of the next
    composites is moved to the next block. *)
Definition marked (y low i : Z) (st st' : sieve_globals * bitmap) : Prop :=
  let g := fst st in
  let g' := fst st' in
  prime_table g' = prime_table g /\
  primes_in_prime_table g' = primes_in_prime_table g /\
  range_size g' = range_size g /\
  primes_used_in_range g' = primes_used_in_range g /\
  (forall k, k <> i -> composite_table g' k = composite_table g k) /\
  next_multiple (low + range_size g * 2 ^ y) y (prime_table g i) (composite_table g' i) /\
  forall k, snd st' k = true <->
    snd st k = true /\
    ~ (0 <= k < range_size g /\ (prime_table g i | low + k * 2 ^ y + 1)).

(** ** A concrete table *)

(** The primes 3, 5, 7 and 11, none in use yet, with blocks of 64 candidates. *)
Definition small_sieve : sieve_globals :=
  {| prime_table :=
       fun i => match i with 0 => 3 | 1 => 5 | 2 => 7 | 3 => 11 | _ => 1 end;
     primes_in_prime_table := 4;
     composite_table := fun _ => 0;
     range_size := 64;
     primes_used_in_range := 0 |}.

(** The same table with its four primes in use, as [setup_sieve] leaves it
    for the block that starts at 12. *)
Definition small_sieve_12 : sieve_globals :=
  {| prime_table := prime_table small_sieve;
     primes_in_prime_table := 4;
     composite_table :=
       fun i => match i with 0 | 1 => 15 | 2 => 21 | 3 => 33 | _ => 0 end;
     range_size := 64;
     primes_used_in_range := 4 |}.

Section Transform.

Context {coeff : Type} {P : Primitives coeff}.

(** ** Machine state *)

Definition memory := ptr -> coeff.

Record state : Type := mkState {
  ptrs : loc -> ptr;       (* which buffer each location owns *)
  mem : memory             (* the contents of the buffers *)
}.

(** The coefficient seen through a location. *)
Definition val (st : state) (l : loc) : coeff := mem st (ptrs st l).

Definition store (p : ptr) (v : coeff) (m : memory) : memory :=
  fun q => if q =? p then v else m q.

Definition set_loc (l : loc) (p : ptr) (f : loc -> ptr) : loc -> ptr :=
  fun x => if loc_eqb x l then p else f x.

Definition on_mem (f : memory -> memory) (st : state) : state :=
  {| ptrs := ptrs st; mem := f (mem st) |}.

(** [SWAP_PTRS(xx, yy)]: [__ptr = xx; xx = yy; yy = __ptr]. *)
Definition SWAP_PTRS (xx yy : loc) (st : state) : state :=
  let __ptr := ptrs st xx in
  {| ptrs := set_loc yy __ptr (set_loc xx (ptrs st yy) (ptrs st));
     mem := mem st |}.

(** ** Calls of the primitives on buffers

    A primitive reads its input buffers, then writes its output buffers. *)

Definition c_mpn_add_n (rp s1 s2 : ptr) (n : Z) (m : memory) : memory :=
  store rp (mpn_add_n (m s1) (m s2) n) m.

Definition c_mpn_neg_n (rp sp : ptr) (n : Z) (m : memory) : memory :=
  store rp (mpn_neg_n (m sp) n) m.

Definition c_mpn_mul_2expmod_2expp1 (t i1 : ptr) (limbs d : Z) (m : memory) : memory :=
  store t (mpn_mul_2expmod_2expp1 (m i1) limbs d) m.

Definition c_butterfly_lshB (t u i1 i2 : ptr) (limbs x y : Z) (m : memory) : memory :=
  let r := butterfly_lshB (m i1) (m i2) limbs x y in
  store u (snd r) (store t (fst r) m).

Definition c_fft_butterfly (s t i1 i2 : ptr) (i limbs w : Z) (m : memory) : memory :=
  let r := fft_butterfly (m i1) (m i2) i limbs w in
  store t (snd r) (store s (fst r) m).

Definition c_fft_butterfly_sqrt2 (s t i1 i2 : ptr) (i limbs w : Z) (tmp : ptr)
    (m : memory) : memory :=
  let r := fft_butterfly_sqrt2 (m i1) (m i2) i limbs w in
  let x := fft_butterfly_sqrt2_temp (m i1) (m i2) i limbs w (m tmp) in
  store t (snd r) (store s (fst r) (store tmp x m)).

Definition c_fft_adjust (r i1 : ptr) (i limbs w : Z) (m : memory) : memory :=
  store r (fft_adjust (m i1) i limbs w) m.

Definition c_fft_adjust_sqrt2 (r i1 : ptr) (i limbs w : Z) (tmp : ptr)
    (m : memory) : memory :=
  let x := fft_adjust_sqrt2_temp (m i1) i limbs w (m tmp) in
  store r (fft_adjust_sqrt2 (m i1) i limbs w) (store tmp x m).

(** The same calls with their pointer arguments read from locations, as in
    [fft_butterfly( *t1, *t2, ii[j], ii[2*n + j], ...)]. *)

Definition do_mpn_add_n (rp s1 s2 : loc) (n : Z) (st : state) : state :=
  on_mem (c_mpn_add_n (ptrs st rp) (ptrs st s1) (ptrs st s2) n) st.

Definition do_fft_butterfly (s t i1 i2 : loc) (i limbs w : Z) (st : state) : state :=
  on_mem (c_fft_butterfly (ptrs st s) (ptrs st t) (ptrs st i1) (ptrs st i2) i limbs w) st.

Definition do_fft_butterfly_sqrt2 (s t i1 i2 : loc) (i limbs w : Z) (tmp : loc)
    (st : state) : state :=
  on_mem (c_fft_butterfly_sqrt2 (ptrs st s) (ptrs st t) (ptrs st i1) (ptrs st i2)
            i limbs w (ptrs st tmp)) st.

Definition do_fft_adjust (r i1 : loc) (i limbs w : Z) (st : state) : state :=
  on_mem (c_fft_adjust (ptrs st r) (ptrs st i1) i limbs w) st.

Definition do_fft_adjust_sqrt2 (r i1 : loc) (i limbs w : Z) (tmp : loc)
    (st : state) : state :=
  on_mem (c_fft_adjust_sqrt2 (ptrs st r) (ptrs st i1) i limbs w (ptrs st tmp)) st.

(** ** Control *)

Definition bind (x : option state) (k : state -> option state) : option state :=
  match x with
  | Some st => k st
  | None => None
  end.

Notation "st <- e ;; k" := (bind e (fun st => k))
  (at level 61, e at next level, right associativity).

(** [for (i = lo; i < hi; i++) body] *)
Fixpoint for_count (k : nat) (i : Z) (body : Z -> state -> option state)
    (st : state) : option state :=
  match k with
  | O => Some st
  | S k' => st' <- body i st ;; for_count k' (i + 1) body st'
  end.

Definition for_loop (lo hi : Z) (body : Z -> state -> option state)
    (st : state) : option state :=
  for_count (Z.to_nat (hi - lo)) lo body st.

(** [for (; j < hi; j += step) body], which also yields the final [j].  With
    [step >= 1] at most [hi - j] rounds run; the counter is exhausted only
    when the C loop does not end. *)
Fixpoint for_stride_rec (k : nat) (j hi step : Z) (body : Z -> state -> option state)
    (st : state) : option (Z * state) :=
  match k with
  | O => None
  | S k' =>
      if j <? hi then
        match body j st with
        | Some st' => for_stride_rec k' (j + step) hi step body st'
        | None => None
        end
      else Some (j, st)
  end.

Definition for_stride (j hi step : Z) (body : Z -> state -> option state)
    (st : state) : option (Z * state) :=
  for_stride_rec (S (Z.to_nat (hi - j))) j hi step body st.

(** ** fft_butterfly_twiddle (abs.c, lines 80-110)

    [b1] and [b2] are unsigned words in C: the definition is the C function
    for [0 <= b1, b2] below the word size. *)

Definition fft_butterfly_twiddle (u v s t : ptr) (limbs b1 b2 : Z) (m : memory) : memory :=
  let nw := limbs * FLINT_BITS in
  let negate2 := b1 >=? nw in
  let b1 := if negate2 then b1 - nw else b1 in
  let x := b1 / FLINT_BITS in
  let b1 := b1 mod FLINT_BITS in
  let negate1 := b2 >=? nw in
  let b2 := if negate1 then b2 - nw else b2 in
  let y := b2 / FLINT_BITS in
  let b2 := b2 mod FLINT_BITS in
  let m := c_butterfly_lshB u v s t limbs x y m in
  let m := c_mpn_mul_2expmod_2expp1 u u limbs b1 m in
  let m := if negate2 then c_mpn_neg_n u u (limbs + 1) m else m in
  let m := c_mpn_mul_2expmod_2expp1 v v limbs b2 m in
  let m := if negate1 then c_mpn_neg_n v v (limbs + 1) m else m in
  m.

Definition do_fft_butterfly_twiddle (u v s t : loc) (limbs b1 b2 : Z) (st : state) : state :=
  on_mem (fft_butterfly_twiddle (ptrs st u) (ptrs st v) (ptrs st s) (ptrs st t)
            limbs b1 b2) st.

(** The body shared by the butterfly loops of [fft_radix2_twiddle],
    [fft_truncate1_twiddle] and [fft_radix2]:
    [fft_butterfly( *t1, *t2, ii[a], ii[b], i, limbs, w);
     SWAP_PTRS(ii[a], *t1); SWAP_PTRS(ii[b], *t2);] *)
Definition butterfly_swap (a b : Z) (i limbs w : Z) (st : state) : state :=
  let st := do_fft_butterfly t1 t2 (ii a) (ii b) i limbs w st in
  let st := SWAP_PTRS (ii a) t1 st in
  let st := SWAP_PTRS (ii b) t2 st in
  st.

(** ** fft_radix2_twiddle (abs.c, lines 120-150)

    [tw1 * ws] and [tw2 * ws] are signed products that the call converts to
    unsigned words: the definition is the C function for arguments in
    [twiddle_range]. *)

Fixpoint fft_radix2_twiddle_rec (k : nat) (ii0 is_ n w ws r c rs : Z) (st : state)
    : option state :=
  match k with
  | O => None
  | S k' =>
      let limbs := (w * n) / FLINT_BITS in
      if n =? 1 then
        let tw1 := r * c in
        let tw2 := tw1 + rs * c in
        let st := do_fft_butterfly_twiddle t1 t2 (ii (ii0 + 0)) (ii (ii0 + is_))
                    limbs (tw1 * ws) (tw2 * ws) st in
        let st := SWAP_PTRS (ii (ii0 + 0)) t1 st in
        let st := SWAP_PTRS (ii (ii0 + is_)) t2 st in
        Some st
      else
        st <- for_loop 0 n (fun i st =>
                Some (butterfly_swap (ii0 + i * is_) (ii0 + (n + i) * is_) i limbs w st)) st ;;
        st <- fft_radix2_twiddle_rec k' ii0 is_ (n / 2) (2 * w) ws r c (2 * rs) st ;;
        fft_radix2_twiddle_rec k' (ii0 + n * is_) is_ (n / 2) (2 * w) ws (r + rs) c (2 * rs) st
  end.

Definition fft_radix2_twiddle (ii0 is_ n w ws r c rs : Z) (st : state) : option state :=
  fft_radix2_twiddle_rec (Z.to_nat n) ii0 is_ n w ws r c rs st.

(** ** fft_truncate1_twiddle (abs.c, lines 157-186) *)

Fixpoint fft_truncate1_twiddle_rec (k : nat) (ii0 is_ n w ws r c rs trunc : Z) (st : state)
    : option state :=
  match k with
  | O => None
  | S k' =>
      let limbs := (w * n) / FLINT_BITS in
      if trunc =? 2 * n then
        fft_radix2_twiddle ii0 is_ n w ws r c rs st
      else if trunc <=? n then
        st <- for_loop 0 n (fun i st =>
                Some (do_mpn_add_n (ii (ii0 + i * is_)) (ii (ii0 + i * is_))
                        (ii (ii0 + (i + n) * is_)) (limbs + 1) st)) st ;;
        fft_truncate1_twiddle_rec k' ii0 is_ (n / 2) (2 * w) ws r c (2 * rs) trunc st
      else
        st <- for_loop 0 n (fun i st =>
                Some (butterfly_swap (ii0 + i * is_) (ii0 + (n + i) * is_) i limbs w st)) st ;;
        st <- fft_radix2_twiddle ii0 is_ (n / 2) (2 * w) ws r c (2 * rs) st ;;
        fft_truncate1_twiddle_rec k' (ii0 + n * is_) is_ (n / 2) (2 * w) ws (r + rs) c
          (2 * rs) (trunc - n) st
  end.

Definition fft_truncate1_twiddle (ii0 is_ n w ws r c rs trunc : Z) (st : state)
    : option state :=
  fft_truncate1_twiddle_rec (Z.to_nat n) ii0 is_ n w ws r c rs trunc st.

(** Modelled from the spec: the plain base transform [fft_radix2] (absent from
    the sources), the untwiddled recursive radix-2 transform of a
    power-of-two-length vector; [fft_radix2_twiddle] is documented "as for
    fft_radix2" with a stride and a twist added, so this is
    [fft_radix2_twiddle] with stride 1 and a plain butterfly at [n = 1]. *)
Fixpoint fft_radix2_rec (k : nat) (ii0 n w : Z) (st : state) : option state :=
  match k with
  | O => None
  | S k' =>
      let limbs := (w * n) / FLINT_BITS in
      if n =? 1 then
        Some (butterfly_swap (ii0 + 0) (ii0 + 1) 0 limbs w st)
      else
        st <- for_loop 0 n (fun i st =>
                Some (butterfly_swap (ii0 + i) (ii0 + (n + i)) i limbs w st)) st ;;
        st <- fft_radix2_rec k' ii0 (n / 2) (2 * w) st ;;
        fft_radix2_rec k' (ii0 + n) (n / 2) (2 * w) st
  end.

Definition fft_radix2 (ii0 n w : Z) (st : state) : option state :=
  fft_radix2_rec (Z.to_nat n) ii0 n w st.

(** ** fft_mfa_truncate_sqrt2 (abs.c, lines 230-335) and
       fft_mfa_truncate_sqrt2_outer (lines 341-425)

    The two functions are made of the same loops, word for word: each loop is
    a definition here, with the locals it reads as arguments. *)

(** [for (j = 0; j < cnt; j++) { s = n_revbin(j, depth);
      if (j < s) SWAP_PTRS(ii[j * stride], ii[s * stride]); }]
    on [ii + ii0]: the loops at lines 289-293 and 317-321 (stride [n1]) and at
    lines 299-303 and 329-333 (stride 1). *)
Definition revbin_loop (ii0 stride cnt depth : Z) (st : state) : option state :=
  for_loop 0 cnt (fun j st =>
    let s := n_revbin j depth in
    Some (if j <? s then SWAP_PTRS (ii (ii0 + j * stride)) (ii (ii0 + s * stride)) st
          else st)) st.

(** What follows a strided loop and goes on with its final [j]. *)
Definition after_stride (r : option (Z * state)) (k : Z -> state -> option state)
    : option state :=
  match r with
  | None => None
  | Some (j, st) => k j st
  end.

(** The relevant part of the first layer of the full sqrt2 FFT, for column
    [i]: lines 251-282 (and 363-394).  In each branch the second loop goes on
    from the [j] the first loop stopped at. *)
Definition sqrt2_layer (n w n1 trunc limbs i : Z) (st : state) : option state :=
  if negb (Z.land w 1 =? 0) then
    after_stride
      (for_stride i (trunc - 2 * n) n1 (fun j st =>
         let st :=
           if negb (Z.land j 1 =? 0) then
             do_fft_butterfly_sqrt2 t1 t2 (ii j) (ii (2 * n + j)) j limbs w temp st
           else
             do_fft_butterfly t1 t2 (ii j) (ii (2 * n + j)) (j / 2) limbs w st in
         let st := SWAP_PTRS (ii j) t1 st in
         let st := SWAP_PTRS (ii (2 * n + j)) t2 st in
         Some st) st)
      (fun j st =>
         after_stride
           (for_stride j (2 * n) n1 (fun j st =>
              Some (if negb (Z.land i 1 =? 0) then
                      do_fft_adjust_sqrt2 (ii (j + 2 * n)) (ii j) j limbs w temp st
                    else
                      do_fft_adjust (ii (j + 2 * n)) (ii j) (j / 2) limbs w st)) st)
           (fun _ st => Some st))
  else
    after_stride
      (for_stride i (trunc - 2 * n) n1 (fun j st =>
         let st := do_fft_butterfly t1 t2 (ii j) (ii (2 * n + j)) j limbs (w / 2) st in
         let st := SWAP_PTRS (ii j) t1 st in
         let st := SWAP_PTRS (ii (2 * n + j)) t2 st in
         Some st) st)
      (fun j st =>
         after_stride
           (for_stride j (2 * n) n1 (fun j st =>
              Some (do_fft_adjust (ii (j + 2 * n)) (ii j) j limbs (w / 2) st)) st)
           (fun _ st => Some st)).

(** First half, FFTs on columns: lines 249-294 (and 361-406). *)
Definition mfa_left_columns (n w n1 trunc n2 limbs depth : Z) (st : state) : option state :=
  for_loop 0 n1 (fun i st =>
    st <- sqrt2_layer n w n1 trunc limbs i st ;;
    st <- fft_radix2_twiddle (0 + i) n1 (n2 / 2) (w * n1) w 0 i 1 st ;;
    revbin_loop i n1 n2 depth st) st.

(** First half, FFTs on rows: lines 297-304. *)
Definition mfa_left_rows (w n1 n2 depth2 : Z) (st : state) : option state :=
  for_loop 0 n2 (fun i st =>
    st <- fft_radix2 (0 + i * n1) (n1 / 2) (w * n2) st ;;
    revbin_loop (i * n1) 1 n1 depth2 st) st.

(** Second half ([ii += 2 * n]), FFTs on columns: lines 310-322 (and 412-424). *)
Definition mfa_right_columns (n w n1 n2 trunc2 depth : Z) (st : state) : option state :=
  for_loop 0 n1 (fun i st =>
    st <- fft_truncate1_twiddle (2 * n + i) n1 (n2 / 2) (w * n1) w 0 i 1 trunc2 st ;;
    revbin_loop (2 * n + i) n1 n2 depth st) st.

(** Second half, FFTs on relevant rows: lines 325-334. *)
Definition mfa_right_rows (n w n1 n2 trunc2 depth depth2 : Z) (st : state) : option state :=
  for_loop 0 trunc2 (fun s st =>
    let i := n_revbin s depth in
    st <- fft_radix2 (2 * n + i * n1) (n1 / 2) (w * n2) st ;;
    revbin_loop (2 * n + i * n1) 1 n1 depth2 st) st.

Definition fft_mfa_truncate_sqrt2 (n w n1 trunc : Z) (st : state) : option state :=
  let n2 := (2 * n) / n1 in
  let trunc2 := (trunc - 2 * n) / n1 in
  let limbs := (n * w) / FLINT_BITS in
  let depth := depth_of n2 in
  let depth2 := depth_of n1 in
  st <- mfa_left_columns n w n1 trunc n2 limbs depth st ;;
  st <- mfa_left_rows w n1 n2 depth2 st ;;
  st <- mfa_right_columns n w n1 n2 trunc2 depth st ;;
  mfa_right_rows n w n1 n2 trunc2 depth depth2 st.

Definition fft_mfa_truncate_sqrt2_outer (n w n1 trunc : Z) (st : state) : option state :=
  let n2 := (2 * n) / n1 in
  let trunc2 := (trunc - 2 * n) / n1 in
  let limbs := (n * w) / FLINT_BITS in
  let depth := depth_of n2 in
  let depth2 := depth_of n1 in
  st <- mfa_left_columns n w n1 trunc n2 limbs depth st ;;
  mfa_right_columns n w n1 n2 trunc2 depth st.

(** ** Ownership, footprints and locality

    [inj_on L st]: no two locations of [L] own the same buffer.
    [agree L st1 st2]: the slots of [L] hold equal coefficients in both states.
    [local L f]: [f] touches only the locations of [L] and the buffers they
    own; it exchanges ownership inside [L]; whether it returns does not depend
    on the state; and the coefficients it leaves in the slots of [L] depend
    only on the coefficients it found there. *)

Definition inj_on (L : loc -> Prop) (st : state) : Prop :=
  forall x y, L x -> L y -> ptrs st x = ptrs st y -> x = y.

Definition agree (L : loc -> Prop) (st1 st2 : state) : Prop :=
  forall k, L (ii k) -> val st1 (ii k) = val st2 (ii k).

Record local (L : loc -> Prop) (f : state -> option state) : Prop := {
  local_def : forall st1 st2, f st1 = None -> f st2 = None;
  local_ptrs : forall st st', f st = Some st' ->
    forall l, ~ L l -> ptrs st' l = ptrs st l;
  local_mem : forall st st', f st = Some st' ->
    forall p, (forall l, L l -> ptrs st l <> p) -> mem st' p = mem st p;
  local_own : forall st st', f st = Some st' ->
    forall p, (exists l, L l /\ ptrs st' l = p) <-> (exists l, L l /\ ptrs st l = p);
  local_inj : forall st st', f st = Some st' -> inj_on L st -> inj_on L st';
  local_sim : forall st1 st2 st1' st2',
    f st1 = Some st1' -> f st2 = Some st2' ->
    inj_on L st1 -> inj_on L st2 -> agree L st1 st2 -> agree L st1' st2'
}.

(** The locations a transform of [4n] slots may use, and the buffers they own. *)
Definition slots (lo len : Z) : list loc :=
  map (fun k => ii (lo + Z.of_nat k)) (seq 0 (Z.to_nat len)).

Definition owners (n : Z) : list loc := slots 0 (4 * n) ++ [t1; t2; temp].

Definition owned (n : Z) (st : state) : list ptr := map (ptrs st) (owners n).

(** The ownership invariant: every buffer has exactly one owner. *)
Definition ownership (n : Z) (st : state) : Prop := NoDup (owned n st).

(** [f] keeps the invariant, and exchanges buffers without creating or losing
    one. *)
Definition preserves_ownership (n : Z) (f : state -> option state) : Prop :=
  forall st st', ownership n st -> f st = Some st' ->
    ownership n st' /\ Permutation (owned n st) (owned n st').

Definition total (f : state -> option state) : Prop :=
  forall st, exists st', f st = Some st'.

(** ** Steps and footprints

    The vocabulary of the proofs: the elementary steps of the transforms, the
    sets of locations they touch, and the valid parameters. *)

(** A transposition of two locations. *)
Definition transp (x y l : loc) : loc :=
  if loc_eqb l y then x else if loc_eqb l x then y else l.

(** A step that computes two coefficients from slots [a] and [b] into the
    scratch buffers and then exchanges them with the slots.  [S] is the set of
    scratch locations whose buffers the computation may write; [g] is the pair
    it computes. *)
Record writes_scratch (S : loc -> Prop) (a b : Z)
    (op : (loc -> ptr) -> memory -> memory)
    (g : coeff -> coeff -> coeff * coeff) : Prop := {
  ws_frame : forall Pt m p, (forall l, S l -> Pt l <> p) -> op Pt m p = m p;
  ws_val : forall Pt m,
    (forall x y, S x \/ x = ii a \/ x = ii b -> S y \/ y = ii a \/ y = ii b ->
                 Pt x = Pt y -> x = y) ->
    op Pt m (Pt t1) = fst (g (m (Pt (ii a))) (m (Pt (ii b)))) /\
    op Pt m (Pt t2) = snd (g (m (Pt (ii a))) (m (Pt (ii b))))
}.

Definition out2_swap (op : (loc -> ptr) -> memory -> memory) (a b : Z) (st : state)
    : state :=
  SWAP_PTRS (ii b) t2 (SWAP_PTRS (ii a) t1 (on_mem (op (ptrs st)) st)).

(** The exchange of [ii a] with [t1] and of [ii b] with [t2]. *)
Definition sg2 (a b : Z) (l : loc) : loc :=
  match l with
  | ii k => if k =? b then t2 else if k =? a then t1 else ii k
  | t1 => ii a
  | t2 => ii b
  | temp => temp
  end.

(** A step that overwrites the buffer of slot [d] with a coefficient computed
    from slots [a] and [b]; it may also write the scratch buffers of [S]. *)
Record writes_slot (S : loc -> Prop) (d a b : Z)
    (op : (loc -> ptr) -> memory -> memory)
    (h : coeff -> coeff -> coeff) : Prop := {
  wl_frame : forall Pt m p,
    p <> Pt (ii d) -> (forall l, S l -> Pt l <> p) -> op Pt m p = m p;
  wl_val : forall Pt m,
    op Pt m (Pt (ii d)) = h (m (Pt (ii a))) (m (Pt (ii b)))
}.

Definition scratch2 (l : loc) : Prop := l = t1 \/ l = t2.
Definition scratch3 (l : loc) : Prop := l = t1 \/ l = t2 \/ l = temp.
Definition no_scratch (l : loc) : Prop := False.

(** The pair computed by [fft_butterfly_twiddle] from the coefficients [s] and
    [t]: what its sequence of calls leaves in [u] and [v]. *)
Definition butterfly_twiddle_val (s t : coeff) (limbs b1 b2 : Z) : coeff * coeff :=
  let nw := limbs * FLINT_BITS in
  let negate2 := b1 >=? nw in
  let b1 := if negate2 then b1 - nw else b1 in
  let x := b1 / FLINT_BITS in
  let b1 := b1 mod FLINT_BITS in
  let negate1 := b2 >=? nw in
  let b2 := if negate1 then b2 - nw else b2 in
  let y := b2 / FLINT_BITS in
  let b2 := b2 mod FLINT_BITS in
  let r := butterfly_lshB s t limbs x y in
  let u := mpn_mul_2expmod_2expp1 (fst r) limbs b1 in
  let u := if negate2 then mpn_neg_n u (limbs + 1) else u in
  let v := mpn_mul_2expmod_2expp1 (snd r) limbs b2 in
  let v := if negate1 then mpn_neg_n v (limbs + 1) else v in
  (u, v).

(** The arguments of a twiddled transform of [2n] coefficients, in the range
    where the arithmetic of the C code is the arithmetic on integers.  In
    abs.c the row parameters [r], [c], [rs] and the twiddle rate [ws] are
    signed words ([mp_size_t]), the products [tw1 * ws] and [tw2 * ws] are
    converted to unsigned words ([mp_bitcnt_t]) when they are passed to
    [fft_butterfly_twiddle], and [w * n] is an unsigned product.  A word has
    [FLINT_BITS] bits.  Here nothing is negative, and the largest row number
    the recursion reaches, its product with [c] and the largest exponent stay
    below [2^(FLINT_BITS - 1)]: no product overflows and the conversion
    keeps the value. *)
Definition twiddle_range (n w ws r c rs : Z) : Prop :=
  let word := 2 ^ (FLINT_BITS - 1) in
  let rows := r + 2 * n * rs in
  0 <= w /\ 0 <= ws /\ 0 <= r /\ 0 <= c /\ 0 <= rs /\
  w * n < 2 * word /\ rows < word /\ rows * c < word /\ rows * c * ws < word.

(** ** Valid parameters of the matrix-Fourier transform

    [n] and [n1] are powers of two, the grid has at least two rows and two
    columns, and [trunc] is a multiple of [2 * n1] in [(2n, 4n]]. *)
Definition mfa_valid (n n1 trunc : Z) : Prop :=
  exists d d1 : Z,
    1 <= d1 <= d /\ n = 2 ^ d /\ n1 = 2 ^ d1 /\
    2 * n < trunc <= 4 * n /\ trunc mod (2 * n1) = 0.

Record mfa_facts (n n1 trunc : Z) : Prop := {
  mf_n : 2 <= n;
  mf_n1 : 2 <= n1;
  mf_n2 : 2 <= 2 * n / n1;
  mf_grid : n1 * (2 * n / n1) = 2 * n;
  mf_depth : 0 <= depth_of (2 * n / n1) /\ 2 ^ depth_of (2 * n / n1) = 2 * n / n1;
  mf_depth2 : 0 <= depth_of n1 /\ 2 ^ depth_of n1 = n1;
  mf_half2 : exists e, 0 <= e /\ 2 * n / n1 / 2 = 2 ^ e;
  mf_half1 : exists e, 0 <= e /\ n1 / 2 = 2 ^ e;
  mf_trunc : 2 * n < trunc <= 4 * n;
  mf_trunc2 : 2 <= (trunc - 2 * n) / n1 <= 2 * n / n1 /\
              ((trunc - 2 * n) / n1) mod 2 = 0 /\
              n1 * ((trunc - 2 * n) / n1) = trunc - 2 * n
}.

(** The footprint made of the slots [lo .. hi - 1] and the scratch locations
    of [S]. *)
Definition window (lo hi : Z) (S : loc -> Prop) (l : loc) : Prop :=
  match l with
  | ii k => lo <= k < hi
  | _ => S l
  end.

(** The butterfly and the adjust that the sqrt2 layer selects for index [j]
    of column [i]. *)
Definition layer_butterfly (w limbs j : Z) (s t : coeff) : coeff * coeff :=
  if negb (Z.land w 1 =? 0) then
    if negb (Z.land j 1 =? 0) then fft_butterfly_sqrt2 s t j limbs w
    else fft_butterfly s t (j / 2) limbs w
  else fft_butterfly s t j limbs (w / 2).

Definition layer_adjust (w limbs i j : Z) (s : coeff) : coeff :=
  if negb (Z.land w 1 =? 0) then
    if negb (Z.land i 1 =? 0) then fft_adjust_sqrt2 s j limbs w
    else fft_adjust s (j / 2) limbs w
  else fft_adjust s j limbs (w / 2).

(** The modulus [2^nw + 1] of the coefficient ring, [nw = limbs * FLINT_BITS]. *)
Definition ring_modulus (limbs : Z) : Z := 2 ^ (limbs * FLINT_BITS) + 1.

(** Modelled from the spec: the contracts of the three word-level primitives
    that [fft_butterfly_twiddle] calls and that are absent from the sources
    (the shifting butterfly [butterfly_lshB], the rotation by less than a limb
    [mpn_mul_2expmod_2expp1] and the negation [mpn_neg_n]), modulo
    [2^nw + 1], for a reading [repr] of a coefficient as the integer it stands
    for. *)
Definition lshB_contract (repr : coeff -> Z) : Prop :=
  forall a b limbs x y, 0 <= x < limbs -> 0 <= y < limbs ->
    repr (fst (butterfly_lshB a b limbs x y)) mod ring_modulus limbs
      = ((repr a + repr b) * 2 ^ (x * FLINT_BITS)) mod ring_modulus limbs /\
    repr (snd (butterfly_lshB a b limbs x y)) mod ring_modulus limbs
      = ((repr a - repr b) * 2 ^ (y * FLINT_BITS)) mod ring_modulus limbs.

Definition mul_2exp_contract (repr : coeff -> Z) : Prop :=
  forall a limbs d, 0 <= d < FLINT_BITS ->
    repr (mpn_mul_2expmod_2expp1 a limbs d) mod ring_modulus limbs
      = (repr a * 2 ^ d) mod ring_modulus limbs.

Definition neg_contract (repr : coeff -> Z) : Prop :=
  forall a limbs,
    repr (mpn_neg_n a (limbs + 1)) mod ring_modulus limbs
      = (- repr a) mod ring_modulus limbs.

(** ** Concrete states, and two statements of the specification

    The state whose slot [ii[k]] owns the buffer [k], with the scratch
    buffers at the addresses -1, -2 and -3, and the one whose slot [ii[k]] owns
    the buffer [k + 100], with the scratch buffers at 7, 8 and 9. *)
Definition init_state (m : memory) : state := {| ptrs := init_ptrs; mem := m |}.

Definition moved_state (m : memory) : state :=
  {| ptrs := fun l => match l with ii k => k + 100 | t1 => 7 | t2 => 8 | temp => 9 end;
     mem := m |}.

(** The contract of the outer variant as the specification words it, for the
    left half: the left half that the outer variant leaves is the left half of
    the full variant after its row pass. *)
Definition outer_left_as_stated (n w n1 trunc : Z) (st : state) : Prop :=
  let n2 := 2 * n / n1 in
  forall so sb,
    fft_mfa_truncate_sqrt2_outer n w n1 trunc st = Some so ->
    (sa <- mfa_left_columns n w n1 trunc n2 (n * w / FLINT_BITS) (depth_of n2) st ;;
     mfa_left_rows w n1 n2 (depth_of n1) sa) = Some sb ->
    forall k, 0 <= k < 2 * n -> val so (ii k) = val sb (ii k).

(** The choice of the butterfly as the specification words it: with an odd
    [w], every pair below the truncation boundary goes through the
    sqrt2-adjusted butterfly. *)
Definition sqrt2_layer_as_stated (n w n1 trunc limbs i : Z) (st : state) : Prop :=
  forall st', sqrt2_layer n w n1 trunc limbs i st = Some st' ->
    forall j, i <= j < trunc - 2 * n -> (j - i) mod n1 = 0 -> Z.odd w = true ->
      val st' (ii j)
        = fst (fft_butterfly_sqrt2 (val st (ii j)) (val st (ii (2 * n + j))) j limbs w) /\
      val st' (ii (2 * n + j))
        = snd (fft_butterfly_sqrt2 (val st (ii j)) (val st (ii (2 * n + j))) j limbs w).

(** [f] never changes which buffer the location [l] owns. *)
Definition keeps_ptr (l : loc) (f : state -> option state) : Prop :=
  forall st st', f st = Some st' -> ptrs st' l = ptrs st l.

(** The body of the column loops: what is done for column [i] of the left
    half (lines 251-293) and of the right half (lines 312-321). *)
Definition left_column (n w n1 trunc n2 limbs depth i : Z) (st : state) : option state :=
  st <- sqrt2_layer n w n1 trunc limbs i st ;;
  st <- fft_radix2_twiddle (0 + i) n1 (n2 / 2) (w * n1) w 0 i 1 st ;;
  revbin_loop i n1 n2 depth st.

Definition right_column (n w n1 n2 trunc2 depth i : Z) (st : state) : option state :=
  st <- fft_truncate1_twiddle (2 * n + i) n1 (n2 / 2) (w * n1) w 0 i 1 trunc2 st ;;
  revbin_loop (2 * n + i) n1 n2 depth st.

(** The footprint made of the slots of column [i] among the slots
    [lo .. hi - 1], the grid having [n1] columns, and of the scratch locations
    of [S]. *)
Definition column (n1 i lo hi : Z) (S : loc -> Prop) (l : loc) : Prop :=
  match l with
  | ii k => lo <= k < hi /\ (k - i) mod n1 = 0
  | _ => S l
  end.

(** * Properties *)

(** ** Basic facts *)

Lemma loc_eqb_eq x y : loc_eqb x y = true <-> x = y.
Proof.
  destruct x, y; simpl; split; intros H; try discriminate; try reflexivity.
  - apply Z.eqb_eq in H. now subst.
  - injection H as ->. apply Z.eqb_refl.
Qed.

Lemma loc_eqb_refl x : loc_eqb x x = true.
Proof. now apply loc_eqb_eq. Qed.

Lemma loc_eqb_neq {x y} : x <> y -> loc_eqb x y = false.
Proof.
  intros H. destruct (loc_eqb x y) eqn:E; [|reflexivity].
  apply loc_eqb_eq in E. contradiction.
Qed.

Lemma loc_eq_dec (x y : loc) : {x = y} + {x <> y}.
Proof.
  destruct (loc_eqb x y) eqn:E.
  - left. now apply loc_eqb_eq.
  - right. intros H. apply loc_eqb_eq in H. congruence.
Qed.

Lemma store_eq p v m : store p v m p = v.
Proof. unfold store. now rewrite Z.eqb_refl. Qed.

Lemma store_neq p q v m : q <> p -> store p v m q = m q.
Proof. intros H. unfold store. apply Z.eqb_neq in H. now rewrite H. Qed.

Lemma set_loc_eq l p f : set_loc l p f l = p.
Proof. unfold set_loc. now rewrite loc_eqb_refl. Qed.

Lemma set_loc_neq l x p f : x <> l -> set_loc l p f x = f x.
Proof. intros H. unfold set_loc. now rewrite (loc_eqb_neq H). Qed.

Lemma SWAP_PTRS_ptrs x y st l :
  ptrs (SWAP_PTRS x y st) l = ptrs st (transp x y l).
Proof.
  unfold SWAP_PTRS, transp, set_loc. simpl.
  destruct (loc_eqb l y) eqn:E1; [reflexivity|].
  destruct (loc_eqb l x) eqn:E2; reflexivity.
Qed.

Lemma SWAP_PTRS_mem x y st : mem (SWAP_PTRS x y st) = mem st.
Proof. reflexivity. Qed.

Lemma transp_invol x y l : transp x y (transp x y l) = l.
Proof.
  unfold transp.
  destruct (loc_eq_dec l y) as [->|Hy].
  - rewrite loc_eqb_refl.
    destruct (loc_eq_dec x y) as [->|Hxy]; [now rewrite loc_eqb_refl|].
    now rewrite (loc_eqb_neq Hxy), loc_eqb_refl.
  - rewrite (loc_eqb_neq Hy).
    destruct (loc_eq_dec l x) as [->|Hx].
    + now rewrite loc_eqb_refl, loc_eqb_refl.
    + now rewrite (loc_eqb_neq Hx), (loc_eqb_neq Hy), (loc_eqb_neq Hx).
Qed.

Lemma transp_in (L : loc -> Prop) x y l : L x -> L y -> L l -> L (transp x y l).
Proof.
  intros Hx Hy Hl. unfold transp.
  destruct (loc_eqb l y); [assumption|]. destruct (loc_eqb l x); assumption.
Qed.

Lemma transp_out x y l : l <> x -> l <> y -> transp x y l = l.
Proof. intros Hx Hy. unfold transp. now rewrite (loc_eqb_neq Hy), (loc_eqb_neq Hx). Qed.

Lemma transp_l x y : transp x y x = y.
Proof.
  unfold transp. destruct (loc_eq_dec x y) as [->|H].
  - now rewrite loc_eqb_refl.
  - now rewrite (loc_eqb_neq H), loc_eqb_refl.
Qed.

Lemma transp_r x y : transp x y y = x.
Proof. unfold transp. now rewrite loc_eqb_refl. Qed.

(** Ownership moved along an involution [sg] of the footprint. *)
Lemma moved_own (L : loc -> Prop) (sg : loc -> loc) (st st' : state) :
  (forall l, ptrs st' l = ptrs st (sg l)) ->
  (forall l, sg (sg l) = l) ->
  (forall l, L l -> L (sg l)) ->
  forall p, (exists l, L l /\ ptrs st' l = p) <-> (exists l, L l /\ ptrs st l = p).
Proof.
  intros Hp Hi HL p. split; intros [l [Hl E]].
  - exists (sg l). split; [now apply HL|]. now rewrite <- Hp.
  - exists (sg l). split; [now apply HL|]. now rewrite Hp, Hi.
Qed.

Lemma moved_inj (L : loc -> Prop) (sg : loc -> loc) (st st' : state) :
  (forall l, ptrs st' l = ptrs st (sg l)) ->
  (forall l, sg (sg l) = l) ->
  (forall l, L l -> L (sg l)) ->
  inj_on L st -> inj_on L st'.
Proof.
  intros Hp Hi HL Hin x y Hx Hy E. rewrite !Hp in E.
  apply Hin in E; [|now apply HL|now apply HL].
  rewrite <- (Hi x), <- (Hi y). now f_equal.
Qed.

(** A slot outside the exact footprint of a call keeps its buffer and its
    coefficient, as long as ownership is exclusive on a larger set. *)
Lemma local_val_frame (L L' : loc -> Prop) f st st' l :
  local L f -> f st = Some st' ->
  (forall x, L x -> L' x) -> inj_on L' st -> L' l -> ~ L l ->
  ptrs st' l = ptrs st l /\ val st' l = val st l.
Proof.
  intros Hloc Hf Hsub Hinj Hl Hnl.
  assert (E : ptrs st' l = ptrs st l) by (eapply local_ptrs; eauto).
  split; [exact E|]. unfold val. rewrite E.
  eapply local_mem; eauto.
  intros x Hx Heq. apply Hinj in Heq; auto. subst. contradiction.
Qed.

(** ** Locality of the control structures *)

Lemma local_ext (L : loc -> Prop) f g :
  (forall st, f st = g st) -> local L f -> local L g.
Proof.
  intros E [H1 H2 H3 H4 H5 H6]. split; intros.
  - rewrite <- E in *. eauto.
  - rewrite <- E in *. eauto.
  - rewrite <- E in *. eauto.
  - rewrite <- E in *. eauto.
  - rewrite <- E in *. eauto.
  - rewrite <- E in *. eauto.
Qed.

Lemma local_ret (L : loc -> Prop) : local L (fun st => Some st).
Proof.
  split; intros; try discriminate;
    repeat match goal with H : Some _ = Some _ |- _ => injection H as <- end;
    auto; reflexivity.
Qed.

Lemma local_none (L : loc -> Prop) : local L (fun _ => None).
Proof. split; intros; try discriminate; reflexivity. Qed.

Lemma bind_some x k st' :
  bind x k = Some st' -> exists st1, x = Some st1 /\ k st1 = Some st'.
Proof. destruct x as [st1|]; simpl; [eauto | discriminate]. Qed.

Lemma local_bind (L : loc -> Prop) f g :
  local L f -> local L g -> local L (fun st => bind (f st) g).
Proof.
  intros Hf Hg. split.
  - intros st1 st2 H.
    destruct (f st2) as [b|] eqn:E2; [|reflexivity]. simpl.
    destruct (f st1) as [a|] eqn:E1; simpl in H.
    + exact (local_def _ _ Hg _ b H).
    + rewrite (local_def _ _ Hf _ st2 E1) in E2. discriminate.
  - intros st st' H l Hl. apply bind_some in H as [s1 [H1 H2]].
    rewrite (local_ptrs _ _ Hg _ _ H2 _ Hl). exact (local_ptrs _ _ Hf _ _ H1 _ Hl).
  - intros st st' H p Hp. apply bind_some in H as [s1 [H1 H2]].
    rewrite (local_mem _ _ Hg _ _ H2).
    + exact (local_mem _ _ Hf _ _ H1 _ Hp).
    + intros l Hl E.
      destruct (proj1 (local_own _ _ Hf _ _ H1 p)) as [l' [Hl' E']]; [eauto|].
      now apply (Hp l').
  - intros st st' H p. apply bind_some in H as [s1 [H1 H2]].
    rewrite (local_own _ _ Hg _ _ H2 p). exact (local_own _ _ Hf _ _ H1 p).
  - intros st st' H Hin. apply bind_some in H as [s1 [H1 H2]].
    exact (local_inj _ _ Hg _ _ H2 (local_inj _ _ Hf _ _ H1 Hin)).
  - intros st1 st2 st1' st2' H1 H2 I1 I2 A.
    apply bind_some in H1 as [a [Ha1 Ha2]].
    apply bind_some in H2 as [b [Hb1 Hb2]].
    apply (local_sim _ _ Hg _ _ _ _ Ha2 Hb2).
    + exact (local_inj _ _ Hf _ _ Ha1 I1).
    + exact (local_inj _ _ Hf _ _ Hb1 I2).
    + exact (local_sim _ _ Hf _ _ _ _ Ha1 Hb1 I1 I2 A).
Qed.

Lemma local_for_count (L : loc -> Prop) body k : forall lo,
  (forall i, lo <= i < lo + Z.of_nat k -> local L (body i)) ->
  local L (for_count k lo body).
Proof.
  induction k as [|k IH]; intros lo Hb.
  - apply local_ret.
  - change (for_count (S k) lo body)
      with (fun st => bind (body lo st) (for_count k (lo + 1) body)).
    apply local_bind.
    + apply Hb. lia.
    + apply IH. intros i Hi. apply Hb. lia.
Qed.

Lemma local_for_loop (L : loc -> Prop) body lo hi :
  (forall i, lo <= i < hi -> local L (body i)) ->
  local L (for_loop lo hi body).
Proof.
  intros Hb. unfold for_loop. apply local_for_count.
  intros i Hi. apply Hb. lia.
Qed.

Lemma local_for_stride_rec (L : loc -> Prop) (Q : Z -> Prop) hi step body k fuel :
  (forall j, Q j -> j < hi -> Q (j + step)) ->
  (forall j, Q j -> j < hi -> local L (body j)) ->
  (forall j, Q j -> hi <= j -> local L (k j)) ->
  forall j, Q j ->
  local L (fun st => after_stride (for_stride_rec fuel j hi step body st) k).
Proof.
  intros Hstep Hbody Hk. induction fuel as [|fuel IH]; intros j Hj.
  - apply local_none.
  - simpl. destruct (Z.ltb_spec j hi) as [Hlt|Hge].
    + apply local_ext with
        (f := fun st => bind (body j st)
                (fun st' => after_stride (for_stride_rec fuel (j + step) hi step body st') k)).
      * intros st. destruct (body j st); reflexivity.
      * apply local_bind; [now apply Hbody | apply IH; now apply Hstep].
    + simpl. now apply Hk.
Qed.

Lemma local_for_stride (L : loc -> Prop) (Q : Z -> Prop) j hi step body k :
  (forall j, Q j -> j < hi -> Q (j + step)) ->
  (forall j, Q j -> j < hi -> local L (body j)) ->
  (forall j, Q j -> hi <= j -> local L (k j)) ->
  Q j ->
  local L (fun st => after_stride (for_stride j hi step body st) k).
Proof. intros. unfold for_stride. eapply local_for_stride_rec; eauto. Qed.

(** ** Locality of the elementary steps *)

Lemma out2_swap_ptrs op a b st l :
  a <> b -> ptrs (out2_swap op a b st) l = ptrs st (sg2 a b l).
Proof.
  intros Hab. unfold out2_swap. rewrite !SWAP_PTRS_ptrs. simpl.
  unfold transp. destruct l as [k| | |]; simpl.
  - destruct (Z.eqb_spec k b) as [->|Hkb]; simpl.
    + reflexivity.
    + destruct (Z.eqb_spec k a); reflexivity.
  - reflexivity.
  - destruct (Z.eqb_spec b a); [congruence|reflexivity].
  - reflexivity.
Qed.

Lemma out2_swap_mem op a b st : mem (out2_swap op a b st) = op (ptrs st) (mem st).
Proof. reflexivity. Qed.

Lemma sg2_invol a b l : a <> b -> sg2 a b (sg2 a b l) = l.
Proof.
  intros Hab. destruct l as [k| | |]; simpl; try reflexivity.
  - destruct (Z.eqb_spec k b) as [->|Hkb]; [reflexivity|].
    destruct (Z.eqb_spec k a) as [->|Hka]; simpl; [reflexivity|].
    destruct (Z.eqb_spec k b); [contradiction|].
    destruct (Z.eqb_spec k a); [contradiction|reflexivity].
  - destruct (Z.eqb_spec a b); [contradiction|]. now rewrite Z.eqb_refl.
  - now rewrite Z.eqb_refl.
Qed.

Lemma sg2_in (L : loc -> Prop) a b l :
  L (ii a) -> L (ii b) -> L t1 -> L t2 -> L l -> L (sg2 a b l).
Proof.
  intros Ha Hb H1 H2 Hl. destruct l as [k| | |]; simpl; auto.
  destruct (k =? b); auto. destruct (k =? a); auto.
Qed.

Lemma sg2_out a b l : l <> ii a -> l <> ii b -> l <> t1 -> l <> t2 -> sg2 a b l = l.
Proof.
  intros Ha Hb H1 H2. destruct l as [k| | |]; simpl; try congruence.
  destruct (Z.eqb_spec k b); [subst; congruence|].
  destruct (Z.eqb_spec k a); [subst; congruence|reflexivity].
Qed.

Section ScratchStep.

Variables (L S : loc -> Prop) (a b : Z).
Variable op : (loc -> ptr) -> memory -> memory.
Variable g : coeff -> coeff -> coeff * coeff.
Hypothesis Hop : writes_scratch S a b op g.
Hypothesis HSL : forall l, S l -> L l.
Hypothesis HSs : forall k, ~ S (ii k).
Hypothesis HS1 : S t1.
Hypothesis HS2 : S t2.
Hypothesis HLa : L (ii a).
Hypothesis HLb : L (ii b).
Hypothesis Hab : a <> b.

Lemma out2_swap_post st :
  inj_on L st ->
  let st' := out2_swap op a b st in
  val st' (ii a) = fst (g (val st (ii a)) (val st (ii b))) /\
  val st' (ii b) = snd (g (val st (ii a)) (val st (ii b))) /\
  (forall k, L (ii k) -> k <> a -> k <> b ->
     ptrs st' (ii k) = ptrs st (ii k) /\ val st' (ii k) = val st (ii k)) /\
  ptrs st' (ii a) = ptrs st t1 /\ ptrs st' (ii b) = ptrs st t2 /\
  ptrs st' t1 = ptrs st (ii a) /\ ptrs st' t2 = ptrs st (ii b).
Proof.
  intros Hinj st'.
  assert (HV := ws_val _ _ _ _ _ Hop (ptrs st) (mem st)).
  destruct HV as [V1 V2].
  { intros x y Hx Hy E. apply Hinj; auto.
    - destruct Hx as [Hx|[->| ->]]; auto.
    - destruct Hy as [Hy|[->| ->]]; auto. }
  assert (Pa : ptrs st' (ii a) = ptrs st t1).
  { unfold st'. rewrite out2_swap_ptrs by exact Hab. simpl.
    destruct (Z.eqb_spec a b); [contradiction|]. now rewrite Z.eqb_refl. }
  assert (Pb : ptrs st' (ii b) = ptrs st t2).
  { unfold st'. rewrite out2_swap_ptrs by exact Hab. simpl. now rewrite Z.eqb_refl. }
  refine (conj _ (conj _ (conj _ (conj Pa (conj Pb (conj _ _)))))).
  - unfold val at 1. rewrite Pa. exact V1.
  - unfold val at 1. rewrite Pb. exact V2.
  - intros k Hk Hka Hkb.
    assert (E : ptrs st' (ii k) = ptrs st (ii k)).
    { unfold st'. rewrite out2_swap_ptrs by exact Hab. simpl.
      destruct (Z.eqb_spec k b); [contradiction|].
      destruct (Z.eqb_spec k a); [contradiction|reflexivity]. }
    split; [exact E|].
    unfold val. rewrite E. unfold st'. rewrite out2_swap_mem.
    apply (ws_frame _ _ _ _ _ Hop). intros l Hl E'.
    apply Hinj in E'; auto. subst l. exact (HSs _ Hl).
  - unfold st'. now rewrite out2_swap_ptrs by exact Hab.
  - unfold st'. now rewrite out2_swap_ptrs by exact Hab.
Qed.

Lemma local_out2_swap : local L (fun st => Some (out2_swap op a b st)).
Proof.
  assert (HL1 : L t1) by auto. assert (HL2 : L t2) by auto.
  split.
  - discriminate.
  - intros st st' [= <-] l Hl. rewrite out2_swap_ptrs by exact Hab.
    rewrite sg2_out; [reflexivity| | | |]; intros ->; contradiction.
  - intros st st' [= <-] p Hp. rewrite out2_swap_mem.
    apply (ws_frame _ _ _ _ _ Hop). intros l Hl. apply Hp. auto.
  - intros st st' [= <-]. apply (moved_own L (sg2 a b)).
    + intros l. now apply out2_swap_ptrs.
    + intros l. now apply sg2_invol.
    + intros l. now apply sg2_in.
  - intros st st' [= <-]. apply (moved_inj L (sg2 a b)).
    + intros l. now apply out2_swap_ptrs.
    + intros l. now apply sg2_invol.
    + intros l. now apply sg2_in.
  - intros st1 st2 st1' st2' [= <-] [= <-] I1 I2 A k Hk.
    destruct (out2_swap_post st1 I1) as [Va1 [Vb1 [Vo1 _]]].
    destruct (out2_swap_post st2 I2) as [Va2 [Vb2 [Vo2 _]]].
    destruct (Z.eq_dec k a) as [->|Hka]; [|destruct (Z.eq_dec k b) as [->|Hkb]].
    + rewrite Va1, Va2, (A a HLa), (A b HLb). reflexivity.
    + rewrite Vb1, Vb2, (A a HLa), (A b HLb). reflexivity.
    + rewrite (proj2 (Vo1 k Hk Hka Hkb)), (proj2 (Vo2 k Hk Hka Hkb)). now apply A.
Qed.

End ScratchStep.

Section SlotStep.

Variables (L S : loc -> Prop) (d a b : Z).
Variable op : (loc -> ptr) -> memory -> memory.
Variable h : coeff -> coeff -> coeff.
Hypothesis Hop : writes_slot S d a b op h.
Hypothesis HSL : forall l, S l -> L l.
Hypothesis HSs : forall k, ~ S (ii k).
Hypothesis HLd : L (ii d).
Hypothesis HLa : L (ii a).
Hypothesis HLb : L (ii b).

Lemma slot_step_post st :
  inj_on L st ->
  let st' := on_mem (op (ptrs st)) st in
  val st' (ii d) = h (val st (ii a)) (val st (ii b)) /\
  (forall k, L (ii k) -> k <> d -> val st' (ii k) = val st (ii k)) /\
  ptrs st' = ptrs st.
Proof.
  intros Hinj st'. refine (conj _ (conj _ eq_refl)).
  - unfold st', val. simpl. apply (wl_val _ _ _ _ _ _ Hop).
  - intros k Hk Hkd. unfold st', val. simpl.
    apply (wl_frame _ _ _ _ _ _ Hop).
    + intros E. apply Hinj in E; auto. congruence.
    + intros l Hl E. apply Hinj in E; auto. subst l. exact (HSs _ Hl).
Qed.

Lemma local_slot_step : local L (fun st => Some (on_mem (op (ptrs st)) st)).
Proof.
  split.
  - discriminate.
  - intros st st' [= <-] l Hl. reflexivity.
  - intros st st' [= <-] p Hp. simpl.
    apply (wl_frame _ _ _ _ _ _ Hop).
    + intros E. now apply (Hp (ii d)).
    + intros l Hl. apply Hp. auto.
  - intros st st' [= <-] p. reflexivity.
  - intros st st' [= <-] Hin. exact Hin.
  - intros st1 st2 st1' st2' [= <-] [= <-] I1 I2 A k Hk.
    destruct (slot_step_post st1 I1) as [Vd1 [Vo1 _]].
    destruct (slot_step_post st2 I2) as [Vd2 [Vo2 _]].
    destruct (Z.eq_dec k d) as [->|Hkd].
    + rewrite Vd1, Vd2, (A a HLa), (A b HLb). reflexivity.
    + rewrite (Vo1 k Hk Hkd), (Vo2 k Hk Hkd). now apply A.
Qed.

End SlotStep.

(** The exchange of two slots. *)
Lemma local_swap_slots (L : loc -> Prop) a b :
  L (ii a) -> L (ii b) ->
  local L (fun st => Some (SWAP_PTRS (ii a) (ii b) st)).
Proof.
  intros Ha Hb. split.
  - discriminate.
  - intros st st' [= <-] l Hl. rewrite SWAP_PTRS_ptrs.
    rewrite transp_out; [reflexivity| |]; intros ->; contradiction.
  - intros st st' [= <-] p Hp. reflexivity.
  - intros st st' [= <-]. apply (moved_own L (transp (ii a) (ii b))).
    + intros l. apply SWAP_PTRS_ptrs.
    + intros l. apply transp_invol.
    + intros l. now apply transp_in.
  - intros st st' [= <-]. apply (moved_inj L (transp (ii a) (ii b))).
    + intros l. apply SWAP_PTRS_ptrs.
    + intros l. apply transp_invol.
    + intros l. now apply transp_in.
  - intros st1 st2 st1' st2' [= <-] [= <-] I1 I2 A k Hk.
    unfold val. rewrite !SWAP_PTRS_ptrs, !SWAP_PTRS_mem.
    unfold transp. destruct (loc_eqb (ii k) (ii b)); [now apply A|].
    destruct (loc_eqb (ii k) (ii a)); now apply A.
Qed.

(** ** The primitives as elementary steps *)

Lemma fft_butterfly_twiddle_frame u v s t limbs b1 b2 m p :
  p <> u -> p <> v -> fft_butterfly_twiddle u v s t limbs b1 b2 m p = m p.
Proof.
  intros Hu Hv. unfold fft_butterfly_twiddle, c_butterfly_lshB,
    c_mpn_mul_2expmod_2expp1, c_mpn_neg_n. cbv zeta.
  destruct (b1 >=? limbs * FLINT_BITS), (b2 >=? limbs * FLINT_BITS);
    repeat rewrite (store_neq _ p) by assumption; reflexivity.
Qed.

Lemma fft_butterfly_twiddle_out u v s t limbs b1 b2 m :
  u <> v ->
  fft_butterfly_twiddle u v s t limbs b1 b2 m u
    = fst (butterfly_twiddle_val (m s) (m t) limbs b1 b2) /\
  fft_butterfly_twiddle u v s t limbs b1 b2 m v
    = snd (butterfly_twiddle_val (m s) (m t) limbs b1 b2).
Proof.
  intros Huv. assert (Hvu : v <> u) by congruence.
  unfold fft_butterfly_twiddle, butterfly_twiddle_val, c_butterfly_lshB,
    c_mpn_mul_2expmod_2expp1, c_mpn_neg_n. cbv zeta.
  destruct (b1 >=? limbs * FLINT_BITS), (b2 >=? limbs * FLINT_BITS); simpl;
    repeat (rewrite ?store_eq; rewrite ?(store_neq v u) by assumption;
            rewrite ?(store_neq u v) by assumption);
    split; reflexivity.
Qed.

Lemma ws_fft_butterfly (S : loc -> Prop) a b i limbs w :
  S t1 -> S t2 ->
  writes_scratch S a b
    (fun Pt => c_fft_butterfly (Pt t1) (Pt t2) (Pt (ii a)) (Pt (ii b)) i limbs w)
    (fun s t => fft_butterfly s t i limbs w).
Proof.
  intros H1 H2. split.
  - intros Pt m p Hp. unfold c_fft_butterfly.
    rewrite !store_neq; auto; intros E; symmetry in E; revert E; now apply Hp.
  - intros Pt m Hinj. unfold c_fft_butterfly. split.
    + rewrite store_neq, store_eq; [reflexivity|].
      intros E. apply Hinj in E; auto. discriminate.
    + now rewrite store_eq.
Qed.

Lemma ws_fft_butterfly_sqrt2 (S : loc -> Prop) a b i limbs w :
  S t1 -> S t2 -> S temp ->
  writes_scratch S a b
    (fun Pt => c_fft_butterfly_sqrt2 (Pt t1) (Pt t2) (Pt (ii a)) (Pt (ii b)) i limbs w
                 (Pt temp))
    (fun s t => fft_butterfly_sqrt2 s t i limbs w).
Proof.
  intros H1 H2 H3. split.
  - intros Pt m p Hp. unfold c_fft_butterfly_sqrt2.
    rewrite !store_neq; auto; intros E; symmetry in E; revert E; now apply Hp.
  - intros Pt m Hinj. unfold c_fft_butterfly_sqrt2. split.
    + rewrite store_neq, store_eq; [reflexivity|].
      intros E. apply Hinj in E; auto. discriminate.
    + now rewrite store_eq.
Qed.

Lemma ws_fft_butterfly_twiddle (S : loc -> Prop) a b limbs b1 b2 :
  S t1 -> S t2 ->
  writes_scratch S a b
    (fun Pt => fft_butterfly_twiddle (Pt t1) (Pt t2) (Pt (ii a)) (Pt (ii b)) limbs b1 b2)
    (fun s t => butterfly_twiddle_val s t limbs b1 b2).
Proof.
  intros H1 H2. split.
  - intros Pt m p Hp. apply fft_butterfly_twiddle_frame;
      intros E; symmetry in E; revert E; now apply Hp.
  - intros Pt m Hinj. apply fft_butterfly_twiddle_out.
    intros E. apply Hinj in E; auto. discriminate.
Qed.

Lemma ws_if (S : loc -> Prop) a b (c : bool) op1 op2 g1 g2 :
  writes_scratch S a b op1 g1 -> writes_scratch S a b op2 g2 ->
  writes_scratch S a b (if c then op1 else op2) (if c then g1 else g2).
Proof. destruct c; auto. Qed.

Lemma wl_mpn_add_n (S : loc -> Prop) a b n :
  writes_slot S a a b
    (fun Pt => c_mpn_add_n (Pt (ii a)) (Pt (ii a)) (Pt (ii b)) n)
    (fun x y => mpn_add_n x y n).
Proof.
  split.
  - intros Pt m p Hp _. unfold c_mpn_add_n. now rewrite store_neq.
  - intros Pt m. unfold c_mpn_add_n. now rewrite store_eq.
Qed.

Lemma wl_fft_adjust (S : loc -> Prop) d a i limbs w :
  writes_slot S d a a
    (fun Pt => c_fft_adjust (Pt (ii d)) (Pt (ii a)) i limbs w)
    (fun x _ => fft_adjust x i limbs w).
Proof.
  split.
  - intros Pt m p Hp _. unfold c_fft_adjust. now rewrite store_neq.
  - intros Pt m. unfold c_fft_adjust. now rewrite store_eq.
Qed.

Lemma wl_fft_adjust_sqrt2 (S : loc -> Prop) d a i limbs w :
  S temp ->
  writes_slot S d a a
    (fun Pt => c_fft_adjust_sqrt2 (Pt (ii d)) (Pt (ii a)) i limbs w (Pt temp))
    (fun x _ => fft_adjust_sqrt2 x i limbs w).
Proof.
  intros H3. split.
  - intros Pt m p Hp Hs. unfold c_fft_adjust_sqrt2.
    rewrite !store_neq; auto. intros E. symmetry in E. revert E. now apply Hs.
  - intros Pt m. unfold c_fft_adjust_sqrt2. now rewrite store_eq.
Qed.

Lemma wl_if (S : loc -> Prop) d a b (c : bool) op1 op2 h1 h2 :
  writes_slot S d a b op1 h1 -> writes_slot S d a b op2 h2 ->
  writes_slot S d a b (if c then op1 else op2) (if c then h1 else h2).
Proof. destruct c; auto. Qed.

Lemma butterfly_swap_out2 a b i limbs w st :
  butterfly_swap a b i limbs w st
  = out2_swap (fun Pt => c_fft_butterfly (Pt t1) (Pt t2) (Pt (ii a)) (Pt (ii b)) i limbs w)
      a b st.
Proof. reflexivity. Qed.

Lemma local_butterfly_swap (L : loc -> Prop) a b i limbs w :
  L t1 -> L t2 -> L (ii a) -> L (ii b) -> a <> b ->
  local L (fun st => Some (butterfly_swap a b i limbs w st)).
Proof.
  intros H1 H2 Ha Hb Hab.
  apply (local_out2_swap L scratch2 a b _ _ (ws_fft_butterfly scratch2 a b i limbs w
           (or_introl eq_refl) (or_intror eq_refl))); auto.
  - intros l [->| ->]; assumption.
  - intros k [E|E]; discriminate.
  - now left.
  - now right.
Qed.

(** ** Locality of the transforms *)

Lemma local_some_if (L : loc -> Prop) (c : bool) (f g : state -> state) :
  local L (fun st => Some (f st)) -> local L (fun st => Some (g st)) ->
  local L (fun st => Some (if c then f st else g st)).
Proof. destruct c; auto. Qed.

Lemma local_radix2_twiddle_base (L : loc -> Prop) ii0 is_ limbs b1 b2 :
  is_ <> 0 -> L t1 -> L t2 -> L (ii (ii0 + 0)) -> L (ii (ii0 + is_)) ->
  local L (fun st =>
    Some (SWAP_PTRS (ii (ii0 + is_)) t2
            (SWAP_PTRS (ii (ii0 + 0)) t1
               (do_fft_butterfly_twiddle t1 t2 (ii (ii0 + 0)) (ii (ii0 + is_))
                  limbs b1 b2 st)))).
Proof.
  intros Hs H1 H2 Ha Hb.
  apply (local_out2_swap L scratch2 (ii0 + 0) (ii0 + is_) _ _
           (ws_fft_butterfly_twiddle scratch2 (ii0 + 0) (ii0 + is_) limbs b1 b2
              (or_introl eq_refl) (or_intror eq_refl))); auto.
  - intros l [->| ->]; assumption.
  - intros k [E|E]; discriminate.
  - now left.
  - now right.
  - lia.
Qed.

Lemma local_butterfly_layer (L : loc -> Prop) ii0 is_ n limbs w :
  is_ <> 0 -> L t1 -> L t2 ->
  (forall j, 0 <= j < 2 * n -> L (ii (ii0 + j * is_))) ->
  local L (for_loop 0 n (fun i st =>
    Some (butterfly_swap (ii0 + i * is_) (ii0 + (n + i) * is_) i limbs w st))).
Proof.
  intros Hs H1 H2 HL. apply local_for_loop. intros i Hi.
  apply local_butterfly_swap; auto.
  - apply HL. lia.
  - apply HL. lia.
  - nia.
Qed.

Lemma local_fft_radix2_twiddle_rec (L : loc -> Prop) k :
  forall ii0 is_ n w ws r c rs,
  is_ <> 0 -> L t1 -> L t2 ->
  (forall j, 0 <= j < 2 * n -> L (ii (ii0 + j * is_))) ->
  local L (fft_radix2_twiddle_rec k ii0 is_ n w ws r c rs).
Proof.
  induction k as [|k IH]; intros ii0 is_ n w ws r c rs Hs H1 H2 HL.
  - apply local_none.
  - cbn [fft_radix2_twiddle_rec]. cbv zeta.
    destruct (Z.eqb_spec n 1) as [->|Hn].
    + apply local_radix2_twiddle_base; auto.
      * replace (ii0 + 0) with (ii0 + 0 * is_) by lia. apply HL. lia.
      * replace (ii0 + is_) with (ii0 + 1 * is_) by lia. apply HL. lia.
    + apply local_bind; [now apply local_butterfly_layer|].
      apply local_bind.
      * apply IH; auto. intros j Hj. apply HL. zlia.
      * apply IH; auto. intros j Hj.
        replace (ii0 + n * is_ + j * is_) with (ii0 + (n + j) * is_) by lia.
        apply HL. zlia.
Qed.

Lemma local_fft_radix2_twiddle (L : loc -> Prop) ii0 is_ n w ws r c rs :
  is_ <> 0 -> L t1 -> L t2 ->
  (forall j, 0 <= j < 2 * n -> L (ii (ii0 + j * is_))) ->
  local L (fft_radix2_twiddle ii0 is_ n w ws r c rs).
Proof. intros. unfold fft_radix2_twiddle. now apply local_fft_radix2_twiddle_rec. Qed.

Lemma local_add_layer (L : loc -> Prop) ii0 is_ n limbs1 :
  (forall j, 0 <= j < 2 * n -> L (ii (ii0 + j * is_))) ->
  local L (for_loop 0 n (fun i st =>
    Some (do_mpn_add_n (ii (ii0 + i * is_)) (ii (ii0 + i * is_))
            (ii (ii0 + (i + n) * is_)) limbs1 st))).
Proof.
  intros HL. apply local_for_loop. intros i Hi.
  apply (local_slot_step L no_scratch (ii0 + i * is_) (ii0 + i * is_)
           (ii0 + (i + n) * is_) _ _ (wl_mpn_add_n no_scratch _ _ limbs1)).
  - intros l [].
  - intros k [].
  - apply HL. lia.
  - apply HL. lia.
  - apply HL. lia.
Qed.

Lemma local_fft_truncate1_twiddle_rec (L : loc -> Prop) k :
  forall ii0 is_ n w ws r c rs trunc,
  is_ <> 0 -> L t1 -> L t2 ->
  (forall j, 0 <= j < 2 * n -> L (ii (ii0 + j * is_))) ->
  local L (fft_truncate1_twiddle_rec k ii0 is_ n w ws r c rs trunc).
Proof.
  induction k as [|k IH]; intros ii0 is_ n w ws r c rs trunc Hs H1 H2 HL.
  - apply local_none.
  - cbn [fft_truncate1_twiddle_rec]. cbv zeta.
    destruct (trunc =? 2 * n).
    + now apply local_fft_radix2_twiddle.
    + destruct (trunc <=? n).
      * apply local_bind; [now apply local_add_layer|].
        apply IH; auto. intros j Hj. apply HL. zlia.
      * apply local_bind; [now apply local_butterfly_layer|].
        apply local_bind.
        -- apply local_fft_radix2_twiddle; auto. intros j Hj. apply HL. zlia.
        -- apply IH; auto. intros j Hj.
           replace (ii0 + n * is_ + j * is_) with (ii0 + (n + j) * is_) by lia.
           apply HL. zlia.
Qed.

Lemma local_fft_truncate1_twiddle (L : loc -> Prop) ii0 is_ n w ws r c rs trunc :
  is_ <> 0 -> L t1 -> L t2 ->
  (forall j, 0 <= j < 2 * n -> L (ii (ii0 + j * is_))) ->
  local L (fft_truncate1_twiddle ii0 is_ n w ws r c rs trunc).
Proof. intros. unfold fft_truncate1_twiddle. now apply local_fft_truncate1_twiddle_rec. Qed.

Lemma local_fft_radix2_rec (L : loc -> Prop) k :
  forall ii0 n w,
  L t1 -> L t2 ->
  (forall j, 0 <= j < 2 * n -> L (ii (ii0 + j))) ->
  local L (fft_radix2_rec k ii0 n w).
Proof.
  induction k as [|k IH]; intros ii0 n w H1 H2 HL.
  - apply local_none.
  - cbn [fft_radix2_rec]. cbv zeta.
    destruct (Z.eqb_spec n 1) as [->|Hn].
    + apply local_butterfly_swap; auto.
      * apply HL. lia.
      * apply HL. lia.
      * lia.
    + apply local_bind; [|apply local_bind].
      * apply local_for_loop. intros i Hi.
        apply local_butterfly_swap; auto.
        -- apply HL. lia.
        -- apply HL. lia.
        -- lia.
      * apply IH; auto. intros j Hj. apply HL. zlia.
      * apply IH; auto. intros j Hj.
        replace (ii0 + n + j) with (ii0 + (n + j)) by lia. apply HL. zlia.
Qed.

Lemma local_fft_radix2 (L : loc -> Prop) ii0 n w :
  L t1 -> L t2 ->
  (forall j, 0 <= j < 2 * n -> L (ii (ii0 + j))) ->
  local L (fft_radix2 ii0 n w).
Proof. intros. unfold fft_radix2. now apply local_fft_radix2_rec. Qed.

(** *** The bit reversal *)

Lemma revbin_nat_range b : forall j, 0 <= revbin_nat b j < 2 ^ Z.of_nat b.
Proof.
  induction b as [|b IH]; intros j.
  - simpl. lia.
  - cbn [revbin_nat]. specialize (IH (j / 2)).
    rewrite Nat2Z.inj_succ, Z.pow_succ_r by lia.
    assert (0 <= j mod 2 < 2) by (apply Z.mod_pos_bound; lia).
    nia.
Qed.

Lemma n_revbin_range j depth : 0 <= depth -> 0 <= n_revbin j depth < 2 ^ depth.
Proof.
  intros Hd. unfold n_revbin.
  pose proof (revbin_nat_range (Z.to_nat depth) j) as H.
  now rewrite Z2Nat.id in H by exact Hd.
Qed.

Lemma depth_loop_pow2 d k : forall depth,
  0 <= depth <= d -> d - depth <= Z.of_nat k -> depth_loop k depth (2 ^ d) = d.
Proof.
  induction k as [|k IH]; intros depth Hd Hk.
  - simpl. lia.
  - cbn [depth_loop]. rewrite Z.shiftl_1_l.
    destruct (Z.ltb_spec (2 ^ depth) (2 ^ d)) as [Hlt|Hge].
    + apply Z.pow_lt_mono_r_iff in Hlt; [|lia|lia]. apply IH; lia.
    + destruct (Z.eq_dec depth d) as [->|Hne]; [reflexivity|].
      exfalso. assert (2 ^ depth < 2 ^ d) by (apply Z.pow_lt_mono_r; lia). lia.
Qed.

Lemma depth_of_pow2 d : 0 <= d -> depth_of (2 ^ d) = d.
Proof.
  intros Hd. unfold depth_of. apply depth_loop_pow2; [lia|].
  rewrite Z2Nat.id by (apply Z.pow_nonneg; lia).
  assert (d < 2 ^ d) by (apply Z.pow_gt_lin_r; lia). lia.
Qed.

Lemma local_revbin_loop (L : loc -> Prop) ii0 stride cnt depth :
  0 <= depth -> 2 ^ depth <= cnt ->
  (forall j, 0 <= j < cnt -> L (ii (ii0 + j * stride))) ->
  local L (revbin_loop ii0 stride cnt depth).
Proof.
  intros Hd Hc HL. unfold revbin_loop. apply local_for_loop. intros j Hj.
  cbv zeta. apply local_some_if.
  - apply local_swap_slots; apply HL; [lia|].
    pose proof (n_revbin_range j depth Hd). lia.
  - apply local_ret.
Qed.

(** *** The matrix-Fourier passes *)

Lemma local_sqrt2_butterfly_step (L : loc -> Prop) (c : bool) a b i1 i2 limbs w1 w2 :
  L t1 -> L t2 -> L temp -> L (ii a) -> L (ii b) -> a <> b ->
  local L (fun st =>
    Some (SWAP_PTRS (ii b) t2 (SWAP_PTRS (ii a) t1
            (if c then do_fft_butterfly_sqrt2 t1 t2 (ii a) (ii b) i1 limbs w1 temp st
             else do_fft_butterfly t1 t2 (ii a) (ii b) i2 limbs w2 st)))).
Proof.
  intros H1 H2 H3 Ha Hb Hab. destruct c.
  - apply (local_out2_swap L scratch3 a b _ _
             (ws_fft_butterfly_sqrt2 scratch3 a b i1 limbs w1
                (or_introl eq_refl) (or_intror (or_introl eq_refl))
                (or_intror (or_intror eq_refl)))); auto.
    + intros l [->|[->| ->]]; assumption.
    + intros k [E|[E|E]]; discriminate.
    + now left.
    + right. now left.
  - now apply local_butterfly_swap.
Qed.

Lemma local_adjust_step (L : loc -> Prop) (c : bool) d a i1 i2 limbs w1 w2 :
  L temp -> L (ii d) -> L (ii a) ->
  local L (fun st =>
    Some (if c then do_fft_adjust_sqrt2 (ii d) (ii a) i1 limbs w1 temp st
          else do_fft_adjust (ii d) (ii a) i2 limbs w2 st)).
Proof.
  intros H3 Hd Ha. destruct c.
  - apply (local_slot_step L (fun l => l = temp) d a a _ _
             (wl_fft_adjust_sqrt2 _ d a i1 limbs w1 eq_refl));
      [intros l ->; assumption | intros k E; discriminate | assumption..].
  - apply (local_slot_step L no_scratch d a a _ _
             (wl_fft_adjust no_scratch d a i2 limbs w2));
      [intros l [] | intros k [] | assumption..].
Qed.

Lemma local_sqrt2_layer (L : loc -> Prop) n w n1 trunc limbs i :
  0 < n -> 0 < n1 -> 0 <= i -> trunc <= 4 * n ->
  L t1 -> L t2 -> L temp -> (forall k, 0 <= k < 4 * n -> L (ii k)) ->
  local L (sqrt2_layer n w n1 trunc limbs i).
Proof.
  intros Hn Hn1 Hi Ht H1 H2 H3 HL. unfold sqrt2_layer.
  destruct (negb (Z.land w 1 =? 0)).
  - apply (local_for_stride L (fun j => 0 <= j)); [intros; lia| | |exact Hi].
    + intros j Hj Hlt. cbv zeta.
      apply local_sqrt2_butterfly_step; auto; try (apply HL; lia). lia.
    + intros j Hj _.
      apply (local_for_stride L (fun j => 0 <= j)); [intros; lia| | |exact Hj].
      * intros j' Hj' Hlt. apply local_adjust_step; auto; apply HL; lia.
      * intros. apply local_ret.
  - apply (local_for_stride L (fun j => 0 <= j)); [intros; lia| | |exact Hi].
    + intros j Hj Hlt. cbv zeta.
      apply (local_butterfly_swap L j (2 * n + j)); auto; try (apply HL; lia). lia.
    + intros j Hj _.
      apply (local_for_stride L (fun j => 0 <= j)); [intros; lia| | |exact Hj].
      * intros j' Hj' Hlt.
        apply (local_adjust_step L false (j' + 2 * n) j' 0 j' limbs 0 (w / 2)); auto;
          apply HL; lia.
      * intros. apply local_ret.
Qed.

Lemma local_mfa_left_columns (L : loc -> Prop) n w n1 trunc n2 limbs depth :
  0 < n -> 0 < n1 -> n1 * n2 <= 2 * n -> trunc <= 4 * n ->
  0 <= depth -> 2 ^ depth <= n2 ->
  L t1 -> L t2 -> L temp -> (forall k, 0 <= k < 4 * n -> L (ii k)) ->
  local L (mfa_left_columns n w n1 trunc n2 limbs depth).
Proof.
  intros Hn Hn1 Hn2 Ht Hd Hp H1 H2 H3 HL. unfold mfa_left_columns.
  apply local_for_loop. intros i Hi.
  apply local_bind; [apply local_sqrt2_layer; auto; lia|].
  apply local_bind.
  - apply local_fft_radix2_twiddle; auto; [lia|].
    intros j Hj. apply HL.
    assert (0 <= j < n2) by zlia. nia.
  - apply local_revbin_loop; auto. intros j Hj. apply HL. nia.
Qed.

Lemma local_mfa_left_rows (L : loc -> Prop) n w n1 n2 depth2 :
  0 < n1 -> n1 * n2 <= 2 * n -> 0 <= depth2 -> 2 ^ depth2 <= n1 ->
  L t1 -> L t2 -> (forall k, 0 <= k < 2 * n -> L (ii k)) ->
  local L (mfa_left_rows w n1 n2 depth2).
Proof.
  intros Hn1 Hn2 Hd Hp H1 H2 HL. unfold mfa_left_rows.
  apply local_for_loop. intros i Hi. apply local_bind.
  - apply local_fft_radix2; auto. intros j Hj. apply HL.
    assert (0 <= j < n1) by zlia. nia.
  - apply local_revbin_loop; auto. intros j Hj. apply HL. nia.
Qed.

Lemma local_mfa_right_columns (L : loc -> Prop) n w n1 n2 trunc2 depth :
  0 < n1 -> n1 * n2 <= 2 * n -> 0 <= depth -> 2 ^ depth <= n2 ->
  L t1 -> L t2 -> (forall k, 2 * n <= k < 4 * n -> L (ii k)) ->
  local L (mfa_right_columns n w n1 n2 trunc2 depth).
Proof.
  intros Hn1 Hn2 Hd Hp H1 H2 HL. unfold mfa_right_columns.
  apply local_for_loop. intros i Hi. apply local_bind.
  - apply local_fft_truncate1_twiddle; auto; [lia|].
    intros j Hj. apply HL.
    assert (0 <= j < n2) by zlia. nia.
  - apply local_revbin_loop; auto. intros j Hj. apply HL. nia.
Qed.

Lemma local_mfa_right_rows (L : loc -> Prop) n w n1 n2 trunc2 depth depth2 :
  0 < n1 -> n1 * n2 <= 2 * n -> 0 <= depth -> 2 ^ depth <= n2 ->
  0 <= depth2 -> 2 ^ depth2 <= n1 ->
  L t1 -> L t2 -> (forall k, 2 * n <= k < 4 * n -> L (ii k)) ->
  local L (mfa_right_rows n w n1 n2 trunc2 depth depth2).
Proof.
  intros Hn1 Hn2 Hd Hp Hd2 Hp2 H1 H2 HL. unfold mfa_right_rows.
  apply local_for_loop. intros s Hs. cbv zeta.
  pose proof (n_revbin_range s depth Hd) as Hr.
  apply local_bind.
  - apply local_fft_radix2; auto. intros j Hj. apply HL.
    assert (0 <= j < n1) by zlia. nia.
  - apply local_revbin_loop; auto. intros j Hj. apply HL. nia.
Qed.

Lemma pow2_half e : 1 <= e -> 2 ^ e / 2 = 2 ^ (e - 1) /\ 2 * (2 ^ e / 2) = 2 ^ e.
Proof.
  intros He. assert (E : 2 ^ e = 2 * 2 ^ (e - 1)).
  { rewrite <- Z.pow_succ_r by lia. f_equal. lia. }
  rewrite E. rewrite (Z.mul_comm 2), Z.div_mul by lia. lia.
Qed.

Lemma mfa_valid_facts n n1 trunc : mfa_valid n n1 trunc -> mfa_facts n n1 trunc.
Proof.
  intros (d & d1 & Hd & -> & -> & Ht & Hm).
  assert (P1 : 2 <= 2 ^ d1).
  { change 2 with (2 ^ 1) at 1. apply Z.pow_le_mono_r; lia. }
  assert (P0 : 2 <= 2 ^ d).
  { change 2 with (2 ^ 1) at 1. apply Z.pow_le_mono_r; lia. }
  assert (E2 : 2 * 2 ^ d = 2 ^ d1 * 2 ^ (d + 1 - d1)).
  { rewrite <- Z.pow_add_r by lia. rewrite <- Z.pow_succ_r by lia. f_equal. lia. }
  assert (N2 : 2 * 2 ^ d / 2 ^ d1 = 2 ^ (d + 1 - d1)).
  { rewrite E2, Z.mul_comm, Z.div_mul by lia. reflexivity. }
  assert (P2 : 2 <= 2 ^ (d + 1 - d1)).
  { change 2 with (2 ^ 1) at 1. apply Z.pow_le_mono_r; lia. }
  destruct (pow2_half (d + 1 - d1)) as [Hh2 Hh2']; [lia|].
  destruct (pow2_half d1) as [Hh1 Hh1']; [lia|].
  apply Z.mod_divide in Hm; [|lia]. destruct Hm as [q Hq].
  assert (T2 : trunc - 2 * 2 ^ d = (2 * q - 2 ^ (d + 1 - d1)) * 2 ^ d1) by lia.
  assert (T3 : (trunc - 2 * 2 ^ d) / 2 ^ d1 = 2 * q - 2 ^ (d + 1 - d1)).
  { rewrite T2, Z.div_mul by lia. reflexivity. }
  split.
  - exact P0.
  - exact P1.
  - now rewrite N2.
  - rewrite N2. lia.
  - rewrite N2, depth_of_pow2 by lia. split; [lia|reflexivity].
  - rewrite depth_of_pow2 by lia. split; [lia|reflexivity].
  - exists (d + 1 - d1 - 1). rewrite N2. split; [lia|exact Hh2].
  - exists (d1 - 1). split; [lia|exact Hh1].
  - exact Ht.
  - rewrite T3, N2. split; [|split].
    + assert (0 < 2 * q - 2 ^ (d + 1 - d1)) by nia.
      assert (2 * q - 2 ^ (d + 1 - d1) <= 2 ^ (d + 1 - d1)) by nia.
      lia.
    + rewrite <- Hh2'. replace (2 * q - 2 * (2 ^ (d + 1 - d1) / 2))
        with ((q - 2 ^ (d + 1 - d1) / 2) * 2) by lia.
      apply Z.mod_mul. lia.
    + lia.
Qed.

Lemma local_fft_mfa_truncate_sqrt2 n w n1 trunc :
  mfa_valid n n1 trunc ->
  local (window 0 (4 * n) scratch3) (fft_mfa_truncate_sqrt2 n w n1 trunc).
Proof.
  intros Hv. destruct (mfa_valid_facts _ _ _ Hv) as
    [Hn Hn1 Hn2 Hg [Hd Hdp] [Hd2 Hdp2] _ _ Ht _].
  unfold fft_mfa_truncate_sqrt2. cbv zeta.
  assert (S1 : scratch3 t1) by (now left).
  assert (S2 : scratch3 t2) by (right; now left).
  assert (S3 : scratch3 temp) by (right; now right).
  apply local_bind; [|apply local_bind; [|apply local_bind]].
  - apply local_mfa_left_columns; auto; try lia; intros k Hk; cbn [window]; lia.
  - apply (local_mfa_left_rows _ n); auto; try lia; intros k Hk; cbn [window]; lia.
  - apply local_mfa_right_columns; auto; try lia; intros k Hk; cbn [window]; lia.
  - apply local_mfa_right_rows; auto; try lia; intros k Hk; cbn [window]; lia.
Qed.

Lemma local_fft_mfa_truncate_sqrt2_outer n w n1 trunc :
  mfa_valid n n1 trunc ->
  local (window 0 (4 * n) scratch3) (fft_mfa_truncate_sqrt2_outer n w n1 trunc).
Proof.
  intros Hv. destruct (mfa_valid_facts _ _ _ Hv) as
    [Hn Hn1 Hn2 Hg [Hd Hdp] [Hd2 Hdp2] _ _ Ht _].
  unfold fft_mfa_truncate_sqrt2_outer. cbv zeta.
  assert (S1 : scratch3 t1) by (now left).
  assert (S2 : scratch3 t2) by (right; now left).
  assert (S3 : scratch3 temp) by (right; now right).
  apply local_bind.
  - apply local_mfa_left_columns; auto; try lia; intros k Hk; cbn [window]; lia.
  - apply local_mfa_right_columns; auto; try lia; intros k Hk; cbn [window]; lia.
Qed.

(** ** From locality to the ownership invariant *)

Lemma NoDup_map_inj_on {A B : Type} (f : A -> B) (l : list A) :
  NoDup (map f l) -> forall x y, In x l -> In y l -> f x = f y -> x = y.
Proof.
  induction l as [|a l IH]; simpl; intros Hnd x y Hx Hy E; [contradiction|].
  inversion Hnd as [|? ? Hna Hnd']; subst.
  destruct Hx as [->|Hx], Hy as [->|Hy]; auto.
  - exfalso. apply Hna. rewrite E. now apply in_map.
  - exfalso. apply Hna. rewrite <- E. now apply in_map.
Qed.

Lemma in_slots lo len l :
  In l (slots lo len) <-> exists k, l = ii k /\ lo <= k < lo + len.
Proof.
  unfold slots. rewrite in_map_iff. split.
  - intros [x [<- Hx]]. apply in_seq in Hx. exists (lo + Z.of_nat x). split; [reflexivity|lia].
  - intros [k [-> Hk]]. exists (Z.to_nat (k - lo)). split.
    + f_equal. lia.
    + apply in_seq. lia.
Qed.

Lemma NoDup_slots lo len : NoDup (slots lo len).
Proof.
  unfold slots. apply NoDup_map_NoDup_ForallPairs; [|apply seq_NoDup].
  intros x y _ _ E. injection E as E. lia.
Qed.

Lemma in_owners n l : In l (owners n) <-> window 0 (4 * n) scratch3 l.
Proof.
  unfold owners. rewrite in_app_iff, in_slots. split.
  - intros [[k [-> Hk]]|H].
    + cbn [window]. lia.
    + destruct H as [<-|[<-|[<-|[]]]]; cbn [window]; unfold scratch3; auto.
  - destruct l as [k| | |]; cbn [window].
    + intros Hk. left. exists k. split; [reflexivity|lia].
    + intros _. right. simpl. auto.
    + intros _. right. simpl. auto.
    + intros _. right. simpl. auto.
Qed.

Lemma NoDup_owners n : NoDup (owners n).
Proof.
  unfold owners. apply NoDup_app; [apply NoDup_slots| |].
  - repeat constructor; simpl; intuition discriminate.
  - intros l H1 H2. apply in_slots in H1 as [k [-> _]].
    simpl in H2. intuition discriminate.
Qed.

Lemma ownership_inj n st : ownership n st <-> inj_on (window 0 (4 * n) scratch3) st.
Proof.
  unfold ownership, owned. split.
  - intros H x y Hx Hy E. apply in_owners in Hx, Hy.
    eapply NoDup_map_inj_on; eauto.
  - intros H. apply NoDup_map_NoDup_ForallPairs; [|apply NoDup_owners].
    intros x y Hx Hy E. apply in_owners in Hx, Hy. now apply H.
Qed.

Lemma local_preserves_ownership n f :
  local (window 0 (4 * n) scratch3) f -> preserves_ownership n f.
Proof.
  intros Hloc st st' Hown Hf.
  assert (Hown' : ownership n st').
  { apply ownership_inj. apply (local_inj _ _ Hloc _ _ Hf). now apply ownership_inj. }
  split; [exact Hown'|].
  apply NoDup_Permutation; [exact Hown|exact Hown'|].
  intros p. unfold owned. rewrite !in_map_iff.
  pose proof (local_own _ _ Hloc _ _ Hf p) as [H1 H2]. split.
  - intros [l [E Hl]]. apply in_owners in Hl.
    destruct H2 as [l' [Hl' E']]; [eauto|].
    exists l'. split; [exact E'|now apply in_owners].
  - intros [l [E Hl]]. apply in_owners in Hl.
    destruct H1 as [l' [Hl' E']]; [eauto|].
    exists l'. split; [exact E'|now apply in_owners].
Qed.

(** ** Termination *)

Lemma total_bind f g : total f -> total g -> total (fun st => bind (f st) g).
Proof.
  intros Hf Hg st. destruct (Hf st) as [s1 E]. rewrite E. simpl. apply Hg.
Qed.

Lemma total_some (f : state -> state) : total (fun st => Some (f st)).
Proof. intros st. eauto. Qed.

Lemma total_for_count body k : forall lo,
  (forall i, total (body i)) -> total (for_count k lo body).
Proof.
  induction k as [|k IH]; intros lo Hb st; simpl.
  - eauto.
  - destruct (Hb lo st) as [s1 E]. rewrite E. simpl. now apply IH.
Qed.

Lemma total_for_loop body lo hi :
  (forall i, total (body i)) -> total (for_loop lo hi body).
Proof. intros. unfold for_loop. now apply total_for_count. Qed.

Lemma total_for_stride_rec hi step body k fuel :
  0 < step -> (forall j, total (body j)) -> (forall j, total (k j)) ->
  forall j, (Z.to_nat (hi - j) < fuel)%nat ->
  total (fun st => after_stride (for_stride_rec fuel j hi step body st) k).
Proof.
  intros Hs Hb Hk. induction fuel as [|fuel IH]; intros j Hf st; [lia|].
  cbn [for_stride_rec]. destruct (Z.ltb_spec j hi) as [Hlt|Hge].
  - destruct (Hb j st) as [s1 E]. rewrite E. apply IH. lia.
  - simpl. apply Hk.
Qed.

Lemma total_for_stride j hi step body k :
  0 < step -> (forall j, total (body j)) -> (forall j, total (k j)) ->
  total (fun st => after_stride (for_stride j hi step body st) k).
Proof. intros. unfold for_stride. apply total_for_stride_rec; auto. Qed.

Lemma total_fft_radix2_twiddle_rec k : forall ii0 is_ n w ws r c rs,
  1 <= n -> (Z.to_nat n <= k)%nat ->
  total (fft_radix2_twiddle_rec k ii0 is_ n w ws r c rs).
Proof.
  induction k as [|k IH]; intros ii0 is_ n w ws r c rs Hn Hk; [lia|].
  cbn [fft_radix2_twiddle_rec]. cbv zeta.
  destruct (Z.eqb_spec n 1) as [->|Hn1].
  - apply total_some.
  - apply total_bind; [|apply total_bind].
    + apply total_for_loop. intros i. apply total_some.
    + apply IH; zlia.
    + apply IH; zlia.
Qed.

Lemma total_fft_radix2_twiddle ii0 is_ n w ws r c rs :
  1 <= n -> total (fft_radix2_twiddle ii0 is_ n w ws r c rs).
Proof. intros. unfold fft_radix2_twiddle. apply total_fft_radix2_twiddle_rec; lia. Qed.

Lemma total_fft_radix2_rec k : forall ii0 n w,
  1 <= n -> (Z.to_nat n <= k)%nat -> total (fft_radix2_rec k ii0 n w).
Proof.
  induction k as [|k IH]; intros ii0 n w Hn Hk; [lia|].
  cbn [fft_radix2_rec]. cbv zeta.
  destruct (Z.eqb_spec n 1) as [->|Hn1].
  - apply total_some.
  - apply total_bind; [|apply total_bind].
    + apply total_for_loop. intros i. apply total_some.
    + apply IH; zlia.
    + apply IH; zlia.
Qed.

Lemma total_fft_radix2 ii0 n w : 1 <= n -> total (fft_radix2 ii0 n w).
Proof. intros. unfold fft_radix2. apply total_fft_radix2_rec; lia. Qed.

(** The truncated transform returns when [n] is a power of two and [trunc] is
    even with [2 <= trunc <= 2n]. *)
Lemma total_fft_truncate1_twiddle_rec k : forall e ii0 is_ w ws r c rs trunc,
  0 <= e -> (Z.to_nat (2 ^ e) <= k)%nat ->
  2 <= trunc <= 2 * 2 ^ e -> trunc mod 2 = 0 ->
  total (fft_truncate1_twiddle_rec k ii0 is_ (2 ^ e) w ws r c rs trunc).
Proof.
  induction k as [|k IH]; intros e ii0 is_ w ws r c rs trunc He Hk Ht Hm.
  - assert (0 < 2 ^ e) by (apply Z.pow_pos_nonneg; lia). lia.
  - assert (Hp : 0 < 2 ^ e) by (apply Z.pow_pos_nonneg; lia).
    cbn [fft_truncate1_twiddle_rec]. cbv zeta.
    destruct (Z.eqb_spec trunc (2 * 2 ^ e)) as [E|Hne].
    + apply total_fft_radix2_twiddle. lia.
    + assert (He1 : 1 <= e).
      { destruct (Z.eq_dec e 0) as [->|]; [|lia]. simpl in *. zlia. }
      destruct (pow2_half e He1) as [Hh Hh']. rewrite Hh.
      assert (Hp' : 0 < 2 ^ (e - 1)) by (apply Z.pow_pos_nonneg; lia).
      destruct (Z.leb_spec trunc (2 ^ e)) as [Hle|Hgt].
      * apply total_bind.
        -- apply total_for_loop. intros i. apply total_some.
        -- apply IH; lia.
      * apply total_bind; [|apply total_bind].
        -- apply total_for_loop. intros i. apply total_some.
        -- apply total_fft_radix2_twiddle. lia.
        -- assert (E2 : 2 ^ e = 2 * 2 ^ (e - 1)) by lia.
           apply IH; try lia; zlia.
Qed.

Lemma total_fft_truncate1_twiddle e ii0 is_ w ws r c rs trunc :
  0 <= e -> 2 <= trunc <= 2 * 2 ^ e -> trunc mod 2 = 0 ->
  total (fft_truncate1_twiddle ii0 is_ (2 ^ e) w ws r c rs trunc).
Proof.
  intros. unfold fft_truncate1_twiddle. apply total_fft_truncate1_twiddle_rec; auto.
Qed.

Lemma total_revbin_loop ii0 stride cnt depth : total (revbin_loop ii0 stride cnt depth).
Proof. unfold revbin_loop. apply total_for_loop. intros j. apply total_some. Qed.

Lemma total_sqrt2_layer n w n1 trunc limbs i :
  0 < n1 -> total (sqrt2_layer n w n1 trunc limbs i).
Proof.
  intros Hn1. unfold sqrt2_layer. destruct (negb (Z.land w 1 =? 0)).
  - apply total_for_stride; auto.
    + intros j. apply total_some.
    + intros j. apply total_for_stride; auto; intros; apply total_some.
  - apply total_for_stride; auto.
    + intros j. apply total_some.
    + intros j. apply total_for_stride; auto; intros; apply total_some.
Qed.

Lemma total_mfa_left_columns n w n1 trunc limbs :
  mfa_valid n n1 trunc ->
  total (mfa_left_columns n w n1 trunc (2 * n / n1) limbs (depth_of (2 * n / n1))).
Proof.
  intros Hv. destruct (mfa_valid_facts _ _ _ Hv) as
    [Hn Hn1 Hn2 Hg _ _ [e [He Hh]] _ _ _].
  unfold mfa_left_columns. apply total_for_loop. intros i.
  apply total_bind; [apply total_sqrt2_layer; lia|].
  apply total_bind; [|apply total_revbin_loop].
  apply total_fft_radix2_twiddle. zlia.
Qed.

Lemma total_mfa_left_rows n w n1 trunc :
  mfa_valid n n1 trunc ->
  total (mfa_left_rows w n1 (2 * n / n1) (depth_of n1)).
Proof.
  intros Hv. destruct (mfa_valid_facts _ _ _ Hv) as [Hn Hn1 _ _ _ _ _ _ _ _].
  unfold mfa_left_rows. apply total_for_loop. intros i.
  apply total_bind; [|apply total_revbin_loop].
  apply total_fft_radix2. zlia.
Qed.

Lemma total_mfa_right_rows n w n1 trunc :
  mfa_valid n n1 trunc ->
  total (mfa_right_rows n w n1 (2 * n / n1) ((trunc - 2 * n) / n1)
           (depth_of (2 * n / n1)) (depth_of n1)).
Proof.
  intros Hv. destruct (mfa_valid_facts _ _ _ Hv) as [Hn Hn1 _ _ _ _ _ _ _ _].
  unfold mfa_right_rows. apply total_for_loop. intros i. cbv zeta.
  apply total_bind; [|apply total_revbin_loop].
  apply total_fft_radix2. zlia.
Qed.

Lemma total_mfa_right_columns n w n1 trunc :
  mfa_valid n n1 trunc ->
  total (mfa_right_columns n w n1 (2 * n / n1) ((trunc - 2 * n) / n1)
           (depth_of (2 * n / n1))).
Proof.
  intros Hv. destruct (mfa_valid_facts _ _ _ Hv) as
    [Hn Hn1 Hn2 Hg _ _ [e [He Hh]] _ _ [Ht2 [Hev _]]].
  unfold mfa_right_columns. apply total_for_loop. intros i.
  apply total_bind; [|apply total_revbin_loop].
  rewrite Hh. apply total_fft_truncate1_twiddle; auto.
  rewrite <- Hh. zlia.
Qed.

Lemma total_fft_mfa_truncate_sqrt2 n w n1 trunc :
  mfa_valid n n1 trunc -> total (fft_mfa_truncate_sqrt2 n w n1 trunc).
Proof.
  intros Hv. unfold fft_mfa_truncate_sqrt2. cbv zeta.
  apply total_bind; [now apply total_mfa_left_columns|].
  apply total_bind; [now apply (total_mfa_left_rows n w n1 trunc)|].
  apply total_bind; [now apply total_mfa_right_columns|].
  now apply total_mfa_right_rows.
Qed.

Lemma total_fft_mfa_truncate_sqrt2_outer n w n1 trunc :
  mfa_valid n n1 trunc -> total (fft_mfa_truncate_sqrt2_outer n w n1 trunc).
Proof.
  intros Hv. unfold fft_mfa_truncate_sqrt2_outer. cbv zeta.
  apply total_bind; [now apply total_mfa_left_columns|].
  now apply total_mfa_right_columns.
Qed.

(** ** The recursion equations

    The counter that drives the recursion does not show in the result: a call
    on [n >= 1] unfolds as the C function does. *)

Lemma fft_radix2_twiddle_rec_fuel k1 : forall k2 ii0 is_ n w ws r c rs st,
  1 <= n -> (Z.to_nat n <= k1)%nat -> (Z.to_nat n <= k2)%nat ->
  fft_radix2_twiddle_rec k1 ii0 is_ n w ws r c rs st
  = fft_radix2_twiddle_rec k2 ii0 is_ n w ws r c rs st.
Proof.
  induction k1 as [|k1 IH]; intros k2 ii0 is_ n w ws r c rs st Hn H1 H2; [lia|].
  destruct k2 as [|k2]; [lia|].
  cbn [fft_radix2_twiddle_rec]. cbv zeta.
  destruct (Z.eqb_spec n 1) as [->|Hn1]; [reflexivity|].
  destruct (for_loop 0 n _ st) as [s1|]; cbn [bind]; [|reflexivity].
  rewrite (IH k2 ii0 is_ (n / 2) (2 * w) ws r c (2 * rs) s1) by zlia.
  destruct (fft_radix2_twiddle_rec k2 ii0 is_ (n / 2) (2 * w) ws r c (2 * rs) s1)
    as [s2|]; cbn [bind]; [|reflexivity].
  apply IH; zlia.
Qed.

Lemma fft_radix2_twiddle_base ii0 is_ w ws r c rs st :
  fft_radix2_twiddle ii0 is_ 1 w ws r c rs st
  = Some (SWAP_PTRS (ii (ii0 + is_)) t2
            (SWAP_PTRS (ii (ii0 + 0)) t1
               (do_fft_butterfly_twiddle t1 t2 (ii (ii0 + 0)) (ii (ii0 + is_))
                  (w * 1 / FLINT_BITS) (r * c * ws) ((r * c + rs * c) * ws) st))).
Proof. reflexivity. Qed.

Lemma fft_radix2_twiddle_unfold ii0 is_ n w ws r c rs st :
  2 <= n ->
  fft_radix2_twiddle ii0 is_ n w ws r c rs st
  = (st <- for_loop 0 n (fun i st =>
             Some (butterfly_swap (ii0 + i * is_) (ii0 + (n + i) * is_) i
                     (w * n / FLINT_BITS) w st)) st ;;
     st <- fft_radix2_twiddle ii0 is_ (n / 2) (2 * w) ws r c (2 * rs) st ;;
     fft_radix2_twiddle (ii0 + n * is_) is_ (n / 2) (2 * w) ws (r + rs) c (2 * rs) st).
Proof.
  intros Hn. unfold fft_radix2_twiddle at 1.
  destruct (Z.to_nat n) as [|k] eqn:E; [lia|].
  cbn [fft_radix2_twiddle_rec]. cbv zeta.
  destruct (Z.eqb_spec n 1) as [->|Hn1]; [lia|].
  destruct (for_loop 0 n _ st) as [s1|]; cbn [bind]; [|reflexivity].
  unfold fft_radix2_twiddle.
  rewrite (fft_radix2_twiddle_rec_fuel k (Z.to_nat (n / 2)) ii0 is_ (n / 2) (2 * w) ws r c
             (2 * rs) s1) by zlia.
  destruct (fft_radix2_twiddle_rec (Z.to_nat (n / 2)) ii0 is_ (n / 2) (2 * w) ws r c
              (2 * rs) s1) as [s2|]; cbn [bind]; [|reflexivity].
  apply fft_radix2_twiddle_rec_fuel; zlia.
Qed.

Lemma fft_truncate1_twiddle_rec_none k : forall ii0 is_ n w ws r c rs trunc st,
  n <= 0 -> fft_truncate1_twiddle_rec k ii0 is_ n w ws r c rs trunc st = None.
Proof.
  induction k as [|k IH]; intros ii0 is_ n w ws r c rs trunc st Hn; [reflexivity|].
  cbn [fft_truncate1_twiddle_rec]. cbv zeta.
  assert (Z0 : Z.to_nat n = O) by lia.
  assert (Z1 : Z.to_nat (n / 2) = O) by zlia.
  destruct (trunc =? 2 * n).
  - unfold fft_radix2_twiddle. now rewrite Z0.
  - destruct (trunc <=? n).
    + destruct (for_loop 0 n _ st) as [s1|]; cbn [bind]; [|reflexivity]. apply IH. zlia.
    + destruct (for_loop 0 n _ st) as [s1|]; cbn [bind]; [|reflexivity].
      unfold fft_radix2_twiddle. now rewrite Z1.
Qed.

Lemma fft_truncate1_twiddle_rec_fuel k1 : forall k2 ii0 is_ n w ws r c rs trunc st,
  (Z.to_nat n <= k1)%nat -> (Z.to_nat n <= k2)%nat ->
  fft_truncate1_twiddle_rec k1 ii0 is_ n w ws r c rs trunc st
  = fft_truncate1_twiddle_rec k2 ii0 is_ n w ws r c rs trunc st.
Proof.
  induction k1 as [|k1 IH]; intros k2 ii0 is_ n w ws r c rs trunc st H1 H2.
  - rewrite !fft_truncate1_twiddle_rec_none by lia. reflexivity.
  - destruct k2 as [|k2]; [rewrite !fft_truncate1_twiddle_rec_none by lia; reflexivity|].
    destruct (Z_le_gt_dec n 0) as [Hn|Hn];
      [rewrite !fft_truncate1_twiddle_rec_none by lia; reflexivity|].
    cbn [fft_truncate1_twiddle_rec]. cbv zeta.
    destruct (trunc =? 2 * n); [reflexivity|].
    destruct (trunc <=? n).
    + destruct (for_loop 0 n _ st) as [s1|]; cbn [bind]; [|reflexivity]. apply IH; zlia.
    + destruct (for_loop 0 n _ st) as [s1|]; cbn [bind]; [|reflexivity].
      destruct (fft_radix2_twiddle ii0 is_ (n / 2) (2 * w) ws r c (2 * rs) s1)
        as [s2|]; cbn [bind]; [|reflexivity].
      apply IH; zlia.
Qed.

Lemma fft_truncate1_twiddle_unfold ii0 is_ n w ws r c rs trunc st :
  1 <= n ->
  fft_truncate1_twiddle ii0 is_ n w ws r c rs trunc st
  = if trunc =? 2 * n then
      fft_radix2_twiddle ii0 is_ n w ws r c rs st
    else if trunc <=? n then
      st <- for_loop 0 n (fun i st =>
              Some (do_mpn_add_n (ii (ii0 + i * is_)) (ii (ii0 + i * is_))
                      (ii (ii0 + (i + n) * is_)) (w * n / FLINT_BITS + 1) st)) st ;;
      fft_truncate1_twiddle ii0 is_ (n / 2) (2 * w) ws r c (2 * rs) trunc st
    else
      st <- for_loop 0 n (fun i st =>
              Some (butterfly_swap (ii0 + i * is_) (ii0 + (n + i) * is_) i
                      (w * n / FLINT_BITS) w st)) st ;;
      st <- fft_radix2_twiddle ii0 is_ (n / 2) (2 * w) ws r c (2 * rs) st ;;
      fft_truncate1_twiddle (ii0 + n * is_) is_ (n / 2) (2 * w) ws (r + rs) c
        (2 * rs) (trunc - n) st.
Proof.
  intros Hn. unfold fft_truncate1_twiddle at 1.
  destruct (Z.to_nat n) as [|k] eqn:E; [lia|].
  cbn [fft_truncate1_twiddle_rec]. cbv zeta.
  destruct (trunc =? 2 * n); [reflexivity|].
  destruct (trunc <=? n).
  - destruct (for_loop 0 n _ st) as [s1|]; cbn [bind]; [|reflexivity].
    apply fft_truncate1_twiddle_rec_fuel; zlia.
  - destruct (for_loop 0 n _ st) as [s1|]; cbn [bind]; [|reflexivity].
    destruct (fft_radix2_twiddle ii0 is_ (n / 2) (2 * w) ws r c (2 * rs) s1)
      as [s2|]; cbn [bind]; [|reflexivity].
    apply fft_truncate1_twiddle_rec_fuel; zlia.
Qed.

(** ** Loop invariants *)

Lemma for_count_inv (I : Z -> state -> Prop) body k : forall lo st st',
  I lo st ->
  (forall i s s', lo <= i < lo + Z.of_nat k -> I i s -> body i s = Some s' -> I (i + 1) s') ->
  for_count k lo body st = Some st' -> I (lo + Z.of_nat k) st'.
Proof.
  induction k as [|k IH]; intros lo st st' H0 Hstep Hrun.
  - simpl in Hrun. injection Hrun as <-. now rewrite Z.add_0_r.
  - cbn [for_count] in Hrun. apply bind_some in Hrun as [s1 [E1 E2]].
    replace (lo + Z.of_nat (S k)) with (lo + 1 + Z.of_nat k) by lia.
    apply (IH (lo + 1) s1 st'); auto.
    + apply (Hstep lo st s1); auto. lia.
    + intros i s s' Hi. apply Hstep. lia.
Qed.

Lemma for_loop_inv (I : Z -> state -> Prop) body lo hi st st' :
  lo <= hi -> I lo st ->
  (forall i s s', lo <= i < hi -> I i s -> body i s = Some s' -> I (i + 1) s') ->
  for_loop lo hi body st = Some st' -> I hi st'.
Proof.
  intros Hle H0 Hstep Hrun. unfold for_loop in Hrun.
  replace hi with (lo + Z.of_nat (Z.to_nat (hi - lo))) by lia.
  eapply for_count_inv; eauto. intros i s s' Hi. apply Hstep. lia.
Qed.

Lemma scratch2_in (L : loc -> Prop) : L t1 -> L t2 -> forall l, scratch2 l -> L l.
Proof. intros H1 H2 l [->| ->]; assumption. Qed.

Lemma scratch2_no_slot k : ~ scratch2 (ii k).
Proof. intros [E|E]; discriminate. Qed.

Lemma butterfly_swap_post (L : loc -> Prop) a b i limbs w st :
  L t1 -> L t2 -> L (ii a) -> L (ii b) -> a <> b -> inj_on L st ->
  let st' := butterfly_swap a b i limbs w st in
  val st' (ii a) = fst (fft_butterfly (val st (ii a)) (val st (ii b)) i limbs w) /\
  val st' (ii b) = snd (fft_butterfly (val st (ii a)) (val st (ii b)) i limbs w) /\
  (forall k, L (ii k) -> k <> a -> k <> b ->
     ptrs st' (ii k) = ptrs st (ii k) /\ val st' (ii k) = val st (ii k)) /\
  ptrs st' (ii a) = ptrs st t1 /\ ptrs st' (ii b) = ptrs st t2 /\
  ptrs st' t1 = ptrs st (ii a) /\ ptrs st' t2 = ptrs st (ii b).
Proof.
  intros H1 H2 Ha Hb Hab Hinj. rewrite butterfly_swap_out2.
  exact (out2_swap_post L scratch2 a b _ _
           (ws_fft_butterfly scratch2 a b i limbs w (or_introl eq_refl) (or_intror eq_refl))
           (scratch2_in L H1 H2) scratch2_no_slot Ha Hb Hab st Hinj).
Qed.

Lemma stride_inj ii0 is_ x y : is_ <> 0 -> ii0 + x * is_ = ii0 + y * is_ -> x = y.
Proof.
  intros Hs E. assert (E' : (x - y) * is_ = 0) by lia.
  apply Z.mul_eq_0 in E'. lia.
Qed.

(** The layer of [n] untwiddled butterflies: slot [i] is paired with slot
    [n + i], for every [i < n]. *)
Lemma butterfly_layer_post (L : loc -> Prop) ii0 is_ n limbs w st st' :
  is_ <> 0 -> L t1 -> L t2 ->
  (forall j, 0 <= j < 2 * n -> L (ii (ii0 + j * is_))) ->
  inj_on L st ->
  for_loop 0 n (fun i st =>
    Some (butterfly_swap (ii0 + i * is_) (ii0 + (n + i) * is_) i limbs w st)) st
    = Some st' ->
  inj_on L st' /\
  forall i, 0 <= i < n ->
    val st' (ii (ii0 + i * is_))
      = fst (fft_butterfly (val st (ii (ii0 + i * is_)))
               (val st (ii (ii0 + (n + i) * is_))) i limbs w) /\
    val st' (ii (ii0 + (n + i) * is_))
      = snd (fft_butterfly (val st (ii (ii0 + i * is_)))
               (val st (ii (ii0 + (n + i) * is_))) i limbs w).
Proof.
  intros Hs H1 H2 HL Hinj Hrun.
  destruct (Z_lt_le_dec n 0) as [Hneg|Hpos].
  { unfold for_loop in Hrun. replace (Z.to_nat (n - 0)) with O in Hrun by lia.
    simpl in Hrun. injection Hrun as <-. split; [exact Hinj|]. intros; lia. }
  set (G := fun i => fft_butterfly (val st (ii (ii0 + i * is_)))
                       (val st (ii (ii0 + (n + i) * is_))) i limbs w).
  pose (I := fun (i : Z) (s : state) =>
    inj_on L s /\
    forall j, 0 <= j < n ->
      (j < i -> val s (ii (ii0 + j * is_)) = fst (G j) /\
                val s (ii (ii0 + (n + j) * is_)) = snd (G j)) /\
      (i <= j -> val s (ii (ii0 + j * is_)) = val st (ii (ii0 + j * is_)) /\
                 val s (ii (ii0 + (n + j) * is_)) = val st (ii (ii0 + (n + j) * is_)))).
  assert (HI : I n st').
  { refine (for_loop_inv I _ 0 n st st' Hpos _ _ Hrun).
    - split; [exact Hinj|]. intros j Hj. split; [lia|auto].
    - intros i s s' Hi [Is Iv] Hb. injection Hb as <-.
      assert (La : L (ii (ii0 + i * is_))) by (apply HL; lia).
      assert (Lb : L (ii (ii0 + (n + i) * is_))) by (apply HL; lia).
      assert (Hab : ii0 + i * is_ <> ii0 + (n + i) * is_).
      { intros E. apply stride_inj in E; auto. lia. }
      pose proof (local_butterfly_swap L _ _ i limbs w H1 H2 La Lb Hab) as Hloc.
      split; [exact (local_inj _ _ Hloc _ _ eq_refl Is)|].
      destruct (butterfly_swap_post L _ _ i limbs w s H1 H2 La Lb Hab Is)
        as [Va [Vb [Vo _]]].
      intros j Hj.
      destruct (Z.eq_dec j i) as [->|Hji].
      + split; [intros _|lia].
        rewrite Va, Vb.
        destruct (Iv i Hi) as [_ Hold]. destruct Hold as [Ea Eb]; [lia|].
        rewrite Ea, Eb. split; reflexivity.
      + assert (D1 : ii0 + j * is_ <> ii0 + i * is_).
        { intros E. apply stride_inj in E; auto. }
        assert (D2 : ii0 + j * is_ <> ii0 + (n + i) * is_).
        { intros E. apply stride_inj in E; auto. lia. }
        assert (D3 : ii0 + (n + j) * is_ <> ii0 + i * is_).
        { intros E. apply stride_inj in E; auto. lia. }
        assert (D4 : ii0 + (n + j) * is_ <> ii0 + (n + i) * is_).
        { intros E. apply stride_inj in E; auto. lia. }
        destruct (Vo (ii0 + j * is_)) as [_ E1]; auto. { apply HL. lia. }
        destruct (Vo (ii0 + (n + j) * is_)) as [_ E2]; auto. { apply HL. lia. }
        rewrite E1, E2. destruct (Iv j Hj) as [Hlt Hge].
        split; intros Hc; [apply Hlt|apply Hge]; lia. }
  destruct HI as [Hinj' Hv]. split; [exact Hinj'|].
  intros i Hi. destruct (Hv i Hi) as [Hlt _]. apply Hlt. lia.
Qed.

(** The fold of the upper half into the lower half by [mpn_add_n]: no
    location changes owner, only the buffers of the lower slots are written. *)
Lemma add_layer_post (L : loc -> Prop) ii0 is_ n limbs1 st st' :
  is_ <> 0 ->
  (forall j, 0 <= j < 2 * n -> L (ii (ii0 + j * is_))) ->
  inj_on L st ->
  for_loop 0 n (fun i st =>
    Some (do_mpn_add_n (ii (ii0 + i * is_)) (ii (ii0 + i * is_))
            (ii (ii0 + (i + n) * is_)) limbs1 st)) st = Some st' ->
  (forall l, ptrs st' l = ptrs st l) /\
  (forall p, (forall i, 0 <= i < n -> ptrs st (ii (ii0 + i * is_)) <> p) ->
             mem st' p = mem st p) /\
  forall i, 0 <= i < n ->
    val st' (ii (ii0 + i * is_))
      = mpn_add_n (val st (ii (ii0 + i * is_))) (val st (ii (ii0 + (i + n) * is_))) limbs1.
Proof.
  intros Hs HL Hinj Hrun.
  destruct (Z_lt_le_dec n 0) as [Hneg|Hpos].
  { unfold for_loop in Hrun. replace (Z.to_nat (n - 0)) with O in Hrun by lia.
    simpl in Hrun. injection Hrun as <-. repeat split; auto. intros; lia. }
  pose (I := fun (i : Z) (s : state) =>
    (forall l, ptrs s l = ptrs st l) /\
    (forall p, (forall j, 0 <= j < n -> ptrs st (ii (ii0 + j * is_)) <> p) ->
               mem s p = mem st p) /\
    forall j, 0 <= j < n ->
      (j < i -> val s (ii (ii0 + j * is_))
                = mpn_add_n (val st (ii (ii0 + j * is_)))
                    (val st (ii (ii0 + (j + n) * is_))) limbs1) /\
      (i <= j -> val s (ii (ii0 + j * is_)) = val st (ii (ii0 + j * is_)))).
  assert (HI : I n st').
  { refine (for_loop_inv I _ 0 n st st' Hpos _ _ Hrun).
    - split; [reflexivity|]. split; [reflexivity|]. intros j Hj. split; [lia|auto].
    - intros i s s' Hi [Ip [Im Iv]] Hb. injection Hb as <-.
      unfold do_mpn_add_n, on_mem, c_mpn_add_n. split; [exact Ip|]. split.
      + intros p Hp. simpl. rewrite store_neq; [now apply Im|].
        intros ->. apply (Hp i Hi). now rewrite Ip.
      + intros j Hj. unfold val. simpl. rewrite !Ip.
        destruct (Z.eq_dec j i) as [->|Hji].
        * split; [intros _|lia]. rewrite store_eq.
          destruct (Iv i Hi) as [_ Hold]. unfold val in Hold. rewrite Ip in Hold.
          rewrite Hold by lia. f_equal.
          apply Im. intros j Hj' E. apply Hinj in E; try (apply HL; lia).
          injection E as E. apply stride_inj in E; auto. lia.
        * rewrite store_neq.
          -- destruct (Iv j Hj) as [Hlt Hge]. unfold val in Hlt, Hge.
             rewrite Ip in Hlt, Hge. split; intros Hc; [apply Hlt|apply Hge]; lia.
          -- intros E. apply Hinj in E; try (apply HL; lia).
             injection E as E. apply stride_inj in E; auto. }
  destruct HI as [Hp [Hm Hv]]. split; [exact Hp|]. split; [exact Hm|].
  intros i Hi. destruct (Hv i Hi) as [Hlt _]. apply Hlt. lia.
Qed.

(** ** The twiddled and the truncated transform *)

(** C5. [fft_radix2_twiddle] on a power of two [n], with arguments in the
    range of the C arithmetic.  At [n = 1] it applies one twiddled butterfly
    with the exponents [tw1 = r * c] and [tw2 = tw1 + rs * c], each scaled by
    [ws], and places the two results by exchanging the slots with the scratch
    variables.  At [n > 1] it applies one layer of untwiddled butterflies of
    weight [w] that pairs slot [i] with slot [n + i] for every [i < n], then
    runs the transform of length [n / 2] on the lower half with
    [(r, c, 2 * rs)] and on the upper half with [(r + rs, c, 2 * rs)]: the
    three steps return, and the call returns what the last one returns. *)
Theorem fft_radix2_twiddle_structure (L : loc -> Prop) e ii0 is_ n w ws r c rs st :
  0 <= e -> n = 2 ^ e -> twiddle_range n w ws r c rs ->
  is_ <> 0 -> L t1 -> L t2 ->
  (forall j, 0 <= j < 2 * n -> L (ii (ii0 + j * is_))) ->
  inj_on L st ->
  (n = 1 ->
     exists st', fft_radix2_twiddle ii0 is_ n w ws r c rs st = Some st' /\
       let tw1 := r * c in
       let tw2 := tw1 + rs * c in
       let out := butterfly_twiddle_val (val st (ii ii0)) (val st (ii (ii0 + is_)))
                    (w * n / FLINT_BITS) (tw1 * ws) (tw2 * ws) in
       val st' (ii ii0) = fst out /\ val st' (ii (ii0 + is_)) = snd out /\
       ptrs st' (ii ii0) = ptrs st t1 /\ ptrs st' (ii (ii0 + is_)) = ptrs st t2 /\
       ptrs st' t1 = ptrs st (ii ii0) /\ ptrs st' t2 = ptrs st (ii (ii0 + is_))) /\
  (n <> 1 ->
     exists st1 st2 st',
       for_loop 0 n (fun i st =>
         Some (butterfly_swap (ii0 + i * is_) (ii0 + (n + i) * is_) i
                 (w * n / FLINT_BITS) w st)) st = Some st1 /\
       (forall i, 0 <= i < n ->
          val st1 (ii (ii0 + i * is_))
            = fst (fft_butterfly (val st (ii (ii0 + i * is_)))
                     (val st (ii (ii0 + (n + i) * is_))) i (w * n / FLINT_BITS) w) /\
          val st1 (ii (ii0 + (n + i) * is_))
            = snd (fft_butterfly (val st (ii (ii0 + i * is_)))
                     (val st (ii (ii0 + (n + i) * is_))) i (w * n / FLINT_BITS) w)) /\
       fft_radix2_twiddle ii0 is_ (n / 2) (2 * w) ws r c (2 * rs) st1 = Some st2 /\
       fft_radix2_twiddle (ii0 + n * is_) is_ (n / 2) (2 * w) ws (r + rs) c (2 * rs) st2
       = Some st' /\
       fft_radix2_twiddle ii0 is_ n w ws r c rs st = Some st').
Proof.
  intros He Hn _ Hs H1 H2 HL Hinj. split.
  - intros ->. rewrite fft_radix2_twiddle_base. eexists. split; [reflexivity|].
    assert (La : L (ii (ii0 + 0))).
    { replace (ii0 + 0) with (ii0 + 0 * is_) by lia. apply HL. lia. }
    assert (Lb : L (ii (ii0 + is_))).
    { replace (ii0 + is_) with (ii0 + 1 * is_) by lia. apply HL. lia. }
    assert (Hab : ii0 + 0 <> ii0 + is_) by lia.
    pose proof (out2_swap_post L scratch2 (ii0 + 0) (ii0 + is_) _ _
      (ws_fft_butterfly_twiddle scratch2 (ii0 + 0) (ii0 + is_) (w * 1 / FLINT_BITS)
         (r * c * ws) ((r * c + rs * c) * ws) (or_introl eq_refl) (or_intror eq_refl))
      (scratch2_in L H1 H2) scratch2_no_slot La Lb Hab st Hinj) as Hpost.
    cbv zeta in Hpost. unfold out2_swap in Hpost. unfold do_fft_butterfly_twiddle.
    rewrite Z.add_0_r in *. destruct Hpost as (Va & Vb & _ & Pa & Pb & Q1 & Q2).
    cbv zeta. exact (conj Va (conj Vb (conj Pa (conj Pb (conj Q1 Q2))))).
  - intros Hn1.
    assert (He1 : 1 <= e).
    { destruct (Z.eq_dec e 0) as [->|]; [|lia]. now elim Hn1. }
    destruct (pow2_half e He1) as [Hh _]. rewrite <- Hn in Hh.
    assert (Hp : 0 < 2 ^ (e - 1)) by (apply Z.pow_pos_nonneg; lia).
    assert (Hn2 : 2 <= n) by zlia.
    destruct (total_for_loop (fun i st =>
      Some (butterfly_swap (ii0 + i * is_) (ii0 + (n + i) * is_) i
              (w * n / FLINT_BITS) w st)) 0 n (fun i => total_some _) st) as [st1 E1].
    destruct (total_fft_radix2_twiddle ii0 is_ (n / 2) (2 * w) ws r c (2 * rs)
                ltac:(lia) st1) as [st2 E2].
    destruct (total_fft_radix2_twiddle (ii0 + n * is_) is_ (n / 2) (2 * w) ws (r + rs) c
                (2 * rs) ltac:(lia) st2) as [st' E3].
    exists st1, st2, st'. split; [exact E1|]. split; [|split; [exact E2|split; [exact E3|]]].
    + exact (proj2 (butterfly_layer_post L ii0 is_ n _ w st st1 Hs H1 H2 HL Hinj E1)).
    + rewrite fft_radix2_twiddle_unfold by lia. rewrite E1. cbn [bind]. rewrite E2.
      exact E3.
Qed.

Lemma fft_truncate1_twiddle_fold_case (L : loc -> Prop) ii0 is_ n w ws r c rs trunc st :
  1 <= n -> is_ <> 0 ->
  (forall j, 0 <= j < 2 * n -> L (ii (ii0 + j * is_))) ->
  inj_on L st -> trunc <= n ->
  exists st1,
    for_loop 0 n (fun i st =>
      Some (do_mpn_add_n (ii (ii0 + i * is_)) (ii (ii0 + i * is_))
              (ii (ii0 + (i + n) * is_)) (w * n / FLINT_BITS + 1) st)) st = Some st1 /\
    (forall i, 0 <= i < n ->
       val st1 (ii (ii0 + i * is_))
         = mpn_add_n (val st (ii (ii0 + i * is_))) (val st (ii (ii0 + (i + n) * is_)))
             (w * n / FLINT_BITS + 1)) /\
    (forall l, ptrs st1 l = ptrs st l) /\
    fft_truncate1_twiddle ii0 is_ n w ws r c rs trunc st
    = fft_truncate1_twiddle ii0 is_ (n / 2) (2 * w) ws r c (2 * rs) trunc st1.
Proof.
  intros Hn Hs HL Hinj Ht.
  destruct (total_for_loop (fun i st =>
    Some (do_mpn_add_n (ii (ii0 + i * is_)) (ii (ii0 + i * is_))
            (ii (ii0 + (i + n) * is_)) (w * n / FLINT_BITS + 1) st))
    0 n (fun i => total_some _) st) as [st1 E1].
  exists st1. split; [exact E1|].
  destruct (add_layer_post L ii0 is_ n _ st st1 Hs HL Hinj E1) as [Hp [_ Hv]].
  split; [exact Hv|]. split; [exact Hp|].
  rewrite fft_truncate1_twiddle_unfold by lia.
  destruct (Z.eqb_spec trunc (2 * n)); [lia|].
  destruct (Z.leb_spec trunc n); [|lia].
  rewrite E1. reflexivity.
Qed.

Lemma fft_truncate1_twiddle_split_case (L : loc -> Prop) ii0 is_ n w ws r c rs trunc st :
  1 <= n -> is_ <> 0 -> L t1 -> L t2 ->
  (forall j, 0 <= j < 2 * n -> L (ii (ii0 + j * is_))) ->
  inj_on L st -> n < trunc < 2 * n ->
  exists st1,
    for_loop 0 n (fun i st =>
      Some (butterfly_swap (ii0 + i * is_) (ii0 + (n + i) * is_) i
              (w * n / FLINT_BITS) w st)) st = Some st1 /\
    (forall i, 0 <= i < n ->
       val st1 (ii (ii0 + i * is_))
         = fst (fft_butterfly (val st (ii (ii0 + i * is_)))
                  (val st (ii (ii0 + (n + i) * is_))) i (w * n / FLINT_BITS) w) /\
       val st1 (ii (ii0 + (n + i) * is_))
         = snd (fft_butterfly (val st (ii (ii0 + i * is_)))
                  (val st (ii (ii0 + (n + i) * is_))) i (w * n / FLINT_BITS) w)) /\
    fft_truncate1_twiddle ii0 is_ n w ws r c rs trunc st
    = (st2 <- fft_radix2_twiddle ii0 is_ (n / 2) (2 * w) ws r c (2 * rs) st1 ;;
       fft_truncate1_twiddle (ii0 + n * is_) is_ (n / 2) (2 * w) ws (r + rs) c
         (2 * rs) (trunc - n) st2).
Proof.
  intros Hn Hs H1 H2 HL Hinj Ht.
  destruct (total_for_loop (fun i st =>
    Some (butterfly_swap (ii0 + i * is_) (ii0 + (n + i) * is_) i
            (w * n / FLINT_BITS) w st)) 0 n (fun i => total_some _) st) as [st1 E1].
  exists st1. split; [exact E1|]. split.
  - exact (proj2 (butterfly_layer_post L ii0 is_ n _ w st st1 Hs H1 H2 HL Hinj E1)).
  - rewrite fft_truncate1_twiddle_unfold by lia.
    destruct (Z.eqb_spec trunc (2 * n)); [lia|].
    destruct (Z.leb_spec trunc n); [lia|].
    rewrite E1. reflexivity.
Qed.

(** C3. The case split of [fft_truncate1_twiddle] on a power of two [n] and an
    even [trunc] with [2 <= trunc <= 2n].  When [trunc <= n] it folds slot
    [i + n] into slot [i] with [mpn_add_n] for every [i < n] (no butterfly, no
    exchange of buffers), then recurses once on the lower half with [n / 2],
    [2 * w], the same [(r, c)], [2 * rs] and the same [trunc]: both steps
    return, and the call returns what the recursive call returns.  When
    [n < trunc < 2n] it applies one layer of untwiddled butterflies over the
    [n] pairs, then the full twiddled transform of length [n / 2] on the lower
    half with [(r, c, 2 * rs)] and the truncated one on the upper half with
    [trunc - n] and [r + rs]: the three steps return, and the call returns
    what the last one returns. *)
Theorem fft_truncate1_twiddle_cases (L : loc -> Prop) e ii0 is_ n w ws r c rs trunc st :
  0 <= e -> n = 2 ^ e -> trunc mod 2 = 0 -> 2 <= trunc <= 2 * n ->
  is_ <> 0 -> L t1 -> L t2 ->
  (forall j, 0 <= j < 2 * n -> L (ii (ii0 + j * is_))) ->
  inj_on L st ->
  (trunc <= n ->
     exists st1 st',
       for_loop 0 n (fun i st =>
         Some (do_mpn_add_n (ii (ii0 + i * is_)) (ii (ii0 + i * is_))
                 (ii (ii0 + (i + n) * is_)) (w * n / FLINT_BITS + 1) st)) st = Some st1 /\
       (forall i, 0 <= i < n ->
          val st1 (ii (ii0 + i * is_))
            = mpn_add_n (val st (ii (ii0 + i * is_))) (val st (ii (ii0 + (i + n) * is_)))
                (w * n / FLINT_BITS + 1)) /\
       (forall l, ptrs st1 l = ptrs st l) /\
       fft_truncate1_twiddle ii0 is_ (n / 2) (2 * w) ws r c (2 * rs) trunc st1 = Some st' /\
       fft_truncate1_twiddle ii0 is_ n w ws r c rs trunc st = Some st') /\
  (n < trunc < 2 * n ->
     exists st1 st2 st',
       for_loop 0 n (fun i st =>
         Some (butterfly_swap (ii0 + i * is_) (ii0 + (n + i) * is_) i
                 (w * n / FLINT_BITS) w st)) st = Some st1 /\
       (forall i, 0 <= i < n ->
          val st1 (ii (ii0 + i * is_))
            = fst (fft_butterfly (val st (ii (ii0 + i * is_)))
                     (val st (ii (ii0 + (n + i) * is_))) i (w * n / FLINT_BITS) w) /\
          val st1 (ii (ii0 + (n + i) * is_))
            = snd (fft_butterfly (val st (ii (ii0 + i * is_)))
                     (val st (ii (ii0 + (n + i) * is_))) i (w * n / FLINT_BITS) w)) /\
       fft_radix2_twiddle ii0 is_ (n / 2) (2 * w) ws r c (2 * rs) st1 = Some st2 /\
       fft_truncate1_twiddle (ii0 + n * is_) is_ (n / 2) (2 * w) ws (r + rs) c
         (2 * rs) (trunc - n) st2 = Some st' /\
       fft_truncate1_twiddle ii0 is_ n w ws r c rs trunc st = Some st').
Proof.
  intros He Hn Hm Ht Hs H1 H2 HL Hinj.
  assert (Hp : 0 < 2 ^ e) by (apply Z.pow_pos_nonneg; lia).
  assert (He1 : trunc < 2 * n -> 1 <= e).
  { intros Hlt. destruct (Z.eq_dec e 0) as [->|]; [|lia].
    change (2 ^ 0) with 1 in Hn. subst n. zlia. }
  split.
  - intros Hle.
    destruct (pow2_half e (He1 ltac:(lia))) as [Hh Hh']. rewrite <- Hn in Hh, Hh'.
    destruct (fft_truncate1_twiddle_fold_case L ii0 is_ n w ws r c rs trunc st
                ltac:(lia) Hs HL Hinj Hle) as (st1 & E1 & Hv & Hptr & Erec).
    destruct (total_fft_truncate1_twiddle (e - 1) ii0 is_ (2 * w) ws r c (2 * rs) trunc
                ltac:(lia) ltac:(lia) Hm st1) as [st' E'].
    rewrite <- Hh in E'.
    exists st1, st'. split; [exact E1|]. split; [exact Hv|]. split; [exact Hptr|].
    split; [exact E'|]. now rewrite Erec.
  - intros Hmid.
    destruct (pow2_half e (He1 ltac:(lia))) as [Hh Hh']. rewrite <- Hn in Hh, Hh'.
    assert (Hp' : 0 < 2 ^ (e - 1)) by (apply Z.pow_pos_nonneg; lia).
    destruct (fft_truncate1_twiddle_split_case L ii0 is_ n w ws r c rs trunc st
                ltac:(lia) Hs H1 H2 HL Hinj Hmid) as (st1 & E1 & Hv & Erec).
    destruct (total_fft_radix2_twiddle ii0 is_ (n / 2) (2 * w) ws r c (2 * rs)
                ltac:(lia) st1) as [st2 E2].
    destruct (total_fft_truncate1_twiddle (e - 1) (ii0 + n * is_) is_ (2 * w) ws (r + rs) c
                (2 * rs) (trunc - n) ltac:(lia) ltac:(zlia) ltac:(zlia) st2) as [st' E'].
    rewrite <- Hh in E'.
    exists st1, st2, st'. split; [exact E1|]. split; [exact Hv|]. split; [exact E2|].
    split; [exact E'|]. rewrite Erec, E2. exact E'.
Qed.

(** C4. Called with [trunc = 2 * n], the truncated transform is the twiddled
    transform: the two calls give the same result, buffer for buffer and
    location for location (and neither returns when [n <= 0]). *)
Theorem fft_truncate1_twiddle_full_length ii0 is_ n w ws r c rs (st : state) :
  fft_truncate1_twiddle ii0 is_ n w ws r c rs (2 * n) st
  = fft_radix2_twiddle ii0 is_ n w ws r c rs st.
Proof.
  unfold fft_truncate1_twiddle.
  destruct (Z.to_nat n) as [|k] eqn:E.
  - unfold fft_radix2_twiddle. now rewrite E.
  - cbn [fft_truncate1_twiddle_rec]. now rewrite Z.eqb_refl.
Qed.

(** C10. A call of [fft_truncate1_twiddle] with [trunc <= n] returns, and it
    only reads the upper half: every slot [(n + i) * is] still owns the buffer
    it owned, with the same contents; no slot other than the [n] lower ones
    changes owner or contents. *)
Theorem fft_truncate1_twiddle_upper_frame (L : loc -> Prop) e ii0 is_ w ws r c rs trunc st :
  0 <= e -> 2 <= trunc <= 2 ^ e -> trunc mod 2 = 0 ->
  is_ <> 0 -> L t1 -> L t2 ->
  (forall j, 0 <= j < 2 * 2 ^ e -> L (ii (ii0 + j * is_))) ->
  inj_on L st ->
  exists st',
    fft_truncate1_twiddle ii0 is_ (2 ^ e) w ws r c rs trunc st = Some st' /\
    (forall i, 0 <= i < 2 ^ e ->
       ptrs st' (ii (ii0 + (2 ^ e + i) * is_)) = ptrs st (ii (ii0 + (2 ^ e + i) * is_)) /\
       val st' (ii (ii0 + (2 ^ e + i) * is_)) = val st (ii (ii0 + (2 ^ e + i) * is_))) /\
    (forall k, (forall j, 0 <= j < 2 ^ e -> k <> ii0 + j * is_) ->
       ptrs st' (ii k) = ptrs st (ii k) /\
       (L (ii k) -> val st' (ii k) = val st (ii k))).
Proof.
  intros He Ht Hm Hs H1 H2 HL Hinj.
  assert (He1 : 1 <= e).
  { destruct (Z.eq_dec e 0) as [->|]; [|lia]. simpl in Ht. lia. }
  destruct (pow2_half e He1) as [Hh Hh'].
  assert (Hp : 0 < 2 ^ (e - 1)) by (apply Z.pow_pos_nonneg; lia).
  set (n := 2 ^ e) in *.
  destruct (fft_truncate1_twiddle_fold_case L ii0 is_ n w ws r c rs trunc st)
    as [st1 [E1 [_ [_ Erec]]]]; auto; try lia.
  destruct (add_layer_post L ii0 is_ n _ st st1 Hs HL Hinj E1) as [Hp1 [Hm1 _]].
  assert (Hinj1 : inj_on L st1).
  { intros x y Hx Hy E. rewrite !Hp1 in E. now apply Hinj. }
  destruct (total_fft_truncate1_twiddle (e - 1) ii0 is_ (2 * w) ws r c (2 * rs) trunc)
    with (st := st1) as [st' E']; try lia.
  rewrite <- Hh in E'. fold n in E'.
  exists st'. split; [now rewrite Erec|].
  pose (Llow := fun l => l = t1 \/ l = t2 \/ exists j, 0 <= j < n /\ l = ii (ii0 + j * is_)).
  assert (Hloc : local Llow
            (fft_truncate1_twiddle ii0 is_ (n / 2) (2 * w) ws r c (2 * rs) trunc)).
  { apply local_fft_truncate1_twiddle; auto.
    - now left.
    - right. now left.
    - intros j Hj. right. right. exists j. split; [lia|reflexivity]. }
  assert (Hsub : forall x, Llow x -> L x).
  { intros x [->|[->|[j [Hj ->]]]]; auto. apply HL. lia. }
  assert (Hother : forall k, (forall j, 0 <= j < n -> k <> ii0 + j * is_) ->
            ptrs st' (ii k) = ptrs st (ii k) /\
            (L (ii k) -> val st' (ii k) = val st (ii k))).
  { intros k Hk.
    assert (Hnl : ~ Llow (ii k)).
    { intros [E|[E|[j [Hj E]]]]; try discriminate. injection E as E. now apply (Hk j). }
    split.
    - rewrite (local_ptrs _ _ Hloc _ _ E' _ Hnl). apply Hp1.
    - intros Lk.
      destruct (local_val_frame Llow L _ st1 st' (ii k) Hloc E' Hsub Hinj1 Lk Hnl)
        as [_ Ev].
      rewrite Ev. unfold val. rewrite Hp1. apply Hm1.
      intros i Hi E. apply Hinj in E; auto.
      + injection E as E. now apply (Hk i).
      + apply HL. lia. }
  split; [|exact Hother].
  intros i Hi.
  assert (Hk : forall j, 0 <= j < n -> ii0 + (n + i) * is_ <> ii0 + j * is_).
  { intros j Hj E. apply stride_inj in E; auto. lia. }
  destruct (Hother _ Hk) as [Ep Ev]. split; [exact Ep|].
  apply Ev. apply HL. lia.
Qed.

(** ** The matrix-Fourier transform as a whole *)

Lemma window_sub lo hi lo' hi' (S S' : loc -> Prop) :
  lo' <= lo -> hi <= hi' -> (forall l, S l -> S' l) ->
  forall l, window lo hi S l -> window lo' hi' S' l.
Proof. intros H1 H2 HS [k| | |]; cbn [window]; auto. lia. Qed.

Lemma inj_on_sub (L L' : loc -> Prop) st :
  (forall l, L l -> L' l) -> inj_on L' st -> inj_on L st.
Proof. intros Hsub H x y Hx Hy. apply H; auto. Qed.

Lemma scratch23 l : scratch2 l -> scratch3 l.
Proof. intros [->| ->]; unfold scratch3; auto. Qed.

(** C8. Every operation of the core keeps the ownership invariant and only
    exchanges buffers between owners: a butterfly of any kind followed by its
    two [SWAP_PTRS], an exchange of two slots, a call of the twiddled or of the
    truncated transform inside the signal, and the two matrix-Fourier
    transforms, which also return. *)
Theorem ownership_preserved n w n1 trunc :
  mfa_valid n n1 trunc ->
  (forall S a b op g, writes_scratch S a b op g ->
     S t1 -> S t2 -> (forall l, S l -> scratch3 l) ->
     0 <= a < 4 * n -> 0 <= b < 4 * n -> a <> b ->
     preserves_ownership n (fun st => Some (out2_swap op a b st))) /\
  (forall a b, 0 <= a < 4 * n -> 0 <= b < 4 * n ->
     preserves_ownership n (fun st => Some (SWAP_PTRS (ii a) (ii b) st))) /\
  (forall ii0 is_ m w' ws r c rs, is_ <> 0 ->
     (forall j, 0 <= j < 2 * m -> 0 <= ii0 + j * is_ < 4 * n) ->
     preserves_ownership n (fft_radix2_twiddle ii0 is_ m w' ws r c rs)) /\
  (forall ii0 is_ m w' ws r c rs tr, is_ <> 0 ->
     (forall j, 0 <= j < 2 * m -> 0 <= ii0 + j * is_ < 4 * n) ->
     preserves_ownership n (fft_truncate1_twiddle ii0 is_ m w' ws r c rs tr)) /\
  (total (fft_mfa_truncate_sqrt2 n w n1 trunc) /\
   preserves_ownership n (fft_mfa_truncate_sqrt2 n w n1 trunc)) /\
  (total (fft_mfa_truncate_sqrt2_outer n w n1 trunc) /\
   preserves_ownership n (fft_mfa_truncate_sqrt2_outer n w n1 trunc)).
Proof.
  intros Hv.
  assert (S1 : scratch3 t1) by (now left).
  assert (S2 : scratch3 t2) by (right; now left).
  repeat apply conj.
  - intros S a b op g Hop HS1 HS2 HS Ha Hb Hab. apply local_preserves_ownership.
    apply (local_out2_swap _ S a b op g Hop); auto.
    + intros l Hl. destruct l as [k| | |]; cbn [window]; auto.
      apply HS in Hl. destruct Hl as [E|[E|E]]; discriminate.
    + intros k Hk. apply HS in Hk. destruct Hk as [E|[E|E]]; discriminate.
  - intros a b Ha Hb. apply local_preserves_ownership.
    now apply local_swap_slots.
  - intros ii0 is_ m w' ws r c rs Hs Hr. apply local_preserves_ownership.
    now apply local_fft_radix2_twiddle.
  - intros ii0 is_ m w' ws r c rs tr Hs Hr. apply local_preserves_ownership.
    now apply local_fft_truncate1_twiddle.
  - now apply total_fft_mfa_truncate_sqrt2.
  - apply local_preserves_ownership. now apply local_fft_mfa_truncate_sqrt2.
  - now apply total_fft_mfa_truncate_sqrt2_outer.
  - apply local_preserves_ownership. now apply local_fft_mfa_truncate_sqrt2_outer.
Qed.

(** C9. The transform is a function of the coefficients of the signal and of
    its parameters alone: two runs with the same parameters on signals that
    hold the same coefficients both return, with the same coefficients in
    every slot, whatever buffers the signals are made of and whatever the
    scratch buffers hold. *)
Theorem fft_mfa_truncate_sqrt2_deterministic n w n1 trunc st1 st2 :
  mfa_valid n n1 trunc ->
  ownership n st1 -> ownership n st2 ->
  (forall k, 0 <= k < 4 * n -> val st1 (ii k) = val st2 (ii k)) ->
  exists st1' st2',
    fft_mfa_truncate_sqrt2 n w n1 trunc st1 = Some st1' /\
    fft_mfa_truncate_sqrt2 n w n1 trunc st2 = Some st2' /\
    forall k, 0 <= k < 4 * n -> val st1' (ii k) = val st2' (ii k).
Proof.
  intros Hv O1 O2 A.
  destruct (total_fft_mfa_truncate_sqrt2 n w n1 trunc Hv st1) as [st1' E1].
  destruct (total_fft_mfa_truncate_sqrt2 n w n1 trunc Hv st2) as [st2' E2].
  exists st1', st2'. split; [exact E1|]. split; [exact E2|].
  apply ownership_inj in O1, O2.
  exact (local_sim _ _ (local_fft_mfa_truncate_sqrt2 n w n1 trunc Hv)
           _ _ _ _ E1 E2 O1 O2 A).
Qed.

(** C1 (amended). The outer variant runs the column pass and the bit-reversal
    reorder of both halves and no row pass at all.  It returns, and so does the
    full variant; the right half it leaves holds the coefficients that the
    full variant holds there immediately before its right-half row pass, and
    the left half is, buffer for buffer, what the full variant holds there
    immediately before its left-half row pass. *)
Theorem fft_mfa_truncate_sqrt2_outer_contract n w n1 trunc st :
  mfa_valid n n1 trunc -> ownership n st ->
  let n2 := 2 * n / n1 in
  let trunc2 := (trunc - 2 * n) / n1 in
  let limbs := n * w / FLINT_BITS in
  let depth := depth_of n2 in
  let depth2 := depth_of n1 in
  exists sa sb sc so,
    mfa_left_columns n w n1 trunc n2 limbs depth st = Some sa /\
    mfa_left_rows w n1 n2 depth2 sa = Some sb /\
    mfa_right_columns n w n1 n2 trunc2 depth sb = Some sc /\
    fft_mfa_truncate_sqrt2 n w n1 trunc st
      = mfa_right_rows n w n1 n2 trunc2 depth depth2 sc /\
    fft_mfa_truncate_sqrt2_outer n w n1 trunc st = Some so /\
    (forall k, 2 * n <= k < 4 * n -> val so (ii k) = val sc (ii k)) /\
    (forall k, 0 <= k < 2 * n ->
       ptrs so (ii k) = ptrs sa (ii k) /\ val so (ii k) = val sa (ii k)).
Proof.
  intros Hv Hown n2 trunc2 limbs depth depth2.
  destruct (mfa_valid_facts _ _ _ Hv) as
    [Hn Hn1 Hn2 Hg [Hd Hdp] [Hd2 Hdp2] _ _ Ht _].
  fold n2 in Hn2, Hg, Hd, Hdp. fold depth in Hd, Hdp. fold depth2 in Hd2, Hdp2.
  set (W := window 0 (4 * n) scratch3).
  set (LL := window 0 (2 * n) scratch2).
  set (LR := window (2 * n) (4 * n) scratch2).
  assert (S1 : scratch3 t1) by (now left).
  assert (S2 : scratch3 t2) by (right; now left).
  assert (S3 : scratch3 temp) by (right; now right).
  assert (LLW : forall l, LL l -> W l).
  { apply window_sub; [lia|lia|exact scratch23]. }
  assert (LRW : forall l, LR l -> W l).
  { apply window_sub; [lia|lia|exact scratch23]. }
  assert (Ca : local W (mfa_left_columns n w n1 trunc n2 limbs depth)).
  { apply local_mfa_left_columns; auto; try lia. }
  assert (Cb : local LL (mfa_left_rows w n1 n2 depth2)).
  { apply (local_mfa_left_rows _ n); auto; try lia;
      try (now left); try (now right); intros k Hk; exact Hk. }
  assert (Cb' : local W (mfa_left_rows w n1 n2 depth2)).
  { apply (local_mfa_left_rows _ n); auto; try lia;
      intros k Hk; cbn [W window]; lia. }
  assert (Cc : local LR (mfa_right_columns n w n1 n2 trunc2 depth)).
  { apply local_mfa_right_columns; auto; try lia;
      try (now left); try (now right); intros k Hk; exact Hk. }
  destruct (total_mfa_left_columns n w n1 trunc limbs Hv st) as [sa Ea].
  destruct (total_mfa_left_rows n w n1 trunc Hv sa) as [sb Eb].
  destruct (total_mfa_right_columns n w n1 trunc Hv sb) as [sc Ec].
  destruct (total_mfa_right_columns n w n1 trunc Hv sa) as [so Eo].
  fold n2 in Ea, Eb, Ec, Eo. fold depth in Ea, Ec, Eo. fold depth2 in Eb.
  fold trunc2 in Ec, Eo.
  exists sa, sb, sc, so.
  assert (Ia : inj_on W sa).
  { apply (local_inj _ _ Ca _ _ Ea). now apply ownership_inj. }
  split; [exact Ea|]. split; [exact Eb|]. split; [exact Ec|].
  split. { unfold fft_mfa_truncate_sqrt2. cbv zeta. fold n2 depth depth2 trunc2 limbs.
           rewrite Ea. cbn [bind]. rewrite Eb. cbn [bind]. rewrite Ec. reflexivity. }
  split. { unfold fft_mfa_truncate_sqrt2_outer. cbv zeta. fold n2 depth trunc2 limbs.
           rewrite Ea. cbn [bind]. exact Eo. }
  split.
  - assert (Ab : agree LR sa sb).
    { intros k Hk. symmetry.
      apply (local_val_frame LL W _ sa sb (ii k) Cb Eb LLW Ia).
      - apply LRW. exact Hk.
      - cbn [LL LR window] in *. lia. }
    assert (Ib : inj_on LR sb).
    { apply (inj_on_sub LR W); [exact LRW|]. exact (local_inj _ _ Cb' _ _ Eb Ia). }
    assert (Ia' : inj_on LR sa) by (apply (inj_on_sub LR W); auto).
    intros k Hk.
    exact (local_sim _ _ Cc _ _ _ _ Eo Ec Ia' Ib Ab k Hk).
  - intros k Hk.
    apply (local_val_frame LR W _ sa so (ii k) Cc Eo LRW Ia).
    + cbn [W window]. lia.
    + cbn [LR window]. lia.
Qed.

(** ** The row pass *)

Lemma revbin_nat_top b : forall j jb,
  0 <= j < 2 ^ Z.of_nat b -> 0 <= jb < 2 ->
  revbin_nat (S b) (j + 2 ^ Z.of_nat b * jb) = 2 * revbin_nat b j + jb.
Proof.
  induction b as [|b IH]; intros j jb Hj Hjb.
  - simpl in Hj. assert (j = 0) by lia. subst j.
    cbn [revbin_nat]. change (2 ^ Z.of_nat 0) with 1.
    rewrite Z.mod_small by lia. lia.
  - rewrite Nat2Z.inj_succ, Z.pow_succ_r in * by lia.
    set (q := 2 ^ Z.of_nat b) in *.
    assert (Hq : 0 < q) by (apply Z.pow_pos_nonneg; lia).
    assert (E1 : (j + 2 * q * jb) mod 2 = j mod 2).
    { replace (j + 2 * q * jb) with (j + (q * jb) * 2) by lia. apply Z_mod_plus_full. }
    assert (E2 : (j + 2 * q * jb) / 2 = j / 2 + q * jb).
    { replace (j + 2 * q * jb) with (j + (q * jb) * 2) by lia.
      apply Z_div_plus_full. lia. }
    change (revbin_nat (S (S b)) (j + 2 * q * jb))
      with ((j + 2 * q * jb) mod 2 * 2 ^ Z.of_nat (S b)
            + revbin_nat (S b) ((j + 2 * q * jb) / 2)).
    rewrite E1, E2, IH by zlia.
    change (revbin_nat (S b) j) with (j mod 2 * 2 ^ Z.of_nat b + revbin_nat b (j / 2)).
    rewrite Nat2Z.inj_succ, Z.pow_succ_r by lia. fold q. lia.
Qed.

Lemma revbin_nat_invol b : forall j,
  0 <= j < 2 ^ Z.of_nat b -> revbin_nat b (revbin_nat b j) = j.
Proof.
  induction b as [|b IH]; intros j Hj.
  - simpl in *. lia.
  - rewrite Nat2Z.inj_succ, Z.pow_succ_r in Hj by lia.
    change (revbin_nat (S b) j) with (j mod 2 * 2 ^ Z.of_nat b + revbin_nat b (j / 2)).
    replace (j mod 2 * 2 ^ Z.of_nat b + revbin_nat b (j / 2))
      with (revbin_nat b (j / 2) + 2 ^ Z.of_nat b * (j mod 2)) by lia.
    rewrite revbin_nat_top.
    + rewrite IH by zlia. zlia.
    + apply revbin_nat_range.
    + apply Z.mod_pos_bound. lia.
Qed.

Lemma n_revbin_invol j depth :
  0 <= depth -> 0 <= j < 2 ^ depth -> n_revbin (n_revbin j depth) depth = j.
Proof.
  intros Hd Hj. unfold n_revbin. apply revbin_nat_invol.
  now rewrite Z2Nat.id by exact Hd.
Qed.

(** The loop of conditional exchanges carries out the bit reversal of the
    index: slot [j] ends with the buffer of slot [n_revbin j depth]. *)
Lemma revbin_loop_post ii0 stride depth st st' :
  0 <= depth -> stride <> 0 ->
  revbin_loop ii0 stride (2 ^ depth) depth st = Some st' ->
  mem st' = mem st /\
  (forall j, 0 <= j < 2 ^ depth ->
     ptrs st' (ii (ii0 + j * stride)) = ptrs st (ii (ii0 + n_revbin j depth * stride))) /\
  (forall l, (forall j, 0 <= j < 2 ^ depth -> l <> ii (ii0 + j * stride)) ->
     ptrs st' l = ptrs st l).
Proof.
  intros Hd Hs Hrun. unfold revbin_loop in Hrun.
  set (cnt := 2 ^ depth) in *.
  assert (Hc : 0 < cnt) by (apply Z.pow_pos_nonneg; lia).
  set (rv := fun j => n_revbin j depth).
  assert (Hr : forall j, 0 <= j < cnt -> 0 <= rv j < cnt).
  { intros j _. apply n_revbin_range. exact Hd. }
  assert (Hi : forall j, 0 <= j < cnt -> rv (rv j) = j).
  { intros j Hj. apply n_revbin_invol; assumption. }
  pose (I := fun (k : Z) (s : state) =>
    mem s = mem st /\
    (forall j, 0 <= j < cnt ->
       ptrs s (ii (ii0 + j * stride))
       = if Z.min j (rv j) <? k then ptrs st (ii (ii0 + rv j * stride))
         else ptrs st (ii (ii0 + j * stride))) /\
    (forall l, (forall j, 0 <= j < cnt -> l <> ii (ii0 + j * stride)) ->
       ptrs s l = ptrs st l)).
  assert (HI : I cnt st').
  { refine (for_loop_inv I _ 0 cnt st st' (Z.lt_le_incl _ _ Hc) _ _ Hrun).
    - split; [reflexivity|]. split; [|reflexivity].
      intros j Hj. pose proof (Hr j Hj).
      destruct (Z.ltb_spec (Z.min j (rv j)) 0); [lia|reflexivity].
    - intros k s s' Hk [Im [Ip Io]] Hb. cbv zeta in Hb. fold (rv k) in Hb.
      injection Hb as <-. pose proof (Hr k Hk) as Hrk. pose proof (Hi k Hk) as Hik.
      destruct (Z.ltb_spec k (rv k)) as [Hlt|Hge].
      + split; [exact Im|]. split.
        * intros j Hj. rewrite SWAP_PTRS_ptrs.
          pose proof (Hr j Hj) as Hrj. pose proof (Hi j Hj) as Hij.
          destruct (Z.eq_dec j k) as [->|Hjk];
            [|destruct (Z.eq_dec j (rv k)) as [->|Hjr]].
          -- rewrite transp_l, (Ip (rv k) Hrk), Hik.
             destruct (Z.ltb_spec (Z.min (rv k) k) k); [lia|].
             destruct (Z.ltb_spec (Z.min k (rv k)) (k + 1)); [reflexivity|lia].
          -- rewrite transp_r, (Ip k Hk), Hik.
             destruct (Z.ltb_spec (Z.min k (rv k)) k); [lia|].
             destruct (Z.ltb_spec (Z.min (rv k) k) (k + 1)); [reflexivity|lia].
          -- rewrite transp_out, (Ip j Hj).
             ++ assert (rv j <> k) by (intros E; apply Hjr; rewrite <- E; now rewrite Hij).
                destruct (Z.ltb_spec (Z.min j (rv j)) k),
                         (Z.ltb_spec (Z.min j (rv j)) (k + 1)); try reflexivity; lia.
             ++ intros E. injection E as E. apply stride_inj in E; auto.
             ++ intros E. injection E as E. apply stride_inj in E; auto.
        * intros l Hl. rewrite SWAP_PTRS_ptrs, transp_out; [now apply Io| |].
          -- apply Hl. exact Hk.
          -- apply Hl. exact Hrk.
      + split; [exact Im|]. split; [|exact Io].
        intros j Hj. rewrite (Ip j Hj).
        pose proof (Hr j Hj) as Hrj. pose proof (Hi j Hj) as Hij.
        destruct (Z.ltb_spec (Z.min j (rv j)) k),
                 (Z.ltb_spec (Z.min j (rv j)) (k + 1)); try reflexivity; try lia.
        assert (E : j = k).
        { destruct (Z.eq_dec j k); [assumption|].
          assert (rv j = k) by lia. assert (j = rv k) by (rewrite <- H1; now rewrite Hij).
          lia. }
        subst j. assert (rv k = k) by lia. now rewrite H1. }
  destruct HI as [Im [Ip Io]]. split; [exact Im|]. split; [|exact Io].
  intros j Hj. rewrite (Ip j Hj). pose proof (Hr j Hj).
  destruct (Z.ltb_spec (Z.min j (rv j)) cnt); [reflexivity|lia].
Qed.

Lemma depth_of_log2 d : 0 <= d -> depth_of (2 ^ d) = Z.log2 (2 ^ d).
Proof. intros Hd. rewrite depth_of_pow2, Z.log2_pow2 by exact Hd. reflexivity. Qed.

(** A loop whose rounds work on disjoint sets of slots [R s], inside [W]:
    what round [s] leaves in its slots is what it computes from the state
    before the loop, and the slots of no round are left alone. *)
Lemma disjoint_loop_post (W : loc -> Prop) (R : Z -> loc -> Prop)
    (body : Z -> state -> option state) cnt st st' :
  0 <= cnt ->
  (forall s, 0 <= s < cnt -> local (R s) (body s)) ->
  (forall s, 0 <= s < cnt -> local W (body s)) ->
  (forall s l, 0 <= s < cnt -> R s l -> W l) ->
  (forall s s' k, 0 <= s < cnt -> 0 <= s' < cnt -> s <> s' ->
     R s (ii k) -> ~ R s' (ii k)) ->
  inj_on W st ->
  for_loop 0 cnt body st = Some st' ->
  (forall s, 0 <= s < cnt ->
     exists ss, body s st = Some ss /\
       forall k, R s (ii k) -> val st' (ii k) = val ss (ii k)) /\
  (forall k, W (ii k) -> (forall s, 0 <= s < cnt -> ~ R s (ii k)) ->
     ptrs st' (ii k) = ptrs st (ii k) /\ val st' (ii k) = val st (ii k)).
Proof.
  intros Hc HR HW Hsub Hdis Hinj Hrun.
  pose (I := fun (i : Z) (s_i : state) =>
    inj_on W s_i /\
    (forall s, 0 <= s < i ->
       exists ss, body s st = Some ss /\
         forall k, R s (ii k) -> val s_i (ii k) = val ss (ii k)) /\
    (forall s, i <= s < cnt -> forall k, R s (ii k) -> val s_i (ii k) = val st (ii k)) /\
    (forall k, W (ii k) -> (forall s, 0 <= s < cnt -> ~ R s (ii k)) ->
       ptrs s_i (ii k) = ptrs st (ii k) /\ val s_i (ii k) = val st (ii k))).
  assert (HI : I cnt st').
  { refine (for_loop_inv I _ 0 cnt st st' Hc _ _ Hrun).
    - split; [exact Hinj|]. split; [intros s Hs; lia|]. split; [reflexivity|].
      intros k _ _. split; reflexivity.
    - intros i s_i s' Hi (Ii & P1 & P2 & P3) Hb.
      assert (Fr : forall k, W (ii k) -> ~ R i (ii k) ->
                ptrs s' (ii k) = ptrs s_i (ii k) /\ val s' (ii k) = val s_i (ii k)).
      { intros k Wk Nk.
        exact (local_val_frame (R i) W _ s_i s' (ii k) (HR i Hi) Hb
                 (fun l => Hsub i l Hi) Ii Wk Nk). }
      split; [exact (local_inj _ _ (HW i Hi) _ _ Hb Ii)|]. split; [|split].
      + intros s Hs. destruct (Z.eq_dec s i) as [->|Hne].
        * destruct (body i st) as [ss|] eqn:E.
          -- exists ss. split; [reflexivity|].
             exact (local_sim _ _ (HR i Hi) _ _ _ _ Hb E
                      (inj_on_sub (R i) W _ (fun l => Hsub i l Hi) Ii)
                      (inj_on_sub (R i) W _ (fun l => Hsub i l Hi) Hinj)
                      (P2 i ltac:(lia))).
          -- rewrite (local_def _ _ (HR i Hi) st s_i E) in Hb. discriminate.
        * destruct (P1 s ltac:(lia)) as (ss & E & Hv). exists ss. split; [exact E|].
          intros k Hk. rewrite <- (Hv k Hk).
          apply Fr; [apply (Hsub s); [lia|exact Hk]|].
          apply (Hdis s i k); [lia|lia|exact Hne|exact Hk].
      + intros s Hs k Hk. rewrite <- (P2 s ltac:(lia) k Hk).
        apply Fr; [apply (Hsub s); [lia|exact Hk]|].
        apply (Hdis s i k); [lia|lia|lia|exact Hk].
      + intros k Wk Hk. destruct (Fr k Wk (Hk i Hi)) as [Ep Ev].
        destruct (P3 k Wk Hk) as [Ep' Ev']. split; congruence. }
  destruct HI as (_ & P1 & _ & P3). split; [|exact P3].
  intros s Hs. apply P1. lia.
Qed.

Lemma row_interval n1 i i' j j' :
  0 < n1 -> 0 <= j < n1 -> 0 <= j' < n1 -> i * n1 + j = i' * n1 + j' -> i = i'.
Proof.
  intros Hn Hj Hj' E. destruct (Z.lt_trichotomy i i') as [H|[H|H]]; [|exact H|].
  - assert ((i + 1) * n1 <= i' * n1) by (apply Z.mul_le_mono_nonneg_r; lia). lia.
  - assert ((i' + 1) * n1 <= i * n1) by (apply Z.mul_le_mono_nonneg_r; lia). lia.
Qed.

(** A row pass: for [s < cnt], the base transform of length [n1] across the
    row [rho s] of the grid at [base], then the reorder loop over the row.
    The rows are transformed independently of each other: row [rho s] ends
    with what its base transform computes from the state before the pass,
    column [j] holding what the transform left in column [n_revbin j depth2];
    a row that is not listed is left as it was. *)
Lemma rows_loop_post n base n1 n2 wn depth2 cnt (rho : Z -> Z) st st' :
  0 < n1 -> 0 <= depth2 -> 2 ^ depth2 = n1 -> 0 <= cnt ->
  0 <= base -> base + n1 * n2 <= 4 * n ->
  (forall s, 0 <= s < cnt -> 0 <= rho s < n2) ->
  (forall s s', 0 <= s < cnt -> 0 <= s' < cnt -> rho s = rho s' -> s = s') ->
  inj_on (window 0 (4 * n) scratch3) st ->
  for_loop 0 cnt (fun s st =>
    st <- fft_radix2 (base + rho s * n1) (n1 / 2) wn st ;;
    revbin_loop (base + rho s * n1) 1 n1 depth2 st) st = Some st' ->
  (forall s, 0 <= s < cnt ->
     exists si, fft_radix2 (base + rho s * n1) (n1 / 2) wn st = Some si /\
       forall j, 0 <= j < n1 ->
         val st' (ii (base + rho s * n1 + j))
         = val si (ii (base + rho s * n1 + n_revbin j depth2))) /\
  (forall i j, 0 <= i < n2 -> (forall s, 0 <= s < cnt -> rho s <> i) -> 0 <= j < n1 ->
     ptrs st' (ii (base + i * n1 + j)) = ptrs st (ii (base + i * n1 + j)) /\
     val st' (ii (base + i * n1 + j)) = val st (ii (base + i * n1 + j))).
Proof.
  intros Hn1 Hd Hp Hc Hb Hfit Hrho Hinj_rho Hinj Hrun.
  set (W := window 0 (4 * n) scratch3) in *.
  set (R := fun s => window (base + rho s * n1) (base + rho s * n1 + n1) scratch2).
  assert (Hrow : forall i, 0 <= i < n2 -> (i + 1) * n1 <= n1 * n2).
  { intros i Hi. rewrite (Z.mul_comm n1 n2). apply Z.mul_le_mono_nonneg_r; lia. }
  assert (Hi0 : forall i, 0 <= i -> 0 <= i * n1) by (intros; apply Z.mul_nonneg_nonneg; lia).
  assert (HRW : forall s l, 0 <= s < cnt -> R s l -> W l).
  { intros s l Hs. apply window_sub; [| |exact scratch23].
    - pose proof (Hi0 (rho s) ltac:(apply Hrho; exact Hs)). lia.
    - pose proof (Hrow (rho s) (Hrho s Hs)). lia. }
  assert (Hloc : forall (L : loc -> Prop) s, 0 <= s < cnt -> L t1 -> L t2 ->
            (forall j, 0 <= j < n1 -> L (ii (base + rho s * n1 + j))) ->
            local L (fun st => st <- fft_radix2 (base + rho s * n1) (n1 / 2) wn st ;;
                               revbin_loop (base + rho s * n1) 1 n1 depth2 st)).
  { intros L s Hs L1 L2 HL. apply local_bind.
    - apply local_fft_radix2; auto. intros j Hj. apply HL. zlia.
    - apply local_revbin_loop; [exact Hd|lia|].
      intros j Hj. rewrite Z.mul_1_r. now apply HL. }
  set (body := fun s st => st <- fft_radix2 (base + rho s * n1) (n1 / 2) wn st ;;
                           revbin_loop (base + rho s * n1) 1 n1 depth2 st) in *.
  assert (HR : forall s, 0 <= s < cnt -> local (R s) (body s)).
  { intros s Hs. apply Hloc; [exact Hs|now left|now right|].
    intros j Hj. cbn [R window]. lia. }
  assert (HW : forall s, 0 <= s < cnt -> local W (body s)).
  { intros s Hs. apply Hloc; [exact Hs|now left|right; now left|].
    intros j Hj. apply (HRW s); [exact Hs|]. cbn [R window]. lia. }
  assert (Hdis : forall s s' k, 0 <= s < cnt -> 0 <= s' < cnt -> s <> s' ->
            R s (ii k) -> ~ R s' (ii k)).
  { intros s s' k Hs Hs' Hne Hk Hk'. cbn [R window] in Hk, Hk'. apply Hne.
    apply Hinj_rho; [exact Hs|exact Hs'|].
    apply (row_interval n1 (rho s) (rho s') (k - base - rho s * n1)
             (k - base - rho s' * n1)); lia. }
  destruct (disjoint_loop_post W R body cnt st st' Hc HR HW HRW Hdis Hinj Hrun)
    as [Prow Pout].
  split.
  - intros s Hs. destruct (Prow s Hs) as (ss & E & Hv).
    apply bind_some in E as (si & E1 & E2). exists si. split; [exact E1|].
    assert (E2' : revbin_loop (base + rho s * n1) 1 (2 ^ depth2) depth2 si = Some ss)
      by (rewrite Hp; exact E2).
    destruct (revbin_loop_post _ 1 depth2 si ss Hd ltac:(lia) E2') as (Em & Ep & _).
    intros j Hj. rewrite Hv by (cbn [R window]; lia).
    pose proof (Ep j ltac:(lia)) as Epj. rewrite !Z.mul_1_r in Epj.
    unfold val. now rewrite Em, Epj.
  - intros i j Hi Hno Hj. apply Pout.
    + cbn [W window]. pose proof (Hi0 i ltac:(lia)). pose proof (Hrow i Hi). lia.
    + intros s Hs Hk. cbn [R window] in Hk. apply (Hno s Hs).
      apply (row_interval n1 (rho s) i (base + i * n1 + j - base - rho s * n1) j); lia.
Qed.

(** C7. The row passes of [fft_mfa_truncate_sqrt2], on a signal whose buffers
    are distinct: the four passes return, and so does the transform.  The row
    pass of the left half transforms every one of its [n2] rows: row [i] ends
    with what the plain base transform of length [n1] computes across the row
    from the state that the column pass left, with the low [log2 n1] bits of
    the column index reversed (column [j] holds what the base transform left
    in column [n_revbin j (log2 n1)]).  The row pass of the right half does
    the same for exactly [trunc2 = (trunc - 2n) / n1] rows, the rows
    [n_revbin s (log2 n2)] for [s = 0 .. trunc2 - 1]; every other row of the
    right half keeps the buffers and the coefficients of the column pass. *)
Theorem mfa_row_pass n w n1 trunc st :
  mfa_valid n n1 trunc -> ownership n st ->
  let n2 := 2 * n / n1 in
  let trunc2 := (trunc - 2 * n) / n1 in
  let limbs := n * w / FLINT_BITS in
  let depth := depth_of n2 in
  let depth2 := depth_of n1 in
  depth = Z.log2 n2 /\ depth2 = Z.log2 n1 /\
  exists sa sb sc sf,
    mfa_left_columns n w n1 trunc n2 limbs depth st = Some sa /\
    mfa_left_rows w n1 n2 depth2 sa = Some sb /\
    mfa_right_columns n w n1 n2 trunc2 depth sb = Some sc /\
    mfa_right_rows n w n1 n2 trunc2 depth depth2 sc = Some sf /\
    fft_mfa_truncate_sqrt2 n w n1 trunc st = Some sf /\
    (forall i, 0 <= i < n2 ->
       exists si, fft_radix2 (i * n1) (n1 / 2) (w * n2) sa = Some si /\
         forall j, 0 <= j < n1 ->
           0 <= n_revbin j depth2 < n1 /\
           val sb (ii (i * n1 + j)) = val si (ii (i * n1 + n_revbin j depth2))) /\
    (forall s, 0 <= s < trunc2 ->
       0 <= n_revbin s depth < n2 /\
       exists si,
         fft_radix2 (2 * n + n_revbin s depth * n1) (n1 / 2) (w * n2) sc = Some si /\
         forall j, 0 <= j < n1 ->
           val sf (ii (2 * n + n_revbin s depth * n1 + j))
           = val si (ii (2 * n + n_revbin s depth * n1 + n_revbin j depth2))) /\
    (forall i j, 0 <= i < n2 -> trunc2 <= n_revbin i depth -> 0 <= j < n1 ->
       ptrs sf (ii (2 * n + i * n1 + j)) = ptrs sc (ii (2 * n + i * n1 + j)) /\
       val sf (ii (2 * n + i * n1 + j)) = val sc (ii (2 * n + i * n1 + j))).
Proof.
  intros Hv Hown n2 trunc2 limbs depth depth2.
  pose proof (mfa_valid_facts _ _ _ Hv) as
    [Hn Hn1 Hn2 Hg [Hd Hdp] [Hd2 Hdp2] _ _ Ht [Ht2 _]].
  fold n2 in Hn2, Hg, Hd, Hdp, Ht2. fold trunc2 in Ht2.
  fold depth in Hd, Hdp. fold depth2 in Hd2, Hdp2.
  assert (Elog : depth = Z.log2 n2 /\ depth2 = Z.log2 n1).
  { pose proof (Z.log2_pow2 depth Hd) as E. pose proof (Z.log2_pow2 depth2 Hd2) as E2.
    rewrite Hdp in E. rewrite Hdp2 in E2. split; symmetry; assumption. }
  destruct Elog as [El El2]. split; [exact El|]. split; [exact El2|].
  set (W := window 0 (4 * n) scratch3).
  assert (S1 : scratch3 t1) by (now left).
  assert (S2 : scratch3 t2) by (right; now left).
  assert (S3 : scratch3 temp) by (right; now right).
  assert (Ca : local W (mfa_left_columns n w n1 trunc n2 limbs depth)).
  { apply local_mfa_left_columns; auto; try lia. }
  assert (Cb : local W (mfa_left_rows w n1 n2 depth2)).
  { apply (local_mfa_left_rows _ n); auto; try lia;
      intros k Hk; cbn [W window]; lia. }
  assert (Cc : local W (mfa_right_columns n w n1 n2 trunc2 depth)).
  { apply local_mfa_right_columns; auto; try lia;
      intros k Hk; cbn [W window]; lia. }
  destruct (total_mfa_left_columns n w n1 trunc limbs Hv st) as [sa Ea].
  destruct (total_mfa_left_rows n w n1 trunc Hv sa) as [sb Eb].
  destruct (total_mfa_right_columns n w n1 trunc Hv sb) as [sc Ec].
  destruct (total_mfa_right_rows n w n1 trunc Hv sc) as [sf Ef].
  fold n2 in Ea, Eb, Ec, Ef. fold depth in Ea, Ec, Ef.
  fold depth2 in Eb, Ef. fold trunc2 in Ec, Ef.
  assert (Ia : inj_on W sa).
  { apply (local_inj _ _ Ca _ _ Ea). now apply ownership_inj. }
  assert (Ib : inj_on W sb) by exact (local_inj _ _ Cb _ _ Eb Ia).
  assert (Ic : inj_on W sc) by exact (local_inj _ _ Cc _ _ Ec Ib).
  assert (Hrev : forall s, 0 <= n_revbin s depth < n2).
  { intros s. rewrite <- Hdp. now apply n_revbin_range. }
  assert (Hrev2 : forall j, 0 <= n_revbin j depth2 < n1).
  { intros j. pose proof (n_revbin_range j depth2 Hd2) as Hr. now rewrite Hdp2 in Hr. }
  exists sa, sb, sc, sf.
  split; [exact Ea|]. split; [exact Eb|]. split; [exact Ec|]. split; [exact Ef|].
  split.
  { unfold fft_mfa_truncate_sqrt2. cbv zeta. fold n2 depth depth2 trunc2 limbs.
    rewrite Ea. cbn [bind]. rewrite Eb. cbn [bind]. rewrite Ec. exact Ef. }
  assert (Linj : forall s s', 0 <= s < n2 -> 0 <= s' < n2 ->
            (fun s : Z => s) s = (fun s : Z => s) s' -> s = s').
  { intros s s' _ _ E. exact E. }
  destruct (rows_loop_post n 0 n1 n2 (w * n2) depth2 n2 (fun s => s) sa sb
              ltac:(lia) Hd2 Hdp2 ltac:(lia) ltac:(lia) ltac:(lia) (fun s Hs => Hs)
              Linj Ia Eb) as [Lrow _].
  assert (Rinj : forall s s', 0 <= s < trunc2 -> 0 <= s' < trunc2 ->
            n_revbin s depth = n_revbin s' depth -> s = s').
  { intros s s' Hs Hs' E.
    rewrite <- (n_revbin_invol s depth), <- (n_revbin_invol s' depth) by lia.
    now rewrite E. }
  destruct (rows_loop_post n (2 * n) n1 n2 (w * n2) depth2 trunc2
              (fun s => n_revbin s depth) sc sf
              ltac:(lia) Hd2 Hdp2 ltac:(lia) ltac:(lia) ltac:(lia) (fun s _ => Hrev s)
              Rinj Ic Ef) as [Rrow Rout].
  split; [|split].
  - intros i Hi. destruct (Lrow i Hi) as (si & E & Hval). exists si.
    split; [exact E|]. intros j Hj. split; [apply Hrev2|]. exact (Hval j Hj).
  - intros s Hs. split; [apply Hrev|]. exact (Rrow s Hs).
  - intros i j Hi Hskip Hj. apply Rout; [exact Hi| |exact Hj].
    intros s Hs E. rewrite <- E, n_revbin_invol in Hskip by lia. lia.
Qed.

(** ** The sqrt2 layer of the column pass *)

Lemma for_stride_rec_inv (I : Z -> state -> Prop) hi step body fuel :
  forall j st j' st',
  I j st ->
  (forall j s s', j < hi -> I j s -> body j s = Some s' -> I (j + step) s') ->
  for_stride_rec fuel j hi step body st = Some (j', st') ->
  I j' st' /\ hi <= j'.
Proof.
  induction fuel as [|fuel IH]; intros j st j' st' H0 Hstep Hrun; [discriminate|].
  cbn [for_stride_rec] in Hrun. destruct (Z.ltb_spec j hi) as [Hlt|Hge].
  - destruct (body j st) as [s1|] eqn:E; [|discriminate].
    apply (IH (j + step) s1); auto. now apply (Hstep j st).
  - injection Hrun as <- <-. auto.
Qed.

Lemma for_stride_inv (I : Z -> state -> Prop) j hi step body st j' st' :
  I j st ->
  (forall j s s', j < hi -> I j s -> body j s = Some s' -> I (j + step) s') ->
  for_stride j hi step body st = Some (j', st') ->
  I j' st' /\ hi <= j'.
Proof. unfold for_stride. apply for_stride_rec_inv. Qed.

Lemma for_stride_rec_ext body1 body2 hi step fuel :
  (forall j s, body1 j s = body2 j s) ->
  forall j st,
  for_stride_rec fuel j hi step body1 st = for_stride_rec fuel j hi step body2 st.
Proof.
  intros E. induction fuel as [|fuel IH]; intros j st; [reflexivity|].
  cbn [for_stride_rec]. rewrite E. destruct (j <? hi); [|reflexivity].
  destruct (body2 j st); [apply IH|reflexivity].
Qed.

Lemma for_stride_ext body1 body2 j hi step st :
  (forall j s, body1 j s = body2 j s) ->
  for_stride j hi step body1 st = for_stride j hi step body2 st.
Proof. intros E. unfold for_stride. now apply for_stride_rec_ext. Qed.

Lemma after_stride_some r k st' :
  after_stride r k = Some st' -> exists j s, r = Some (j, s) /\ k j s = Some st'.
Proof. destruct r as [[j s]|]; simpl; [eauto|discriminate]. Qed.

Lemma column_next n1 i x j :
  0 < n1 -> (x - i) mod n1 = 0 -> (j - i) mod n1 = 0 -> x < j + n1 -> x <> j -> x < j.
Proof.
  intros Hn1 Hx Hj Hlt Hne.
  apply Z.mod_divide in Hx; [|lia]. apply Z.mod_divide in Hj; [|lia].
  destruct Hx as [a Ha], Hj as [b Hb].
  destruct (Z_lt_le_dec a b) as [Hab|Hab]; [nia|].
  assert (Hc : a = b \/ b + 1 <= a) by lia.
  destruct Hc as [->|Hc]; [lia|]. exfalso. nia.
Qed.

Lemma column_step n1 i j : 0 < n1 -> (j - i) mod n1 = 0 -> (j + n1 - i) mod n1 = 0.
Proof.
  intros Hn1 Hj. replace (j + n1 - i) with (j - i + 1 * n1) by lia.
  now rewrite Z_mod_plus_full.
Qed.

Section Sqrt2Layer.

Variables (n n1 hi1 i : Z).
Variable op1 : Z -> (loc -> ptr) -> memory -> memory.
Variable g1 : Z -> coeff -> coeff -> coeff * coeff.
Variable op2 : Z -> (loc -> ptr) -> memory -> memory.
Variable h2 : Z -> coeff -> coeff -> coeff.
Hypothesis Hop1 : forall j, writes_scratch scratch3 j (2 * n + j) (op1 j) (g1 j).
Hypothesis Hop2 : forall j, writes_slot (fun l => l = temp) (j + 2 * n) j j (op2 j) (h2 j).
Hypothesis Hn : 0 < n.
Hypothesis Hn1 : 0 < n1.
Hypothesis Hi : 0 <= i.
Hypothesis Hhi : hi1 <= 2 * n.

Local Abbreviation W := (window 0 (4 * n) scratch3).
Local Abbreviation in_col x := (i <= x < 2 * n /\ (x - i) mod n1 = 0).

Lemma sqrt2_first_loop st j1 s1 :
  inj_on W st ->
  for_stride i hi1 n1 (fun j st => Some (out2_swap (op1 j) j (2 * n + j) st)) st
    = Some (j1, s1) ->
  inj_on W s1 /\ i <= j1 /\ (j1 - i) mod n1 = 0 /\
  forall x, in_col x ->
    (x < hi1 ->
       x < j1 /\
       val s1 (ii x) = fst (g1 x (val st (ii x)) (val st (ii (2 * n + x)))) /\
       val s1 (ii (2 * n + x)) = snd (g1 x (val st (ii x)) (val st (ii (2 * n + x))))) /\
    (hi1 <= x ->
       j1 <= x /\
       val s1 (ii x) = val st (ii x) /\
       val s1 (ii (2 * n + x)) = val st (ii (2 * n + x)) /\
       ptrs s1 (ii x) = ptrs st (ii x) /\
       ptrs s1 (ii (2 * n + x)) = ptrs st (ii (2 * n + x))).
Proof.
  intros Hinj Hrun.
  pose (I := fun (j : Z) (s : state) =>
    inj_on W s /\ i <= j /\ (j - i) mod n1 = 0 /\
    forall x, in_col x ->
      (x < j ->
         x < hi1 /\
         val s (ii x) = fst (g1 x (val st (ii x)) (val st (ii (2 * n + x)))) /\
         val s (ii (2 * n + x)) = snd (g1 x (val st (ii x)) (val st (ii (2 * n + x))))) /\
      (j <= x ->
         val s (ii x) = val st (ii x) /\
         val s (ii (2 * n + x)) = val st (ii (2 * n + x)) /\
         ptrs s (ii x) = ptrs st (ii x) /\
         ptrs s (ii (2 * n + x)) = ptrs st (ii (2 * n + x)))).
  assert (S1 : scratch3 t1) by (now left).
  assert (S2 : scratch3 t2) by (right; now left).
  assert (HSW : forall l, scratch3 l -> W l).
  { intros l [->|[->| ->]]; cbn [window]; unfold scratch3; auto. }
  assert (HSs : forall k, ~ scratch3 (ii k)).
  { intros k [E|[E|E]]; discriminate. }
  assert (HI : I j1 s1 /\ hi1 <= j1);
    [refine (for_stride_inv I i hi1 n1 _ st j1 s1 _ _ Hrun)
    |destruct HI as [[Ij [Hij [Hm Hx]]] Hexit]].
  - split; [exact Hinj|]. split; [lia|]. split; [now rewrite Z.sub_diag|].
    intros x [Hx _]. split; [lia|auto].
  - intros j s s' Hlt [Is [Hij [Hm Hx]]] Hb. some_inv Hb.
    assert (La : W (ii j)) by (cbn [window]; lia).
    assert (Lb : W (ii (2 * n + j))) by (cbn [window]; lia).
    assert (Hab : j <> 2 * n + j) by lia.
    pose proof (local_out2_swap W scratch3 j (2 * n + j) _ _ (Hop1 j) HSW HSs S1 S2
                  La Lb Hab) as Hloc.
    destruct (out2_swap_post W scratch3 j (2 * n + j) _ _ (Hop1 j) HSW HSs La Lb Hab s Is)
      as [Va [Vb [Vo _]]].
    split; [exact (local_inj _ _ Hloc _ _ eq_refl Is)|].
    split; [lia|]. split; [now apply column_step|].
    intros x Hc. pose proof Hc as [Hxr Hxm].
    destruct (Z.eq_dec x j) as [->|Hne].
    + split; [intros _|lia]. split; [exact Hlt|].
      destruct (Hx j Hc) as [_ Hold]. destruct Hold as [E1 [E2 _]]; [lia|].
      rewrite Va, Vb, E1, E2. split; reflexivity.
    + destruct (Vo x) as [P1 E1]; [cbn [window]; lia|lia|lia|].
      destruct (Vo (2 * n + x)) as [P2 E2]; [cbn [window]; lia|lia|lia|].
      rewrite E1, E2, P1, P2. destruct (Hx x Hc) as [Hl Hg]. split.
      * intros Hc'. apply Hl. now apply (column_next n1 i).
      * intros Hc'. apply Hg. lia.
  - split; [exact Ij|]. split; [exact Hij|]. split; [exact Hm|].
    intros x Hc. destruct (Hx x Hc) as [Hl Hg]. split.
    + intros Hlt. assert (Hxj : x < j1) by lia. split; [exact Hxj|].
      exact (proj2 (Hl Hxj)).
    + intros Hge. assert (Hjx : j1 <= x).
      { destruct (Z_lt_le_dec x j1) as [Hc'|]; [|assumption].
        destruct (Hl Hc') as [Hc'' _]. lia. }
      split; [exact Hjx|]. now apply Hg.
Qed.

Lemma sqrt2_second_loop s1 j1 j2 s2 :
  inj_on W s1 -> i <= j1 -> (j1 - i) mod n1 = 0 ->
  for_stride j1 (2 * n) n1 (fun j st => Some (on_mem (op2 j (ptrs st)) st)) s1
    = Some (j2, s2) ->
  (forall l, ptrs s2 l = ptrs s1 l) /\
  forall x, in_col x ->
    val s2 (ii x) = val s1 (ii x) /\
    (x < j1 -> val s2 (ii (2 * n + x)) = val s1 (ii (2 * n + x))) /\
    (j1 <= x -> val s2 (ii (2 * n + x)) = h2 x (val s1 (ii x)) (val s1 (ii x))).
Proof.
  intros Hinj Hij Hm Hrun.
  pose (I := fun (j : Z) (s : state) =>
    (forall l, ptrs s l = ptrs s1 l) /\ j1 <= j /\ (j - i) mod n1 = 0 /\
    forall x, in_col x ->
      val s (ii x) = val s1 (ii x) /\
      (x < j1 -> val s (ii (2 * n + x)) = val s1 (ii (2 * n + x))) /\
      (j1 <= x -> x < j ->
         val s (ii (2 * n + x)) = h2 x (val s1 (ii x)) (val s1 (ii x))) /\
      (j <= x -> val s (ii (2 * n + x)) = val s1 (ii (2 * n + x)))).
  assert (HSW : forall l, l = temp -> W l).
  { intros l ->. cbn [window]. right. now right. }
  assert (HSs : forall k, ii k <> temp) by discriminate.
  assert (HI : I j2 s2 /\ 2 * n <= j2);
    [refine (for_stride_inv I j1 (2 * n) n1 _ s1 j2 s2 _ _ Hrun)
    |destruct HI as [[Ip [Hj [_ Hx]]] Hexit]].
  - split; [reflexivity|]. split; [lia|]. split; [exact Hm|].
    intros x Hc. split; [reflexivity|]. split; [reflexivity|]. split; [lia|reflexivity].
  - intros j s s' Hlt [Ip [Hj [Hjm Hx]]] Hb. some_inv Hb.
    assert (Is : inj_on W s).
    { intros a b Ha Hb E. rewrite !Ip in E. now apply Hinj. }
    assert (Ld : W (ii (j + 2 * n))) by (cbn [window]; lia).
    destruct (slot_step_post W (fun l => l = temp) (j + 2 * n) j j _ _ (Hop2 j)
                HSW HSs Ld s Is) as [Vd [Vo Vp]].
    split; [intros l; rewrite <- Ip; now rewrite Vp|].
    split; [lia|]. split; [now apply column_step|].
    intros x Hc. pose proof Hc as [Hxr Hxm].
    destruct (Hx x Hc) as [E0 [Elow [Emid Ehigh]]].
    assert (Ex : val (on_mem (op2 j (ptrs s)) s) (ii x) = val s (ii x)).
    { apply Vo; [cbn [window]; lia|lia]. }
    split; [now rewrite Ex|].
    destruct (Z.eq_dec x j) as [->|Hne].
    + replace (2 * n + j) with (j + 2 * n) by lia. rewrite Vd.
      destruct (Hx j Hc) as [E0' _]. rewrite E0'.
      split; [lia|]. split; [reflexivity|lia].
    + assert (Ey : val (on_mem (op2 j (ptrs s)) s) (ii (2 * n + x))
                   = val s (ii (2 * n + x))).
      { apply Vo; [cbn [window]; lia|lia]. }
      rewrite Ey. split; [exact Elow|]. split.
      * intros H1 H2. apply Emid; [exact H1|]. now apply (column_next n1 i x j).
      * intros H1. apply Ehigh. lia.
  - split; [exact Ip|]. intros x Hc. destruct (Hx x Hc) as [E0 [Elow [Emid _]]].
    split; [exact E0|]. split; [exact Elow|].
    intros H1. apply Emid; [exact H1|]. destruct Hc as [Hc _]. lia.
Qed.

Lemma sqrt2_layer_generic st st' :
  inj_on W st ->
  after_stride
    (for_stride i hi1 n1 (fun j st => Some (out2_swap (op1 j) j (2 * n + j) st)) st)
    (fun j st =>
       after_stride
         (for_stride j (2 * n) n1 (fun j st => Some (on_mem (op2 j (ptrs st)) st)) st)
         (fun _ st => Some st)) = Some st' ->
  forall x, i <= x < 2 * n -> (x - i) mod n1 = 0 ->
    (x < hi1 ->
       val st' (ii x) = fst (g1 x (val st (ii x)) (val st (ii (2 * n + x)))) /\
       val st' (ii (2 * n + x)) = snd (g1 x (val st (ii x)) (val st (ii (2 * n + x))))) /\
    (hi1 <= x ->
       val st' (ii (2 * n + x)) = h2 x (val st (ii x)) (val st (ii x)) /\
       val st' (ii x) = val st (ii x) /\
       ptrs st' (ii x) = ptrs st (ii x) /\
       ptrs st' (ii (2 * n + x)) = ptrs st (ii (2 * n + x))).
Proof.
  intros Hinj Hrun x Hxr Hxm.
  apply after_stride_some in Hrun as (j1 & s1 & E1 & Hrun).
  apply after_stride_some in Hrun as (j2 & s2 & E2 & Hrun).
  some_inv Hrun.
  destruct (sqrt2_first_loop st j1 s1 Hinj E1) as [I1 [Hij [Hm Hx1]]].
  destruct (sqrt2_second_loop s1 j1 j2 s2 I1 Hij Hm E2) as [Hp Hx2].
  assert (Hc : in_col x) by (split; assumption).
  destruct (Hx1 x Hc) as [Hl1 Hg1]. destruct (Hx2 x Hc) as [E0 [Elow Ehigh]].
  split.
  - intros Hlt. destruct (Hl1 Hlt) as [Hxj [Va Vb]].
    rewrite E0, (Elow Hxj). split; assumption.
  - intros Hge. destruct (Hg1 Hge) as [Hjx [Va [Vb [Pa Pb]]]].
    rewrite (Ehigh Hjx), E0, !Hp, Va. auto.
Qed.

End Sqrt2Layer.

Lemma after_stride_ext r k1 k2 :
  (forall j s, k1 j s = k2 j s) -> after_stride r k1 = after_stride r k2.
Proof. intros E. destruct r as [[j s]|]; simpl; auto. Qed.

(** C6 (amended). The sqrt2 layer of column [i].  Below the truncation
    boundary, slot [j] and slot [2n + j] receive the two outputs of a
    butterfly of their coefficients: for odd [w], the sqrt2-adjusted butterfly
    when [j] is odd and the plain butterfly with exponent [j / 2] when [j] is
    even; for even [w], the plain butterfly with exponent [j] and weight
    [w / 2].  From the boundary on, a one-sided adjust writes slot [2n + j]
    from slot [j]: slot [j] keeps its buffer and its coefficient, slot
    [2n + j] keeps its buffer. *)
Theorem sqrt2_layer_column n w n1 trunc limbs i st :
  0 < n -> 0 < n1 -> 0 <= i -> trunc <= 4 * n -> ownership n st ->
  exists st',
    sqrt2_layer n w n1 trunc limbs i st = Some st' /\
    forall j, i <= j < 2 * n -> (j - i) mod n1 = 0 ->
      (j < trunc - 2 * n ->
         val st' (ii j)
           = fst (layer_butterfly w limbs j (val st (ii j)) (val st (ii (2 * n + j)))) /\
         val st' (ii (2 * n + j))
           = snd (layer_butterfly w limbs j (val st (ii j)) (val st (ii (2 * n + j))))) /\
      (trunc - 2 * n <= j ->
         val st' (ii (2 * n + j)) = layer_adjust w limbs i j (val st (ii j)) /\
         val st' (ii j) = val st (ii j) /\
         ptrs st' (ii j) = ptrs st (ii j) /\
         ptrs st' (ii (2 * n + j)) = ptrs st (ii (2 * n + j))).
Proof.
  intros Hn Hn1 Hi Ht Hown.
  destruct (total_sqrt2_layer n w n1 trunc limbs i Hn1 st) as [st' E].
  exists st'. split; [exact E|].
  apply ownership_inj in Hown.
  assert (S1 : scratch3 t1) by (now left).
  assert (S2 : scratch3 t2) by (right; now left).
  assert (S3 : scratch3 temp) by (right; now right).
  unfold sqrt2_layer in E. unfold layer_butterfly, layer_adjust.
  destruct (negb (Z.land w 1 =? 0)).
  - pose (op1 := fun j : Z =>
      if negb (Z.land j 1 =? 0) then
        (fun Pt : loc -> ptr =>
           c_fft_butterfly_sqrt2 (Pt t1) (Pt t2) (Pt (ii j)) (Pt (ii (2 * n + j)))
             j limbs w (Pt temp))
      else
        (fun Pt : loc -> ptr =>
           c_fft_butterfly (Pt t1) (Pt t2) (Pt (ii j)) (Pt (ii (2 * n + j)))
             (j / 2) limbs w)).
    pose (g1 := fun j : Z =>
      if negb (Z.land j 1 =? 0) then (fun s t => fft_butterfly_sqrt2 s t j limbs w)
      else (fun s t => fft_butterfly s t (j / 2) limbs w)).
    pose (op2 := fun j : Z =>
      if negb (Z.land i 1 =? 0) then
        (fun Pt : loc -> ptr =>
           c_fft_adjust_sqrt2 (Pt (ii (j + 2 * n))) (Pt (ii j)) j limbs w (Pt temp))
      else
        (fun Pt : loc -> ptr =>
           c_fft_adjust (Pt (ii (j + 2 * n))) (Pt (ii j)) (j / 2) limbs w)).
    pose (h2 := fun j : Z =>
      if negb (Z.land i 1 =? 0) then (fun (x _ : coeff) => fft_adjust_sqrt2 x j limbs w)
      else (fun (x _ : coeff) => fft_adjust x (j / 2) limbs w)).
    assert (Hop1 : forall j, writes_scratch scratch3 j (2 * n + j) (op1 j) (g1 j)).
    { intros j. apply ws_if.
      - now apply ws_fft_butterfly_sqrt2.
      - now apply ws_fft_butterfly. }
    assert (Hop2 : forall j,
              writes_slot (fun l => l = temp) (j + 2 * n) j j (op2 j) (h2 j)).
    { intros j. apply wl_if.
      - now apply wl_fft_adjust_sqrt2.
      - apply wl_fft_adjust. }
    rewrite (for_stride_ext _
               (fun j st => Some (out2_swap (op1 j) j (2 * n + j) st))) in E.
    2:{ intros j s. unfold op1. cbv zeta. destruct (negb (Z.land j 1 =? 0)); reflexivity. }
    rewrite (after_stride_ext _ _
               (fun j st =>
                  after_stride
                    (for_stride j (2 * n) n1
                       (fun j st => Some (on_mem (op2 j (ptrs st)) st)) st)
                    (fun _ st => Some st))) in E.
    2:{ intros j s. f_equal. apply for_stride_ext. intros j' s'. unfold op2.
        destruct (negb (Z.land i 1 =? 0)); reflexivity. }
    intros j Hj Hm.
    destruct (sqrt2_layer_generic n n1 (trunc - 2 * n) i op1 g1 op2 h2 Hop1 Hop2
                Hn Hn1 Hi ltac:(lia) st st' Hown E j Hj Hm) as [Hlow Hhigh].
    unfold g1 in Hlow. unfold h2 in Hhigh.
    split.
    + intros Hlt. specialize (Hlow Hlt).
      destruct (negb (Z.land j 1 =? 0)); exact Hlow.
    + intros Hge. specialize (Hhigh Hge).
      destruct (negb (Z.land i 1 =? 0)); exact Hhigh.
  - pose (op1 := fun j : Z => fun Pt : loc -> ptr =>
        c_fft_butterfly (Pt t1) (Pt t2) (Pt (ii j)) (Pt (ii (2 * n + j))) j limbs (w / 2)).
    pose (g1 := fun j : Z => fun s t => fft_butterfly s t j limbs (w / 2)).
    pose (op2 := fun j : Z => fun Pt : loc -> ptr =>
        c_fft_adjust (Pt (ii (j + 2 * n))) (Pt (ii j)) j limbs (w / 2)).
    pose (h2 := fun j : Z => fun (x _ : coeff) => fft_adjust x j limbs (w / 2)).
    assert (Hop1 : forall j, writes_scratch scratch3 j (2 * n + j) (op1 j) (g1 j)).
    { intros j. now apply ws_fft_butterfly. }
    assert (Hop2 : forall j,
              writes_slot (fun l => l = temp) (j + 2 * n) j j (op2 j) (h2 j)).
    { intros j. apply wl_fft_adjust. }
    intros j Hj Hm.
    exact (sqrt2_layer_generic n n1 (trunc - 2 * n) i op1 g1 op2 h2 Hop1 Hop2
             Hn Hn1 Hi ltac:(lia) st st' Hown E j Hj Hm).
Qed.

(** ** The twiddled butterfly *)

Lemma eqm_mul_r p a b c : a mod p = b mod p -> (a * c) mod p = (b * c) mod p.
Proof. intros H. rewrite Zmult_mod, H, <- Zmult_mod. reflexivity. Qed.

Lemma eqm_opp p a b : a mod p = b mod p -> (- a) mod p = (- b) mod p.
Proof.
  intros H. replace (- a) with (a * -1) by lia. replace (- b) with (b * -1) by lia.
  now apply eqm_mul_r.
Qed.

Lemma pow2_nw_minus_one limbs :
  (2 ^ (limbs * FLINT_BITS)) mod ring_modulus limbs = (-1) mod ring_modulus limbs.
Proof.
  unfold ring_modulus.
  replace (2 ^ (limbs * FLINT_BITS)) with (-1 + 1 * (2 ^ (limbs * FLINT_BITS) + 1)) at 1
    by lia.
  apply Z_mod_plus_full.
Qed.

(** One output of the butterfly: a word shift by [x] limbs, a bit shift by
    [d], and a negation when the rotation went past [nw]. *)
Lemma rotate_output (repr : coeff -> Z) limbs b c cl z :
  0 < FLINT_BITS -> mul_2exp_contract repr -> neg_contract repr ->
  0 <= b < 2 * (limbs * FLINT_BITS) ->
  let nw := limbs * FLINT_BITS in
  let b' := if b >=? nw then b - nw else b in
  repr cl mod ring_modulus limbs
    = (z * 2 ^ (b' / FLINT_BITS * FLINT_BITS)) mod ring_modulus limbs ->
  c = mpn_mul_2expmod_2expp1 cl limbs (b' mod FLINT_BITS) ->
  repr (if b >=? nw then mpn_neg_n c (limbs + 1) else c) mod ring_modulus limbs
    = (2 ^ b * z) mod ring_modulus limbs /\
  repr c mod ring_modulus limbs = (2 ^ b' * z) mod ring_modulus limbs.
Proof.
  intros HW Hmul Hneg Hb nw b' Hcl ->.
  assert (Hb' : 0 <= b' < nw).
  { unfold b'. destruct (Z.geb_spec b nw); lia. }
  assert (Hd : 0 <= b' mod FLINT_BITS < FLINT_BITS) by (apply Z.mod_pos_bound; lia).
  assert (Hx : 0 <= b' / FLINT_BITS) by (apply Z.div_pos; lia).
  assert (Hsplit : 2 ^ b' = 2 ^ (b' / FLINT_BITS * FLINT_BITS) * 2 ^ (b' mod FLINT_BITS)).
  { rewrite <- Z.pow_add_r by nia. f_equal.
    rewrite (Z.div_mod b' FLINT_BITS) at 1 by lia. lia. }
  assert (Hc : repr (mpn_mul_2expmod_2expp1 cl limbs (b' mod FLINT_BITS))
               mod ring_modulus limbs = (2 ^ b' * z) mod ring_modulus limbs).
  { rewrite (Hmul cl limbs _ Hd).
    rewrite (eqm_mul_r _ _ _ (2 ^ (b' mod FLINT_BITS)) Hcl).
    f_equal. rewrite Hsplit. lia. }
  split; [|exact Hc].
  destruct (Z.geb_spec b nw) as [Hge|Hlt].
  - rewrite Hneg. rewrite (eqm_opp _ _ _ Hc).
    replace b with (nw + b') by (unfold b'; destruct (Z.geb_spec b nw); lia).
    rewrite Z.pow_add_r by lia.
    replace (2 ^ nw * 2 ^ b' * z) with (2 ^ nw * (2 ^ b' * z)) by lia.
    rewrite (eqm_mul_r _ (2 ^ nw) (-1) (2 ^ b' * z) (pow2_nw_minus_one limbs)).
    f_equal; lia.
  - rewrite Hc. unfold b'. destruct (Z.geb_spec b nw); [lia|reflexivity].
Qed.

(** C2. [fft_butterfly_twiddle(u, v, s, t, limbs, b1, b2)], called on output
    buffers that are distinct from each other and from the inputs, with
    [0 <= b1, b2 < 2 * nw], leaves [u = 2^b1 * (s + t)] and
    [v = 2^b2 * (s - t)] modulo [2^nw + 1], and does not touch any other
    buffer; a rotation by [b >= nw] is a rotation by [b - nw] followed by a
    negation. *)
Theorem fft_butterfly_twiddle_correct (repr : coeff -> Z) u v s t limbs b1 b2
    (m : memory) :
  0 < FLINT_BITS ->
  lshB_contract repr -> mul_2exp_contract repr -> neg_contract repr ->
  0 <= b1 < 2 * (limbs * FLINT_BITS) -> 0 <= b2 < 2 * (limbs * FLINT_BITS) ->
  u <> v -> u <> s -> u <> t -> v <> s -> v <> t ->
  let nw := limbs * FLINT_BITS in
  let p := ring_modulus limbs in
  let m' := fft_butterfly_twiddle u v s t limbs b1 b2 m in
  repr (m' u) mod p = (2 ^ b1 * (repr (m s) + repr (m t))) mod p /\
  repr (m' v) mod p = (2 ^ b2 * (repr (m s) - repr (m t))) mod p /\
  (nw <= b1 -> exists c, m' u = mpn_neg_n c (limbs + 1) /\
     repr c mod p = (2 ^ (b1 - nw) * (repr (m s) + repr (m t))) mod p) /\
  (nw <= b2 -> exists c, m' v = mpn_neg_n c (limbs + 1) /\
     repr c mod p = (2 ^ (b2 - nw) * (repr (m s) - repr (m t))) mod p) /\
  (forall q, q <> u -> q <> v -> m' q = m q).
Proof.
  intros HW Hlsh Hmul Hneg Hb1 Hb2 Huv Hus Hut Hvs Hvt nw p m'.
  destruct (fft_butterfly_twiddle_out u v s t limbs b1 b2 m Huv) as [Eu Ev].
  fold m' in Eu, Ev. unfold butterfly_twiddle_val in Eu, Ev. cbv zeta in Eu, Ev.
  fold nw in Eu, Ev.
  set (b1' := if b1 >=? nw then b1 - nw else b1) in *.
  set (b2' := if b2 >=? nw then b2 - nw else b2) in *.
  assert (Hb1' : 0 <= b1' < nw) by (unfold b1'; destruct (Z.geb_spec b1 nw); lia).
  assert (Hb2' : 0 <= b2' < nw) by (unfold b2'; destruct (Z.geb_spec b2 nw); lia).
  assert (Hx : 0 <= b1' / FLINT_BITS < limbs).
  { split; [apply Z.div_pos; lia|]. apply Z.div_lt_upper_bound; lia. }
  assert (Hy : 0 <= b2' / FLINT_BITS < limbs).
  { split; [apply Z.div_pos; lia|]. apply Z.div_lt_upper_bound; lia. }
  destruct (Hlsh (m s) (m t) limbs _ _ Hx Hy) as [L1 L2].
  set (r := butterfly_lshB (m s) (m t) limbs (b1' / FLINT_BITS) (b2' / FLINT_BITS)) in *.
  simpl fst in Eu. simpl snd in Ev.
  destruct (rotate_output repr limbs b1 _ (fst r) (repr (m s) + repr (m t))
              HW Hmul Hneg Hb1 L1 eq_refl) as [R1 R1'].
  destruct (rotate_output repr limbs b2 _ (snd r) (repr (m s) - repr (m t))
              HW Hmul Hneg Hb2 L2 eq_refl) as [R2 R2'].
  fold nw in R1, R1', R2, R2'. fold b1' in R1, R1'. fold b2' in R2, R2'.
  split; [rewrite Eu; exact R1|]. split; [rewrite Ev; exact R2|].
  split; [|split].
  - intros Hge. eexists. split.
    + rewrite Eu. destruct (Z.geb_spec b1 nw); [reflexivity|lia].
    + replace (b1 - nw) with b1' by (unfold b1'; destruct (Z.geb_spec b1 nw); lia).
      exact R1'.
  - intros Hge. eexists. split.
    + rewrite Ev. destruct (Z.geb_spec b2 nw); [reflexivity|lia].
    + replace (b2 - nw) with b2' by (unfold b2'; destruct (Z.geb_spec b2 nw); lia).
      exact R2'.
  - intros q Hqu Hqv. now apply fft_butterfly_twiddle_frame.
Qed.

(** * Further properties of the transforms *)

(** ** Where the recursive transforms return *)

Lemma fft_radix2_twiddle_rec_zero k ii0 is_ w ws r c rs : forall st,
  fft_radix2_twiddle_rec k ii0 is_ 0 w ws r c rs st = None.
Proof.
  revert w rs r ii0. induction k as [|k IH]; intros w rs r ii0 st; [reflexivity|].
  cbn [fft_radix2_twiddle_rec]. cbv zeta.
  change (0 =? 1) with false. cbv iota.
  change (for_loop 0 0 (fun i st0 =>
            Some (butterfly_swap (ii0 + i * is_) (ii0 + (0 + i) * is_) i
                    (w * 0 / FLINT_BITS) w st0)) st) with (Some st).
  cbn [bind]. change (0 / 2) with 0. now rewrite IH.
Qed.

(** X1. [fft_radix2_twiddle] returns for every length [n >= 1], a power of two
    or not; with [n = 0] the recursion never reaches its base case [n = 1],
    however far it is run. *)
Theorem fft_radix2_twiddle_returns ii0 is_ n w ws r c rs st :
  0 <= n ->
  ((exists st', fft_radix2_twiddle ii0 is_ n w ws r c rs st = Some st') <-> 1 <= n) /\
  (n = 0 -> forall k, fft_radix2_twiddle_rec k ii0 is_ n w ws r c rs st = None).
Proof.
  intros Hn. split; [split|].
  - intros [st' E]. destruct (Z.eq_dec n 0) as [->|]; [|lia].
    unfold fft_radix2_twiddle in E. rewrite fft_radix2_twiddle_rec_zero in E.
    discriminate.
  - intros H1. now apply total_fft_radix2_twiddle.
  - intros -> k. apply fft_radix2_twiddle_rec_zero.
Qed.

Lemma pow2_even e : 1 <= e -> (2 ^ e) mod 2 = 0.
Proof.
  intros He. replace e with (Z.succ (e - 1)) by lia.
  rewrite Z.pow_succ_r by lia. rewrite Z.mul_comm. apply Z.mod_mul. lia.
Qed.

Lemma fft_truncate1_twiddle_rec_diverges k : forall e ii0 is_ w ws r c rs trunc st,
  0 <= e -> ~ (trunc mod 2 = 0 /\ 2 <= trunc <= 2 * 2 ^ e) ->
  fft_truncate1_twiddle_rec k ii0 is_ (2 ^ e) w ws r c rs trunc st = None.
Proof.
  induction k as [|k IH]; intros e ii0 is_ w ws r c rs trunc st He Hbad;
    [reflexivity|].
  assert (Hp : 0 < 2 ^ e) by (apply Z.pow_pos_nonneg; lia).
  cbn [fft_truncate1_twiddle_rec]. cbv zeta.
  destruct (Z.eqb_spec trunc (2 * 2 ^ e)) as [E|Hne].
  { exfalso. apply Hbad. subst trunc. split; [|lia].
    rewrite Z.mul_comm. apply Z.mod_mul. lia. }
  destruct (Z.eq_dec e 0) as [->|He0].
  - change (2 ^ 0) with 1. change (1 / 2) with 0.
    destruct (trunc <=? 1).
    + destruct (for_loop 0 1 _ st) as [s1|]; cbn [bind]; [|reflexivity].
      apply fft_truncate1_twiddle_rec_none. lia.
    + destruct (for_loop 0 1 _ st) as [s1|]; cbn [bind]; [|reflexivity].
      reflexivity.
  - destruct (pow2_half e) as [Hh Hh']; [lia|]. rewrite Hh.
    pose proof (pow2_even e ltac:(lia)) as Hev.
    destruct (Z.leb_spec trunc (2 ^ e)) as [Hle|Hgt].
    + destruct (for_loop 0 (2 ^ e) _ st) as [s1|]; cbn [bind]; [|reflexivity].
      apply IH; [lia|]. intros [Hm Hr]. apply Hbad. split; [exact Hm|lia].
    + destruct (for_loop 0 (2 ^ e) _ st) as [s1|]; cbn [bind]; [|reflexivity].
      destruct (fft_radix2_twiddle ii0 is_ (2 ^ (e - 1)) (2 * w) ws r c (2 * rs) s1)
        as [s2|]; cbn [bind]; [|reflexivity].
      apply IH; [lia|]. intros [Hm Hr]. apply Hbad. split; [|lia].
      revert Hm Hev. generalize (2 ^ e). intros q Hm Hev. zlia.
Qed.

(** X2. For [n] a power of two, [fft_truncate1_twiddle] returns exactly when
    [trunc] is even with [2 <= trunc <= 2n]; for any other [trunc] the
    recursion runs into a transform of length 0 and never returns, however far
    it is run. *)
Theorem fft_truncate1_twiddle_returns e ii0 is_ w ws r c rs trunc st :
  0 <= e ->
  ((exists st', fft_truncate1_twiddle ii0 is_ (2 ^ e) w ws r c rs trunc st = Some st')
   <-> trunc mod 2 = 0 /\ 2 <= trunc <= 2 * 2 ^ e) /\
  (~ (trunc mod 2 = 0 /\ 2 <= trunc <= 2 * 2 ^ e) ->
   forall k, fft_truncate1_twiddle_rec k ii0 is_ (2 ^ e) w ws r c rs trunc st = None).
Proof.
  intros He.
  assert (Hdec : {trunc mod 2 = 0 /\ 2 <= trunc <= 2 * 2 ^ e}
                 + {~ (trunc mod 2 = 0 /\ 2 <= trunc <= 2 * 2 ^ e)}).
  { destruct (Z.eq_dec (trunc mod 2) 0); [|right; tauto].
    destruct (Z_le_dec 2 trunc); [|right; lia].
    destruct (Z_le_dec trunc (2 * 2 ^ e)); [left|right]; lia. }
  split; [split|].
  - intros [st' E]. destruct Hdec as [Hg|Hb]; [exact Hg|].
    unfold fft_truncate1_twiddle in E.
    rewrite fft_truncate1_twiddle_rec_diverges in E by assumption. discriminate.
  - intros [Hm Hr]. now apply total_fft_truncate1_twiddle.
  - intros Hb k. now apply fft_truncate1_twiddle_rec_diverges.
Qed.

(** ** Truncation leaves the lower half of the output alone *)

(** The footprint of a call on the slots [ii0 + j * is], [lo <= j < hi], with
    the two scratch variables of the butterflies. *)
Lemma strided_footprint_local ii0 is_ n lo (f : state -> option state)
    (L : loc -> Prop) :
  (forall L' : loc -> Prop, L' t1 -> L' t2 ->
     (forall j, 0 <= j < 2 * n -> L' (ii (ii0 + lo * is_ + j * is_))) -> local L' f) ->
  L = (fun l => match l with
                | ii k => exists j, lo <= j < lo + 2 * n /\ k = ii0 + j * is_
                | t1 | t2 => True
                | temp => False
                end) ->
  local L f.
Proof.
  intros Hf ->. apply Hf; auto. intros j Hj. exists (lo + j). split; lia.
Qed.

(** X3. When more than half of the outputs are asked for ([n < trunc <= 2n]),
    the lower [n] output slots of [fft_truncate1_twiddle] own the same buffers
    and hold the same coefficients as after [fft_radix2_twiddle] on the same
    input: the truncation only shows in the upper half. *)
Theorem fft_truncate1_twiddle_lower_half (L : loc -> Prop) e ii0 is_ w ws r c rs trunc st :
  0 <= e -> 2 ^ e < trunc <= 2 * 2 ^ e -> trunc mod 2 = 0 ->
  is_ <> 0 -> L t1 -> L t2 ->
  (forall j, 0 <= j < 2 * 2 ^ e -> L (ii (ii0 + j * is_))) ->
  inj_on L st ->
  exists st_t st_f,
    fft_truncate1_twiddle ii0 is_ (2 ^ e) w ws r c rs trunc st = Some st_t /\
    fft_radix2_twiddle ii0 is_ (2 ^ e) w ws r c rs st = Some st_f /\
    forall i, 0 <= i < 2 ^ e ->
      ptrs st_t (ii (ii0 + i * is_)) = ptrs st_f (ii (ii0 + i * is_)) /\
      val st_t (ii (ii0 + i * is_)) = val st_f (ii (ii0 + i * is_)).
Proof.
  intros He Ht Hm Hs H1 H2 HL Hinj.
  assert (Hp : 0 < 2 ^ e) by (apply Z.pow_pos_nonneg; lia).
  destruct (total_fft_truncate1_twiddle e ii0 is_ w ws r c rs trunc He
              ltac:(lia) Hm st) as [st_t Et].
  destruct (total_fft_radix2_twiddle ii0 is_ (2 ^ e) w ws r c rs ltac:(lia) st)
    as [st_f Ef].
  exists st_t, st_f. split; [exact Et|]. split; [exact Ef|].
  destruct (Z.eq_dec trunc (2 * 2 ^ e)) as [E2|Hne].
  { rewrite fft_truncate1_twiddle_unfold in Et by lia.
    destruct (Z.eqb_spec trunc (2 * 2 ^ e)) as [_|]; [|contradiction].
    rewrite Ef in Et. some_inv Et. intros; split; reflexivity. }
  assert (He1 : 1 <= e).
  { destruct (Z.eq_dec e 0) as [->|]; [|lia]. change (2 ^ 0) with 1 in *. lia. }
  destruct (pow2_half e He1) as [Hh Hh'].
  set (n := 2 ^ e) in *.
  assert (Hn2 : 2 <= n) by lia.
  rewrite fft_truncate1_twiddle_unfold in Et by lia.
  rewrite fft_radix2_twiddle_unfold in Ef by lia.
  destruct (Z.eqb_spec trunc (2 * n)) as [|_]; [contradiction|].
  destruct (Z.leb_spec trunc n) as [|_]; [lia|].
  apply bind_some in Et as (s1 & E1 & Et). rewrite E1 in Ef. cbn [bind] in Ef.
  apply bind_some in Et as (s2 & E2 & Et). rewrite E2 in Ef. cbn [bind] in Ef.
  assert (I1 : inj_on L s1).
  { exact (local_inj _ _ (local_butterfly_layer L ii0 is_ n _ w Hs H1 H2 HL)
             _ _ E1 Hinj). }
  assert (HLlow : forall j, 0 <= j < 2 * (n / 2) -> L (ii (ii0 + j * is_))).
  { intros j Hj. apply HL. lia. }
  assert (I2 : inj_on L s2).
  { exact (local_inj _ _ (local_fft_radix2_twiddle L ii0 is_ (n / 2) (2 * w) ws r c
                            (2 * rs) Hs H1 H2 HLlow) _ _ E2 I1). }
  set (LU := fun l => match l with
                      | ii k => exists j, n <= j < n + 2 * (n / 2) /\ k = ii0 + j * is_
                      | t1 | t2 => True
                      | temp => False
                      end).
  assert (LUL : forall l, LU l -> L l).
  { intros [k| | |]; cbn [LU]; auto; [|tauto].
    intros (j & Hj & ->). apply HL. lia. }
  assert (Ct : local LU (fft_truncate1_twiddle (ii0 + n * is_) is_ (n / 2) (2 * w) ws
                           (r + rs) c (2 * rs) (trunc - n))).
  { apply (strided_footprint_local ii0 is_ (n / 2) n); [|reflexivity].
    intros L' Q1 Q2 QL. now apply local_fft_truncate1_twiddle. }
  assert (Cf : local LU (fft_radix2_twiddle (ii0 + n * is_) is_ (n / 2) (2 * w) ws
                           (r + rs) c (2 * rs))).
  { apply (strided_footprint_local ii0 is_ (n / 2) n); [|reflexivity].
    intros L' Q1 Q2 QL. now apply local_fft_radix2_twiddle. }
  intros i Hi.
  assert (Li : L (ii (ii0 + i * is_))) by (apply HL; lia).
  assert (Ni : ~ LU (ii (ii0 + i * is_))).
  { cbn [LU]. intros (j & Hj & E). apply stride_inj in E; auto. lia. }
  destruct (local_val_frame LU L _ s2 st_t _ Ct Et LUL I2 Li Ni) as [Pt Vt].
  destruct (local_val_frame LU L _ s2 st_f _ Cf Ef LUL I2 Li Ni) as [Pf Vf].
  split; congruence.
Qed.

(** ** The outer variant, completed by the row passes *)

(** X4. The outer variant followed by the row pass of the left half and then
    by the row pass of the right half leaves, in every slot of the signal, the
    coefficient that the full variant leaves there: the left row pass and the
    right column pass work on different halves and may be exchanged. *)
Theorem fft_mfa_truncate_sqrt2_outer_then_rows n w n1 trunc st :
  mfa_valid n n1 trunc -> ownership n st ->
  let n2 := 2 * n / n1 in
  let trunc2 := (trunc - 2 * n) / n1 in
  let depth := depth_of n2 in
  let depth2 := depth_of n1 in
  exists so s1 s2 sf,
    fft_mfa_truncate_sqrt2_outer n w n1 trunc st = Some so /\
    mfa_left_rows w n1 n2 depth2 so = Some s1 /\
    mfa_right_rows n w n1 n2 trunc2 depth depth2 s1 = Some s2 /\
    fft_mfa_truncate_sqrt2 n w n1 trunc st = Some sf /\
    forall k, 0 <= k < 4 * n -> val s2 (ii k) = val sf (ii k).
Proof.
  intros Hv Hown n2 trunc2 depth depth2.
  destruct (mfa_valid_facts _ _ _ Hv) as
    [Hn Hn1 Hn2 Hg [Hd Hdp] [Hd2 Hdp2] _ _ Ht _].
  fold n2 in Hn2, Hg, Hd, Hdp. fold depth in Hd, Hdp. fold depth2 in Hd2, Hdp2.
  set (limbs := n * w / FLINT_BITS).
  set (W := window 0 (4 * n) scratch3).
  set (LL := window 0 (2 * n) scratch2).
  set (LR := window (2 * n) (4 * n) scratch2).
  assert (S1 : scratch3 t1) by (now left).
  assert (S2 : scratch3 t2) by (right; now left).
  assert (S3 : scratch3 temp) by (right; now right).
  assert (LLW : forall l, LL l -> W l).
  { apply window_sub; [lia|lia|exact scratch23]. }
  assert (LRW : forall l, LR l -> W l).
  { apply window_sub; [lia|lia|exact scratch23]. }
  assert (Ca : local W (mfa_left_columns n w n1 trunc n2 limbs depth)).
  { apply local_mfa_left_columns; auto; try lia. }
  assert (Cb : local LL (mfa_left_rows w n1 n2 depth2)).
  { apply (local_mfa_left_rows _ n); auto; try lia;
      try (now left); try (now right); intros k Hk; exact Hk. }
  assert (Cb' : local W (mfa_left_rows w n1 n2 depth2)).
  { apply (local_mfa_left_rows _ n); auto; try lia;
      intros k Hk; cbn [W window]; lia. }
  assert (Cc : local LR (mfa_right_columns n w n1 n2 trunc2 depth)).
  { apply local_mfa_right_columns; auto; try lia;
      try (now left); try (now right); intros k Hk; exact Hk. }
  assert (Cc' : local W (mfa_right_columns n w n1 n2 trunc2 depth)).
  { apply local_mfa_right_columns; auto; try lia;
      intros k Hk; cbn [W window]; lia. }
  assert (Cd : local LR (mfa_right_rows n w n1 n2 trunc2 depth depth2)).
  { apply local_mfa_right_rows; auto; try lia;
      try (now left); try (now right); intros k Hk; exact Hk. }
  destruct (total_mfa_left_columns n w n1 trunc limbs Hv st) as [sa Ea].
  destruct (total_mfa_left_rows n w n1 trunc Hv sa) as [sb Eb].
  destruct (total_mfa_right_columns n w n1 trunc Hv sb) as [sc Ec].
  destruct (total_mfa_right_rows n w n1 trunc Hv sc) as [sf Ef].
  destruct (total_mfa_right_columns n w n1 trunc Hv sa) as [so Eo].
  destruct (total_mfa_left_rows n w n1 trunc Hv so) as [s1 E1].
  destruct (total_mfa_right_rows n w n1 trunc Hv s1) as [s2 E2].
  fold n2 in Ea, Eb, Ec, Ef, Eo, E1, E2. fold depth in Ea, Ec, Ef, Eo, E2.
  fold depth2 in Eb, Ef, E1, E2. fold trunc2 in Ec, Ef, Eo, E2.
  exists so, s1, s2, sf.
  split. { unfold fft_mfa_truncate_sqrt2_outer. cbv zeta.
           fold n2 depth trunc2 limbs. rewrite Ea. exact Eo. }
  split; [exact E1|]. split; [exact E2|].
  split. { unfold fft_mfa_truncate_sqrt2. cbv zeta. fold n2 depth depth2 trunc2 limbs.
           rewrite Ea. cbn [bind]. rewrite Eb. cbn [bind]. rewrite Ec. exact Ef. }
  assert (Ia : inj_on W sa).
  { apply (local_inj _ _ Ca _ _ Ea). now apply ownership_inj. }
  assert (Ib : inj_on W sb) by exact (local_inj _ _ Cb' _ _ Eb Ia).
  assert (Ic : inj_on W sc) by exact (local_inj _ _ Cc' _ _ Ec Ib).
  assert (Io : inj_on W so) by exact (local_inj _ _ Cc' _ _ Eo Ia).
  assert (I1 : inj_on W s1) by exact (local_inj _ _ Cb' _ _ E1 Io).
  assert (inLL : forall k, 0 <= k < 2 * n -> LL (ii k) /\ W (ii k) /\ ~ LR (ii k)).
  { intros k Hk. cbn [LL LR W window]. lia. }
  assert (inLR : forall k, 2 * n <= k < 4 * n -> LR (ii k) /\ W (ii k) /\ ~ LL (ii k)).
  { intros k Hk. cbn [LL LR W window]. lia. }
  (* the left half: the row pass sees the same coefficients in both runs *)
  assert (Aleft : agree LL s1 sc).
  { assert (A0 : agree LL so sa).
    { intros k Hk. cbn [LL window] in Hk. destruct (inLL k Hk) as (_ & Wk & Nk).
      exact (proj2 (local_val_frame LR W _ sa so (ii k) Cc Eo LRW Ia Wk Nk)). }
    assert (A1 : agree LL s1 sb).
    { exact (local_sim _ _ Cb _ _ _ _ E1 Eb (inj_on_sub LL W _ LLW Io)
               (inj_on_sub LL W _ LLW Ia) A0). }
    intros k Hk. rewrite (A1 k Hk). cbn [LL window] in Hk.
    destruct (inLL k Hk) as (_ & Wk & Nk). symmetry.
    exact (proj2 (local_val_frame LR W _ sb sc (ii k) Cc Ec LRW Ib Wk Nk)). }
  (* the right half: the column pass sees the same coefficients in both runs *)
  assert (Aright : agree LR s1 sc).
  { assert (A0 : agree LR sa sb).
    { intros k Hk. cbn [LR window] in Hk. destruct (inLR k Hk) as (_ & Wk & Nk).
      symmetry.
      exact (proj2 (local_val_frame LL W _ sa sb (ii k) Cb Eb LLW Ia Wk Nk)). }
    assert (A1 : agree LR so sc).
    { exact (local_sim _ _ Cc _ _ _ _ Eo Ec (inj_on_sub LR W _ LRW Ia)
               (inj_on_sub LR W _ LRW Ib) A0). }
    intros k Hk. rewrite <- (A1 k Hk). cbn [LR window] in Hk.
    destruct (inLR k Hk) as (_ & Wk & Nk).
    exact (proj2 (local_val_frame LL W _ so s1 (ii k) Cb E1 LLW Io Wk Nk)). }
  assert (Afin : agree LR s2 sf).
  { exact (local_sim _ _ Cd _ _ _ _ E2 Ef (inj_on_sub LR W _ LRW I1)
             (inj_on_sub LR W _ LRW Ic) Aright). }
  intros k Hk. destruct (Z_lt_le_dec k (2 * n)) as [Hlo|Hhi].
  - destruct (inLL k ltac:(lia)) as (Lk & Wk & Nk).
    rewrite (proj2 (local_val_frame LR W _ s1 s2 (ii k) Cd E2 LRW I1 Wk Nk)).
    rewrite (proj2 (local_val_frame LR W _ sc sf (ii k) Cd Ef LRW Ic Wk Nk)).
    exact (Aleft k Lk).
  - destruct (inLR k ltac:(lia)) as (Lk & _). exact (Afin k Lk).
Qed.

(** ** What the matrix-Fourier transforms leave alone *)

Lemma keeps_ptr_bind l f g :
  keeps_ptr l f -> keeps_ptr l g -> keeps_ptr l (fun st => bind (f st) g).
Proof.
  intros Hf Hg st st' E. apply bind_some in E as (s1 & E1 & E2).
  rewrite (Hg _ _ E2). exact (Hf _ _ E1).
Qed.

Lemma keeps_ptr_some l (f : state -> state) :
  (forall st, ptrs (f st) l = ptrs st l) -> keeps_ptr l (fun st => Some (f st)).
Proof. intros Hf st st' E. some_inv E. apply Hf. Qed.

Lemma keeps_ptr_for_count l body k : forall lo,
  (forall i, keeps_ptr l (body i)) -> keeps_ptr l (for_count k lo body).
Proof.
  induction k as [|k IH]; intros lo Hb st st' E.
  - simpl in E. now some_inv E.
  - cbn [for_count] in E. apply bind_some in E as (s1 & E1 & E2).
    rewrite (IH _ Hb _ _ E2). exact (Hb _ _ _ E1).
Qed.

Lemma keeps_ptr_for_loop l body lo hi :
  (forall i, keeps_ptr l (body i)) -> keeps_ptr l (for_loop lo hi body).
Proof. intros. unfold for_loop. now apply keeps_ptr_for_count. Qed.

Lemma keeps_ptr_for_stride_rec l hi step body k fuel : forall j,
  (forall i, keeps_ptr l (body i)) -> (forall i, keeps_ptr l (k i)) ->
  keeps_ptr l (fun st => after_stride (for_stride_rec fuel j hi step body st) k).
Proof.
  induction fuel as [|fuel IH]; intros j Hb Hk st st' E; [discriminate|].
  cbn [for_stride_rec] in E. destruct (j <? hi).
  - destruct (body j st) as [s1|] eqn:E1; [|discriminate].
    rewrite (IH _ Hb Hk _ _ E). exact (Hb _ _ _ E1).
  - exact (Hk _ _ _ E).
Qed.

Lemma keeps_ptr_for_stride l j hi step body k :
  (forall i, keeps_ptr l (body i)) -> (forall i, keeps_ptr l (k i)) ->
  keeps_ptr l (fun st => after_stride (for_stride j hi step body st) k).
Proof. intros. unfold for_stride. now apply keeps_ptr_for_stride_rec. Qed.

Lemma swap2_temp a b (st : state) :
  ptrs (SWAP_PTRS (ii b) t2 (SWAP_PTRS (ii a) t1 st)) temp = ptrs st temp.
Proof.
  rewrite !SWAP_PTRS_ptrs. rewrite !transp_out; try discriminate. reflexivity.
Qed.

Lemma keeps_temp_butterfly_layer ii0 is_ n limbs w :
  keeps_ptr temp (for_loop 0 n (fun i st =>
    Some (butterfly_swap (ii0 + i * is_) (ii0 + (n + i) * is_) i limbs w st))).
Proof.
  apply keeps_ptr_for_loop. intros i. apply keeps_ptr_some. intros st.
  unfold butterfly_swap. cbv zeta. now rewrite swap2_temp.
Qed.

Lemma keeps_temp_fft_radix2_twiddle_rec k : forall ii0 is_ n w ws r c rs,
  keeps_ptr temp (fft_radix2_twiddle_rec k ii0 is_ n w ws r c rs).
Proof.
  induction k as [|k IH]; intros ii0 is_ n w ws r c rs; [intros st st' E; discriminate|].
  cbn [fft_radix2_twiddle_rec]. cbv zeta. destruct (n =? 1).
  - apply keeps_ptr_some. intros st. now rewrite swap2_temp.
  - apply keeps_ptr_bind; [apply keeps_temp_butterfly_layer|].
    apply keeps_ptr_bind; apply IH.
Qed.

Lemma keeps_temp_fft_truncate1_twiddle_rec k : forall ii0 is_ n w ws r c rs trunc,
  keeps_ptr temp (fft_truncate1_twiddle_rec k ii0 is_ n w ws r c rs trunc).
Proof.
  induction k as [|k IH]; intros ii0 is_ n w ws r c rs trunc;
    [intros st st' E; discriminate|].
  cbn [fft_truncate1_twiddle_rec]. cbv zeta. destruct (trunc =? 2 * n).
  - apply keeps_temp_fft_radix2_twiddle_rec.
  - destruct (trunc <=? n).
    + apply keeps_ptr_bind; [|apply IH].
      apply keeps_ptr_for_loop. intros i. apply keeps_ptr_some. reflexivity.
    + apply keeps_ptr_bind; [apply keeps_temp_butterfly_layer|].
      apply keeps_ptr_bind; [apply keeps_temp_fft_radix2_twiddle_rec|apply IH].
Qed.

Lemma keeps_temp_fft_radix2_rec k : forall ii0 n w,
  keeps_ptr temp (fft_radix2_rec k ii0 n w).
Proof.
  induction k as [|k IH]; intros ii0 n w; [intros st st' E; discriminate|].
  cbn [fft_radix2_rec]. cbv zeta. destruct (n =? 1).
  - apply keeps_ptr_some. intros st. unfold butterfly_swap. cbv zeta.
    now rewrite swap2_temp.
  - apply keeps_ptr_bind; [|apply keeps_ptr_bind; apply IH].
    apply keeps_ptr_for_loop. intros i. apply keeps_ptr_some. intros st.
    unfold butterfly_swap. cbv zeta. now rewrite swap2_temp.
Qed.

Lemma keeps_temp_revbin_loop ii0 stride cnt depth :
  keeps_ptr temp (revbin_loop ii0 stride cnt depth).
Proof.
  apply keeps_ptr_for_loop. intros j. cbv zeta. apply keeps_ptr_some. intros st.
  destruct (j <? n_revbin j depth); [|reflexivity].
  rewrite SWAP_PTRS_ptrs, transp_out; [reflexivity|discriminate..].
Qed.

Lemma keeps_temp_sqrt2_layer n w n1 trunc limbs i :
  keeps_ptr temp (sqrt2_layer n w n1 trunc limbs i).
Proof.
  unfold sqrt2_layer. destruct (negb (Z.land w 1 =? 0)).
  - apply keeps_ptr_for_stride.
    + intros j. cbv zeta. apply keeps_ptr_some. intros st. rewrite swap2_temp.
      destruct (negb (Z.land j 1 =? 0)); reflexivity.
    + intros j. apply keeps_ptr_for_stride.
      * intros j'. apply keeps_ptr_some. intros st.
        destruct (negb (Z.land i 1 =? 0)); reflexivity.
      * intros j'. apply keeps_ptr_some. reflexivity.
  - apply keeps_ptr_for_stride.
    + intros j. cbv zeta. apply keeps_ptr_some. intros st. now rewrite swap2_temp.
    + intros j. apply keeps_ptr_for_stride.
      * intros j'. apply keeps_ptr_some. reflexivity.
      * intros j'. apply keeps_ptr_some. reflexivity.
Qed.

Lemma keeps_temp_mfa_left_columns n w n1 trunc n2 limbs depth :
  keeps_ptr temp (mfa_left_columns n w n1 trunc n2 limbs depth).
Proof.
  apply keeps_ptr_for_loop. intros i.
  apply keeps_ptr_bind; [apply keeps_temp_sqrt2_layer|].
  apply keeps_ptr_bind; [apply keeps_temp_fft_radix2_twiddle_rec|].
  apply keeps_temp_revbin_loop.
Qed.

Lemma keeps_temp_mfa_left_rows w n1 n2 depth2 :
  keeps_ptr temp (mfa_left_rows w n1 n2 depth2).
Proof.
  apply keeps_ptr_for_loop. intros i.
  apply keeps_ptr_bind; [apply keeps_temp_fft_radix2_rec|apply keeps_temp_revbin_loop].
Qed.

Lemma keeps_temp_mfa_right_columns n w n1 n2 trunc2 depth :
  keeps_ptr temp (mfa_right_columns n w n1 n2 trunc2 depth).
Proof.
  apply keeps_ptr_for_loop. intros i.
  apply keeps_ptr_bind; [apply keeps_temp_fft_truncate1_twiddle_rec|].
  apply keeps_temp_revbin_loop.
Qed.

Lemma keeps_temp_mfa_right_rows n w n1 n2 trunc2 depth depth2 :
  keeps_ptr temp (mfa_right_rows n w n1 n2 trunc2 depth depth2).
Proof.
  apply keeps_ptr_for_loop. intros i. cbv zeta.
  apply keeps_ptr_bind; [apply keeps_temp_fft_radix2_rec|apply keeps_temp_revbin_loop].
Qed.

Lemma not_owned_not_pointed n st p :
  ~ In p (owned n st) -> forall l, window 0 (4 * n) scratch3 l -> ptrs st l <> p.
Proof.
  intros Hp l Hl E. apply Hp. unfold owned. rewrite <- E. apply in_map.
  now apply in_owners.
Qed.

(** X5. The footprint of the two matrix-Fourier transforms.  Neither ever
    exchanges the buffer of [temp]: it is only used as scratch space, and the
    caller finds [*temp] pointing where it did.  No slot outside the [4n]
    slots of the signal changes owner, and no buffer other than those of the
    signal and of the three scratch variables is written. *)
Theorem fft_mfa_truncate_sqrt2_footprint n w n1 trunc st st' :
  mfa_valid n n1 trunc ->
  fft_mfa_truncate_sqrt2 n w n1 trunc st = Some st' \/
  fft_mfa_truncate_sqrt2_outer n w n1 trunc st = Some st' ->
  ptrs st' temp = ptrs st temp /\
  (forall k, ~ 0 <= k < 4 * n -> ptrs st' (ii k) = ptrs st (ii k)) /\
  (forall p, ~ In p (owned n st) -> mem st' p = mem st p).
Proof.
  intros Hv [E|E].
  - pose proof (local_fft_mfa_truncate_sqrt2 n w n1 trunc Hv) as Hloc.
    split; [|split].
    + revert st st' E. unfold fft_mfa_truncate_sqrt2. cbv zeta.
      apply keeps_ptr_bind; [apply keeps_temp_mfa_left_columns|].
      apply keeps_ptr_bind; [apply keeps_temp_mfa_left_rows|].
      apply keeps_ptr_bind; [apply keeps_temp_mfa_right_columns|].
      apply keeps_temp_mfa_right_rows.
    + intros k Hk. apply (local_ptrs _ _ Hloc _ _ E). cbn [window]. exact Hk.
    + intros p Hp. apply (local_mem _ _ Hloc _ _ E).
      now apply not_owned_not_pointed.
  - pose proof (local_fft_mfa_truncate_sqrt2_outer n w n1 trunc Hv) as Hloc.
    split; [|split].
    + revert st st' E. unfold fft_mfa_truncate_sqrt2_outer. cbv zeta.
      apply keeps_ptr_bind; [apply keeps_temp_mfa_left_columns|].
      apply keeps_temp_mfa_right_columns.
    + intros k Hk. apply (local_ptrs _ _ Hloc _ _ E). cbn [window]. exact Hk.
    + intros p Hp. apply (local_mem _ _ Hloc _ _ E).
      now apply not_owned_not_pointed.
Qed.

Lemma land_1_even w : Z.even w = true -> Z.land w 1 = 0.
Proof.
  intros Hw. change 1 with (Z.ones 1). rewrite Z.land_ones by lia.
  change (2 ^ 1) with 2. rewrite Zmod_even, Hw. reflexivity.
Qed.

(** With an even [w] the sqrt2 layer is made of plain butterflies and plain
    adjusts: its footprint has no [temp]. *)
Lemma local_sqrt2_layer_even (L : loc -> Prop) n w n1 trunc limbs i :
  Z.even w = true ->
  0 < n -> 0 < n1 -> 0 <= i -> trunc <= 4 * n ->
  L t1 -> L t2 -> (forall k, 0 <= k < 4 * n -> L (ii k)) ->
  local L (sqrt2_layer n w n1 trunc limbs i).
Proof.
  intros Hw Hn Hn1 Hi Ht H1 H2 HL. unfold sqrt2_layer.
  rewrite (land_1_even w Hw). change (negb (0 =? 0)) with false. cbv iota.
  apply (local_for_stride L (fun j => 0 <= j)); [intros; lia| | |exact Hi].
  - intros j Hj Hlt. cbv zeta.
    apply (local_butterfly_swap L j (2 * n + j)); auto; try (apply HL; lia). lia.
  - intros j Hj _.
    apply (local_for_stride L (fun j => 0 <= j)); [intros; lia| | |exact Hj].
    + intros j' Hj' Hlt.
      apply (local_slot_step L no_scratch (j' + 2 * n) j' j' _ _
               (wl_fft_adjust no_scratch (j' + 2 * n) j' j' limbs (w / 2)));
        [intros l [] | intros k [] | apply HL; lia..].
    + intros. apply local_ret.
Qed.

Lemma local_mfa_left_columns_even (L : loc -> Prop) n w n1 trunc n2 limbs depth :
  Z.even w = true ->
  0 < n -> 0 < n1 -> n1 * n2 <= 2 * n -> trunc <= 4 * n ->
  0 <= depth -> 2 ^ depth <= n2 ->
  L t1 -> L t2 -> (forall k, 0 <= k < 4 * n -> L (ii k)) ->
  local L (mfa_left_columns n w n1 trunc n2 limbs depth).
Proof.
  intros Hw Hn Hn1 Hn2 Ht Hd Hp H1 H2 HL. unfold mfa_left_columns.
  apply local_for_loop. intros i Hi.
  apply local_bind; [apply local_sqrt2_layer_even; auto; lia|].
  apply local_bind.
  - apply local_fft_radix2_twiddle; auto; [lia|].
    intros j Hj. apply HL.
    assert (0 <= j < n2) by zlia. nia.
  - apply local_revbin_loop; auto. intros j Hj. apply HL. nia.
Qed.

(** X6. With an even [w] the two matrix-Fourier transforms never write the
    buffer of [temp]: the scratch space of the sqrt2 butterflies is only
    needed when [w] is odd. *)
Theorem fft_mfa_truncate_sqrt2_even_w_temp n w n1 trunc st st' :
  mfa_valid n n1 trunc -> Z.even w = true -> ownership n st ->
  fft_mfa_truncate_sqrt2 n w n1 trunc st = Some st' \/
  fft_mfa_truncate_sqrt2_outer n w n1 trunc st = Some st' ->
  ptrs st' temp = ptrs st temp /\ val st' temp = val st temp.
Proof.
  intros Hv Hw Hown HE.
  destruct (mfa_valid_facts _ _ _ Hv) as
    [Hn Hn1 Hn2 Hg [Hd Hdp] [Hd2 Hdp2] _ _ Ht _].
  set (L := window 0 (4 * n) scratch2).
  assert (S1 : scratch2 t1) by (now left).
  assert (S2 : scratch2 t2) by (now right).
  assert (Ca : local L (mfa_left_columns n w n1 trunc (2 * n / n1)
                          (n * w / FLINT_BITS) (depth_of (2 * n / n1)))).
  { apply local_mfa_left_columns_even; auto; try lia; intros k Hk; cbn [L window]; lia. }
  assert (Cb : local L (mfa_left_rows w n1 (2 * n / n1) (depth_of n1))).
  { apply (local_mfa_left_rows _ n); auto; try lia; intros k Hk; cbn [L window]; lia. }
  assert (Cc : local L (mfa_right_columns n w n1 (2 * n / n1) ((trunc - 2 * n) / n1)
                          (depth_of (2 * n / n1)))).
  { apply local_mfa_right_columns; auto; try lia; intros k Hk; cbn [L window]; lia. }
  assert (Cd : local L (mfa_right_rows n w n1 (2 * n / n1) ((trunc - 2 * n) / n1)
                          (depth_of (2 * n / n1)) (depth_of n1))).
  { apply local_mfa_right_rows; auto; try lia; intros k Hk; cbn [L window]; lia. }
  assert (LW : forall l, L l -> window 0 (4 * n) scratch3 l).
  { apply window_sub; [lia|lia|exact scratch23]. }
  assert (Wt : window 0 (4 * n) scratch3 temp) by (right; now right).
  assert (Nt : ~ L temp) by (intros [E|E]; discriminate).
  apply ownership_inj in Hown.
  destruct HE as [E|E].
  - refine (local_val_frame L _ _ st st' temp _ E LW Hown Wt Nt).
    unfold fft_mfa_truncate_sqrt2. cbv zeta.
    apply local_bind; [exact Ca|]. apply local_bind; [exact Cb|].
    apply local_bind; [exact Cc|exact Cd].
  - refine (local_val_frame L _ _ st st' temp _ E LW Hown Wt Nt).
    unfold fft_mfa_truncate_sqrt2_outer. cbv zeta.
    apply local_bind; [exact Ca|exact Cc].
Qed.

(** ** The twiddles of the leaves *)

Lemma n_revbin_low d p :
  0 <= p < 2 ^ Z.of_nat d -> n_revbin p (Z.of_nat (S d)) = 2 * n_revbin p (Z.of_nat d).
Proof.
  intros Hp. unfold n_revbin. rewrite !Nat2Z.id.
  pose proof (revbin_nat_top d p 0 Hp ltac:(lia)) as E.
  rewrite Z.mul_0_r, Z.add_0_r in E. lia.
Qed.

Lemma n_revbin_high d p :
  0 <= p < 2 ^ Z.of_nat d ->
  n_revbin (p + 2 ^ Z.of_nat d) (Z.of_nat (S d)) = 2 * n_revbin p (Z.of_nat d) + 1.
Proof.
  intros Hp. unfold n_revbin. rewrite !Nat2Z.id.
  pose proof (revbin_nat_top d p 1 Hp ltac:(lia)) as E.
  rewrite Z.mul_1_r in E. exact E.
Qed.

Lemma butterfly_twiddle_val_eq s t l l' b1 b1' b2 b2' :
  l = l' -> b1 = b1' -> b2 = b2' ->
  butterfly_twiddle_val s t l b1 b2 = butterfly_twiddle_val s t l' b1' b2'.
Proof. intros -> -> ->. reflexivity. Qed.

Lemma fft_radix2_twiddle_leaves_nat (L : loc -> Prop) is_ ws c (d : nat) :
  forall ii0 w r rs st,
  is_ <> 0 -> L t1 -> L t2 ->
  (forall j, 0 <= j < 2 * 2 ^ Z.of_nat d -> L (ii (ii0 + j * is_))) ->
  inj_on L st ->
  exists st',
    fft_radix2_twiddle ii0 is_ (2 ^ Z.of_nat d) w ws r c rs st = Some st' /\
    forall p, 0 <= p < 2 ^ Z.of_nat d ->
      exists s t,
        let row := r + rs * n_revbin p (Z.of_nat d) in
        let out := butterfly_twiddle_val s t (w * 2 ^ Z.of_nat d / FLINT_BITS)
                     (row * c * ws) ((row * c + rs * 2 ^ Z.of_nat d * c) * ws) in
        val st' (ii (ii0 + 2 * p * is_)) = fst out /\
        val st' (ii (ii0 + (2 * p + 1) * is_)) = snd out.
Proof.
  induction d as [|d IH]; intros ii0 w r rs st Hs H1 H2 HL Hinj.
  - change (2 ^ Z.of_nat 0) with 1 in *.
    rewrite fft_radix2_twiddle_base. eexists. split; [reflexivity|].
    intros p Hp. assert (p = 0) by lia. subst p.
    assert (La : L (ii (ii0 + 0))).
    { replace (ii0 + 0) with (ii0 + 0 * is_) by lia. apply HL. lia. }
    assert (Lb : L (ii (ii0 + is_))).
    { replace (ii0 + is_) with (ii0 + 1 * is_) by lia. apply HL. lia. }
    assert (Hab : ii0 + 0 <> ii0 + is_) by lia.
    pose proof (out2_swap_post L scratch2 (ii0 + 0) (ii0 + is_) _ _
      (ws_fft_butterfly_twiddle scratch2 (ii0 + 0) (ii0 + is_) (w * 1 / FLINT_BITS)
         (r * c * ws) ((r * c + rs * c) * ws) (or_introl eq_refl) (or_intror eq_refl))
      (scratch2_in L H1 H2) scratch2_no_slot La Lb Hab st Hinj) as Hpost.
    cbv zeta in Hpost. unfold out2_swap in Hpost. unfold do_fft_butterfly_twiddle.
    destruct Hpost as (Va & Vb & _).
    exists (val st (ii (ii0 + 0))), (val st (ii (ii0 + is_))). cbv zeta.
    replace (ii0 + 2 * 0 * is_) with (ii0 + 0) by lia.
    replace (ii0 + (2 * 0 + 1) * is_) with (ii0 + is_) by lia.
    rewrite Va, Vb.
    rewrite (butterfly_twiddle_val_eq _ _ (w * 1 / FLINT_BITS) (w * 1 / FLINT_BITS)
               ((r + rs * n_revbin 0 (Z.of_nat 0)) * c * ws) (r * c * ws)
               (((r + rs * n_revbin 0 (Z.of_nat 0)) * c + rs * 1 * c) * ws)
               ((r * c + rs * c) * ws)); [split; reflexivity|reflexivity| |].
    + change (n_revbin 0 (Z.of_nat 0)) with 0. f_equal. f_equal. lia.
    + change (n_revbin 0 (Z.of_nat 0)) with 0. f_equal. lia.
  - assert (Hm : 0 < 2 ^ Z.of_nat d) by (apply Z.pow_pos_nonneg; lia).
    assert (En : 2 ^ Z.of_nat (S d) = 2 * 2 ^ Z.of_nat d).
    { rewrite Nat2Z.inj_succ, Z.pow_succ_r by lia. reflexivity. }
    set (m := 2 ^ Z.of_nat d) in *. set (n := 2 ^ Z.of_nat (S d)) in *.
    assert (Eh : n / 2 = m) by (rewrite En; zlia).
    rewrite fft_radix2_twiddle_unfold by lia. rewrite Eh.
    destruct (total_for_loop (fun i st =>
      Some (butterfly_swap (ii0 + i * is_) (ii0 + (n + i) * is_) i
              (w * n / FLINT_BITS) w st)) 0 n (fun i => total_some _) st) as [s1 E1].
    rewrite E1. cbn [bind].
    assert (I1 : inj_on L s1).
    { exact (local_inj _ _ (local_butterfly_layer L ii0 is_ n _ w Hs H1 H2 HL)
               _ _ E1 Hinj). }
    assert (HLlow : forall j, 0 <= j < 2 * m -> L (ii (ii0 + j * is_))).
    { intros j Hj. apply HL. lia. }
    assert (HLup : forall j, 0 <= j < 2 * m -> L (ii (ii0 + n * is_ + j * is_))).
    { intros j Hj. replace (ii0 + n * is_ + j * is_) with (ii0 + (n + j) * is_) by lia.
      apply HL. lia. }
    destruct (IH ii0 (2 * w) r (2 * rs) s1 Hs H1 H2 HLlow I1) as (s2 & E2 & Plow).
    rewrite E2. cbn [bind].
    assert (I2 : inj_on L s2).
    { exact (local_inj _ _ (local_fft_radix2_twiddle L ii0 is_ m (2 * w) ws r c
                              (2 * rs) Hs H1 H2 HLlow) _ _ E2 I1). }
    destruct (IH (ii0 + n * is_) (2 * w) (r + rs) (2 * rs) s2 Hs H1 H2 HLup I2)
      as (s3 & E3 & Pup).
    exists s3. split; [exact E3|].
    set (LU := fun l => match l with
                        | ii k => exists j, n <= j < n + 2 * m /\ k = ii0 + j * is_
                        | t1 | t2 => True
                        | temp => False
                        end).
    assert (LUL : forall l, LU l -> L l).
    { intros [k| | |]; cbn [LU]; auto; [|tauto].
      intros (j & Hj & ->). apply HL. lia. }
    assert (Cu : local LU (fft_radix2_twiddle (ii0 + n * is_) is_ m (2 * w) ws
                             (r + rs) c (2 * rs))).
    { apply (strided_footprint_local ii0 is_ m n); [|reflexivity].
      intros L' Q1 Q2 QL. now apply local_fft_radix2_twiddle. }
    intros p Hp. destruct (Z_lt_le_dec p m) as [Hlo|Hhi].
    + destruct (Plow p ltac:(lia)) as (s & t & Va & Vb). cbv zeta in Va, Vb.
      exists s, t. cbv zeta.
      assert (Fr : forall q, 0 <= q < n ->
                ~ LU (ii (ii0 + q * is_)) /\ L (ii (ii0 + q * is_))).
      { intros q Hq. split; [|apply HL; lia].
        cbn [LU]. intros (j & Hj & E). apply stride_inj in E; auto. lia. }
      destruct (Fr (2 * p) ltac:(lia)) as [Na La].
      destruct (Fr (2 * p + 1) ltac:(lia)) as [Nb Lb].
      rewrite (proj2 (local_val_frame LU L _ s2 s3 _ Cu E3 LUL I2 La Na)).
      rewrite (proj2 (local_val_frame LU L _ s2 s3 _ Cu E3 LUL I2 Lb Nb)).
      rewrite Va, Vb.
      rewrite (butterfly_twiddle_val_eq s t (w * n / FLINT_BITS) (2 * w * m / FLINT_BITS)
                 ((r + rs * n_revbin p (Z.of_nat (S d))) * c * ws)
                 ((r + 2 * rs * n_revbin p (Z.of_nat d)) * c * ws)
                 (((r + rs * n_revbin p (Z.of_nat (S d))) * c + rs * n * c) * ws)
                 (((r + 2 * rs * n_revbin p (Z.of_nat d)) * c + 2 * rs * m * c) * ws));
        [split; reflexivity| | |].
      * f_equal. lia.
      * rewrite n_revbin_low by (fold m; lia). f_equal. f_equal. lia.
      * rewrite n_revbin_low by (fold m; lia). f_equal. lia.
    + destruct (Pup (p - m) ltac:(lia)) as (s & t & Va & Vb). cbv zeta in Va, Vb.
      exists s, t. cbv zeta.
      replace (ii0 + 2 * p * is_) with (ii0 + n * is_ + 2 * (p - m) * is_) by lia.
      replace (ii0 + (2 * p + 1) * is_)
        with (ii0 + n * is_ + (2 * (p - m) + 1) * is_) by lia.
      rewrite Va, Vb.
      assert (Er : n_revbin p (Z.of_nat (S d)) = 2 * n_revbin (p - m) (Z.of_nat d) + 1).
      { replace p with ((p - m) + m) at 1 by lia. apply n_revbin_high. fold m. lia. }
      rewrite (butterfly_twiddle_val_eq s t (w * n / FLINT_BITS) (2 * w * m / FLINT_BITS)
                 ((r + rs * n_revbin p (Z.of_nat (S d))) * c * ws)
                 ((r + rs + 2 * rs * n_revbin (p - m) (Z.of_nat d)) * c * ws)
                 (((r + rs * n_revbin p (Z.of_nat (S d))) * c + rs * n * c) * ws)
                 (((r + rs + 2 * rs * n_revbin (p - m) (Z.of_nat d)) * c
                   + 2 * rs * m * c) * ws));
        [split; reflexivity| | |].
      * f_equal. lia.
      * rewrite Er. f_equal. f_equal. lia.
      * rewrite Er. f_equal. lia.
Qed.

(** X7. The twiddles of [fft_radix2_twiddle] on [2n = 2 * 2^d] slots, with
    arguments in the range of the C arithmetic.  The recursion ends in [n]
    twiddled butterflies; the one that writes the slots [2p] and [2p + 1]
    works for the row [r + rs * n_revbin p d] and its partner [n * rs] rows
    further: its exponents are [ws * c] times these row numbers.  The rows
    leave the transform in bit-reversed order. *)
Theorem fft_radix2_twiddle_leaves (L : loc -> Prop) d ii0 is_ w ws r c rs st :
  0 <= d -> twiddle_range (2 ^ d) w ws r c rs -> is_ <> 0 -> L t1 -> L t2 ->
  (forall j, 0 <= j < 2 * 2 ^ d -> L (ii (ii0 + j * is_))) ->
  inj_on L st ->
  exists st',
    fft_radix2_twiddle ii0 is_ (2 ^ d) w ws r c rs st = Some st' /\
    forall p, 0 <= p < 2 ^ d ->
      exists s t,
        let row := r + rs * n_revbin p d in
        let out := butterfly_twiddle_val s t (w * 2 ^ d / FLINT_BITS)
                     (row * c * ws) ((row * c + rs * 2 ^ d * c) * ws) in
        val st' (ii (ii0 + 2 * p * is_)) = fst out /\
        val st' (ii (ii0 + (2 * p + 1) * is_)) = snd out.
Proof.
  intros Hd _. rewrite <- (Z2Nat.id d Hd). apply fft_radix2_twiddle_leaves_nat.
Qed.

(** The twiddled transform followed by the bit-reversal loop over its slots. *)
Lemma radix2_twiddle_then_revbin (L : loc -> Prop) d ii0 is_ w ws r c rs st :
  0 <= d -> is_ <> 0 -> L t1 -> L t2 ->
  (forall j, 0 <= j < 2 * 2 ^ d -> L (ii (ii0 + j * is_))) ->
  inj_on L st ->
  exists st1 st',
    fft_radix2_twiddle ii0 is_ (2 ^ d) w ws r c rs st = Some st1 /\
    revbin_loop ii0 is_ (2 * 2 ^ d) (d + 1) st1 = Some st' /\
    forall j, 0 <= j < 2 ^ d ->
      exists s t,
        let out := butterfly_twiddle_val s t (w * 2 ^ d / FLINT_BITS)
                     ((r + rs * j) * c * ws) ((r + rs * (j + 2 ^ d)) * c * ws) in
        val st' (ii (ii0 + j * is_)) = fst out /\
        val st' (ii (ii0 + (j + 2 ^ d) * is_)) = snd out.
Proof.
  intros Hd Hs H1 H2 HL Hinj.
  destruct (fft_radix2_twiddle_leaves_nat L is_ ws c (Z.to_nat d) ii0 w r rs st
              Hs H1 H2) as (st1 & E1 & Pl); [rewrite Z2Nat.id by lia; exact HL|exact Hinj|].
  rewrite Z2Nat.id in E1, Pl by lia.
  destruct (total_revbin_loop ii0 is_ (2 * 2 ^ d) (d + 1) st1) as [st' E'].
  exists st1, st'. split; [exact E1|]. split; [exact E'|].
  assert (Hm : 0 < 2 ^ d) by (apply Z.pow_pos_nonneg; lia).
  assert (E2 : 2 * 2 ^ d = 2 ^ (d + 1)).
  { change (d + 1) with (Z.succ d). now rewrite Z.pow_succ_r by lia. }
  rewrite E2 in E'.
  destruct (revbin_loop_post ii0 is_ (d + 1) st1 st' ltac:(lia) Hs E') as (Em & Ep & _).
  assert (Ev : forall j, 0 <= j < 2 ^ (d + 1) ->
            val st' (ii (ii0 + j * is_))
            = val st1 (ii (ii0 + n_revbin j (d + 1) * is_))).
  { intros j Hj. unfold val. now rewrite Em, (Ep j Hj). }
  intros j Hj.
  pose proof (n_revbin_range j d Hd) as Hr.
  assert (Rl : n_revbin j (d + 1) = 2 * n_revbin j d).
  { pose proof (n_revbin_low (Z.to_nat d) j) as E.
    rewrite Nat2Z.inj_succ, Z2Nat.id in E by lia. apply E. lia. }
  assert (Rh : n_revbin (j + 2 ^ d) (d + 1) = 2 * n_revbin j d + 1).
  { pose proof (n_revbin_high (Z.to_nat d) j) as E.
    rewrite Nat2Z.inj_succ, Z2Nat.id in E by lia. apply E. lia. }
  destruct (Pl (n_revbin j d) Hr) as (s & t & Va & Vb). cbv zeta in Va, Vb.
  rewrite n_revbin_invol in Va, Vb by lia.
  exists s, t. cbv zeta.
  rewrite (Ev j) by lia. rewrite (Ev (j + 2 ^ d)) by lia.
  rewrite Rl, Rh, Va, Vb.
  rewrite (butterfly_twiddle_val_eq s t (w * 2 ^ d / FLINT_BITS) (w * 2 ^ d / FLINT_BITS)
             ((r + rs * j) * c * ws) ((r + rs * j) * c * ws)
             ((r + rs * (j + 2 ^ d)) * c * ws)
             (((r + rs * j) * c + rs * 2 ^ d * c) * ws));
    [split; reflexivity|reflexivity|reflexivity|].
  f_equal. lia.
Qed.

(** X8. [fft_radix2_twiddle], with arguments in the range of the C
    arithmetic, followed by the bit-reversal loop over its [2n] slots, as in
    the column passes: the rows are back in their natural order.  Slot [j] and
    slot [j + n] hold the two outputs of one twiddled butterfly, whose
    exponents are [ws * c] times the row numbers [r + rs * j] and
    [r + rs * (j + n)]. *)
Theorem fft_radix2_twiddle_reordered (L : loc -> Prop) d ii0 is_ w ws r c rs st :
  0 <= d -> twiddle_range (2 ^ d) w ws r c rs -> is_ <> 0 -> L t1 -> L t2 ->
  (forall j, 0 <= j < 2 * 2 ^ d -> L (ii (ii0 + j * is_))) ->
  inj_on L st ->
  exists st1 st',
    fft_radix2_twiddle ii0 is_ (2 ^ d) w ws r c rs st = Some st1 /\
    revbin_loop ii0 is_ (2 * 2 ^ d) (d + 1) st1 = Some st' /\
    forall j, 0 <= j < 2 ^ d ->
      exists s t,
        let out := butterfly_twiddle_val s t (w * 2 ^ d / FLINT_BITS)
                     ((r + rs * j) * c * ws) ((r + rs * (j + 2 ^ d)) * c * ws) in
        val st' (ii (ii0 + j * is_)) = fst out /\
        val st' (ii (ii0 + (j + 2 ^ d) * is_)) = snd out.
Proof. intros Hd _. now apply radix2_twiddle_then_revbin. Qed.

(** ** The columns are independent *)

Lemma mfa_left_columns_body n w n1 trunc n2 limbs depth st :
  mfa_left_columns n w n1 trunc n2 limbs depth st
  = for_loop 0 n1 (left_column n w n1 trunc n2 limbs depth) st.
Proof. reflexivity. Qed.

Lemma mfa_right_columns_body n w n1 n2 trunc2 depth st :
  mfa_right_columns n w n1 n2 trunc2 depth st
  = for_loop 0 n1 (right_column n w n1 n2 trunc2 depth) st.
Proof. reflexivity. Qed.

Lemma local_sqrt2_layer_column (L : loc -> Prop) n w n1 trunc limbs i :
  0 < n -> 0 < n1 -> 0 <= i -> trunc <= 4 * n ->
  L t1 -> L t2 -> L temp ->
  (forall j, i <= j < 2 * n -> (j - i) mod n1 = 0 -> L (ii j) /\ L (ii (2 * n + j))) ->
  local L (sqrt2_layer n w n1 trunc limbs i).
Proof.
  intros Hn Hn1 Hi Ht H1 H2 H3 HL. unfold sqrt2_layer.
  set (Q := fun j => i <= j /\ (j - i) mod n1 = 0).
  assert (Q0 : Q i) by (split; [lia|]; now rewrite Z.sub_diag).
  assert (Qs : forall hi j, Q j -> j < hi -> Q (j + n1)).
  { intros hi j [Hj Hm] _. split; [lia|]. now apply column_step. }
  assert (HL2 : forall j, Q j -> j < 2 * n -> L (ii (j + 2 * n))).
  { intros j [Hj Hm] Hlt. replace (j + 2 * n) with (2 * n + j) by lia.
    apply HL; auto; lia. }
  destruct (negb (Z.land w 1 =? 0)).
  - apply (local_for_stride L Q); [apply Qs| | |exact Q0].
    + intros j [Hj Hm] Hlt. cbv zeta.
      apply local_sqrt2_butterfly_step; auto; try (apply HL; auto; lia). lia.
    + intros j Hj _.
      apply (local_for_stride L Q); [apply Qs| | |exact Hj].
      * intros j' Hj' Hlt. apply local_adjust_step; auto.
        apply HL; [destruct Hj'; lia|apply Hj'].
      * intros. apply local_ret.
  - apply (local_for_stride L Q); [apply Qs| | |exact Q0].
    + intros j [Hj Hm] Hlt. cbv zeta.
      apply (local_butterfly_swap L j (2 * n + j)); auto; try (apply HL; auto; lia). lia.
    + intros j Hj _.
      apply (local_for_stride L Q); [apply Qs| | |exact Hj].
      * intros j' Hj' Hlt.
        apply (local_adjust_step L false (j' + 2 * n) j' 0 j' limbs 0 (w / 2)); auto.
        apply HL; [destruct Hj'; lia|apply Hj'].
      * intros. apply local_ret.
Qed.

Lemma column_slot n1 i j : 0 < n1 -> (i + j * n1 - i) mod n1 = 0.
Proof. intros Hn1. replace (i + j * n1 - i) with (j * n1) by lia. now apply Z.mod_mul; lia. Qed.

Lemma local_left_column n w n1 trunc limbs i :
  mfa_valid n n1 trunc -> 0 <= i < n1 ->
  local (column n1 i 0 (4 * n) scratch3)
    (left_column n w n1 trunc (2 * n / n1) limbs (depth_of (2 * n / n1)) i).
Proof.
  intros Hv Hi. destruct (mfa_valid_facts _ _ _ Hv) as
    [Hn Hn1 Hn2 Hg [Hd Hdp] [Hd2 Hdp2] _ _ Ht _].
  assert (S1 : scratch3 t1) by (now left).
  assert (S2 : scratch3 t2) by (right; now left).
  assert (S3 : scratch3 temp) by (right; now right).
  unfold left_column. apply local_bind; [|apply local_bind].
  - apply local_sqrt2_layer_column; auto; try lia.
    intros j Hj Hm. cbn [column]. split; (split; [lia|]); auto.
    replace (2 * n + j - i) with (j - i + (2 * n / n1) * n1) by lia.
    now rewrite Z_mod_plus_full.
  - apply local_fft_radix2_twiddle; auto; [lia|].
    intros j Hj. cbn [column]. change (0 + i) with i. split; [|apply column_slot; lia].
    assert (0 <= j < 2 * n / n1) by zlia. nia.
  - apply local_revbin_loop; auto; [lia|].
    intros j Hj. cbn [column]. split; [nia|apply column_slot; lia].
Qed.

Lemma local_right_column n w n1 trunc i :
  mfa_valid n n1 trunc -> 0 <= i < n1 ->
  local (column n1 i (2 * n) (4 * n) scratch2)
    (right_column n w n1 (2 * n / n1) ((trunc - 2 * n) / n1) (depth_of (2 * n / n1)) i).
Proof.
  intros Hv Hi. destruct (mfa_valid_facts _ _ _ Hv) as
    [Hn Hn1 Hn2 Hg [Hd Hdp] [Hd2 Hdp2] _ _ Ht _].
  assert (S1 : scratch2 t1) by (now left).
  assert (S2 : scratch2 t2) by (now right).
  assert (Hc : forall j, (2 * n + i + j * n1 - i) mod n1 = 0).
  { intros j. replace (2 * n + i + j * n1 - i) with ((2 * n / n1 + j) * n1) by lia.
    apply Z.mod_mul. lia. }
  unfold right_column. apply local_bind.
  - apply local_fft_truncate1_twiddle; auto; [lia|].
    intros j Hj. cbn [column]. split; [|apply Hc].
    assert (0 <= j < 2 * n / n1) by zlia. nia.
  - apply local_revbin_loop; auto; [lia|].
    intros j Hj. cbn [column]. split; [nia|apply Hc].
Qed.

Lemma column_sub n1 i lo hi lo' hi' (S S' : loc -> Prop) :
  lo' <= lo -> hi <= hi' -> (forall l, S l -> S' l) ->
  forall l, column n1 i lo hi S l -> window lo' hi' S' l.
Proof.
  intros Hlo Hhi HS [k| | |]; cbn [column window]; auto. lia.
Qed.

(** X9. The column loops work column by column.  What is done for column [i]
    of the left half touches, among the [4n] slots, only those of column [i]
    (in both halves, the sqrt2 layer pairing slot [j] with slot [2n + j]);
    what is done for column [i] of the right half touches only the slots of
    column [i] of the right half.  Every other slot keeps its buffer and its
    coefficient. *)
Theorem mfa_columns_independent n w n1 trunc limbs i st st' :
  mfa_valid n n1 trunc -> 0 <= i < n1 -> ownership n st ->
  let n2 := 2 * n / n1 in
  let trunc2 := (trunc - 2 * n) / n1 in
  let depth := depth_of n2 in
  (left_column n w n1 trunc n2 limbs depth i st = Some st' ->
   forall k, 0 <= k < 4 * n -> (k - i) mod n1 <> 0 ->
     ptrs st' (ii k) = ptrs st (ii k) /\ val st' (ii k) = val st (ii k)) /\
  (right_column n w n1 n2 trunc2 depth i st = Some st' ->
   forall k, 0 <= k < 4 * n -> (k - i) mod n1 <> 0 \/ k < 2 * n ->
     ptrs st' (ii k) = ptrs st (ii k) /\ val st' (ii k) = val st (ii k)).
Proof.
  intros Hv Hi Hown n2 trunc2 depth. apply ownership_inj in Hown. split.
  - intros E k Hk Hm.
    apply (local_val_frame _ (window 0 (4 * n) scratch3) _ st st' (ii k)
             (local_left_column n w n1 trunc limbs i Hv Hi) E);
      [apply column_sub; auto; lia | exact Hown | cbn [window]; lia
      | cbn [column]; tauto].
  - intros E k Hk Hm.
    apply (local_val_frame _ (window 0 (4 * n) scratch3) _ st st' (ii k)
             (local_right_column n w n1 trunc i Hv Hi) E);
      [apply column_sub; [lia|lia|exact scratch23] | exact Hown | cbn [window]; lia
      | cbn [column]; lia].
Qed.

(** ** The twiddles of the matrix *)

(** X10. The left half that [fft_mfa_truncate_sqrt2_outer] returns, seen as a
    matrix of [n2] rows and [n1] columns: the elements at the rows [j] and
    [j + n2/2] of column [i] are the two outputs of one twiddled butterfly
    whose exponents are [w * i * j] and [w * i * (j + n2/2)]: the element at
    row [j], column [i] carries the twiddle [z1^(i * j)] of the matrix
    Fourier algorithm.  When the coefficients are made of whole limbs, these
    exponents are below [2 * limbs * FLINT_BITS], as [fft_butterfly_twiddle]
    asks. *)
Theorem fft_mfa_truncate_sqrt2_outer_twiddles n w n1 trunc st :
  mfa_valid n n1 trunc -> ownership n st ->
  let n2 := 2 * n / n1 in
  exists st',
    fft_mfa_truncate_sqrt2_outer n w n1 trunc st = Some st' /\
    forall i j, 0 <= i < n1 -> 0 <= j < n2 / 2 ->
      let limbs := w * n1 * (n2 / 2) / FLINT_BITS in
      let b1 := j * i * w in
      let b2 := (j + n2 / 2) * i * w in
      (exists s t,
         val st' (ii (i + j * n1)) = fst (butterfly_twiddle_val s t limbs b1 b2) /\
         val st' (ii (i + (j + n2 / 2) * n1)) = snd (butterfly_twiddle_val s t limbs b1 b2)) /\
      (0 < w -> 0 < FLINT_BITS -> (n * w) mod FLINT_BITS = 0 ->
       0 <= b1 < 2 * (limbs * FLINT_BITS) /\ 0 <= b2 < 2 * (limbs * FLINT_BITS)).
Proof.
  intros Hv Hown n2.
  destruct (mfa_valid_facts _ _ _ Hv) as
    [Hn Hn1 Hn2 Hg [Hd Hdp] [Hd2 Hdp2] _ _ Ht _].
  fold n2 in Hn2, Hg, Hd, Hdp.
  set (depth := depth_of n2) in *.
  set (limbs := n * w / FLINT_BITS).
  set (trunc2 := (trunc - 2 * n) / n1).
  assert (Hd1 : 1 <= depth).
  { destruct (Z.eq_dec depth 0) as [E0|]; [|lia]. rewrite E0 in Hdp. simpl in Hdp. lia. }
  destruct (pow2_half depth Hd1) as [Hh Hh']. rewrite Hdp in Hh, Hh'.
  set (d := depth - 1) in *. set (m := n2 / 2) in *.
  assert (Hm : 0 < m) by (rewrite Hh; apply Z.pow_pos_nonneg; lia).
  set (W := window 0 (4 * n) scratch3).
  set (LR := window (2 * n) (4 * n) scratch2).
  assert (S1 : scratch3 t1) by (now left).
  assert (S2 : scratch3 t2) by (right; now left).
  assert (S3 : scratch3 temp) by (right; now right).
  assert (LRW : forall l, LR l -> W l).
  { apply window_sub; [lia|lia|exact scratch23]. }
  assert (Cc : local LR (mfa_right_columns n w n1 n2 trunc2 depth)).
  { apply local_mfa_right_columns; auto; try lia;
      try (now left); try (now right); intros k Hk; exact Hk. }
  destruct (total_mfa_left_columns n w n1 trunc limbs Hv st) as [sa Ea].
  destruct (total_mfa_right_columns n w n1 trunc Hv sa) as [so Eo].
  fold n2 in Ea, Eo. fold depth in Ea, Eo. fold trunc2 in Eo.
  exists so.
  split. { unfold fft_mfa_truncate_sqrt2_outer. cbv zeta.
           fold n2 depth trunc2 limbs. rewrite Ea. exact Eo. }
  pose (T := fun (s : state) (i j : Z) =>
    exists x y,
      val s (ii (i + j * n1))
        = fst (butterfly_twiddle_val x y (w * n1 * m / FLINT_BITS)
                 (j * i * w) ((j + m) * i * w)) /\
      val s (ii (i + (j + m) * n1))
        = snd (butterfly_twiddle_val x y (w * n1 * m / FLINT_BITS)
                 (j * i * w) ((j + m) * i * w))).
  assert (Hrange : forall i j, 0 <= i < n1 -> 0 <= j < n2 -> 0 <= i + j * n1 < 2 * n).
  { intros i j Hi Hj. nia. }
  assert (Ia0 : inj_on W st) by (now apply ownership_inj).
  assert (HI : inj_on W sa /\ forall i j, 0 <= i < n1 -> 0 <= j < m -> T sa i j).
  { rewrite mfa_left_columns_body in Ea.
    refine (for_loop_inv
              (fun i s => inj_on W s /\ forall c j, 0 <= c < i -> 0 <= j < m -> T s c j)
              _ 0 n1 st sa ltac:(lia) _ _ Ea).
    - split; [exact Ia0|]. intros; lia.
    - intros i s s' Hi [Is Ts] Eb.
      assert (Cw : local W (left_column n w n1 trunc n2 limbs depth i)).
      { unfold left_column. apply local_bind; [|apply local_bind].
        - apply local_sqrt2_layer; auto; lia.
        - apply local_fft_radix2_twiddle; auto; [lia|].
          intros q Hq. cbn [W window]. change (0 + i) with i.
          pose proof (Hrange i q Hi ltac:(lia)). lia.
        - apply local_revbin_loop; auto; [lia|].
          intros q Hq. cbn [W window]. pose proof (Hrange i q Hi Hq). lia. }
      split; [exact (local_inj _ _ Cw _ _ Eb Is)|].
      intros c j Hc Hj. destruct (Z.eq_dec c i) as [->|Hci].
      + unfold left_column in Eb.
        apply bind_some in Eb as (sA & EA & Eb).
        apply bind_some in Eb as (sB & EB & Eb).
        assert (IA : inj_on W sA).
        { refine (local_inj _ _ _ _ _ EA Is).
          apply local_sqrt2_layer; auto; lia. }
        destruct (radix2_twiddle_then_revbin W d i n1 (w * n1) w 0 i 1 sA)
          as (s1 & s2 & F1 & F2 & HT); auto; try lia.
        { intros q Hq. cbn [W window]. rewrite <- Hh in Hq.
          pose proof (Hrange i q Hi ltac:(lia)). lia. }
        rewrite <- Hh in F1, F2, HT.
        pose proof (eq_trans (eq_sym EB) F1) as Es1. some_inv Es1.
        replace (2 * m) with n2 in F2 by lia.
        replace (d + 1) with depth in F2 by (unfold d; lia).
        pose proof (eq_trans (eq_sym Eb) F2) as Es2. some_inv Es2.
        destruct (HT j Hj) as (x & y & Va & Vb). cbv zeta in Va, Vb.
        exists x, y.
        rewrite (butterfly_twiddle_val_eq x y (w * n1 * m / FLINT_BITS)
                   (w * n1 * m / FLINT_BITS) (j * i * w) ((0 + 1 * j) * i * w)
                   ((j + m) * i * w) ((0 + 1 * (j + m)) * i * w));
          [split; assumption|reflexivity| |]; f_equal; f_equal; lia.
      + destruct (Ts c j ltac:(lia) Hj) as (x & y & Va & Vb).
        exists x, y.
        assert (Fr : forall q, 0 <= q < n2 ->
                  val s' (ii (c + q * n1)) = val s (ii (c + q * n1))).
        { intros q Hq.
          refine (proj2 (local_val_frame _ W _ s s' (ii (c + q * n1))
                           (local_left_column n w n1 trunc limbs i Hv Hi) Eb _ Is _ _)).
          - apply column_sub; auto; lia.
          - cbn [W window]. pose proof (Hrange c q ltac:(lia) Hq). lia.
          - cbn [column]. intros [_ Hmod].
            replace (c + q * n1 - i) with (c - i + q * n1) in Hmod by lia.
            rewrite Z_mod_plus_full in Hmod.
            assert (Hz : exists z, c - i = z * n1).
            { apply Z.mod_divide in Hmod; [exact Hmod|lia]. }
            destruct Hz as [z Hz].
            destruct (Z_le_gt_dec z (-1)) as [Hz1|Hz1].
            + assert (z * n1 <= -1 * n1) by (apply Z.mul_le_mono_nonneg_r; lia). lia.
            + assert (0 * n1 <= z * n1) by (apply Z.mul_le_mono_nonneg_r; lia). lia. }
        rewrite !Fr by lia. split; assumption. }
  destruct HI as [Ia HT]. intros i j Hi Hj. cbv zeta. fold m. split.
  - destruct (HT i j Hi Hj) as (x & y & Va & Vb). exists x, y.
    assert (Fr : forall q, 0 <= q < n2 ->
              val so (ii (i + q * n1)) = val sa (ii (i + q * n1))).
    { intros q Hq. pose proof (Hrange i q Hi Hq).
      refine (proj2 (local_val_frame LR W _ sa so (ii (i + q * n1)) Cc Eo LRW Ia _ _)).
      - cbn [W window]. lia.
      - cbn [LR window]. lia. }
    rewrite !Fr by lia. split; assumption.
  - intros Hw HF Hdiv.
    assert (Enw : w * n1 * m / FLINT_BITS * FLINT_BITS = n * w).
    { replace (w * n1 * m) with (n * w) by nia.
      apply Z.mod_divide in Hdiv; [|lia]. destruct Hdiv as [q Hq].
      rewrite Hq, Z.div_mul by lia. reflexivity. }
    rewrite Enw.
    assert (0 <= j * i) by nia.
    assert (j * i <= (m - 1) * (n1 - 1)) by nia.
    assert (0 <= (j + m) * i) by nia.
    assert ((j + m) * i <= (2 * m - 1) * (n1 - 1)) by nia.
    assert (E2n : 2 * n = n1 * (2 * m)) by lia.
    split; split; nia.
Qed.

(** ** The depth loops and the reorder loop *)

Lemma depth_loop_ceil n2 k : forall depth,
  0 <= depth -> (depth = 0 \/ 2 ^ (depth - 1) < n2) -> n2 <= depth + Z.of_nat k ->
  let d := depth_loop k depth n2 in
  depth <= d /\ n2 <= 2 ^ d /\ (d = depth \/ 2 ^ (d - 1) < n2).
Proof.
  induction k as [|k IH]; intros depth Hd Hlow Hk; cbv zeta.
  - cbn [depth_loop]. split; [lia|]. split; [|now left].
    assert (depth < 2 ^ depth) by (apply Z.pow_gt_lin_r; lia). lia.
  - cbn [depth_loop]. rewrite Z.shiftl_1_l.
    destruct (Z.ltb_spec (2 ^ depth) n2) as [Hlt|Hge].
    + destruct (IH (depth + 1) ltac:(lia)) as (H1 & H2 & H3).
      * right. now replace (depth + 1 - 1) with depth by lia.
      * lia.
      * split; [lia|]. split; [exact H2|]. right.
        destruct H3 as [->|H3]; [|exact H3].
        now replace (depth + 1 - 1) with depth by lia.
    + split; [lia|]. split; [exact Hge|now left].
Qed.

(** X11. The loops [while ((UWORD(1) << depth) < n2) depth++;] compute the
    least [depth] with [n2 <= 2^depth]: the base-2 logarithm of [n2] rounded
    up, which is exact when [n2] is a power of two and 0 when [n2 <= 1]. *)
Theorem depth_of_least n2 :
  0 <= n2 ->
  let d := depth_of n2 in
  0 <= d /\ n2 <= 2 ^ d /\ (forall e, 0 <= e -> n2 <= 2 ^ e -> d <= e).
Proof.
  intros _. cbv zeta. unfold depth_of.
  destruct (depth_loop_ceil n2 (Z.to_nat n2) 0 ltac:(lia) (or_introl eq_refl) ltac:(lia))
    as (H1 & H2 & H3).
  split; [exact H1|]. split; [exact H2|].
  intros e He Hn. destruct H3 as [->|H3]; [exact He|].
  destruct (Z_le_gt_dec (depth_loop (Z.to_nat n2) 0 n2) e) as [|Hgt]; [assumption|].
  exfalso.
  assert (2 ^ e <= 2 ^ (depth_loop (Z.to_nat n2) 0 n2 - 1))
    by (apply Z.pow_le_mono_r; lia).
  lia.
Qed.

Lemma strided_slot_dec ii0 stride cnt (l : loc) :
  stride <> 0 ->
  {j | 0 <= j < cnt /\ l = ii (ii0 + j * stride)}
  + {forall j, 0 <= j < cnt -> l <> ii (ii0 + j * stride)}.
Proof.
  intros Hs. destruct l as [k| | |]; try (right; intros; discriminate).
  destruct (Z.eq_dec ((k - ii0) mod stride) 0) as [Hm|Hm].
  - set (j := (k - ii0) / stride).
    assert (Ej : k = ii0 + j * stride).
    { unfold j. pose proof (Z.div_mod (k - ii0) stride Hs). lia. }
    destruct (Z_le_dec 0 j) as [H0|H0];
      [destruct (Z_lt_dec j cnt) as [H1|H1]|].
    + left. exists j. split; [lia|now f_equal].
    + right. intros j' Hj' E. injection E as E. rewrite Ej in E.
      apply stride_inj in E; auto. lia.
    + right. intros j' Hj' E. injection E as E. rewrite Ej in E.
      apply stride_inj in E; auto. lia.
  - right. intros j Hj E. injection E as E. apply Hm. subst k.
    replace (ii0 + j * stride - ii0) with (j * stride) by lia.
    apply Z.mod_mul. exact Hs.
Qed.

(** X12. The reorder loop over [2^depth] slots is its own inverse: it never
    writes a buffer, and run twice it gives every location back the buffer it
    owned. *)
Theorem revbin_loop_twice ii0 stride depth st :
  0 <= depth -> stride <> 0 ->
  exists st1 st2,
    revbin_loop ii0 stride (2 ^ depth) depth st = Some st1 /\
    revbin_loop ii0 stride (2 ^ depth) depth st1 = Some st2 /\
    mem st1 = mem st /\ mem st2 = mem st /\
    forall l, ptrs st2 l = ptrs st l.
Proof.
  intros Hd Hs.
  destruct (total_revbin_loop ii0 stride (2 ^ depth) depth st) as [st1 E1].
  destruct (total_revbin_loop ii0 stride (2 ^ depth) depth st1) as [st2 E2].
  exists st1, st2. split; [exact E1|]. split; [exact E2|].
  destruct (revbin_loop_post ii0 stride depth st st1 Hd Hs E1) as (M1 & P1 & O1).
  destruct (revbin_loop_post ii0 stride depth st1 st2 Hd Hs E2) as (M2 & P2 & O2).
  split; [exact M1|]. split; [congruence|].
  intros l. destruct (strided_slot_dec ii0 stride (2 ^ depth) l Hs) as [[j [Hj ->]]|Hn].
  - pose proof (n_revbin_range j depth Hd) as Hr.
    rewrite (P2 j Hj), (P1 _ Hr), n_revbin_invol by assumption. reflexivity.
  - rewrite (O2 l Hn). exact (O1 l Hn).
Qed.

(** ** The rows that the truncated row pass skips *)

(** X13. The row pass of the right half transforms the rows
    [n_revbin s depth], [s < trunc2], and nothing else: a row [i] of the right
    half with [trunc2 <= n_revbin i depth] keeps, slot by slot, the buffers and
    the coefficients that the column pass left, and so does every slot of the
    left half. *)
Theorem mfa_right_rows_skipped n w n1 trunc st st' :
  mfa_valid n n1 trunc -> ownership n st ->
  let n2 := 2 * n / n1 in
  let trunc2 := (trunc - 2 * n) / n1 in
  let depth := depth_of n2 in
  let depth2 := depth_of n1 in
  mfa_right_rows n w n1 n2 trunc2 depth depth2 st = Some st' ->
  (forall i j, 0 <= i < n2 -> trunc2 <= n_revbin i depth -> 0 <= j < n1 ->
     ptrs st' (ii (2 * n + i * n1 + j)) = ptrs st (ii (2 * n + i * n1 + j)) /\
     val st' (ii (2 * n + i * n1 + j)) = val st (ii (2 * n + i * n1 + j))) /\
  (forall k, 0 <= k < 2 * n ->
     ptrs st' (ii k) = ptrs st (ii k) /\ val st' (ii k) = val st (ii k)).
Proof.
  intros Hv Hown n2 trunc2 depth depth2 E.
  destruct (mfa_valid_facts _ _ _ Hv) as
    [Hn Hn1 Hn2 Hg [Hd Hdp] [Hd2 Hdp2] _ _ Ht _].
  fold n2 in Hn2, Hg, Hd, Hdp. fold depth in Hd, Hdp. fold depth2 in Hd2, Hdp2.
  apply ownership_inj in Hown.
  set (L := fun l => match l with
                     | ii k => exists s j, 0 <= s < trunc2 /\ 0 <= j < n1 /\
                                 k = 2 * n + n_revbin s depth * n1 + j
                     | t1 | t2 => True
                     | temp => False
                     end).
  assert (Hr : forall s, 0 <= n_revbin s depth < n2).
  { intros s. rewrite <- Hdp. now apply n_revbin_range. }
  assert (LW : forall l, L l -> window 0 (4 * n) scratch3 l).
  { intros [k| | |]; cbn [L window].
    - intros (s & j & Hs & Hj & ->). pose proof (Hr s). nia.
    - intros _. now left.
    - intros _. right. now left.
    - intros []. }
  assert (Cd : local L (mfa_right_rows n w n1 n2 trunc2 depth depth2)).
  { unfold mfa_right_rows. apply local_for_loop. intros s Hs. cbv zeta.
    apply local_bind.
    - apply local_fft_radix2; cbn [L]; auto.
      intros j Hj. exists s, j. split; [exact Hs|]. split; [zlia|reflexivity].
    - apply local_revbin_loop; auto; [lia|].
      intros j Hj. cbn [L]. exists s, j. split; [exact Hs|]. split; [exact Hj|lia]. }
  split.
  - intros i j Hi Hrev Hj.
    apply (local_val_frame L _ _ st st' _ Cd E LW Hown).
    + cbn [window]. nia.
    + cbn [L]. intros (s & j' & Hs & Hj' & Ek).
      assert (Ei : i = n_revbin s depth).
      { pose proof (Hr s). nia. }
      rewrite Ei, n_revbin_invol in Hrev; [lia|exact Hd|].
      rewrite Hdp. pose proof (mf_trunc2 _ _ _ (mfa_valid_facts _ _ _ Hv)) as [Hb _].
      fold n2 trunc2 in Hb. lia.
  - intros k Hk.
    apply (local_val_frame L _ _ st st' _ Cd E LW Hown).
    + cbn [window]. lia.
    + cbn [L]. intros (s & j' & Hs & Hj' & Ek). pose proof (Hr s). nia.
Qed.

End Transform.

Notation "st <- e ;; k" := (bind e (fun st => k))
  (at level 61, e at next level, right associativity).

(** ** Concrete runs

    [sym_init] is the signal [ii[k] = k] of symbolic coefficients [Init k], with
    the scratch buffers at the addresses -1, -2 and -3; [sym_moved] holds the
    same coefficients in other buffers, with other scratch contents. *)

Abbreviation sym_init := (init_state Sym.Init).
Abbreviation sym_moved :=
  (moved_state (fun p => if p <? 50 then Sym.Init (1000 + p) else Sym.Init (p - 100))).

Example n_revbin_3 :
  map (fun j => n_revbin j 3) [0; 1; 2; 3; 4; 5; 6; 7] = [0; 4; 2; 6; 1; 5; 3; 7].
Proof. reflexivity. Qed.

Example depth_of_8 : depth_of 8 = 3.
Proof. reflexivity. Qed.

(** [n = 1]: one twiddled butterfly, placed by exchange with [t1] and [t2]. *)
Example fft_radix2_twiddle_1 :
  option_map (fun st => (val st (ii 0), val st (ii 1), ptrs st (ii 0), ptrs st t1))
    (fft_radix2_twiddle 0 1 1 128 1 0 1 1 sym_init)
  = Some (Sym.Mul2exp (Sym.LshB1 (Sym.Init 0) (Sym.Init 1) 2 0 0) 2 0,
          Sym.Mul2exp (Sym.LshB2 (Sym.Init 0) (Sym.Init 1) 2 0 0) 2 1,
          -1, 0).
Proof. reflexivity. Qed.

(** [trunc <= n]: the upper half is folded in by one addition. *)
Example fft_truncate1_twiddle_2_2 :
  option_map (fun st => (val st (ii 0), val st (ii 2), ptrs st (ii 2)))
    (fft_truncate1_twiddle 0 1 2 64 1 0 1 1 2 sym_init)
  = Some (Sym.Mul2exp
            (Sym.LshB1 (Sym.Add (Sym.Init 0) (Sym.Init 2) 3)
               (Sym.Add (Sym.Init 1) (Sym.Init 3) 3) 2 0 0) 2 0,
          Sym.Init 2, 2).
Proof. reflexivity. Qed.

(** The calls that do not return: [n = 0], an odd [trunc], a grid of one row. *)
Example fft_radix2_twiddle_0 : fft_radix2_twiddle 0 1 0 64 1 0 1 1 sym_init = None.
Proof. reflexivity. Qed.

Example fft_truncate1_twiddle_odd : fft_truncate1_twiddle 0 1 2 64 1 0 1 1 3 sym_init = None.
Proof. reflexivity. Qed.

Example fft_mfa_truncate_sqrt2_one_row : fft_mfa_truncate_sqrt2 1 64 2 4 sym_init = None.
Proof. reflexivity. Qed.

(** The twiddled butterfly on numbers, modulo [2^64 + 1]: a rotation by
    [70 = 64 + 6] bits negates. *)
Example fft_butterfly_twiddle_numbers :
  let m := @fft_butterfly_twiddle Z exact_primitives 0 1 2 3 1 70 3 (fun p => p + 5) in
  (m 0 mod (2 ^ 64 + 1), m 1 mod (2 ^ 64 + 1))
  = ((- (2 ^ 6 * 15)) mod (2 ^ 64 + 1), (- 8) mod (2 ^ 64 + 1)).
Proof. reflexivity. Qed.

Lemma sym_init_inj hi (S : loc -> Prop) : inj_on (window 0 hi S) sym_init.
Proof.
  intros x y Hx Hy E. destruct x as [a| | |], y as [b| | |];
    cbn [window] in Hx, Hy; simpl in E; try reflexivity; try lia.
  now subst.
Defined.

Lemma sym_moved_inj hi (S : loc -> Prop) : inj_on (window 0 hi S) sym_moved.
Proof.
  intros x y Hx Hy E. destruct x as [a| | |], y as [b| | |];
    cbn [window] in Hx, Hy; simpl in E; try reflexivity; try lia.
  f_equal. lia.
Defined.

Lemma mfa_valid_2_2_8 : mfa_valid 2 2 8.
Proof. exists 1, 1. repeat split; try lia; reflexivity. Defined.

(** C1, counterexample: for [n = 2], [n1 = 2], [trunc = 8] the outer variant
    leaves in slot 0 the output of the column pass, while the full variant
    has run a row transform over it. *)
Lemma outer_left_as_stated_fails : ~ outer_left_as_stated 2 64 2 8 sym_init.
Proof.
  intros H. unfold outer_left_as_stated in H. cbv zeta in H.
  destruct (fft_mfa_truncate_sqrt2_outer 2 64 2 8 sym_init) as [so|] eqn:Eo;
    [|vm_compute in Eo; discriminate].
  destruct (sa <- mfa_left_columns 2 64 2 8 (2 * 2 / 2) (2 * 64 / FLINT_BITS)
                    (depth_of (2 * 2 / 2)) sym_init ;;
            mfa_left_rows 64 2 (2 * 2 / 2) (depth_of 2) sa) as [sb|] eqn:Eb;
    [|vm_compute in Eb; discriminate].
  specialize (H so sb eq_refl eq_refl 0 ltac:(lia)).
  apply (f_equal (option_map (fun s => val s (ii 0)))) in Eo, Eb.
  cbn [option_map] in Eo, Eb. rewrite H in Eo. rewrite <- Eb in Eo.
  vm_compute in Eo. discriminate.
Qed.

(** C6, counterexample: for an odd [w] and the even index [j = 0] the layer
    calls the plain butterfly, not the sqrt2-adjusted one. *)
Lemma sqrt2_layer_as_stated_fails : ~ sqrt2_layer_as_stated 2 65 2 8 2 0 sym_init.
Proof.
  intros H. unfold sqrt2_layer_as_stated in H.
  destruct (sqrt2_layer 2 65 2 8 2 0 sym_init) as [st'|] eqn:E;
    [|vm_compute in E; discriminate].
  destruct (H st' eq_refl 0 ltac:(lia) eq_refl eq_refl) as [H0 _].
  apply (f_equal (option_map (fun s => val s (ii 0)))) in E.
  cbn [option_map] in E. rewrite H0 in E.
  vm_compute in E. discriminate.
Qed.

(** ** The theorems at concrete inputs *)

Lemma sym_init_ownership n : ownership n sym_init.
Proof. apply ownership_inj. apply sym_init_inj. Defined.

Lemma sym_moved_ownership n : ownership n sym_moved.
Proof. apply ownership_inj. apply sym_moved_inj. Defined.

Lemma fft_mfa_truncate_sqrt2_outer_contract_witness :
  mfa_valid 2 2 8 /\ ownership 2 sym_init /\
  exists so sc,
    fft_mfa_truncate_sqrt2_outer 2 64 2 8 sym_init = Some so /\
    forall k, 2 * 2 <= k < 4 * 2 -> val so (ii k) = val sc (ii k).
Proof.
  split; [exact mfa_valid_2_2_8|]. split; [exact (sym_init_ownership 2)|].
  destruct (fft_mfa_truncate_sqrt2_outer_contract 2 64 2 8 sym_init
              mfa_valid_2_2_8 (sym_init_ownership 2))
    as (sa & sb & sc & so & _ & _ & _ & _ & Eo & Hr & _).
  exists so, sc. split; [exact Eo|exact Hr].
Defined.

Lemma exact_lshB : @lshB_contract Z exact_primitives (fun x => x).
Proof. intros a b limbs x y _ _. split; reflexivity. Defined.

Lemma exact_mul_2exp : @mul_2exp_contract Z exact_primitives (fun x => x).
Proof. intros a limbs d _. reflexivity. Defined.

Lemma exact_neg : @neg_contract Z exact_primitives (fun x => x).
Proof. intros a limbs. reflexivity. Defined.

Lemma fft_butterfly_twiddle_correct_witness :
  (0 <= 70 < 2 * (1 * 64) /\ 0 <= 3 < 2 * (1 * 64)) /\
  let m := fun p : ptr => p + 5 in
  let m' := @fft_butterfly_twiddle Z exact_primitives 0 1 2 3 1 70 3 m in
  m' 0 mod (2 ^ 64 + 1) = (2 ^ 70 * (7 + 8)) mod (2 ^ 64 + 1) /\
  m' 1 mod (2 ^ 64 + 1) = (2 ^ 3 * (7 - 8)) mod (2 ^ 64 + 1).
Proof.
  split; [lia|]. intros m m'.
  destruct (@fft_butterfly_twiddle_correct Z exact_primitives (fun x => x)
              0 1 2 3 1 70 3 m ltac:(reflexivity) exact_lshB exact_mul_2exp exact_neg
              ltac:(simpl; lia) ltac:(simpl; lia)
              ltac:(discriminate) ltac:(discriminate) ltac:(discriminate)
              ltac:(discriminate) ltac:(discriminate))
    as (Hu & Hv & _).
  split; [exact Hu|exact Hv].
Defined.

Lemma window_0_4_slots :
  forall j, 0 <= j < 2 * 2 -> window 0 4 scratch3 (ii (0 + j * 1)).
Proof. intros j Hj. cbn [window]. lia. Defined.

Lemma window_0_8_slots :
  forall j, 0 <= j < 2 * 2 ^ 2 -> window 0 8 scratch3 (ii (0 + j * 1)).
Proof. intros j Hj. cbn [window]. change (2 ^ 2) with 4 in Hj. lia. Defined.

Lemma window_0_4_slots_1 :
  forall j, 0 <= j < 2 * 1 -> window 0 4 scratch3 (ii (0 + j * 1)).
Proof. intros j Hj. cbn [window]. lia. Defined.

Lemma twiddle_range_1 : @twiddle_range Sym.term sym_primitives 1 64 3 5 7 1.
Proof. vm_compute. repeat split; (reflexivity || discriminate). Defined.

Lemma twiddle_range_2 : @twiddle_range Sym.term sym_primitives 2 64 3 5 7 1.
Proof. vm_compute. repeat split; (reflexivity || discriminate). Defined.

Lemma twiddle_range_pow2_1 : @twiddle_range Sym.term sym_primitives (2 ^ 1) 64 3 5 7 1.
Proof. exact twiddle_range_2. Defined.

Lemma fft_truncate1_twiddle_cases_witness :
  (exists st1 st',
     for_loop 0 2 (fun i st =>
       Some (do_mpn_add_n (ii (0 + i * 1)) (ii (0 + i * 1)) (ii (0 + (i + 2) * 1))
               (64 * 2 / FLINT_BITS + 1) st)) sym_init = Some st1 /\
     fft_truncate1_twiddle 0 1 (2 / 2) (2 * 64) 1 0 1 (2 * 1) 2 st1 = Some st' /\
     fft_truncate1_twiddle 0 1 2 64 1 0 1 1 2 sym_init = Some st') /\
  (exists st1 st2 st',
     for_loop 0 (2 ^ 2) (fun i st =>
       Some (butterfly_swap (0 + i * 1) (0 + (2 ^ 2 + i) * 1) i
               (64 * 2 ^ 2 / FLINT_BITS) 64 st)) sym_init = Some st1 /\
     fft_radix2_twiddle 0 1 (2 ^ 2 / 2) (2 * 64) 1 0 1 (2 * 1) st1 = Some st2 /\
     fft_truncate1_twiddle (0 + 2 ^ 2 * 1) 1 (2 ^ 2 / 2) (2 * 64) 1 (0 + 1) 1 (2 * 1)
       (6 - 2 ^ 2) st2 = Some st' /\
     fft_truncate1_twiddle 0 1 (2 ^ 2) 64 1 0 1 1 6 sym_init = Some st').
Proof.
  split.
  - destruct (fft_truncate1_twiddle_cases (window 0 4 scratch3) 1 0 1 2 64 1 0 1 1 2
                sym_init ltac:(lia) ltac:(reflexivity) ltac:(reflexivity) ltac:(lia)
                ltac:(lia) (or_introl eq_refl) (or_intror (or_introl eq_refl))
                window_0_4_slots (sym_init_inj 4 scratch3))
      as [Hlow _].
    destruct (Hlow ltac:(lia)) as (st1 & st' & E1 & _ & _ & Er & E).
    exists st1, st'. split; [exact E1|]. split; [exact Er|exact E].
  - destruct (fft_truncate1_twiddle_cases (window 0 8 scratch3) 2 0 1 (2 ^ 2) 64 1 0 1 1 6
                sym_init ltac:(lia) ltac:(reflexivity) ltac:(reflexivity)
                ltac:(change (2 ^ 2) with 4; lia)
                ltac:(lia) (or_introl eq_refl) (or_intror (or_introl eq_refl))
                window_0_8_slots (sym_init_inj 8 scratch3))
      as [_ Hmid].
    destruct (Hmid ltac:(change (2 ^ 2) with 4; lia))
      as (st1 & st2 & st' & E1 & _ & E2 & Er & E).
    exists st1, st2, st'. split; [exact E1|]. split; [exact E2|]. split; [exact Er|exact E].
Defined.

Lemma fft_radix2_twiddle_structure_witness :
  (exists st',
     fft_radix2_twiddle 0 1 1 64 3 5 7 1 sym_init = Some st' /\
     val st' (ii 0)
     = fst (butterfly_twiddle_val (val sym_init (ii 0)) (val sym_init (ii (0 + 1)))
              (64 * 1 / FLINT_BITS) (5 * 7 * 3) ((5 * 7 + 1 * 7) * 3))) /\
  (exists st1 st2 st',
     for_loop 0 2 (fun i st =>
       Some (butterfly_swap (0 + i * 1) (0 + (2 + i) * 1) i (64 * 2 / FLINT_BITS) 64 st))
       sym_init = Some st1 /\
     fft_radix2_twiddle 0 1 (2 / 2) (2 * 64) 3 5 7 (2 * 1) st1 = Some st2 /\
     fft_radix2_twiddle (0 + 2 * 1) 1 (2 / 2) (2 * 64) 3 (5 + 1) 7 (2 * 1) st2 = Some st' /\
     fft_radix2_twiddle 0 1 2 64 3 5 7 1 sym_init = Some st').
Proof.
  split.
  - destruct (fft_radix2_twiddle_structure (window 0 4 scratch3) 0 0 1 1 64 3 5 7 1 sym_init
                ltac:(lia) ltac:(reflexivity) twiddle_range_1
                ltac:(lia) (or_introl eq_refl) (or_intror (or_introl eq_refl))
                window_0_4_slots_1 (sym_init_inj 4 scratch3))
      as [Hbase _].
    destruct (Hbase eq_refl) as (st' & E & Hv). cbv zeta in Hv.
    exists st'. split; [exact E|exact (proj1 Hv)].
  - destruct (fft_radix2_twiddle_structure (window 0 4 scratch3) 1 0 1 2 64 3 5 7 1 sym_init
                ltac:(lia) ltac:(reflexivity) twiddle_range_2
                ltac:(lia) (or_introl eq_refl) (or_intror (or_introl eq_refl))
                window_0_4_slots (sym_init_inj 4 scratch3))
      as [_ Hrec].
    destruct (Hrec ltac:(lia)) as (st1 & st2 & st' & E1 & _ & E2 & E3 & E).
    exists st1, st2, st'. split; [exact E1|]. split; [exact E2|]. split; [exact E3|exact E].
Defined.

Lemma sqrt2_layer_column_witness :
  exists st',
    sqrt2_layer 2 65 2 8 2 1 sym_init = Some st' /\
    val st' (ii 1)
      = fst (layer_butterfly 65 2 1 (val sym_init (ii 1)) (val sym_init (ii (2 * 2 + 1)))).
Proof.
  destruct (sqrt2_layer_column 2 65 2 8 2 1 sym_init
              ltac:(lia) ltac:(lia) ltac:(lia) ltac:(lia) (sym_init_ownership 2))
    as (st' & E & Hj).
  exists st'. split; [exact E|].
  destruct (Hj 1 ltac:(lia) ltac:(reflexivity)) as [Hlow _].
  exact (proj1 (Hlow ltac:(lia))).
Defined.

Lemma mfa_valid_8_4_24 : mfa_valid 8 4 24.
Proof. exists 3, 2. repeat split; try lia; reflexivity. Defined.

(** A grid of 4 rows and 4 columns in each half, truncated to 2 rows of the
    right half: the second row transformed is row [n_revbin 1 2 = 2], and
    column 1 of it receives column [n_revbin 1 2 = 2] of the base transform. *)
Lemma mfa_row_pass_witness :
  mfa_valid 8 4 24 /\ ownership 8 sym_init /\
  exists sc sf si,
    mfa_right_rows 8 64 4 (2 * 8 / 4) ((24 - 2 * 8) / 4) (depth_of (2 * 8 / 4))
      (depth_of 4) sc = Some sf /\
    fft_mfa_truncate_sqrt2 8 64 4 24 sym_init = Some sf /\
    fft_radix2 (2 * 8 + n_revbin 1 (depth_of (2 * 8 / 4)) * 4) (4 / 2) (64 * (2 * 8 / 4)) sc
    = Some si /\
    val sf (ii (2 * 8 + n_revbin 1 (depth_of (2 * 8 / 4)) * 4 + 1))
    = val si (ii (2 * 8 + n_revbin 1 (depth_of (2 * 8 / 4)) * 4 + n_revbin 1 (depth_of 4))).
Proof.
  split; [exact mfa_valid_8_4_24|]. split; [exact (sym_init_ownership 8)|].
  pose proof (mfa_row_pass 8 64 4 24 sym_init mfa_valid_8_4_24 (sym_init_ownership 8))
    as H.
  cbv zeta in H.
  destruct H as (_ & _ & sa & sb & sc & sf & _ & _ & _ & Ef & Efull & _ & Rrow & _).
  destruct (Rrow 1 ltac:(change ((24 - 2 * 8) / 4) with 2; lia)) as (_ & si & Ei & Hval).
  exists sc, sf, si. split; [exact Ef|]. split; [exact Efull|]. split; [exact Ei|].
  apply Hval. lia.
Defined.

Lemma ownership_preserved_witness :
  mfa_valid 2 2 8 /\
  exists st', fft_mfa_truncate_sqrt2 2 64 2 8 sym_init = Some st' /\
    ownership 2 st' /\ Permutation (owned 2 sym_init) (owned 2 st').
Proof.
  split; [exact mfa_valid_2_2_8|].
  destruct (@ownership_preserved Sym.term sym_primitives 2 64 2 8 mfa_valid_2_2_8)
    as (_ & _ & _ & _ & [Htot Hown] & _).
  destruct (Htot sym_init) as [st' E]. exists st'. split; [exact E|].
  exact (Hown sym_init st' (sym_init_ownership 2) E).
Defined.

Lemma sym_moved_agrees :
  forall k, 0 <= k < 4 * 2 -> val sym_init (ii k) = val sym_moved (ii k).
Proof.
  intros k Hk. unfold val. simpl.
  destruct (Z.ltb_spec (k + 100) 50); [lia|]. f_equal. lia.
Defined.

Lemma fft_mfa_truncate_sqrt2_deterministic_witness :
  exists st1' st2',
    fft_mfa_truncate_sqrt2 2 65 2 8 sym_init = Some st1' /\
    fft_mfa_truncate_sqrt2 2 65 2 8 sym_moved = Some st2' /\
    forall k, 0 <= k < 4 * 2 -> val st1' (ii k) = val st2' (ii k).
Proof.
  exact (fft_mfa_truncate_sqrt2_deterministic 2 65 2 8 sym_init sym_moved
           mfa_valid_2_2_8 (sym_init_ownership 2) (sym_moved_ownership 2)
           sym_moved_agrees).
Defined.

Lemma fft_truncate1_twiddle_upper_frame_witness :
  exists st',
    fft_truncate1_twiddle 0 1 (2 ^ 2) 64 1 0 1 1 2 sym_init = Some st' /\
    forall i, 0 <= i < 2 ^ 2 ->
      ptrs st' (ii (0 + (2 ^ 2 + i) * 1)) = ptrs sym_init (ii (0 + (2 ^ 2 + i) * 1)) /\
      val st' (ii (0 + (2 ^ 2 + i) * 1)) = val sym_init (ii (0 + (2 ^ 2 + i) * 1)).
Proof.
  destruct (fft_truncate1_twiddle_upper_frame (window 0 8 scratch3) 2 0 1 64 1 0 1 1 2
              sym_init ltac:(lia) ltac:(change (2 ^ 2) with 4; lia) ltac:(reflexivity)
              ltac:(lia) (or_introl eq_refl) (or_intror (or_introl eq_refl))
              window_0_8_slots (sym_init_inj 8 scratch3))
    as (st' & E & Hup & _).
  exists st'. split; [exact E|exact Hup].
Defined.

(** ** The further properties at concrete inputs *)

Lemma fft_radix2_twiddle_returns_witness :
  exists st', fft_radix2_twiddle 0 1 2 64 1 0 1 1 sym_init = Some st'.
Proof.
  apply (proj1 (fft_radix2_twiddle_returns 0 1 2 64 1 0 1 1 sym_init ltac:(lia))). lia.
Defined.

Lemma fft_truncate1_twiddle_returns_witness :
  (exists st', fft_truncate1_twiddle 0 1 (2 ^ 1) 64 1 0 1 1 2 sym_init = Some st') /\
  forall k, fft_truncate1_twiddle_rec k 0 1 (2 ^ 1) 64 1 0 1 1 3 sym_init = None.
Proof.
  split.
  - apply (proj1 (fft_truncate1_twiddle_returns 1 0 1 64 1 0 1 1 2 sym_init ltac:(lia))).
    split; [reflexivity|]. change (2 ^ 1) with 2. lia.
  - apply (proj2 (fft_truncate1_twiddle_returns 1 0 1 64 1 0 1 1 3 sym_init ltac:(lia))).
    intros [Hm _]. discriminate Hm.
Defined.

Lemma fft_truncate1_twiddle_lower_half_witness :
  exists st_t st_f,
    fft_truncate1_twiddle 0 1 (2 ^ 2) 64 1 0 1 1 6 sym_init = Some st_t /\
    fft_radix2_twiddle 0 1 (2 ^ 2) 64 1 0 1 1 sym_init = Some st_f /\
    forall i, 0 <= i < 2 ^ 2 ->
      ptrs st_t (ii (0 + i * 1)) = ptrs st_f (ii (0 + i * 1)) /\
      val st_t (ii (0 + i * 1)) = val st_f (ii (0 + i * 1)).
Proof.
  exact (fft_truncate1_twiddle_lower_half (window 0 8 scratch3) 2 0 1 64 1 0 1 1 6
           sym_init ltac:(lia) ltac:(change (2 ^ 2) with 4; lia) ltac:(reflexivity)
           ltac:(lia) (or_introl eq_refl) (or_intror (or_introl eq_refl))
           window_0_8_slots (sym_init_inj 8 scratch3)).
Defined.

Lemma fft_mfa_truncate_sqrt2_outer_then_rows_witness :
  exists so s1 s2 sf,
    fft_mfa_truncate_sqrt2_outer 2 65 2 8 sym_init = Some so /\
    mfa_left_rows 65 2 (2 * 2 / 2) (depth_of 2) so = Some s1 /\
    mfa_right_rows 2 65 2 (2 * 2 / 2) ((8 - 2 * 2) / 2) (depth_of (2 * 2 / 2))
      (depth_of 2) s1 = Some s2 /\
    fft_mfa_truncate_sqrt2 2 65 2 8 sym_init = Some sf /\
    forall k, 0 <= k < 4 * 2 -> val s2 (ii k) = val sf (ii k).
Proof.
  exact (fft_mfa_truncate_sqrt2_outer_then_rows 2 65 2 8 sym_init
           mfa_valid_2_2_8 (sym_init_ownership 2)).
Defined.

Lemma fft_mfa_truncate_sqrt2_footprint_witness :
  exists st',
    fft_mfa_truncate_sqrt2 2 65 2 8 sym_init = Some st' /\
    ptrs st' temp = ptrs sym_init temp /\
    ptrs st' (ii 8) = ptrs sym_init (ii 8) /\
    mem st' 8 = mem sym_init 8.
Proof.
  destruct (@total_fft_mfa_truncate_sqrt2 Sym.term sym_primitives 2 65 2 8
              mfa_valid_2_2_8 sym_init) as [st' E].
  exists st'. split; [exact E|].
  destruct (fft_mfa_truncate_sqrt2_footprint 2 65 2 8 sym_init st' mfa_valid_2_2_8
              (or_introl E)) as (Ht & Hk & Hp).
  split; [exact Ht|]. split; [apply Hk; lia|]. apply Hp.
  vm_compute. intuition discriminate.
Defined.

Lemma fft_mfa_truncate_sqrt2_even_w_temp_witness :
  exists st',
    fft_mfa_truncate_sqrt2_outer 2 64 2 8 sym_init = Some st' /\
    ptrs st' temp = ptrs sym_init temp /\ val st' temp = val sym_init temp.
Proof.
  destruct (@total_fft_mfa_truncate_sqrt2_outer Sym.term sym_primitives 2 64 2 8
              mfa_valid_2_2_8 sym_init) as [st' E].
  exists st'. split; [exact E|].
  exact (fft_mfa_truncate_sqrt2_even_w_temp 2 64 2 8 sym_init st' mfa_valid_2_2_8
           eq_refl (sym_init_ownership 2) (or_intror E)).
Defined.

Lemma window_0_8_slots_1 :
  forall j, 0 <= j < 2 * 2 ^ 1 -> window 0 8 scratch3 (ii (0 + j * 1)).
Proof. intros j Hj. cbn [window]. change (2 ^ 1) with 2 in Hj. lia. Defined.

Lemma fft_radix2_twiddle_leaves_witness :
  exists st',
    fft_radix2_twiddle 0 1 (2 ^ 1) 64 3 5 7 1 sym_init = Some st' /\
    exists s t,
      val st' (ii (0 + 2 * 1 * 1))
      = fst (butterfly_twiddle_val s t (64 * 2 ^ 1 / FLINT_BITS)
               ((5 + 1 * n_revbin 1 1) * 7 * 3)
               (((5 + 1 * n_revbin 1 1) * 7 + 1 * 2 ^ 1 * 7) * 3)).
Proof.
  destruct (fft_radix2_twiddle_leaves (window 0 8 scratch3) 1 0 1 64 3 5 7 1 sym_init
              ltac:(lia) twiddle_range_pow2_1 ltac:(lia) (or_introl eq_refl) (or_intror (or_introl eq_refl))
              window_0_8_slots_1 (sym_init_inj 8 scratch3)) as (st' & E & Hp).
  exists st'. split; [exact E|].
  destruct (Hp 1 ltac:(change (2 ^ 1) with 2; lia)) as (s & t & Va & _).
  exists s, t. exact Va.
Defined.

Lemma fft_radix2_twiddle_reordered_witness :
  exists st1 st',
    fft_radix2_twiddle 0 1 (2 ^ 1) 64 3 5 7 1 sym_init = Some st1 /\
    revbin_loop 0 1 (2 * 2 ^ 1) (1 + 1) st1 = Some st' /\
    exists s t,
      val st' (ii (0 + 1 * 1))
      = fst (butterfly_twiddle_val s t (64 * 2 ^ 1 / FLINT_BITS)
               ((5 + 1 * 1) * 7 * 3) ((5 + 1 * (1 + 2 ^ 1)) * 7 * 3)).
Proof.
  destruct (fft_radix2_twiddle_reordered (window 0 8 scratch3) 1 0 1 64 3 5 7 1 sym_init
              ltac:(lia) twiddle_range_pow2_1 ltac:(lia) (or_introl eq_refl) (or_intror (or_introl eq_refl))
              window_0_8_slots_1 (sym_init_inj 8 scratch3)) as (st1 & st' & E1 & E2 & Hp).
  exists st1, st'. split; [exact E1|]. split; [exact E2|].
  destruct (Hp 1 ltac:(change (2 ^ 1) with 2; lia)) as (s & t & Va & _).
  exists s, t. exact Va.
Defined.

Lemma mfa_columns_independent_witness :
  exists st',
    left_column 2 65 2 8 (2 * 2 / 2) 2 (depth_of (2 * 2 / 2)) 1 sym_init = Some st' /\
    ptrs st' (ii 4) = ptrs sym_init (ii 4) /\ val st' (ii 4) = val sym_init (ii 4).
Proof.
  destruct (left_column 2 65 2 8 (2 * 2 / 2) 2 (depth_of (2 * 2 / 2)) 1 sym_init)
    as [st'|] eqn:E; [|vm_compute in E; discriminate].
  exists st'. split; [reflexivity|].
  apply (proj1 (mfa_columns_independent 2 65 2 8 2 1 sym_init st' mfa_valid_2_2_8
                  ltac:(lia) (sym_init_ownership 2)) E 4); [lia|].
  intros H. discriminate H.
Defined.

Lemma fft_mfa_truncate_sqrt2_outer_twiddles_witness :
  exists st',
    fft_mfa_truncate_sqrt2_outer 2 65 2 8 sym_init = Some st' /\
    exists s t,
      val st' (ii (1 + (0 + 2 * 2 / 2 / 2) * 2))
      = snd (butterfly_twiddle_val s t (65 * 2 * (2 * 2 / 2 / 2) / FLINT_BITS)
               (0 * 1 * 65) ((0 + 2 * 2 / 2 / 2) * 1 * 65)).
Proof.
  destruct (fft_mfa_truncate_sqrt2_outer_twiddles 2 65 2 8 sym_init mfa_valid_2_2_8
              (sym_init_ownership 2)) as (st' & E & Hp).
  exists st'. split; [exact E|].
  destruct (Hp 1 0 ltac:(lia) ltac:(change (2 * 2 / 2 / 2) with 1; lia))
    as [(s & t & _ & Vb) _].
  exists s, t. exact Vb.
Defined.

Lemma depth_of_least_witness : depth_of 5 = 3.
Proof.
  destruct (depth_of_least 5 ltac:(lia)) as (H0 & H1 & H2).
  pose proof (H2 3 ltac:(lia) ltac:(change (2 ^ 3) with 8; lia)) as Hle.
  destruct (Z_le_gt_dec (depth_of 5) 2) as [Hs|Hs]; [|lia].
  exfalso. assert (2 ^ depth_of 5 <= 2 ^ 2) by (apply Z.pow_le_mono_r; lia).
  change (2 ^ 2) with 4 in *. lia.
Defined.

Lemma revbin_loop_twice_witness :
  exists st1 st2,
    revbin_loop 0 2 (2 ^ 2) 2 sym_init = Some st1 /\
    revbin_loop 0 2 (2 ^ 2) 2 st1 = Some st2 /\
    forall l, ptrs st2 l = ptrs sym_init l.
Proof.
  destruct (revbin_loop_twice 0 2 2 sym_init ltac:(lia) ltac:(lia))
    as (st1 & st2 & E1 & E2 & _ & _ & Hp).
  exists st1, st2. split; [exact E1|]. split; [exact E2|exact Hp].
Defined.

Lemma mfa_valid_4_2_12 : mfa_valid 4 2 12.
Proof. exists 2, 1. repeat split; try lia; reflexivity. Defined.

Lemma mfa_right_rows_skipped_witness :
  exists st',
    mfa_right_rows 4 64 2 (2 * 4 / 2) ((12 - 2 * 4) / 2) (depth_of (2 * 4 / 2))
      (depth_of 2) sym_init = Some st' /\
    val st' (ii (2 * 4 + 1 * 2 + 0)) = val sym_init (ii (2 * 4 + 1 * 2 + 0)).
Proof.
  destruct (@total_mfa_right_rows Sym.term sym_primitives 4 64 2 12 mfa_valid_4_2_12
              sym_init) as [st' E].
  exists st'. split; [exact E|].
  exact (proj2 (proj1 (mfa_right_rows_skipped 4 64 2 12 sym_init st' mfa_valid_4_2_12
                         (sym_init_ownership 4) E)
                  1 0 ltac:(change (2 * 4 / 2) with 4; lia)
                  ltac:(vm_compute; discriminate) ltac:(lia))).
Defined.

(** * Properties of [setup_sieve] *)

Lemma loop_nat_add {A B : Type} (step : A -> A + B) n : forall m a,
  loop_nat (n + m) step a
  = match loop_nat n step a with
    | inl a' => loop_nat m step a'
    | inr b => inr b
    end.
Proof.
  induction n as [|n IH]; intros m a; cbn [Nat.add loop_nat]; [reflexivity|].
  destruct (step a) as [a'|b]; [apply IH|reflexivity].
Qed.

(** [loop_until p] runs at most [p] rounds of the loop. *)
Lemma loop_until_nat {A B : Type} (step : A -> A + B) p : forall a,
  loop_until p step a = loop_nat (Pos.to_nat p) step a.
Proof.
  induction p as [q IH|q IH|]; intros a; cbn [loop_until].
  - rewrite Pos2Nat.inj_xI. cbn [loop_nat Nat.mul].
    destruct (step a) as [a1|b]; [|reflexivity].
    rewrite Nat.add_0_r, loop_nat_add, <- IH.
    destruct (loop_until q step a1) as [a2|b]; [apply IH|reflexivity].
  - rewrite Pos2Nat.inj_xO. cbn [Nat.mul].
    rewrite Nat.add_0_r, loop_nat_add, <- IH.
    destruct (loop_until q step a) as [a'|b]; [apply IH|reflexivity].
  - change (Pos.to_nat 1) with 1%nat. cbn [loop_nat].
    destruct (step a); reflexivity.
Qed.

Lemma loop_until_variant {A B : Type} (I : A -> Prop) (Q : B -> Prop) (mu : A -> Z)
    (step : A -> A + B) :
  (forall a, I a ->
     match step a with
     | inl a' => I a' /\ 0 <= mu a' < mu a
     | inr b => Q b
     end) ->
  forall p a, I a ->
    match loop_until p step a with
    | inl a' => I a' /\ 0 <= mu a' /\ mu a' + Z.pos p <= mu a
    | inr b => Q b
    end.
Proof.
  intros Hstep. induction p as [q IH|q IH|]; intros a Ha; cbn [loop_until].
  - pose proof (Hstep a Ha) as H1. destruct (step a) as [a1|b]; [|exact H1].
    destruct H1 as [I1 M1]. pose proof (IH a1 I1) as H2.
    destruct (loop_until q step a1) as [a2|b]; [|exact H2].
    destruct H2 as (I2 & P2 & M2). pose proof (IH a2 I2) as H3.
    destruct (loop_until q step a2) as [a3|b]; [|exact H3].
    destruct H3 as (I3 & P3 & M3). split; [exact I3|]. lia.
  - pose proof (IH a Ha) as H2.
    destruct (loop_until q step a) as [a2|b]; [|exact H2].
    destruct H2 as (I2 & P2 & M2). pose proof (IH a2 I2) as H3.
    destruct (loop_until q step a2) as [a3|b]; [|exact H3].
    destruct H3 as (I3 & P3 & M3). split; [exact I3|]. lia.
  - pose proof (Hstep a Ha) as H1. destruct (step a) as [a1|b]; [|exact H1].
    destruct H1 as [I1 M1]. split; [exact I1|]. lia.
Qed.

Lemma loop_until_ends {A B : Type} (I : A -> Prop) (Q : B -> Prop) (mu : A -> Z)
    (step : A -> A + B) p a :
  (forall a, I a ->
     match step a with
     | inl a' => I a' /\ 0 <= mu a' < mu a
     | inr b => Q b
     end) ->
  I a -> mu a < Z.pos p ->
  exists b, loop_until p step a = inr b /\ Q b.
Proof.
  intros Hstep Ha Hmu. pose proof (loop_until_variant I Q mu step Hstep p a Ha) as H.
  destruct (loop_until p step a) as [a'|b]; [lia|eauto].
Qed.

Lemma loop_until_never {A B : Type} (I : A -> Prop) (step : A -> A + B) :
  (forall a, I a -> exists a', step a = inl a' /\ I a') ->
  forall p a, I a -> exists a', loop_until p step a = inl a' /\ I a'.
Proof.
  intros Hstep. induction p as [q IH|q IH|]; intros a Ha; cbn [loop_until].
  - destruct (Hstep a Ha) as (a1 & -> & I1).
    destruct (IH a1 I1) as (a2 & -> & I2). exact (IH a2 I2).
  - destruct (IH a Ha) as (a2 & -> & I2). exact (IH a2 I2).
  - exact (Hstep a Ha).
Qed.

(** *** The next composite *)

Lemma mask_is_ones y : 0 <= y -> Z.shiftl 1 y - 1 = Z.ones y.
Proof. intros Hy. rewrite Z.shiftl_1_l, Z.ones_equiv. lia. Qed.

Lemma low_bits W y x :
  0 <= y <= W -> Z.land (x mod 2 ^ W) (Z.shiftl 1 y - 1) = x mod 2 ^ y.
Proof.
  intros Hy. rewrite mask_is_ones, Z.land_ones by lia.
  apply Z.mod_mod_divide.
  exists (2 ^ (W - y)). rewrite <- Z.pow_add_r by lia. f_equal. lia.
Qed.

Lemma odd_coprime_pow2 p y : 0 <= y -> Z.odd p = true -> Z.coprime p (2 ^ y).
Proof.
  intros Hy Hp. apply Z.coprime_pow_r; [exact Hy|].
  unfold Z.coprime. rewrite Z.gcd_comm.
  apply Z.coprime_prime_l; [exact Z.prime_2|].
  intros [q Hq]. rewrite Hq, Z.mul_comm, Z.odd_mul, Z.odd_2 in Hp. discriminate.
Qed.

(** Among the first [2^y] multiples of an odd [p] after [a], one is 1 modulo
    [2^y]. *)
Lemma odd_multiple_hits p y a :
  1 <= y -> Z.odd p = true ->
  exists K, 1 <= K <= 2 ^ y /\ (a + K * p) mod 2 ^ y = 1.
Proof.
  intros Hy Hp.
  assert (Hq : 2 <= 2 ^ y).
  { change 2 with (2 ^ 1) at 1. apply Z.pow_le_mono_r; lia. }
  destruct (Z.Bezout_coprime _ _ (odd_coprime_pow2 p y ltac:(lia) Hp)) as (u & v & Huv).
  set (q := 2 ^ y) in *.
  set (k0 := (u * (1 - a)) mod q).
  assert (Hk0 : 0 <= k0 < q) by (apply Z.mod_pos_bound; lia).
  assert (Hmod : (a + k0 * p) mod q = 1).
  { unfold k0. rewrite Zplus_mod, Zmult_mod, Zmod_mod, <- Zmult_mod, <- Zplus_mod.
    replace (a + u * (1 - a) * p) with (1 + (v * (a - 1)) * q).
    - rewrite Z_mod_plus_full. apply Z.mod_small. lia.
    - replace (u * (1 - a) * p) with ((1 - a) * (u * p)) by ring.
      replace (u * p) with (1 - v * q) by lia. ring. }
  destruct (Z.eq_dec k0 0) as [E0|Hne].
  - exists q. split; [lia|]. rewrite E0, Z.mul_0_l, Z.add_0_r in Hmod.
    now rewrite Z.mul_comm, Z_mod_plus_full.
  - exists k0. split; [lia|exact Hmod].
Qed.

Lemma setup_composite_spec W low y i g :
  32 <= W -> 1 <= y <= 30 -> 0 <= low -> low + 2 ^ (32 + y) <= 2 ^ 64 ->
  0 < prime_table g i < 2 ^ 32 -> Z.odd (prime_table g i) = true ->
  exists m,
    setup_composite W low (Z.shiftl 1 y - 1) i g = Some (set_composite_table i m g) /\
    next_multiple low y (prime_table g i) m.
Proof.
  intros HW Hy Hlow Hfit Hp Hodd. unfold setup_composite. cbv zeta.
  set (p := prime_table g i) in *.
  set (last0 := low / p * p).
  assert (Hl0 : last0 <= low < last0 + p).
  { unfold last0. pose proof (Z.mul_div_le low p ltac:(lia)).
    pose proof (Z.mul_succ_div_gt low p ltac:(lia)). lia. }
  assert (Hl0n : 0 <= last0).
  { unfold last0. apply Z.mul_nonneg_nonneg; [apply Z.div_pos|]; lia. }
  assert (H64 : 2 ^ (32 + y) = 2 ^ 32 * 2 ^ y) by (apply Z.pow_add_r; lia).
  assert (Hq : 0 < 2 ^ y) by (apply Z.pow_pos_nonneg; lia).
  destruct (odd_multiple_hits p y last0 ltac:(lia) Hodd) as (K & HK & HKm).
  assert (Hfit' : forall j, 0 <= j <= K -> 0 <= last0 + j * p < 2 ^ 64).
  { intros j Hj. split; [nia|].
    assert (j * p <= 2 ^ y * p) by (apply Z.mul_le_mono_nonneg_r; lia).
    assert (2 ^ y * p < 2 ^ y * 2 ^ 32) by (apply Z.mul_lt_mono_pos_l; lia).
    lia. }
  assert (E0 : uint64 last0 = last0).
  { apply Z.mod_small. specialize (Hfit' 0). lia. }
  rewrite E0.
  pose (I := fun last => exists j, 0 <= j < K /\ last = last0 + j * p /\
                forall k, 1 <= k <= j -> (last0 + k * p) mod 2 ^ y <> 1).
  pose (Q := fun m => exists j, 0 <= j < K /\ m = last0 + (j + 1) * p /\
                (forall k, 1 <= k <= j -> (last0 + k * p) mod 2 ^ y <> 1) /\
                m mod 2 ^ y = 1).
  destruct (loop_until_ends I Q (fun last => (last0 + K * p - last) / p)
              (next_composite W p (Z.shiftl 1 y - 1)) (2 ^ 64)%positive last0)
    as (m & -> & (j & Hj & -> & Hbefore & Hm)).
  - intros last (j & Hj & -> & Hbefore). unfold next_composite. cbv zeta.
    assert (E1 : uint64 (last0 + j * p + p) = last0 + (j + 1) * p).
    { replace (last0 + j * p + p) with (last0 + (j + 1) * p) by lia.
      apply Z.mod_small. apply Hfit'. lia. }
    rewrite E1, low_bits by lia.
    destruct (Z.eqb_spec ((last0 + (j + 1) * p) mod 2 ^ y) 1) as [Heq|Hne]; cbn [negb].
    + exists j. auto.
    + assert (Hj1 : j + 1 < K).
      { destruct (Z.eq_dec (j + 1) K) as [E|]; [|lia]. rewrite E in Hne. contradiction. }
      split.
      * exists (j + 1). split; [lia|]. split; [reflexivity|].
        intros k Hk. destruct (Z.eq_dec k (j + 1)) as [->|]; [exact Hne|].
        apply Hbefore. lia.
      * replace (last0 + K * p - (last0 + (j + 1) * p)) with ((K - j - 1) * p) by lia.
        replace (last0 + K * p - (last0 + j * p)) with ((K - j) * p) by lia.
        rewrite !Z.div_mul by lia. lia.
  - exists 0. split; [lia|]. split; [lia|]. intros k Hk. lia.
  - replace (last0 + K * p - last0) with (K * p) by lia. rewrite Z.div_mul by lia.
    assert (2 ^ y <= 2 ^ 30) by (apply Z.pow_le_mono_r; lia).
    change (Z.pos (2 ^ 64)) with (2 ^ 64). change (2 ^ 30) with 1073741824 in *.
    change (2 ^ 64) with 18446744073709551616. lia.
  - exists (last0 + (j + 1) * p). split; [reflexivity|].
    split; [nia|]. split; [|split; [exact Hm|]].
    + exists (low / p + (j + 1)). unfold last0. lia.
    + intros m' Hm' [c Hc] Hmod.
      assert (Hc' : m' = last0 + (c - low / p) * p) by (unfold last0; lia).
      set (k := c - low / p) in *.
      assert (Hk : 1 <= k) by nia.
      destruct (Z_le_gt_dec k j) as [Hle|Hgt].
      * exfalso. apply (Hbefore k ltac:(lia)). now rewrite <- Hc'.
      * rewrite Hc'. nia.
Qed.

(** *** The loop over the new primes *)

Lemma set_composite_table_same i m g : composite_table (set_composite_table i m g) i = m.
Proof. cbn. now rewrite Z.eqb_refl. Qed.

Lemma set_composite_table_other i m g k :
  k <> i -> composite_table (set_composite_table i m g) k = composite_table g k.
Proof. intros Hk. cbn. destruct (Z.eqb_spec k i); [contradiction|reflexivity]. Qed.

Lemma for_each_setup_composite W low y k : forall lo g,
  32 <= W -> 1 <= y <= 30 -> 0 <= low -> low + 2 ^ (32 + y) <= 2 ^ 64 ->
  (forall i, lo <= i < lo + Z.of_nat k ->
     0 < prime_table g i < 2 ^ 32 /\ Z.odd (prime_table g i) = true) ->
  exists g',
    for_each k lo (setup_composite W low (Z.shiftl 1 y - 1)) g = Some g' /\
    prime_table g' = prime_table g /\
    primes_in_prime_table g' = primes_in_prime_table g /\
    range_size g' = range_size g /\
    primes_used_in_range g' = primes_used_in_range g /\
    (forall i, lo <= i < lo + Z.of_nat k ->
       next_multiple low y (prime_table g i) (composite_table g' i)) /\
    (forall i, ~ lo <= i < lo + Z.of_nat k -> composite_table g' i = composite_table g i).
Proof.
  induction k as [|k IH]; intros lo g HW Hy Hlow Hfit Hp.
  - exists g. cbn [for_each]. do 5 (split; [reflexivity|]).
    split; intros i Hi; [lia|reflexivity].
  - cbn [for_each].
    destruct (setup_composite_spec W low y lo g HW Hy Hlow Hfit)
      as (m & -> & Hm); [apply Hp; lia..|].
    destruct (IH (lo + 1) (set_composite_table lo m g) HW Hy Hlow Hfit)
      as (g' & -> & E1 & E2 & E3 & E4 & Hin & Hout).
    { intros i Hi. cbn [prime_table set_composite_table]. apply Hp. lia. }
    exists g'. split; [reflexivity|].
    split; [exact E1|]. split; [exact E2|]. split; [exact E3|]. split; [exact E4|].
    split.
    + intros i Hi. destruct (Z.eq_dec i lo) as [->|Hne].
      * rewrite Hout by lia. now rewrite set_composite_table_same.
      * apply Hin. lia.
    + intros i Hi. rewrite Hout by lia. apply set_composite_table_other. lia.
Qed.

(** *** The number of primes in use *)

Lemma more_primes_loop low y g u0 :
  1 <= u0 -> primes_in_prime_table g + PRIMES_USED_STEP <= 2 ^ 32 ->
  (forall i, 0 <= i < primes_in_prime_table g -> 0 < prime_table g i < 2 ^ 32) ->
  let bound := uint64 (low + uint64 (Z.shiftl (range_size g) y)) in
  exists k,
    0 <= k /\
    loop_until (2 ^ 32)%positive (more_primes g low y) u0
    = inr (u0 + PRIMES_USED_STEP * k) /\
    (forall j, 0 <= j < k ->
       u0 + PRIMES_USED_STEP * j < primes_in_prime_table g /\
       prime_table g (u0 + PRIMES_USED_STEP * j - 1)
       * prime_table g (u0 + PRIMES_USED_STEP * j - 1) <= bound) /\
    (primes_in_prime_table g <= u0 + PRIMES_USED_STEP * k \/
     bound < prime_table g (u0 + PRIMES_USED_STEP * k - 1)
             * prime_table g (u0 + PRIMES_USED_STEP * k - 1)).
Proof.
  intros Hu0 Hn Hp bound. unfold PRIMES_USED_STEP in *.
  set (N := primes_in_prime_table g) in *.
  pose (before := fun k => forall j, 0 <= j < k ->
          u0 + 2000 * j < N /\
          prime_table g (u0 + 2000 * j - 1) * prime_table g (u0 + 2000 * j - 1) <= bound).
  pose (I := fun u => exists k, 0 <= k /\ u = u0 + 2000 * k /\ before k).
  pose (Q := fun u => exists k, 0 <= k /\ u = u0 + 2000 * k /\ before k /\
          (N <= u \/ bound < prime_table g (u - 1) * prime_table g (u - 1))).
  destruct (loop_until_ends I Q (fun u => Z.max 0 (N + 2000 - u))
              (more_primes g low y) (2 ^ 32)%positive u0)
    as (u & E & (k & Hk & -> & Hb & Hend)).
  - intros u (k & Hk & -> & Hb). unfold more_primes. fold N.
    destruct (Z.ltb_spec (u0 + 2000 * k) N) as [Hlt|Hge].
    + cbv zeta.
      assert (E1 : uint32 (u0 + 2000 * k - 1) = u0 + 2000 * k - 1).
      { apply Z.mod_small. change (2 ^ 32) with 4294967296 in *. lia. }
      rewrite E1.
      set (p := prime_table g (u0 + 2000 * k - 1)).
      assert (Hpp : 0 < p < 2 ^ 32) by (apply Hp; lia).
      assert (E2 : uint64 (p * p) = p * p).
      { apply Z.mod_small. change (2 ^ 32) with 4294967296 in *.
        change (2 ^ 64) with (4294967296 * 4294967296). nia. }
      rewrite E2. fold bound.
      destruct (Z.gtb_spec (p * p) bound) as [Hgt|Hle].
      * exists k. unfold p in Hgt. auto 6.
      * split.
        -- exists (k + 1). split; [lia|]. split.
           ++ unfold uint32, PRIMES_USED_STEP. rewrite Z.mod_small; [lia|].
              change (2 ^ 32) with 4294967296 in *. lia.
           ++ intros j Hj. destruct (Z.eq_dec j k) as [->|]; [|apply Hb; lia].
              split; [exact Hlt|exact Hle].
        -- unfold uint32, PRIMES_USED_STEP. rewrite Z.mod_small; [lia|].
           change (2 ^ 32) with 4294967296 in *. lia.
    + exists k. split; [exact Hk|]. split; [reflexivity|]. split; [exact Hb|].
      left. lia.
  - exists 0. split; [lia|]. split; [lia|]. intros j Hj. lia.
  - change (Z.pos (2 ^ 32)) with 4294967296. change (2 ^ 32) with 4294967296 in *. lia.
  - exists k. split; [exact Hk|]. split; [exact E|]. split; [exact Hb|exact Hend].
Qed.

(** *** [setup_sieve] *)

Lemma setup_sieve_spec W low y g :
  32 <= W -> 1 <= y <= 30 -> 0 <= low -> low + 2 ^ (32 + y) <= 2 ^ 64 ->
  sieve_ready g ->
  primes_used_in_range g < primes_in_prime_table g ->
  let u0 := if primes_used_in_range g =? 0 then PRIMES_USED_STEP
            else primes_used_in_range g in
  let bound := uint64 (low + uint64 (Z.shiftl (range_size g) y)) in
  exists k g',
    0 <= k /\
    setup_sieve W low y g = Some g' /\
    prime_table g' = prime_table g /\
    primes_in_prime_table g' = primes_in_prime_table g /\
    range_size g' = range_size g /\
    primes_used_in_range g'
    = Z.min (u0 + PRIMES_USED_STEP * k) (primes_in_prime_table g) /\
    (forall j, 0 <= j < k ->
       u0 + PRIMES_USED_STEP * j < primes_in_prime_table g /\
       prime_table g (u0 + PRIMES_USED_STEP * j - 1)
       * prime_table g (u0 + PRIMES_USED_STEP * j - 1) <= bound) /\
    (primes_in_prime_table g <= u0 + PRIMES_USED_STEP * k \/
     bound < prime_table g (u0 + PRIMES_USED_STEP * k - 1)
             * prime_table g (u0 + PRIMES_USED_STEP * k - 1)) /\
    (forall i, primes_used_in_range g <= i < primes_used_in_range g' ->
       next_multiple low y (prime_table g i) (composite_table g' i)) /\
    (forall i, ~ primes_used_in_range g <= i < primes_used_in_range g' ->
       composite_table g' i = composite_table g i).
Proof.
  intros HW Hy Hlow Hfit (Hu & Hn & Hp) Hlt u0 bound.
  assert (Hu0 : 1 <= u0 /\ primes_used_in_range g <= u0).
  { unfold u0, PRIMES_USED_STEP. destruct (Z.eqb_spec (primes_used_in_range g) 0); lia. }
  destruct (more_primes_loop low y g u0 (proj1 Hu0) Hn (fun i Hi => proj1 (Hp i Hi)))
    as (k & Hk & Eloop & Hbefore & Hend).
  fold bound in Hbefore, Hend.
  set (N := primes_in_prime_table g) in *.
  set (used := Z.min (u0 + PRIMES_USED_STEP * k) N).
  assert (Hused : primes_used_in_range g <= used <= N).
  { unfold used, PRIMES_USED_STEP in *. lia. }
  destruct (for_each_setup_composite W low y
              (Z.to_nat (used - primes_used_in_range g)) (primes_used_in_range g)
              (set_primes_used_in_range used g) HW Hy Hlow Hfit)
    as (g' & Efor & E1 & E2 & E3 & E4 & Hin & Hout).
  { intros i Hi. cbn [prime_table set_primes_used_in_range]. apply Hp. fold N. lia. }
  cbn [prime_table primes_in_prime_table range_size primes_used_in_range
       composite_table set_primes_used_in_range] in E1, E2, E3, E4, Hin, Hout.
  exists k, g'. split; [exact Hk|]. split.
  - unfold setup_sieve. cbv zeta. fold N.
    destruct (Z.geb_spec (primes_used_in_range g) N) as [|_]; [lia|].
    fold u0. rewrite Eloop.
    replace (if u0 + PRIMES_USED_STEP * k >? N then N else u0 + PRIMES_USED_STEP * k)
      with used.
    + exact Efor.
    + unfold used. destruct (Z.gtb_spec (u0 + PRIMES_USED_STEP * k) N); lia.
  - split; [exact E1|]. split; [exact E2|]. split; [exact E3|]. split; [exact E4|].
    split; [exact Hbefore|]. split; [exact Hend|]. rewrite E4. split.
    + intros i Hi. apply Hin. lia.
    + intros i Hi. apply Hout. lia.
Qed.

(** X14. [setup_sieve] sets the entry of [composite_table] of every prime it
    takes into use to the next composite of that prime: the least multiple of
    the prime that is greater than [low_end_of_range] and is 1 modulo [2^y]
    (for [y = 1], the least odd multiple above the low end of the block).  It
    leaves the other entries, the table of primes and the size of the blocks
    as they are, and never takes a prime out of use. *)
Theorem setup_sieve_next_composites W low y g :
  32 <= W -> 1 <= y <= 30 -> 0 <= low -> low + 2 ^ (32 + y) <= 2 ^ 64 ->
  sieve_ready g ->
  exists g',
    setup_sieve W low y g = Some g' /\
    prime_table g' = prime_table g /\
    primes_in_prime_table g' = primes_in_prime_table g /\
    range_size g' = range_size g /\
    primes_used_in_range g <= primes_used_in_range g' /\
    (forall i, primes_used_in_range g <= i < primes_used_in_range g' ->
       i < primes_in_prime_table g /\
       next_multiple low y (prime_table g i) (composite_table g' i)) /\
    (forall i, ~ primes_used_in_range g <= i < primes_used_in_range g' ->
       composite_table g' i = composite_table g i).
Proof.
  intros HW Hy Hlow Hfit Hr.
  destruct (Z_lt_le_dec (primes_used_in_range g) (primes_in_prime_table g)) as [Hlt|Hge].
  - destruct (setup_sieve_spec W low y g HW Hy Hlow Hfit Hr Hlt)
      as (k & g' & Hk & E & E1 & E2 & E3 & E4 & _ & _ & Hin & Hout).
    exists g'. split; [exact E|]. split; [exact E1|]. split; [exact E2|].
    split; [exact E3|].
    assert (Hle : primes_used_in_range g <= primes_used_in_range g' <=
                  primes_in_prime_table g).
    { rewrite E4. unfold PRIMES_USED_STEP.
      destruct (Z.eqb_spec (primes_used_in_range g) 0); lia. }
    split; [lia|]. split; [|exact Hout].
    intros i Hi. split; [lia|]. now apply Hin.
  - exists g. unfold setup_sieve. cbv zeta.
    destruct (Z.geb_spec (primes_used_in_range g) (primes_in_prime_table g)); [|lia].
    split; [reflexivity|]. do 3 (split; [reflexivity|]). split; [lia|].
    split; [intros i Hi; lia|reflexivity].
Qed.

(** X15. The number of primes in use after [setup_sieve].  Starting from the
    number in use before (from [PRIMES_USED_STEP] if none was), it grows in
    steps of [PRIMES_USED_STEP] for as long as the square of the last prime in
    use does not exceed the high end of the block,
    [low_end_of_range + (range_size << y)], and is cut at the size of the
    table.  So on return either the whole table is in use, or the square of
    the last prime in use exceeds the high end of the block. *)
Theorem setup_sieve_primes_used W low y g :
  32 <= W -> 1 <= y <= 30 -> 0 <= low -> low + 2 ^ (32 + y) <= 2 ^ 64 ->
  sieve_ready g ->
  primes_used_in_range g < primes_in_prime_table g ->
  let u0 := if primes_used_in_range g =? 0 then PRIMES_USED_STEP
            else primes_used_in_range g in
  let bound := uint64 (low + uint64 (Z.shiftl (range_size g) y)) in
  exists k g',
    0 <= k /\
    setup_sieve W low y g = Some g' /\
    primes_used_in_range g'
    = Z.min (u0 + PRIMES_USED_STEP * k) (primes_in_prime_table g) /\
    (forall j, 0 <= j < k ->
       u0 + PRIMES_USED_STEP * j < primes_in_prime_table g /\
       prime_table g (u0 + PRIMES_USED_STEP * j - 1)
       * prime_table g (u0 + PRIMES_USED_STEP * j - 1) <= bound) /\
    (primes_used_in_range g' = primes_in_prime_table g \/
     bound < prime_table g (primes_used_in_range g' - 1)
             * prime_table g (primes_used_in_range g' - 1)).
Proof.
  intros HW Hy Hlow Hfit Hr Hlt u0 bound.
  destruct (setup_sieve_spec W low y g HW Hy Hlow Hfit Hr Hlt)
    as (k & g' & Hk & E & _ & _ & _ & E4 & Hbefore & Hend & _).
  fold u0 bound in E4, Hbefore, Hend.
  exists k, g'. split; [exact Hk|]. split; [exact E|]. split; [exact E4|].
  split; [exact Hbefore|]. rewrite E4.
  destruct Hend as [Hall|Hsq].
  - left. lia.
  - destruct (Z_le_gt_dec (primes_in_prime_table g) (u0 + PRIMES_USED_STEP * k)).
    + left. lia.
    + right. rewrite Z.min_l by lia. exact Hsq.
Qed.

(** X16. [y = 0] is outside the domain of [setup_sieve]: the mask is then 0,
    no composite is 1 modulo the mask, and the loop that looks for the next
    composite never ends.  Called when no prime is in use yet and the table is
    not empty, [setup_sieve] does not return. *)
Theorem setup_sieve_y_zero W low g :
  sieve_ready g ->
  primes_used_in_range g = 0 -> 0 < primes_in_prime_table g ->
  setup_sieve W low 0 g = None /\
  forall p max_prime last_composite,
    exists last, loop_until p (next_composite W max_prime (Z.shiftl 1 0 - 1))
                   last_composite = inl last.
Proof.
  intros (Hu & Hn & Hp) Hz Hpos.
  assert (Hnever : forall p max_prime last_composite,
            exists last, loop_until p (next_composite W max_prime (Z.shiftl 1 0 - 1))
                           last_composite = inl last).
  { intros p max_prime last_composite.
    destruct (loop_until_never (fun _ : Z => True)
                (next_composite W max_prime (Z.shiftl 1 0 - 1))) with
      (p := p) (a := last_composite) as (last & E & _); [|exact I|eauto].
    intros a _. eexists. split; [|exact I].
    unfold next_composite. cbv zeta. change (Z.shiftl 1 0 - 1) with 0.
    rewrite Z.land_0_r. reflexivity. }
  split; [|exact Hnever].
  destruct (more_primes_loop low 0 g PRIMES_USED_STEP ltac:(unfold PRIMES_USED_STEP; lia)
              Hn (fun i Hi => proj1 (Hp i Hi))) as (k & Hk & Eloop & _).
  unfold setup_sieve. cbv zeta. rewrite Hz.
  destruct (Z.geb_spec 0 (primes_in_prime_table g)) as [|_]; [lia|].
  change (0 =? 0) with true. cbv iota. rewrite Eloop.
  set (used := if PRIMES_USED_STEP + PRIMES_USED_STEP * k >? primes_in_prime_table g
               then primes_in_prime_table g
               else PRIMES_USED_STEP + PRIMES_USED_STEP * k).
  assert (Hused : 0 < used).
  { unfold used, PRIMES_USED_STEP.
    destruct (2000 + 2000 * k >? primes_in_prime_table g); lia. }
  destruct (Z.to_nat (used - 0)) as [|n] eqn:En; [lia|].
  cbn [for_each]. unfold setup_composite. cbv zeta.
  destruct (Hnever (2 ^ 64)%positive
              (prime_table (set_primes_used_in_range used g) 0)
              (uint64 (low / prime_table (set_primes_used_in_range used g) 0
                       * prime_table (set_primes_used_in_range used g) 0)))
    as (last & ->).
  reflexivity.
Qed.

(** ** The marking loop *)

Lemma coprime_divides p d a : Z.coprime p d -> (p | d * a) -> (p | a).
Proof. intros Hc Hd. exact (Z.gauss p d a Hd Hc). Qed.

(** The do-while loop that clears the bits [idx0], [idx0 + prime], ... below
    [range_size]. *)
Lemma clear_multiples_loop W p R idx0 s :
  0 <= W -> 0 < p -> 0 <= idx0 < R -> p + R < 2 ^ W ->
  exists j s',
    1 <= j /\
    loop_until (Z.to_pos (2 ^ W)) (clear_multiples W p R) (idx0, s)
    = inr (idx0 + j * p, s') /\
    idx0 + (j - 1) * p < R <= idx0 + j * p /\
    forall k, s' k = true <->
      s k = true /\ ~ (idx0 <= k < idx0 + j * p /\ (k - idx0) mod p = 0).
Proof.
  intros HW Hp Hidx0 HpR.
  assert (HW0 : 0 < 2 ^ W) by (apply Z.pow_pos_nonneg; lia).
  pose (I := fun st : Z * bitmap =>
    exists j, 0 <= j /\ fst st = idx0 + j * p /\ fst st < R /\
      forall k, snd st k = true <->
        s k = true /\ ~ (idx0 <= k < idx0 + j * p /\ (k - idx0) mod p = 0)).
  pose (Q := fun st : Z * bitmap =>
    exists j, 1 <= j /\ fst st = idx0 + j * p /\ idx0 + (j - 1) * p < R <= fst st /\
      forall k, snd st k = true <->
        s k = true /\ ~ (idx0 <= k < idx0 + j * p /\ (k - idx0) mod p = 0)).
  destruct (loop_until_ends I Q (fun st => R + p - fst st)
              (clear_multiples W p R) (Z.to_pos (2 ^ W)) (idx0, s))
    as ([idx s'] & E & (j & Hj & Ej & Hend & Hs')).
  - intros [idx sv] (j & Hj & Ej & Hlt & Hsv). cbn [fst snd] in *. subst idx.
    unfold clear_multiples. cbn [fst snd].
    rewrite (Z.mod_small (idx0 + j * p + p)) by nia.
    assert (Hbits : forall k,
              clear_bit sv (idx0 + j * p) k = true <->
              s k = true /\
              ~ (idx0 <= k < idx0 + (j + 1) * p /\ (k - idx0) mod p = 0)).
    { intros k. unfold clear_bit. destruct (Z.eqb_spec k (idx0 + j * p)) as [->|Hne].
      - split; [discriminate|]. intros [_ Hn]. exfalso. apply Hn. split; [nia|].
        replace (idx0 + j * p - idx0) with (j * p) by lia. apply Z.mod_mul. lia.
      - rewrite Hsv. split; intros [Hs Hn]; (split; [exact Hs|]);
          intros [Hr Hm]; apply Hn; (split; [|exact Hm]).
        + destruct (Z_lt_le_dec k (idx0 + j * p)); [lia|]. exfalso.
          apply Z.mod_divide in Hm; [|lia]. destruct Hm as [z Hz].
          assert (z < j + 1) by nia. assert (j <= z) by nia.
          apply Hne. assert (z = j) by lia. subst z. lia.
        + nia. }
    destruct (Z.ltb_spec (idx0 + j * p + p) R) as [Hgo|Hstop].
    + split.
      * exists (j + 1). cbn [fst snd]. split; [lia|]. split; [lia|]. split; [lia|].
        exact Hbits.
      * cbn [fst]. lia.
    + exists (j + 1). cbn [fst snd]. split; [lia|]. split; [lia|].
      split; [replace (j + 1 - 1) with j by lia; lia|]. exact Hbits.
  - exists 0. cbn [fst snd]. split; [lia|]. split; [lia|]. split; [lia|].
    intros k. split; [intros Hs; split; [exact Hs|lia]|tauto].
  - cbn [fst]. rewrite Z2Pos.id by lia. lia.
  - cbn [fst snd] in *. subst idx. exists j, s'.
    split; [exact Hj|]. split; [exact E|]. split; [exact Hend|exact Hs'].
Qed.

(** What the loop does to a block of [R] candidates [low + k * 2^y + 1] when it
    starts at the next composite [c] of [p]: it clears the bits of the
    multiples of [p], and stops at the index of the next composite of [p] for
    the next block. *)
Lemma clear_multiples_block W y p R low c s :
  0 <= W -> 1 <= y -> 0 <= low -> low mod 2 ^ y = 0 ->
  0 < p -> Z.odd p = true -> p + R < 2 ^ W ->
  next_multiple low y p c -> c < low + R * 2 ^ y ->
  let idx0 := (c - low) / 2 ^ y in
  0 <= idx0 < R /\
  exists idx s',
    loop_until (Z.to_pos (2 ^ W)) (clear_multiples W p R) (idx0, s) = inr (idx, s') /\
    R <= idx < R + p /\
    next_multiple (low + R * 2 ^ y) y p (low + idx * 2 ^ y + 1) /\
    forall k, s' k = true <->
      s k = true /\ ~ (0 <= k < R /\ (p | low + k * 2 ^ y + 1)).
Proof.
  intros HW Hy Hlow Halign Hp Hodd HpR (Hc1 & Hc2 & Hc3 & Hc4) Hin idx0.
  set (d := 2 ^ y) in *.
  assert (Hd : 2 <= d).
  { unfold d. change 2 with (2 ^ 1) at 1. apply Z.pow_le_mono_r; lia. }
  assert (Hcop : Z.coprime p d) by (apply odd_coprime_pow2; [lia|exact Hodd]).
  assert (Eidx : c = low + idx0 * d + 1).
  { assert (Em : (c - low) mod d = 1).
    { rewrite Zminus_mod, Hc3, Halign, Z.sub_0_r. apply Z.mod_small. lia. }
    unfold idx0. pose proof (Z.div_mod (c - low) d ltac:(lia)). lia. }
  assert (Hidx0 : 0 <= idx0 < R) by nia.
  split; [exact Hidx0|].
  destruct (clear_multiples_loop W p R idx0 s HW Hp Hidx0 HpR)
    as (j & s' & Hj & E & Hend & Hs').
  set (idx := idx0 + j * p) in *.
  assert (Elow : exists l, low = l * d).
  { apply Z.mod_divide in Halign; [exact Halign|lia]. }
  destruct Elow as [l El]. destruct Hc2 as [q Hq].
  assert (Hcand : forall k, low + k * d + 1 = c + d * (k - idx0)) by (intros; lia).
  assert (Hbelow : forall k, 0 <= k -> (p | low + k * d + 1) -> idx0 <= k).
  { intros k Hk Hdiv. destruct (Z_le_gt_dec idx0 k) as [|Hgt]; [assumption|].
    exfalso. assert (c <= low + k * d + 1); [|nia].
    apply Hc4; [nia|exact Hdiv|].
    rewrite El. replace (l * d + k * d + 1) with (1 + (l + k) * d) by lia.
    rewrite Z_mod_plus_full. apply Z.mod_small. lia. }
  assert (Hdivk : forall k, (p | low + k * d + 1) <-> (p | k - idx0)).
  { intros k. rewrite Hcand. split.
    - intros [q' Hq']. apply (coprime_divides p d); [exact Hcop|].
      exists (q' - q). lia.
    - intros [z Hz]. exists (q + d * z). rewrite Hz. lia. }
  exists idx, s'. split; [exact E|]. split; [lia|]. split; [|].
  - split; [nia|]. split; [|split].
    + apply Hdivk. exists j. unfold idx. lia.
    + rewrite El. replace (l * d + idx * d + 1) with (1 + (l + idx) * d) by lia.
      rewrite Z_mod_plus_full. apply Z.mod_small. lia.
    + intros m' Hm' [q' Hq'] Hmod'. fold d in Hmod'.
      assert (Hdm : (d | m' - c)).
      { apply Z.mod_divide; [lia|]. rewrite Zminus_mod, Hmod', Hc3. reflexivity. }
      destruct Hdm as [t' Ht'].
      assert (Hpt : (p | t')).
      { apply (coprime_divides p d); [exact Hcop|]. exists (q' - q). lia. }
      destruct Hpt as [t Ht]. subst t'.
      assert (Em : m' = c + t * p * d) by lia.
      destruct (Z_lt_le_dec t j) as [Hlt|Hge].
      * exfalso. assert (t * p <= (j - 1) * p) by (apply Z.mul_le_mono_nonneg_r; lia).
        assert ((idx0 + t * p) * d <= (R - 1) * d)
          by (apply Z.mul_le_mono_nonneg_r; lia).
        lia.
      * assert (j * p <= t * p) by (apply Z.mul_le_mono_nonneg_r; lia).
        assert ((idx0 + j * p) * d <= (idx0 + t * p) * d)
          by (apply Z.mul_le_mono_nonneg_r; lia).
        unfold idx. lia.
  - intros k. rewrite Hs'. split; intros [Hs Hn]; (split; [exact Hs|]).
    + intros [Hr Hdiv]. apply Hn. split; [|].
      * pose proof (Hbelow k ltac:(lia) Hdiv). lia.
      * apply Z.mod_divide; [lia|]. now apply Hdivk.
    + intros [Hr Hm]. apply Z.mod_divide in Hm; [|lia].
      assert (Hz := Hm). destruct Hz as [z Hz].
      apply Hn. split; [|now apply Hdivk].
      assert (Hz1 : z <= j - 1) by nia.
      assert (z * p <= (j - 1) * p) by (apply Z.mul_le_mono_nonneg_r; lia).
      lia.
Qed.

(** A marking loop whose body does what [marked] says. *)
Lemma for_each_marked (f : Z -> sieve_globals * bitmap -> option (sieve_globals * bitmap))
    y low g0 k : forall lo st,
  prime_table (fst st) = prime_table g0 -> range_size (fst st) = range_size g0 ->
  (forall i st1, lo <= i < lo + Z.of_nat k ->
     prime_table (fst st1) = prime_table g0 -> range_size (fst st1) = range_size g0 ->
     next_multiple low y (prime_table g0 i) (composite_table (fst st1) i) ->
     exists st2, f i st1 = Some st2 /\ marked y low i st1 st2) ->
  (forall i, lo <= i < lo + Z.of_nat k ->
     next_multiple low y (prime_table g0 i) (composite_table (fst st) i)) ->
  exists st',
    for_each k lo f st = Some st' /\
    prime_table (fst st') = prime_table g0 /\
    primes_in_prime_table (fst st') = primes_in_prime_table (fst st) /\
    range_size (fst st') = range_size g0 /\
    primes_used_in_range (fst st') = primes_used_in_range (fst st) /\
    (forall i, ~ lo <= i < lo + Z.of_nat k ->
       composite_table (fst st') i = composite_table (fst st) i) /\
    (forall i, lo <= i < lo + Z.of_nat k ->
       next_multiple (low + range_size g0 * 2 ^ y) y (prime_table g0 i)
         (composite_table (fst st') i)) /\
    forall b, snd st' b = true <->
      snd st b = true /\
      ~ (0 <= b < range_size g0 /\
         exists i, lo <= i < lo + Z.of_nat k /\ (prime_table g0 i | low + b * 2 ^ y + 1)).
Proof.
  induction k as [|k IH]; intros lo st HP HR Hf Hn.
  - exists st. cbn [for_each]. split; [reflexivity|]. split; [exact HP|].
    split; [reflexivity|]. split; [exact HR|]. split; [reflexivity|].
    split; [reflexivity|]. split; [intros i Hi; lia|].
    intros b. split; [intros Hs; split; [exact Hs|]|tauto].
    intros [_ (i & Hi & _)]. lia.
  - cbn [for_each].
    destruct (Hf lo st ltac:(lia) HP HR (Hn lo ltac:(lia)))
      as (st1 & -> & F1 & F2 & F3 & F4 & Fo & Fn & Fb).
    rewrite HP, HR in *.
    destruct (IH (lo + 1) st1) as (st' & -> & G1 & G2 & G3 & G4 & Go & Gn & Gb).
    { congruence. }
    { congruence. }
    { intros i st2 Hi. apply Hf. lia. }
    { intros i Hi. rewrite Fo by lia. apply Hn. lia. }
    exists st'. split; [reflexivity|].
    split; [exact G1|]. split; [congruence|]. split; [exact G3|].
    split; [congruence|]. split; [|split].
    + intros i Hi. rewrite Go by lia. apply Fo. lia.
    + intros i Hi. destruct (Z.eq_dec i lo) as [->|Hne].
      * rewrite Go by lia. exact Fn.
      * apply Gn. lia.
    + intros b. rewrite Gb, Fb. split.
      * intros [[Hs Hn1] Hn2]. split; [exact Hs|].
        intros [Hr (i & Hi & Hd)]. destruct (Z.eq_dec i lo) as [->|Hne].
        -- apply Hn1. auto.
        -- apply Hn2. split; [exact Hr|]. exists i. split; [lia|exact Hd].
      * intros [Hs Hno]. split; [split; [exact Hs|]|].
        -- intros [Hr Hd]. apply Hno. split; [exact Hr|]. exists lo.
           split; [lia|exact Hd].
        -- intros [Hr (i & Hi & Hd)]. apply Hno. split; [exact Hr|].
           exists i. split; [lia|exact Hd].
Qed.

(** [setup_sieve] at the start of a block: it returns, keeps the tables of the
    primes in use, fills in the next composites of the primes it adds, and
    stops adding primes at the end of the table or at a prime whose square is
    above the block. *)
Lemma setup_sieve_block W low y g :
  32 <= W -> 1 <= y <= 30 -> 0 <= low -> low + 2 ^ (32 + y) <= 2 ^ 64 ->
  0 <= range_size g -> low + range_size g * 2 ^ y < 2 ^ 64 ->
  sieve_ready g ->
  primes_used_in_range g <= primes_in_prime_table g ->
  exists g1,
    setup_sieve W low y g = Some g1 /\
    prime_table g1 = prime_table g /\
    primes_in_prime_table g1 = primes_in_prime_table g /\
    range_size g1 = range_size g /\
    primes_used_in_range g <= primes_used_in_range g1 <= primes_in_prime_table g /\
    (primes_used_in_range g1 = primes_in_prime_table g \/
     1 <= primes_used_in_range g1 /\
     low + range_size g * 2 ^ y
     < prime_table g (primes_used_in_range g1 - 1)
       * prime_table g (primes_used_in_range g1 - 1)) /\
    (forall i, primes_used_in_range g <= i < primes_used_in_range g1 ->
       next_multiple low y (prime_table g i) (composite_table g1 i)) /\
    (forall i, ~ primes_used_in_range g <= i < primes_used_in_range g1 ->
       composite_table g1 i = composite_table g i).
Proof.
  intros HW Hy Hlow Hfit HR HfitR Hr HuN.
  assert (Hr' := Hr). destruct Hr' as (Hu & Hn & Hp).
  assert (H2y : 0 < 2 ^ y) by (apply Z.pow_pos_nonneg; lia).
  destruct (Z_lt_le_dec (primes_used_in_range g) (primes_in_prime_table g))
    as [Hlt|Hge].
  - destruct (setup_sieve_spec W low y g HW Hy Hlow Hfit Hr Hlt)
      as (k & g1 & Hk & E & E1 & E2 & E3 & E4 & _ & Hend & Hin & Hout).
    exists g1. split; [exact E|]. split; [exact E1|]. split; [exact E2|].
    split; [exact E3|].
    assert (Hle : primes_used_in_range g <= primes_used_in_range g1 <=
                  primes_in_prime_table g).
    { rewrite E4. unfold PRIMES_USED_STEP.
      destruct (Z.eqb_spec (primes_used_in_range g) 0); lia. }
    split; [exact Hle|]. split; [|split; [exact Hin|exact Hout]].
    assert (Eb : uint64 (low + uint64 (Z.shiftl (range_size g) y))
                 = low + range_size g * 2 ^ y).
    { rewrite Z.shiftl_mul_pow2 by lia. unfold uint64.
      rewrite (Z.mod_small (range_size g * 2 ^ y)) by nia.
      apply Z.mod_small. nia. }
    rewrite Eb in Hend. rewrite E4.
    destruct Hend as [Hall|Hsq]; [left; lia|].
    destruct (Z_le_gt_dec (primes_in_prime_table g)
                ((if primes_used_in_range g =? 0 then PRIMES_USED_STEP
                  else primes_used_in_range g) + PRIMES_USED_STEP * k));
      [left; lia|right]. rewrite Z.min_l by lia. split; [|exact Hsq].
    unfold PRIMES_USED_STEP. destruct (Z.eqb_spec (primes_used_in_range g) 0); lia.
  - exists g. unfold setup_sieve. cbv zeta.
    destruct (Z.geb_spec (primes_used_in_range g) (primes_in_prime_table g)); [|lia].
    split; [reflexivity|]. do 3 (split; [reflexivity|]). split; [lia|].
    split; [left; lia|]. split; [intros i Hi; lia|reflexivity].
Qed.

(** One round of a block loop: [setup_sieve], then a marking loop whose body
    does what [marked] says. *)
Lemma block_marked (f : Z -> sieve_globals * bitmap -> option (sieve_globals * bitmap))
    W low y g s :
  32 <= W -> 1 <= y <= 30 -> 0 <= low -> low + 2 ^ (32 + y) <= 2 ^ 64 ->
  0 <= range_size g -> low + range_size g * 2 ^ y < 2 ^ 64 ->
  sieve_ready g ->
  primes_used_in_range g <= primes_in_prime_table g ->
  (forall i st1, 0 <= i < primes_in_prime_table g ->
     prime_table (fst st1) = prime_table g -> range_size (fst st1) = range_size g ->
     next_multiple low y (prime_table g i) (composite_table (fst st1) i) ->
     exists st2, f i st1 = Some st2 /\ marked y low i st1 st2) ->
  composites_ready_gfn y low g ->
  exists g1 g2 s2,
    setup_sieve W low y g = Some g1 /\
    for_each (Z.to_nat (primes_used_in_range g1)) 0 f (g1, s) = Some (g2, s2) /\
    prime_table g2 = prime_table g /\
    primes_in_prime_table g2 = primes_in_prime_table g /\
    range_size g2 = range_size g /\
    primes_used_in_range g <= primes_used_in_range g2 <= primes_in_prime_table g /\
    composites_ready_gfn y (low + range_size g * 2 ^ y) g2 /\
    (primes_used_in_range g2 = primes_in_prime_table g \/
     1 <= primes_used_in_range g2 /\
     low + range_size g * 2 ^ y
     < prime_table g (primes_used_in_range g2 - 1)
       * prime_table g (primes_used_in_range g2 - 1)) /\
    forall k, s2 k = true <->
      s k = true /\
      ~ (0 <= k < range_size g /\
         exists i, 0 <= i < primes_used_in_range g2 /\
                   (prime_table g i | low + k * 2 ^ y + 1)).
Proof.
  intros HW Hy Hlow Hfit HR HfitR Hr HuN Hf Hready.
  destruct (setup_sieve_block W low y g HW Hy Hlow Hfit HR HfitR Hr HuN)
    as (g1 & E1 & P1 & N1 & R1 & U1 & Suf & Hin & Hout).
  destruct (for_each_marked f y low g (Z.to_nat (primes_used_in_range g1)) 0 (g1, s)
              P1 R1)
    as ([g2 s2] & E2 & F1 & F2 & F3 & F4 & Fo & Fn & Fb).
  { intros i st1 Hi. apply Hf. lia. }
  { intros i Hi. cbn [fst].
    destruct (Z_lt_le_dec i (primes_used_in_range g)) as [Hold|Hnew].
    - rewrite Hout by lia. apply Hready. lia.
    - apply Hin. lia. }
  cbn [fst snd] in *.
  exists g1, g2, s2. split; [exact E1|]. split; [exact E2|].
  split; [exact F1|]. split; [congruence|]. split; [exact F3|].
  split; [rewrite F4; exact U1|]. split; [|split].
  - intros i Hi. rewrite F4 in Hi. rewrite F1. apply Fn. lia.
  - rewrite F4. exact Suf.
  - intros k. rewrite Fb, F4. split; intros [Hs Hno]; (split; [exact Hs|]);
      intros [Hrk (i & Hi & Hd)]; apply Hno; (split; [exact Hrk|]);
      exists i; (split; [lia|exact Hd]).
Qed.

(** *** The survivors are the primes *)

Lemma least_divisor_below c (b : nat) :
  (exists d, 1 < d < Z.of_nat b /\ (d | c) /\ forall n, 1 < n < d -> ~ (n | c)) \/
  (forall n, 1 < n < Z.of_nat b -> ~ (n | c)).
Proof.
  induction b as [|b IH]; [right; intros n Hn; lia|].
  destruct IH as [(d & Hd & Hdiv & Hleast)|Hnone].
  - left. exists d. split; [lia|]. split; assumption.
  - destruct (Z_lt_le_dec 1 (Z.of_nat b)) as [H1|H1]; [|right; intros n Hn; lia].
    destruct (Z.eq_dec (c mod Z.of_nat b) 0) as [Hm|Hm].
    + left. exists (Z.of_nat b). split; [lia|]. split; [|exact Hnone].
      apply Z.mod_divide; [lia|exact Hm].
    + right. intros n Hn. destruct (Z.eq_dec n (Z.of_nat b)) as [->|Hne];
        [|apply Hnone; lia].
      intros Hd. apply Hm. apply Z.mod_divide; [lia|exact Hd].
Qed.

(** A number above 1 is prime, or has a prime factor whose square is at most
    the number. *)
Lemma small_prime_factor c :
  1 < c -> Z.prime c \/ exists q, Z.prime q /\ (q | c) /\ q * q <= c.
Proof.
  intros Hc. destruct (least_divisor_below c (Z.to_nat c))
    as [(d & Hd & Hdiv & Hleast)|Hnone].
  - right. exists d. rewrite Z2Nat.id in Hd by lia.
    split; [|split; [exact Hdiv|]].
    + split; [lia|]. intros n Hn Hnd. apply (Hleast n Hn).
      now apply Z.divide_trans with d.
    + destruct Hdiv as [m Hm].
      assert (Hm1 : 1 < m) by nia.
      destruct (Z_lt_le_dec m d) as [Hlt|Hge]; [|nia].
      exfalso. apply (Hleast m ltac:(lia)). exists d. lia.
  - left. split; [exact Hc|]. intros n Hn. apply Hnone. lia.
Qed.

(** The candidates of a block are odd. *)
Lemma candidate_odd y low k :
  1 <= y -> low mod 2 ^ y = 0 -> Z.odd (low + k * 2 ^ y + 1) = true.
Proof.
  intros Hy Hlow. apply Z.mod_divide in Hlow; [|apply Z.pow_nonzero; lia].
  destruct Hlow as [l ->]. replace y with (Z.succ (y - 1)) by lia.
  rewrite Z.pow_succ_r by lia. apply Z.odd_spec.
  exists (l * 2 ^ (y - 1) + k * 2 ^ (y - 1)). ring.
Qed.

(** An odd number that is above the primes of the table, and not above [B] nor
    above the bound [hi] that ended the choice of the primes in use, is prime
    exactly when no prime in use divides it. *)
Lemma unmarked_prime B g u hi c :
  prime_table_complete B g ->
  0 <= u <= primes_in_prime_table g ->
  (u = primes_in_prime_table g \/
   1 <= u /\ hi < prime_table g (u - 1) * prime_table g (u - 1)) ->
  (forall i, 0 <= i < primes_in_prime_table g -> prime_table g i < c) ->
  Z.odd c = true -> 1 < c -> c <= hi -> c <= B ->
  (~ exists i, 0 <= i < u /\ (prime_table g i | c)) <-> Z.prime c.
Proof.
  intros (Tprime & Tsorted & Tcomplete) Hu Hsuf Tlow Hodd Hc1 Hhi HB. split.
  - intros Hnone.
    destruct (small_prime_factor c Hc1) as [Hc|(q & Hq & Hqc & Hqq)]; [exact Hc|].
    exfalso. apply Hnone.
    assert (Hq2 : q <> 2).
    { intros ->. destruct Hqc as [m Hm]. rewrite Hm, Z.odd_mul in Hodd.
      cbn in Hodd. rewrite andb_false_r in Hodd. discriminate. }
    destruct (Tcomplete q Hq Hq2 ltac:(lia)) as (i & Hi & Ei).
    exists i. split; [|now rewrite Ei].
    destruct Hsuf as [Hall|[H1 Hsq]]; [lia|].
    destruct (Z_lt_le_dec i u) as [|Hge]; [lia|].
    exfalso.
    assert (Hpu : prime_table g (u - 1) <= q).
    { pose proof (Tsorted (u - 1) i ltac:(lia) ltac:(lia)). lia. }
    assert (Hpu0 : 1 < prime_table g (u - 1)) by (apply Tprime; lia).
    assert (prime_table g (u - 1) * prime_table g (u - 1) <= q * q) by nia.
    lia.
  - intros [_ Hc] (i & Hi & Hd).
    apply (Hc (prime_table g i)); [|exact Hd].
    split.
    + apply Tprime. lia.
    + apply Tlow. lia.
Qed.

(** A prime whose next composite is above the block has no multiple among the
    candidates of the block, and keeps its next composite for the next block. *)
Lemma block_untouched y low R p c :
  1 <= y -> low mod 2 ^ y = 0 -> 0 <= R ->
  next_multiple low y p c -> low + R * 2 ^ y <= c ->
  next_multiple (low + R * 2 ^ y) y p c /\
  forall k, 0 <= k < R -> ~ (p | low + k * 2 ^ y + 1).
Proof.
  intros Hy Hlow HR (Hc1 & Hc2 & Hc3 & Hc4) Hout.
  assert (Hd : 2 <= 2 ^ y).
  { change 2 with (2 ^ 1) at 1. apply Z.pow_le_mono_r; lia. }
  apply Z.mod_divide in Hlow; [|lia]. destruct Hlow as [l El].
  assert (Hone : forall k, (low + k * 2 ^ y + 1) mod 2 ^ y = 1).
  { intros k. rewrite El. replace (l * 2 ^ y + k * 2 ^ y + 1) with (1 + (l + k) * 2 ^ y)
      by ring. rewrite Z_mod_plus_full. apply Z.mod_small. lia. }
  split.
  - split; [|split; [exact Hc2|split; [exact Hc3|]]].
    + destruct (Z.eq_dec c (low + R * 2 ^ y)) as [E|]; [|lia]. exfalso.
      rewrite E, El in Hc3. replace (l * 2 ^ y + R * 2 ^ y) with ((l + R) * 2 ^ y) in Hc3
        by ring. rewrite Z.mod_mul in Hc3 by lia. discriminate.
    + intros m' Hm'. apply Hc4. nia.
  - intros k Hk Hdiv.
    assert (Hle : c <= low + k * 2 ^ y + 1) by (apply Hc4; [nia|exact Hdiv|apply Hone]).
    assert ((k + 1) * 2 ^ y <= R * 2 ^ y) by (apply Z.mul_le_mono_nonneg_r; lia).
    lia.
Qed.

(** *** The marking loop of [prime_sieve] *)

Lemma mark_prime_spec W low i st :
  32 <= W <= 64 -> 0 <= low -> low mod 2 = 0 ->
  0 < range_size (fst st) -> 2 * range_size (fst st) < 2 ^ W ->
  0 < prime_table (fst st) i < 2 ^ 32 -> Z.odd (prime_table (fst st) i) = true ->
  prime_table (fst st) i + range_size (fst st) < 2 ^ W ->
  low + 2 * range_size (fst st) + 2 * prime_table (fst st) i < 2 ^ 64 ->
  next_multiple low 1 (prime_table (fst st) i) (composite_table (fst st) i) ->
  exists st', mark_prime W low i st = Some st' /\ marked 1 low i st st'.
Proof.
  destruct st as [g s]. cbn [fst].
  intros HW Hlow Heven HR H2R Hp Hodd HpR Hfit Hc.
  set (p := prime_table g i) in *. set (c := composite_table g i) in *.
  set (R := range_size g) in *.
  assert (H32 : 2 ^ 32 <= 2 ^ W) by (apply Z.pow_le_mono_r; lia).
  assert (H64 : 2 ^ W <= 2 ^ 64) by (apply Z.pow_le_mono_r; lia).
  unfold mark_prime, marked. cbn [fst snd]. fold p c R.
  rewrite (Z.mod_small (2 * R)) by lia.
  assert (Ehi : uint64 (low + 2 * R) = low + 2 * R) by (apply Z.mod_small; lia).
  rewrite Ehi.
  destruct (Z.ltb_spec c (low + 2 * R)) as [Hin|Hout].
  - destruct (clear_multiples_block W 1 p R low c s ltac:(lia) ltac:(lia) Hlow Heven
                ltac:(lia) Hodd HpR Hc ltac:(change (2 ^ 1) with 2; lia))
      as (Hidx0 & idx & s' & E & Hidx & Hnext & Hbits).
    change (2 ^ 1) with 2 in *.
    assert (E1 : uint64 (c - low) = c - low).
    { apply Z.mod_small. destruct Hc as (Hc1 & _). lia. }
    rewrite E1, (Z.mod_small ((c - low) / 2)), (Z.mod_small p), E by lia.
    assert (E64 : uint64 (low + uint64 (2 * idx) + 1) = low + idx * 2 + 1).
    { unfold uint64. rewrite (Z.mod_small (2 * idx)) by lia.
      rewrite Z.mod_small by lia. lia. }
    rewrite E64.
    eexists. split; [reflexivity|]. cbn [fst snd]. do 4 (split; [reflexivity|]).
    split; [intros k Hk; now apply set_composite_table_other|].
    rewrite set_composite_table_same. fold p R. split; [exact Hnext|exact Hbits].
  - exists (g, s). split; [reflexivity|]. cbn [fst snd]. do 4 (split; [reflexivity|]).
    split; [reflexivity|]. fold c p R.
    destruct (block_untouched 1 low R p c ltac:(lia) Heven ltac:(lia) Hc
                ltac:(change (2 ^ 1) with 2; lia)) as [Hnext Hnone].
    split; [exact Hnext|].
    intros k. split; [intros Hs; split; [exact Hs|]|tauto].
    intros [Hr Hd]. exact (Hnone k Hr Hd).
Qed.

(** X17. The marking loop of [prime_sieve] on a block that starts at an even
    [low_end_of_range], when the table of the next composites is up to date
    for it.  A bit of the bitmap survives exactly when it was set and no prime
    in use divides its candidate [low_end_of_range + 2k + 1]; no bit outside
    the [range_size] bits of the block is written; and the table is left up to
    date for the next block, which starts [2 * range_size] higher. *)
Theorem mark_composites_spec W low g s :
  32 <= W <= 64 -> 0 <= low -> low mod 2 = 0 ->
  0 < range_size g -> 2 * range_size g < 2 ^ W ->
  low + 2 * range_size g + 2 ^ 33 <= 2 ^ 64 ->
  (forall i, 0 <= i < primes_used_in_range g ->
     0 < prime_table g i < 2 ^ 32 /\ Z.odd (prime_table g i) = true /\
     prime_table g i + range_size g < 2 ^ W) ->
  composites_ready low g ->
  exists g' s',
    mark_composites W low (g, s) = Some (g', s') /\
    prime_table g' = prime_table g /\
    primes_in_prime_table g' = primes_in_prime_table g /\
    range_size g' = range_size g /\
    primes_used_in_range g' = primes_used_in_range g /\
    composites_ready (low + 2 * range_size g) g' /\
    (forall i, ~ 0 <= i < primes_used_in_range g ->
       composite_table g' i = composite_table g i) /\
    forall k, s' k = true <->
      s k = true /\
      ~ (0 <= k < range_size g /\
         exists i, 0 <= i < primes_used_in_range g /\
                   (prime_table g i | low + 2 * k + 1)).
Proof.
  intros HW Hlow Heven HR H2R Hfit Hp Hready.
  unfold mark_composites. cbn [fst].
  destruct (for_each_marked (mark_prime W low) 1 low g
              (Z.to_nat (primes_used_in_range g)) 0 (g, s) eq_refl eq_refl)
    as ([g' s'] & E & F1 & F2 & F3 & F4 & Fo & Fn & Fb).
  { intros i st1 Hi HP1 HR1 Hn.
    destruct (Hp i ltac:(lia)) as (H1 & H2 & H3).
    apply mark_prime_spec; rewrite ?HP1, ?HR1; try assumption.
    change (2 ^ 33) with (2 * 2 ^ 32) in Hfit. lia. }
  { intros i Hi. apply Hready. lia. }
  cbn [fst snd] in *. change (2 ^ 1) with 2 in *.
  exists g', s'. split; [exact E|].
  split; [exact F1|]. split; [exact F2|]. split; [exact F3|]. split; [exact F4|].
  split; [|split].
  - intros i Hi. rewrite F4 in Hi. rewrite F1.
    replace (low + 2 * range_size g) with (low + range_size g * 2) by lia.
    apply Fn. lia.
  - intros i Hi. apply Fo. lia.
  - intros k. rewrite Fb. replace (low + k * 2 + 1) with (low + 2 * k + 1) by lia.
    split; intros [Hs Hn]; (split; [exact Hs|]);
      intros [Hr (i & Hi & Hd)]; apply Hn; (split; [exact Hr|]);
      exists i; (split; [lia|exact Hd]).
Qed.

(** One round of the block loop: [setup_sieve] with [y = 1], then the marking
    loop. *)
Lemma sieve_block_spec W low g s :
  32 <= W <= 64 -> 0 <= low -> low mod 2 = 0 ->
  0 < range_size g -> 2 * range_size g < 2 ^ W ->
  low + 2 * range_size g + 2 ^ 33 <= 2 ^ 64 ->
  sieve_ready g ->
  primes_used_in_range g <= primes_in_prime_table g ->
  (forall i, 0 <= i < primes_in_prime_table g ->
     prime_table g i + range_size g < 2 ^ W) ->
  composites_ready low g ->
  exists g1 g2 s2,
    setup_sieve W low 1 g = Some g1 /\
    mark_composites W low (g1, s) = Some (g2, s2) /\
    prime_table g2 = prime_table g /\
    primes_in_prime_table g2 = primes_in_prime_table g /\
    range_size g2 = range_size g /\
    primes_used_in_range g <= primes_used_in_range g2 <= primes_in_prime_table g /\
    composites_ready (low + 2 * range_size g) g2 /\
    (primes_used_in_range g2 = primes_in_prime_table g \/
     1 <= primes_used_in_range g2 /\
     low + 2 * range_size g
     < prime_table g (primes_used_in_range g2 - 1)
       * prime_table g (primes_used_in_range g2 - 1)) /\
    forall k, s2 k = true <->
      s k = true /\
      ~ (0 <= k < range_size g /\
         exists i, 0 <= i < primes_used_in_range g2 /\
                   (prime_table g i | low + 2 * k + 1)).
Proof.
  intros HW Hlow Heven HR H2R Hfit Hr HuN HpR Hready.
  assert (Hr' := Hr). destruct Hr' as (_ & _ & Hp).
  assert (Hfit1 : low + 2 ^ (32 + 1) <= 2 ^ 64).
  { change (2 ^ (32 + 1)) with (2 ^ 33). lia. }
  assert (HfitR : low + range_size g * 2 ^ 1 < 2 ^ 64).
  { change (2 ^ 1) with 2. lia. }
  assert (Hf : forall i st1, 0 <= i < primes_in_prime_table g ->
            prime_table (fst st1) = prime_table g ->
            range_size (fst st1) = range_size g ->
            next_multiple low 1 (prime_table g i) (composite_table (fst st1) i) ->
            exists st2, mark_prime W low i st1 = Some st2 /\ marked 1 low i st1 st2).
  { intros i st1 Hi HP1 HR1 Hn. destruct (Hp i Hi) as [H1 H2].
    apply mark_prime_spec; rewrite ?HP1, ?HR1; try assumption.
    - now apply HpR.
    - change (2 ^ 33) with (2 * 2 ^ 32) in Hfit. lia. }
  destruct (block_marked (mark_prime W low) W low 1 g s ltac:(lia) ltac:(lia) Hlow
              Hfit1 ltac:(lia) HfitR Hr HuN Hf Hready)
    as (g1 & g2 & s2 & E1 & E2 & F1 & F2 & F3 & F4 & F5 & F6 & F7).
  change (2 ^ 1) with 2 in *.
  replace (low + range_size g * 2) with (low + 2 * range_size g) in * by lia.
  exists g1, g2, s2. split; [exact E1|]. split; [exact E2|].
  split; [exact F1|]. split; [exact F2|]. split; [exact F3|]. split; [exact F4|].
  split; [exact F5|]. split; [exact F6|].
  intros k. rewrite F7. now replace (low + k * 2 + 1) with (low + 2 * k + 1) by lia.
Qed.

(** X18. One round of the block loop of [prime_sieve]: [setup_sieve] with
    [y = 1], then the marking loop.  If the table of the next composites is up
    to date for the block at [low_end_of_range], the two calls return and
    leave it up to date for the block at [low_end_of_range + 2 * range_size],
    with at least as many primes in use; the bitmap keeps the bits of the
    candidates that no prime in use divides. *)
Theorem sieve_block_invariant W low g s :
  32 <= W <= 64 -> 0 <= low -> low mod 2 = 0 ->
  0 < range_size g -> 2 * range_size g < 2 ^ W ->
  low + 2 * range_size g + 2 ^ 33 <= 2 ^ 64 ->
  sieve_ready g ->
  primes_used_in_range g <= primes_in_prime_table g ->
  (forall i, 0 <= i < primes_in_prime_table g ->
     prime_table g i + range_size g < 2 ^ W) ->
  composites_ready low g ->
  exists g1 g2 s2,
    setup_sieve W low 1 g = Some g1 /\
    mark_composites W low (g1, s) = Some (g2, s2) /\
    prime_table g2 = prime_table g /\
    primes_in_prime_table g2 = primes_in_prime_table g /\
    range_size g2 = range_size g /\
    primes_used_in_range g <= primes_used_in_range g2 <= primes_in_prime_table g /\
    composites_ready (low + 2 * range_size g) g2 /\
    forall k, s2 k = true <->
      s k = true /\
      ~ (0 <= k < range_size g /\
         exists i, 0 <= i < primes_used_in_range g2 /\
                   (prime_table g i | low + 2 * k + 1)).
Proof.
  intros HW Hlow Heven HR H2R Hfit Hr HuN HpR Hready.
  destruct (sieve_block_spec W low g s HW Hlow Heven HR H2R Hfit Hr HuN HpR Hready)
    as (g1 & g2 & s2 & E1 & E2 & F1 & F2 & F3 & F4 & F5 & _ & F6).
  exists g1, g2, s2. auto 10.
Qed.

(** X19. A block of the sieve finds the primes.  Let the table hold the odd
    primes in increasing order, among them every odd prime whose square is at
    most [B], all of them at most the even [low_end_of_range], and let the
    table of the next composites be up to date for the block.  After
    [setup_sieve] and the marking loop on a bitmap with all the bits of the
    block set, the bit [k] of a candidate [low_end_of_range + 2k + 1 <= B] is
    set exactly when the candidate is prime. *)
Theorem sieve_block_primes W low B g s :
  32 <= W <= 64 -> 2 <= low -> low mod 2 = 0 ->
  0 < range_size g -> 2 * range_size g < 2 ^ W ->
  low + 2 * range_size g + 2 ^ 33 <= 2 ^ 64 ->
  sieve_ready g ->
  primes_used_in_range g <= primes_in_prime_table g ->
  (forall i, 0 <= i < primes_in_prime_table g ->
     prime_table g i + range_size g < 2 ^ W) ->
  prime_table_complete B g ->
  (forall i, 0 <= i < primes_in_prime_table g -> prime_table g i <= low) ->
  composites_ready low g ->
  (forall k, 0 <= k < range_size g -> s k = true) ->
  exists g1 g2 s2,
    setup_sieve W low 1 g = Some g1 /\
    mark_composites W low (g1, s) = Some (g2, s2) /\
    forall k, 0 <= k < range_size g -> low + 2 * k + 1 <= B ->
      (s2 k = true <-> Z.prime (low + 2 * k + 1)).
Proof.
  intros HW Hlow Heven HR H2R Hfit Hr HuN HpR Tcomplete Tlow Hready Hones.
  destruct (sieve_block_spec W low g s HW ltac:(lia) Heven HR H2R Hfit Hr HuN HpR Hready)
    as (g1 & g2 & s2 & E1 & E2 & _ & _ & _ & Hused & _ & Hsuf & Hbits).
  exists g1, g2, s2. split; [exact E1|]. split; [exact E2|].
  intros k Hk HB. rewrite Hbits.
  assert (Hr' := Hr). destruct Hr' as (Hu0 & _ & _).
  rewrite <- (unmarked_prime B g (primes_used_in_range g2) (low + 2 * range_size g)
                (low + 2 * k + 1) Tcomplete ltac:(lia) Hsuf).
  - split; [intros [_ Hno] Hex; apply Hno; split; [exact Hk|exact Hex]|].
    intros Hno. split; [now apply Hones|]. intros [_ Hex]. now apply Hno.
  - intros i Hi. pose proof (Tlow i Hi). lia.
  - replace (low + 2 * k + 1) with (low + k * 2 ^ 1 + 1) by (change (2 ^ 1) with 2; lia).
    now apply candidate_odd.
  - lia.
  - lia.
  - exact HB.
Qed.

(** *** The marking loop of [prime_sieve_gfn] *)

Lemma mark_prime_gfn_spec W low y i st :
  32 <= W -> 1 <= y <= 30 -> 0 <= low -> low mod 2 ^ y = 0 ->
  0 < range_size (fst st) ->
  0 < prime_table (fst st) i < 2 ^ 32 -> Z.odd (prime_table (fst st) i) = true ->
  prime_table (fst st) i + range_size (fst st) < 2 ^ W ->
  low + (range_size (fst st) + prime_table (fst st) i) * 2 ^ y < 2 ^ 64 ->
  next_multiple low y (prime_table (fst st) i) (composite_table (fst st) i) ->
  exists st', mark_prime_gfn W low y i st = Some st' /\ marked y low i st st'.
Proof.
  destruct st as [g s]. cbn [fst].
  intros HW Hy Hlow Halign HR Hp Hodd HpR Hfit Hc.
  set (p := prime_table g i) in *. set (c := composite_table g i) in *.
  set (R := range_size g) in *.
  assert (H32 : 2 ^ 32 <= 2 ^ W) by (apply Z.pow_le_mono_r; lia).
  assert (H2y : 0 < 2 ^ y) by (apply Z.pow_pos_nonneg; lia).
  unfold mark_prime_gfn, marked. cbn [fst snd]. fold p c R.
  assert (Ehi : uint64 (low + uint64 (Z.shiftl R y)) = low + R * 2 ^ y).
  { rewrite Z.shiftl_mul_pow2 by lia. unfold uint64.
    rewrite (Z.mod_small (R * 2 ^ y)) by nia. apply Z.mod_small. nia. }
  rewrite Ehi.
  destruct (Z.ltb_spec c (low + R * 2 ^ y)) as [Hin|Hout].
  - destruct (clear_multiples_block W y p R low c s ltac:(lia) ltac:(lia) Hlow Halign
                ltac:(lia) Hodd HpR Hc Hin)
      as (Hidx0 & idx & s' & E & Hidx & Hnext & Hbits).
    assert (E1 : uint64 (c - low) = c - low).
    { apply Z.mod_small. destruct Hc as (Hc1 & _). nia. }
    rewrite E1, Z.shiftr_div_pow2 by lia.
    rewrite (Z.mod_small ((c - low) / 2 ^ y)), (Z.mod_small p), E by lia.
    assert (E64 : uint64 (low + uint64 (Z.shiftl idx y) + 1) = low + idx * 2 ^ y + 1).
    { assert (idx * 2 ^ y < (R + p) * 2 ^ y) by (apply Z.mul_lt_mono_pos_r; lia).
      rewrite Z.shiftl_mul_pow2 by lia. unfold uint64.
      rewrite (Z.mod_small (idx * 2 ^ y)) by nia. apply Z.mod_small. nia. }
    rewrite E64.
    eexists. split; [reflexivity|]. cbn [fst snd]. do 4 (split; [reflexivity|]).
    split; [intros k Hk; now apply set_composite_table_other|].
    rewrite set_composite_table_same. fold p R. split; [exact Hnext|exact Hbits].
  - exists (g, s). split; [reflexivity|]. cbn [fst snd]. do 4 (split; [reflexivity|]).
    split; [reflexivity|]. fold c p R.
    destruct (block_untouched y low R p c ltac:(lia) Halign ltac:(lia) Hc Hout)
      as [Hnext Hnone].
    split; [exact Hnext|].
    intros k. split; [intros Hs; split; [exact Hs|]|tauto].
    intros [Hr Hd]. exact (Hnone k Hr Hd).
Qed.

(** One round of the block loop: [setup_sieve], then the marking loop. *)
Lemma gfn_block_spec W low y g s :
  32 <= W -> 1 <= y <= 30 -> 0 <= low -> low mod 2 ^ y = 0 ->
  0 < range_size g ->
  low + range_size g * 2 ^ y + 2 ^ (32 + y) <= 2 ^ 64 ->
  sieve_ready g ->
  primes_used_in_range g <= primes_in_prime_table g ->
  (forall i, 0 <= i < primes_in_prime_table g ->
     prime_table g i + range_size g < 2 ^ W) ->
  composites_ready_gfn y low g ->
  exists g1 g2 s2,
    setup_sieve W low y g = Some g1 /\
    mark_composites_gfn W low y (g1, s) = Some (g2, s2) /\
    prime_table g2 = prime_table g /\
    primes_in_prime_table g2 = primes_in_prime_table g /\
    range_size g2 = range_size g /\
    primes_used_in_range g <= primes_used_in_range g2 <= primes_in_prime_table g /\
    composites_ready_gfn y (low + range_size g * 2 ^ y) g2 /\
    (primes_used_in_range g2 = primes_in_prime_table g \/
     1 <= primes_used_in_range g2 /\
     low + range_size g * 2 ^ y
     < prime_table g (primes_used_in_range g2 - 1)
       * prime_table g (primes_used_in_range g2 - 1)) /\
    forall k, s2 k = true <->
      s k = true /\
      ~ (0 <= k < range_size g /\
         exists i, 0 <= i < primes_used_in_range g2 /\
                   (prime_table g i | low + k * 2 ^ y + 1)).
Proof.
  intros HW Hy Hlow Halign HR Hfit Hr HuN HpR Hready.
  assert (Hr' := Hr). destruct Hr' as (_ & _ & Hp).
  assert (H2y : 0 < 2 ^ y) by (apply Z.pow_pos_nonneg; lia).
  assert (H32y : 2 ^ (32 + y) = 2 ^ 32 * 2 ^ y) by (apply Z.pow_add_r; lia).
  assert (Hf : forall i st1, 0 <= i < primes_in_prime_table g ->
            prime_table (fst st1) = prime_table g ->
            range_size (fst st1) = range_size g ->
            next_multiple low y (prime_table g i) (composite_table (fst st1) i) ->
            exists st2, mark_prime_gfn W low y i st1 = Some st2 /\
                        marked y low i st1 st2).
  { intros i st1 Hi HP1 HR1 Hn. destruct (Hp i Hi) as [H1 H2].
    apply mark_prime_gfn_spec; rewrite ?HP1, ?HR1; try assumption.
    - now apply HpR.
    - assert (prime_table g i * 2 ^ y < 2 ^ 32 * 2 ^ y)
        by (apply Z.mul_lt_mono_pos_r; lia).
      lia. }
  unfold mark_composites_gfn. cbn [fst].
  apply (block_marked (mark_prime_gfn W low y) W low y g s HW Hy Hlow);
    try assumption; nia.
Qed.

(** X20. One round of the block loop of [prime_sieve_gfn], which sieves the
    candidates [low_end_of_range + (k << y) + 1]: [setup_sieve], then the
    marking loop.  If [low_end_of_range] is a multiple of [2^y] and the table
    of the next composites is up to date for the block, the two calls return
    and leave it up to date for the block that starts [range_size << y]
    higher; a bit of the bitmap survives exactly when it was set and no prime
    in use divides its candidate. *)
Theorem gfn_block_invariant W low y g s :
  32 <= W -> 1 <= y <= 30 -> 0 <= low -> low mod 2 ^ y = 0 ->
  0 < range_size g ->
  low + range_size g * 2 ^ y + 2 ^ (32 + y) <= 2 ^ 64 ->
  sieve_ready g ->
  primes_used_in_range g <= primes_in_prime_table g ->
  (forall i, 0 <= i < primes_in_prime_table g ->
     prime_table g i + range_size g < 2 ^ W) ->
  composites_ready_gfn y low g ->
  exists g1 g2 s2,
    setup_sieve W low y g = Some g1 /\
    mark_composites_gfn W low y (g1, s) = Some (g2, s2) /\
    prime_table g2 = prime_table g /\
    primes_in_prime_table g2 = primes_in_prime_table g /\
    range_size g2 = range_size g /\
    primes_used_in_range g <= primes_used_in_range g2 <= primes_in_prime_table g /\
    composites_ready_gfn y (low + range_size g * 2 ^ y) g2 /\
    forall k, s2 k = true <->
      s k = true /\
      ~ (0 <= k < range_size g /\
         exists i, 0 <= i < primes_used_in_range g2 /\
                   (prime_table g i | low + k * 2 ^ y + 1)).
Proof.
  intros HW Hy Hlow Halign HR Hfit Hr HuN HpR Hready.
  destruct (gfn_block_spec W low y g s HW Hy Hlow Halign HR Hfit Hr HuN HpR Hready)
    as (g1 & g2 & s2 & E1 & E2 & F1 & F2 & F3 & F4 & F5 & _ & F6).
  exists g1, g2, s2. auto 10.
Qed.

(** X21. A block of [prime_sieve_gfn] finds the primes that are 1 modulo
    [2^y].  Let the table hold the odd primes in increasing order, among them
    every odd prime whose square is at most [B], all of them at most
    [low_end_of_range], a positive multiple of [2^y], and let the table of the
    next composites be up to date for the block.  After [setup_sieve] and the
    marking loop on a bitmap with all the bits of the block set, the bit [k]
    of a candidate [low_end_of_range + (k << y) + 1 <= B] is set exactly when
    the candidate is prime. *)
Theorem gfn_block_primes W low y B g s :
  32 <= W -> 1 <= y <= 30 -> 0 < low -> low mod 2 ^ y = 0 ->
  0 < range_size g ->
  low + range_size g * 2 ^ y + 2 ^ (32 + y) <= 2 ^ 64 ->
  sieve_ready g ->
  primes_used_in_range g <= primes_in_prime_table g ->
  (forall i, 0 <= i < primes_in_prime_table g ->
     prime_table g i + range_size g < 2 ^ W) ->
  prime_table_complete B g ->
  (forall i, 0 <= i < primes_in_prime_table g -> prime_table g i <= low) ->
  composites_ready_gfn y low g ->
  (forall k, 0 <= k < range_size g -> s k = true) ->
  exists g1 g2 s2,
    setup_sieve W low y g = Some g1 /\
    mark_composites_gfn W low y (g1, s) = Some (g2, s2) /\
    forall k, 0 <= k < range_size g -> low + k * 2 ^ y + 1 <= B ->
      (s2 k = true <-> Z.prime (low + k * 2 ^ y + 1)).
Proof.
  intros HW Hy Hlow Halign HR Hfit Hr HuN HpR Tcomplete Tlow Hready Hones.
  destruct (gfn_block_spec W low y g s HW Hy ltac:(lia) Halign HR Hfit Hr HuN HpR Hready)
    as (g1 & g2 & s2 & E1 & E2 & _ & _ & _ & Hused & _ & Hsuf & Hbits).
  exists g1, g2, s2. split; [exact E1|]. split; [exact E2|].
  intros k Hk HB. rewrite Hbits.
  assert (Hr' := Hr). destruct Hr' as (Hu0 & _ & _).
  assert (H2y : 0 < 2 ^ y) by (apply Z.pow_pos_nonneg; lia).
  assert (Hk1 : (k + 1) * 2 ^ y <= range_size g * 2 ^ y)
    by (apply Z.mul_le_mono_nonneg_r; lia).
  assert (Hk0 : 0 <= k * 2 ^ y) by (apply Z.mul_nonneg_nonneg; lia).
  rewrite <- (unmarked_prime B g (primes_used_in_range g2) (low + range_size g * 2 ^ y)
                (low + k * 2 ^ y + 1) Tcomplete ltac:(lia) Hsuf).
  - split; [intros [_ Hno] Hex; apply Hno; split; [exact Hk|exact Hex]|].
    intros Hno. split; [now apply Hones|]. intros [_ Hex]. now apply Hno.
  - intros i Hi. pose proof (Tlow i Hi). lia.
  - apply candidate_odd; [lia|exact Halign].
  - lia.
  - lia.
  - exact HB.
Qed.

(** *** The start of the first block of [prime_sieve_gfn] *)

Lemma pow2_double y : 1 <= y -> 2 ^ y = 2 * 2 ^ (y - 1).
Proof.
  intros Hy. rewrite <- Z.pow_succ_r by lia. f_equal. lia.
Qed.

Lemma land_mask_even a y :
  1 <= y -> a mod 2 = 0 -> Z.land a (2 ^ y - 2) = a mod 2 ^ y.
Proof.
  intros Hy Ha. apply Z.mod_divide in Ha; [|lia]. destruct Ha as [b ->].
  replace (2 ^ y - 2) with (Z.ones (y - 1) * 2).
  - assert (Eb : forall x, x * 2 = Z.shiftl x 1).
    { intros x. rewrite Z.shiftl_mul_pow2 by lia. reflexivity. }
    rewrite (Eb b), (Eb (Z.ones (y - 1))), <- Z.shiftl_land, Z.land_ones by lia.
    rewrite <- !Eb, (pow2_double y Hy), (Z.mul_comm b 2), Z.mul_mod_distr_l; lia.
  - rewrite Z.ones_equiv, (pow2_double y Hy). lia.
Qed.

Lemma lor_ones a y : 0 <= y -> Z.lor a (2 ^ y - 1) = a - a mod 2 ^ y + 2 ^ y - 1.
Proof.
  intros Hy. pose proof (Z.add_lor_land a (Z.ones y)) as H.
  rewrite Z.land_ones, Z.ones_equiv in H by lia.
  replace (2 ^ y - 1) with (Z.pred (2 ^ y)) by lia. lia.
Qed.

Lemma multiple_least d a b low :
  0 < d -> b * d < low + d -> low <= a * d -> b * d <= a * d.
Proof.
  intros Hd Hb Ha. destruct (Z_le_gt_dec b a) as [|Hgt].
  - apply Z.mul_le_mono_nonneg_r; lia.
  - assert ((a + 1) * d <= b * d) by (apply Z.mul_le_mono_nonneg_r; lia). lia.
Qed.

Lemma align_low_end_spec W y low :
  32 <= W -> 1 <= y <= 30 -> 0 <= low -> low mod 2 = 0 -> low + 2 ^ y < 2 ^ 64 ->
  align_low_end W y low mod 2 ^ y = 0 /\
  low <= align_low_end W y low < low + 2 ^ y.
Proof.
  intros HW Hy Hlow Heven Hfit.
  assert (H2y : 2 <= 2 ^ y).
  { change 2 with (2 ^ 1) at 1. apply Z.pow_le_mono_r; lia. }
  assert (Hy32 : 2 ^ y < 2 ^ 32) by (apply Z.pow_lt_mono_r; lia).
  assert (H32 : 2 ^ 32 <= 2 ^ W) by (apply Z.pow_le_mono_r; lia).
  assert (Hdiv : (2 ^ y | 2 ^ W)).
  { exists (2 ^ (W - y)). rewrite <- Z.pow_add_r by lia. f_equal. lia. }
  assert (Hdiv2 : (2 | 2 ^ W)).
  { exists (2 ^ (W - 1)). rewrite (pow2_double W) by lia. lia. }
  unfold align_low_end. cbv zeta. rewrite Z.shiftl_1_l.
  unfold uint32, uint64. rewrite (Z.mod_small (2 ^ y - 2)) by lia.
  rewrite (Z.mod_small (2 ^ y - 2) (2 ^ W)) by lia.
  rewrite land_mask_even by (rewrite ?Z.mod_mod_divide by exact Hdiv2; lia).
  rewrite Z.mod_mod_divide by exact Hdiv.
  pose proof (Z.mod_pos_bound low (2 ^ y) ltac:(lia)) as Hm.
  pose proof (Z.mod_le low (2 ^ y) Hlow ltac:(lia)) as Hml.
  destruct (Z.eqb_spec (low mod 2 ^ y) 0) as [E|E]; [split; [exact E|lia]|].
  rewrite (Z.mod_small (2 ^ y - 1)) by lia. rewrite lor_ones by lia.
  rewrite (Z.mod_small _ (2 ^ 64)) by lia.
  split; [|lia].
  rewrite (Z.div_mod low (2 ^ y)) at 1 by lia.
  replace (2 ^ y * (low / 2 ^ y) + low mod 2 ^ y - low mod 2 ^ y + 2 ^ y - 1 + 1)
    with ((low / 2 ^ y + 1) * 2 ^ y) by ring.
  apply Z.mod_mul. lia.
Qed.

(** X22. The move of [low_end_of_range] up to a multiple of [2^y] before the
    first block of [prime_sieve_gfn]: from an even start, the result is the
    least multiple of [2^y] that is not below the start. *)
Theorem align_low_end_least W y low :
  32 <= W -> 1 <= y <= 30 -> 0 <= low -> low mod 2 = 0 -> low + 2 ^ y < 2 ^ 64 ->
  align_low_end W y low mod 2 ^ y = 0 /\
  low <= align_low_end W y low /\
  forall m, m mod 2 ^ y = 0 -> low <= m -> align_low_end W y low <= m.
Proof.
  intros HW Hy Hlow Heven Hfit.
  destruct (align_low_end_spec W y low HW Hy Hlow Heven Hfit) as (Hr & Hle & Hlt).
  split; [exact Hr|]. split; [exact Hle|].
  intros m Hm Hlm.
  assert (H2y : 0 < 2 ^ y) by (apply Z.pow_pos_nonneg; lia).
  apply Z.mod_divide in Hm; [|lia]. apply Z.mod_divide in Hr; [|lia].
  destruct Hm as [a ->]. destruct Hr as [b Hb]. rewrite Hb in *.
  apply (multiple_least (2 ^ y) a b low); lia.
Qed.

(** X23. The first candidate of [prime_sieve_gfn] when [low_prime] is above
    the table of primes: the first block starts at a multiple of [2^y], and
    its first candidate, the start plus one, is the least number that is 1
    modulo [2^y] and not below [low_prime]. *)
Theorem low_end_above_table_first W y low_prime :
  32 <= W -> 1 <= y <= 30 -> 0 <= low_prime -> low_prime + 2 ^ y < 2 ^ 64 ->
  low_end_above_table W y low_prime mod 2 ^ y = 0 /\
  low_prime <= low_end_above_table W y low_prime + 1 /\
  forall m, m mod 2 ^ y = 1 -> low_prime <= m ->
    low_end_above_table W y low_prime + 1 <= m.
Proof.
  intros HW Hy Hlow Hfit.
  assert (H2y : 2 <= 2 ^ y).
  { change 2 with (2 ^ 1) at 1. apply Z.pow_le_mono_r; lia. }
  unfold low_end_above_table.
  assert (Ee : uint64 (Z.lor low_prime 1 - 1) = low_prime - low_prime mod 2).
  { change 1 with (2 ^ 1 - 1) at 1. rewrite lor_ones by lia. change (2 ^ 1) with 2.
    replace (low_prime - low_prime mod 2 + 2 - 1 - 1) with (low_prime - low_prime mod 2)
      by lia.
    apply Z.mod_small. zlia. }
  rewrite Ee. set (e := low_prime - low_prime mod 2).
  assert (He : 0 <= e <= low_prime /\ low_prime <= e + 1 /\ e mod 2 = 0)
    by (unfold e; zlia).
  destruct (align_low_end_spec W y e HW Hy ltac:(lia) ltac:(lia) ltac:(lia))
    as (Hr & Hle & Hlt).
  set (r := align_low_end W y e) in *.
  split; [exact Hr|]. split; [lia|].
  intros m Hm Hlm.
  apply Z.mod_divide in Hr; [|lia]. destruct Hr as [b Hb].
  assert (Hma : exists a, m = a * 2 ^ y + 1).
  { exists (m / 2 ^ y). pose proof (Z.div_mod m (2 ^ y) ltac:(lia)). lia. }
  destruct Hma as [a Ha].
  assert (Hev : exists h, 2 ^ y = 2 * h).
  { exists (2 ^ (y - 1)). apply pow2_double. lia. }
  destruct Hev as [h Hh].
  assert (e <= m - 1).
  { clear Hm. rewrite Ha, Hh in Hlm |- *. unfold e. zlia. }
  rewrite Hb, Ha in *.
  pose proof (multiple_least (2 ^ y) a b e ltac:(lia) ltac:(lia) ltac:(lia)). lia.
Qed.

(** ** The sieve on a concrete table *)

Example setup_sieve_small :
  option_map (fun g => (primes_used_in_range g, map (composite_table g) [0; 1; 2; 3; 4]))
    (setup_sieve 64 100 1 small_sieve)
  = Some (4, [105; 105; 105; 121; 0]).
Proof. vm_compute. reflexivity. Qed.

Example setup_sieve_small_gfn :
  option_map (fun g => map (composite_table g) [0; 1; 2; 3])
    (setup_sieve 64 1000 3 small_sieve)
  = Some [1017; 1025; 1001; 1001].
Proof. vm_compute. reflexivity. Qed.

Lemma small_sieve_ready : sieve_ready small_sieve.
Proof.
  split; [cbn; lia|]. split; [cbn; lia|].
  intros i Hi. cbn in Hi.
  assert (Hc : i = 0 \/ i = 1 \/ i = 2 \/ i = 3) by lia.
  destruct Hc as [-> | [-> | [-> | ->]]];
    (split; [vm_compute; split; reflexivity|reflexivity]).
Defined.

Lemma setup_sieve_next_composites_witness :
  exists g',
    setup_sieve 64 100 1 small_sieve = Some g' /\
    next_multiple 100 1 (prime_table small_sieve 2) (composite_table g' 2).
Proof.
  destruct (setup_sieve_next_composites 64 100 1 small_sieve ltac:(lia) ltac:(lia)
              ltac:(lia) ltac:(cbn; lia) small_sieve_ready)
    as (g' & E & _ & _ & _ & _ & Hin & _).
  exists g'. split; [exact E|]. apply Hin.
  assert (Eu : primes_used_in_range g' = 4).
  { apply (f_equal (option_map primes_used_in_range)) in E.
    vm_compute in E. injection E as E. now symmetry. }
  rewrite Eu. cbn. lia.
Defined.

Lemma setup_sieve_primes_used_witness :
  exists k g',
    0 <= k /\ setup_sieve 64 100 1 small_sieve = Some g' /\
    primes_used_in_range g' = Z.min (PRIMES_USED_STEP + PRIMES_USED_STEP * k) 4.
Proof.
  destruct (setup_sieve_primes_used 64 100 1 small_sieve ltac:(lia) ltac:(lia)
              ltac:(lia) ltac:(cbn; lia) small_sieve_ready ltac:(cbn; lia))
    as (k & g' & Hk & E & Eu & _).
  exists k, g'. split; [exact Hk|]. split; [exact E|exact Eu].
Defined.

Lemma setup_sieve_y_zero_witness : setup_sieve 64 100 0 small_sieve = None.
Proof.
  exact (proj1 (setup_sieve_y_zero 64 100 small_sieve small_sieve_ready eq_refl
                  ltac:(cbn; lia))).
Defined.

(** The block of the 64 odd candidates from 13 to 139: the candidates whose
    bit is set after [setup_sieve] and the marking loop. *)
Example sieve_block_small :
  match setup_sieve 64 12 1 small_sieve with
  | Some g1 =>
      match mark_composites 64 12 (g1, fun _ => true) with
      | Some (g2, sieve) =>
          (filter (fun c => sieve ((c - 12 - 1) / 2))
             (map (fun k => 12 + 2 * Z.of_nat k + 1) (seq 0 64)),
           map (composite_table g2) [0; 1; 2; 3])
      | None => ([], [])
      end
  | None => ([], [])
  end
  = ([13; 17; 19; 23; 29; 31; 37; 41; 43; 47; 53; 59; 61; 67; 71; 73; 79; 83; 89;
      97; 101; 103; 107; 109; 113; 127; 131; 137; 139],
     [141; 145; 147; 143]).
Proof. vm_compute. reflexivity. Qed.

Lemma small_sieve_12_ready : sieve_ready small_sieve_12.
Proof.
  split; [cbn; lia|]. split; [cbn; lia|]. exact (proj2 (proj2 small_sieve_ready)).
Defined.

Lemma small_sieve_12_primes i :
  0 <= i < 4 ->
  0 < prime_table small_sieve_12 i < 2 ^ 32 /\
  Z.odd (prime_table small_sieve_12 i) = true /\
  prime_table small_sieve_12 i + range_size small_sieve_12 < 2 ^ 64.
Proof.
  intros Hi. assert (Hc : i = 0 \/ i = 1 \/ i = 2 \/ i = 3) by lia.
  destruct Hc as [-> | [-> | [-> | ->]]];
    (split; [vm_compute; split; reflexivity|split; [reflexivity|vm_compute; reflexivity]]).
Defined.

Lemma small_sieve_12_composites : composites_ready 12 small_sieve_12.
Proof.
  intros i Hi. cbn in Hi. assert (Hc : i = 0 \/ i = 1 \/ i = 2 \/ i = 3) by lia.
  destruct Hc as [-> | [-> | [-> | ->]]]; unfold next_multiple; cbn;
    (split; [lia|]); (split; [| split; [reflexivity|]]).
  - exists 5. reflexivity.
  - intros m Hm [q Hq] Hodd. zlia.
  - exists 3. reflexivity.
  - intros m Hm [q Hq] Hodd. zlia.
  - exists 3. reflexivity.
  - intros m Hm [q Hq] Hodd. zlia.
  - exists 3. reflexivity.
  - intros m Hm [q Hq] Hodd. zlia.
Defined.

Lemma mark_composites_spec_witness :
  exists g' s',
    mark_composites 64 12 (small_sieve_12, fun _ => true) = Some (g', s') /\
    composites_ready (12 + 2 * range_size small_sieve_12) g'.
Proof.
  destruct (mark_composites_spec 64 12 small_sieve_12 (fun _ => true)
              ltac:(lia) ltac:(lia) ltac:(reflexivity) ltac:(cbn; lia) ltac:(cbn; lia)
              ltac:(cbn; lia) small_sieve_12_primes small_sieve_12_composites)
    as (g' & s' & E & _ & _ & _ & _ & Hr & _).
  exists g', s'. split; [exact E|exact Hr].
Defined.

Lemma small_sieve_composites : composites_ready 12 small_sieve.
Proof. intros i Hi. cbn in Hi. lia. Defined.

Lemma small_sieve_fits i :
  0 <= i < primes_in_prime_table small_sieve ->
  prime_table small_sieve i + range_size small_sieve < 2 ^ 64.
Proof. intros Hi. exact (proj2 (proj2 (small_sieve_12_primes i Hi))). Defined.

Lemma sieve_block_invariant_witness :
  exists g1 g2 s2,
    setup_sieve 64 12 1 small_sieve = Some g1 /\
    mark_composites 64 12 (g1, fun _ => true) = Some (g2, s2) /\
    composites_ready (12 + 2 * range_size small_sieve) g2.
Proof.
  destruct (sieve_block_invariant 64 12 small_sieve (fun _ => true)
              ltac:(lia) ltac:(lia) ltac:(reflexivity) ltac:(cbn; lia) ltac:(cbn; lia)
              ltac:(cbn; lia) small_sieve_ready ltac:(cbn; lia) small_sieve_fits
              small_sieve_composites)
    as (g1 & g2 & s2 & E1 & E2 & _ & _ & _ & _ & Hr & _).
  exists g1, g2, s2. split; [exact E1|]. split; [exact E2|exact Hr].
Defined.

Lemma small_primes_prime q : In q [3; 5; 7; 11] -> Z.prime q.
Proof.
  intros Hq. split; [cbn in Hq; lia|].
  intros n Hn [m Hm]. cbn in Hq.
  assert (Hm0 : 0 < m) by nia.
  destruct Hq as [<- | [<- | [<- | [<- | []]]]];
    assert (Hb : m <= 5) by nia;
    assert (Hc : m = 1 \/ m = 2 \/ m = 3 \/ m = 4 \/ m = 5) by lia;
    destruct Hc as [-> | [-> | [-> | [-> | ->]]]]; lia.
Defined.

Lemma small_sieve_complete : prime_table_complete 168 small_sieve.
Proof.
  split; [|split].
  - intros i Hi. cbn in Hi. apply small_primes_prime.
    assert (Hc : i = 0 \/ i = 1 \/ i = 2 \/ i = 3) by lia.
    destruct Hc as [-> | [-> | [-> | ->]]]; cbn; tauto.
  - intros i j Hi Hj. cbn in Hj.
    assert (Hc : j = 1 \/ j = 2 \/ j = 3) by lia.
    destruct Hc as [-> | [-> | ->]];
      assert (Hd : i = 0 \/ i = 1 \/ i = 2) by lia;
      destruct Hd as [-> | [-> | ->]]; cbn; lia.
  - intros q [Hq1 Hq] Hq2 Hqq.
    assert (Hb : q <= 12) by nia.
    assert (H2 : ~ (2 | q)) by (apply Hq; lia).
    assert (Hc : q = 3 \/ q = 5 \/ q = 7 \/ q = 9 \/ q = 11).
    { destruct (Z.eq_dec (q mod 2) 0) as [E|E];
        [exfalso; apply H2; apply Z.mod_divide; [lia|exact E]|zlia]. }
    destruct Hc as [-> | [-> | [-> | [-> | ->]]]].
    + exists 0. split; [cbn; lia|reflexivity].
    + exists 1. split; [cbn; lia|reflexivity].
    + exists 2. split; [cbn; lia|reflexivity].
    + exfalso. apply (Hq 3); [lia|]. exists 3. reflexivity.
    + exists 3. split; [cbn; lia|reflexivity].
Defined.

Lemma small_sieve_below i :
  0 <= i < primes_in_prime_table small_sieve -> prime_table small_sieve i <= 12.
Proof.
  intros Hi. cbn in Hi. assert (Hc : i = 0 \/ i = 1 \/ i = 2 \/ i = 3) by lia.
  destruct Hc as [-> | [-> | [-> | ->]]]; cbn; lia.
Defined.

Lemma sieve_block_primes_witness :
  exists g1 g2 s2,
    setup_sieve 64 12 1 small_sieve = Some g1 /\
    mark_composites 64 12 (g1, fun _ => true) = Some (g2, s2) /\
    (s2 0 = true <-> Z.prime (12 + 2 * 0 + 1)) /\
    (s2 1 = true <-> Z.prime (12 + 2 * 1 + 1)).
Proof.
  destruct (sieve_block_primes 64 12 168 small_sieve (fun _ => true)
              ltac:(lia) ltac:(lia) ltac:(reflexivity) ltac:(cbn; lia) ltac:(cbn; lia)
              ltac:(cbn; lia) small_sieve_ready ltac:(cbn; lia) small_sieve_fits
              small_sieve_complete small_sieve_below small_sieve_composites
              (fun _ _ => eq_refl))
    as (g1 & g2 & s2 & E1 & E2 & Hp).
  exists g1, g2, s2. split; [exact E1|]. split; [exact E2|]. split.
  - apply Hp; cbn; lia.
  - apply Hp; cbn; lia.
Defined.

(** The block of the candidates 13, 17, ..., 165 that are 1 modulo 4: the
    candidates whose bit is set after [setup_sieve] and the marking loop of
    [prime_sieve_gfn]. *)
Example gfn_block_small :
  match setup_sieve 64 12 2 small_sieve with
  | Some g1 =>
      match mark_composites_gfn 64 12 2 (g1, fun _ => true) with
      | Some (g2, sieve) =>
          (filter (fun c => sieve (Z.shiftr (c - 12) 2))
             (map (fun k => 12 + Z.shiftl (Z.of_nat k) 2 + 1) (seq 0 39)),
           map (composite_table g2) [0; 1; 2; 3])
      | None => ([], [])
      end
  | None => ([], [])
  end
  = ([13; 17; 29; 37; 41; 53; 61; 73; 89; 97; 101; 109; 113; 137; 149; 157],
     [273; 285; 273; 297]).
Proof. vm_compute. reflexivity. Qed.

Example align_low_end_small :
  map (align_low_end 64 4) [16; 18; 30; 32] = [16; 32; 32; 32] /\
  map (low_end_above_table 64 4) [17; 18; 19; 33; 34] = [16; 32; 32; 32; 48].
Proof. vm_compute. split; reflexivity. Qed.

Lemma small_sieve_composites_gfn : composites_ready_gfn 2 12 small_sieve.
Proof. intros i Hi. cbn in Hi. lia. Defined.

Lemma gfn_block_invariant_witness :
  exists g1 g2 s2,
    setup_sieve 64 12 2 small_sieve = Some g1 /\
    mark_composites_gfn 64 12 2 (g1, fun _ => true) = Some (g2, s2) /\
    composites_ready_gfn 2 (12 + range_size small_sieve * 2 ^ 2) g2.
Proof.
  destruct (gfn_block_invariant 64 12 2 small_sieve (fun _ => true)
              ltac:(lia) ltac:(lia) ltac:(lia) ltac:(reflexivity) ltac:(cbn; lia)
              ltac:(cbn; lia) small_sieve_ready ltac:(cbn; lia) small_sieve_fits
              small_sieve_composites_gfn)
    as (g1 & g2 & s2 & E1 & E2 & _ & _ & _ & _ & Hr & _).
  exists g1, g2, s2. split; [exact E1|]. split; [exact E2|exact Hr].
Defined.

Lemma gfn_block_primes_witness :
  exists g1 g2 s2,
    setup_sieve 64 12 2 small_sieve = Some g1 /\
    mark_composites_gfn 64 12 2 (g1, fun _ => true) = Some (g2, s2) /\
    (s2 0 = true <-> Z.prime (12 + 0 * 2 ^ 2 + 1)) /\
    (s2 2 = true <-> Z.prime (12 + 2 * 2 ^ 2 + 1)).
Proof.
  destruct (gfn_block_primes 64 12 2 168 small_sieve (fun _ => true)
              ltac:(lia) ltac:(lia) ltac:(lia) ltac:(reflexivity) ltac:(cbn; lia)
              ltac:(cbn; lia) small_sieve_ready ltac:(cbn; lia) small_sieve_fits
              small_sieve_complete small_sieve_below small_sieve_composites_gfn
              (fun _ _ => eq_refl))
    as (g1 & g2 & s2 & E1 & E2 & Hp).
  exists g1, g2, s2. split; [exact E1|]. split; [exact E2|]. split.
  - apply Hp; cbn; lia.
  - apply Hp; cbn; lia.
Defined.

Lemma align_low_end_least_witness :
  align_low_end 64 4 18 mod 2 ^ 4 = 0 /\ 18 <= align_low_end 64 4 18.
Proof.
  destruct (align_low_end_least 64 4 18 ltac:(lia) ltac:(lia) ltac:(lia)
              ltac:(reflexivity) ltac:(cbn; lia)) as (H1 & H2 & _).
  split; [exact H1|exact H2].
Defined.

Lemma low_end_above_table_first_witness :
  low_end_above_table 64 4 19 mod 2 ^ 4 = 0 /\ 19 <= low_end_above_table 64 4 19 + 1.
Proof.
  destruct (low_end_above_table_first 64 4 19 ltac:(lia) ltac:(lia) ltac:(lia)
              ltac:(cbn; lia)) as (H1 & H2 & _).
  split; [exact H1|exact H2].
Defined.
